(** * CodeCollage: a shallow embedding of the ingestion, clustering and
    pattern-mining core, with the properties its specification states.

    Strings are sequences of code units below 256 (Latin-1); JavaScript
    numbers that only ever hold integers below 2^53 are integers here, and
    the ones that hold quotients are binary64 floats. *)

From Stdlib Require Import List String Ascii ZArith Lia Bool Arith PeanoNat.
From Stdlib Require Import Permutation Sorted Floats Uint63 DecimalString Relations.
From Stdlib Require DecimalPos DecimalZ DecimalFacts.
Import ListNotations.
Open Scope string_scope.
Open Scope nat_scope.
Open Scope list_scope.

Set Implicit Arguments.

(* ================================================================== *)
(** * JavaScript primitives used by the sources *)
(* ================================================================== *)

Module JS.

Definition code (c : ascii) : nat := nat_of_ascii c.

(** Characters with a lower-case partner among the first 256 code points:
    A-Z and the Latin-1 capitals (U+00C0..U+00DE without the sign U+00D7). *)
Definition is_upper (c : ascii) : bool :=
  let n := code c in
  ((65 <=? n) && (n <=? 90)) || ((192 <=? n) && (n <=? 222) && negb (n =? 215)).

Definition lower_char (c : ascii) : ascii :=
  if is_upper c then ascii_of_nat (code c + 32) else c.

(** [String.prototype.toLowerCase]. *)
Fixpoint toLowerCase (s : string) : string :=
  match s with
  | EmptyString => EmptyString
  | String c s' => String (lower_char c) (toLowerCase s')
  end.

(** [s.split(sep)] for a one-character separator: never empty. *)
Fixpoint split (sep : ascii) (s : string) : list string :=
  match s with
  | EmptyString => [EmptyString]
  | String c s' =>
      if Ascii.eqb c sep then EmptyString :: split sep s'
      else match split sep s' with
           | [] => [String c EmptyString]
           | h :: t => String c h :: t
           end
  end.

(** [arr.pop()] read as a value: the last element, [undefined] on []. *)
Definition pop (l : list string) : option string :=
  match l with
  | [] => None
  | _ => Some (last l EmptyString)
  end.

(** [arr.join(sep)]. *)
Definition join (sep : string) (l : list string) : string := String.concat sep l.

(** [arr.slice(i, j)] for 0 <= i <= j. *)
Definition slice {A} (i j : nat) (l : list A) : list A := firstn (j - i) (skipn i l).

(** [arr[n] = v] for an index inside the array. *)
Fixpoint set_nth {A} (n : nat) (v : A) (l : list A) : list A :=
  match l, n with
  | [], _ => []
  | _ :: l', O => v :: l'
  | x :: l', S n' => x :: set_nth n' v l'
  end.

(** The pairs [(arr[i], arr[j])] a loop over [i] with an inner loop over
    [j = i + 1 ..] visits, in its order. *)
Fixpoint pairs {A} (l : list A) : list (A * A) :=
  match l with
  | [] => []
  | x :: l' => map (pair x) l' ++ pairs l'
  end.

(** A number that is an integer or still the [Infinity] it started as. *)
Inductive num : Type :=
| Infinity
| Int (z : Z).

Definition num_eqb (a b : num) : bool :=
  match a, b with
  | Infinity, Infinity => true
  | Int x, Int y => Z.eqb x y
  | _, _ => false
  end.

(** [Math.min(a, h)] for an integer [h]. *)
Definition min (a : num) (h : Z) : num :=
  match a with
  | Infinity => Int h
  | Int z => Int (Z.min z h)
  end.

(** [String(n)] for an integer. *)
Definition showZ (z : Z) : string := NilZero.string_of_int (Z.to_int z).

Definition show (n : num) : string :=
  match n with
  | Infinity => "Infinity"
  | Int z => showZ z
  end.

(** An integer as a binary64 number (exact below 2^53 in size). *)
Definition toFloat (z : Z) : float :=
  if (z <? 0)%Z then PrimFloat.opp (PrimFloat.of_uint63 (Uint63.of_Z (- z)))
  else PrimFloat.of_uint63 (Uint63.of_Z z).

(** [[a, b].sort()]: by code units, [a] first on a tie. *)
Definition sort2 (a b : string) : list string :=
  if String.ltb b a then [b; a] else [a; b].

(** What a call gives: a value, or the exception it throws. *)
Inductive result (A : Type) : Type :=
| Ok (a : A)
| Throw (what : string).
Arguments Ok {A} a.
Arguments Throw {A} what.

(** A loop whose body may throw: the first exception ends it. *)
Fixpoint foldM {S B} (f : S -> B -> result S) (l : list B) (st : S) : result S :=
  match l with
  | [] => Ok st
  | b :: l' =>
      match f st b with
      | Throw e => Throw e
      | Ok st' => foldM f l' st'
      end
  end.

(** What a property read on an object literal can give: an own string
    value, or a member inherited from [Object.prototype] (a function or
    an object, always truthy). *)
Inductive value : Type :=
| VStr (s : string)
| VInherited (member : string).

Definition Object_prototype : list string :=
  [ "constructor"; "__defineGetter__"; "__defineSetter__"; "hasOwnProperty";
    "__lookupGetter__"; "__lookupSetter__"; "isPrototypeOf";
    "propertyIsEnumerable"; "toString"; "valueOf"; "__proto__";
    "toLocaleString" ]%string.

Fixpoint own (o : list (string * string)) (k : string) : option string :=
  match o with
  | [] => None
  | (k', v) :: o' => if String.eqb k' k then Some v else own o' k
  end.

Definition inherited (k : string) : bool :=
  existsb (String.eqb k) Object_prototype.

(** [o[k]]: [None] is [undefined]. *)
Definition get (o : list (string * string)) (k : string) : option value :=
  match own o k with
  | Some v => Some (VStr v)
  | None => if inherited k then Some (VInherited k) else None
  end.

(** [v || d] for a string default [d]. *)
Definition or_else (v : option value) (d : string) : value :=
  match v with
  | None => VStr d
  | Some (VStr EmptyString) => VStr d
  | Some w => w
  end.

End JS.

(* ================================================================== *)
(** * Containers: [Map] and [Set] keep insertion order *)
(* ================================================================== *)

Module JSMap.

Definition t (V : Type) : Type := list (string * V).

Fixpoint get {V} (k : string) (m : t V) : option V :=
  match m with
  | [] => None
  | (k', v) :: m' => if String.eqb k' k then Some v else get k m'
  end.

Definition has {V} (k : string) (m : t V) : bool :=
  match get k m with Some _ => true | None => false end.

(** [m.set(k, v)]: a known key keeps its place, a new one goes last. *)
Fixpoint set {V} (k : string) (v : V) (m : t V) : t V :=
  match m with
  | [] => [(k, v)]
  | (k', v') :: m' =>
      if String.eqb k' k then (k', v) :: m' else (k', v') :: set k v m'
  end.

Definition keys {V} (m : t V) : list string := map fst m.
Definition values {V} (m : t V) : list V := map snd m.

End JSMap.

Module JSSet.

Section Elt.
Variable A : Type.
Variable eqb : A -> A -> bool.

Definition has (x : A) (s : list A) : bool := existsb (eqb x) s.

(** [s.add(x)]. *)
Definition add (x : A) (s : list A) : list A :=
  if has x s then s else s ++ [x].

End Elt.

End JSSet.

Module JSValue.

Definition eqb (v w : JS.value) : bool :=
  match v, w with
  | JS.VStr a, JS.VStr b => String.eqb a b
  | JS.VInherited a, JS.VInherited b => String.eqb a b
  | _, _ => false
  end.

(** [list.includes(v)] for a list of string literals. *)
Definition among (names : list string) (v : JS.value) : bool :=
  match v with
  | JS.VStr s => existsb (String.eqb s) names
  | JS.VInherited _ => false
  end.

End JSValue.

(* ================================================================== *)
(** * Regular-expression passes over text.  A string is read as its list
      of code units (below 256), and each pass is the left-to-right scan
      that [replace] makes with a global pattern. *)
(* ================================================================== *)

Module Text.

Definition t : Type := list ascii.

Definition ofString (s : string) : t := list_ascii_of_string s.
Definition toString (s : t) : string := string_of_list_ascii s.

Definition doubleQuote : ascii := "034"%char.
Definition singleQuote : ascii := "039"%char.
Definition backslash : ascii := "092"%char.
Definition space : ascii := "032"%char.

(** [\s], which is also what [trim] strips. *)
Definition isSpace (c : ascii) : bool :=
  let n := nat_of_ascii c in
  ((9 <=? n) && (n <=? 13)) || (n =? 32) || (n =? 160).

(** The line terminators: what [.] refuses, and what [$] under the flag
    [m] stops in front of. *)
Definition isLineTerminator (c : ascii) : bool :=
  let n := nat_of_ascii c in
  (n =? 10) || (n =? 13).

Fixpoint startsWith (pattern s : t) : bool :=
  match pattern, s with
  | [], _ => true
  | _ :: _, [] => false
  | p :: pattern', c :: s' => Ascii.eqb p c && startsWith pattern' s'
  end.

(** The offset of the first occurrence of [pattern] in [s]. *)
Fixpoint indexOf (pattern s : t) : option nat :=
  match s with
  | [] => if startsWith pattern [] then Some 0 else None
  | _ :: s' =>
      if startsWith pattern s then Some 0
      else option_map S (indexOf pattern s')
  end.

(** [s.replace(/MARKER.*$/gm, '')]: from each marker outside a comment to
    the end of its line, the line terminator staying. *)
Fixpoint removeToLineEnd (marker : t) (inComment : bool) (s : t) : t :=
  match s with
  | [] => []
  | c :: s' =>
      if inComment then
        if isLineTerminator c then c :: removeToLineEnd marker false s'
        else removeToLineEnd marker true s'
      else if startsWith marker s then removeToLineEnd marker true s'
      else c :: removeToLineEnd marker false s'
  end.

(** The length of the match of [/OPENING[\s\S]*?CLOSING/] at the head of
    [s]: up to the first [closing] after the [opening]. *)
Definition blockLength (opening closing s : t) : option nat :=
  if startsWith opening s then
    option_map (fun i => List.length opening + i + List.length closing)
               (indexOf closing (skipn (List.length opening) s))
  else None.

(** [s.replace(/OPENING[\s\S]*?CLOSING/g, '')]; [skip] counts the code
    units of the current match still to be passed over. *)
Fixpoint removeBlocks (opening closing : t) (skip : nat) (s : t) : t :=
  match s with
  | [] => []
  | c :: s' =>
      match skip with
      | S k => removeBlocks opening closing k s'
      | 0 =>
          match blockLength opening closing s with
          | Some (S k) => removeBlocks opening closing k s'
          | _ => c :: removeBlocks opening closing 0 s'
          end
      end
  end.

(** [s.replace(/\s+/g, ' ')]. *)
Fixpoint collapseSpaces (inRun : bool) (s : t) : t :=
  match s with
  | [] => []
  | c :: s' =>
      if isSpace c then
        if inRun then collapseSpaces true s'
        else space :: collapseSpaces true s'
      else c :: collapseSpaces false s'
  end.

Fixpoint trimStart (s : t) : t :=
  match s with
  | [] => []
  | c :: s' => if isSpace c then trimStart s' else s
  end.

Fixpoint trimEnd (s : t) : t :=
  match s with
  | [] => []
  | c :: s' =>
      match trimEnd s' with
      | [] => if isSpace c then [] else [c]
      | r => c :: r
      end
  end.

Definition trim (s : t) : t := trimEnd (trimStart s).

(** The match of [(?:[^q\\]|\\.)*q] at the head of [s]: its length, the
    closing quote counted. *)
Fixpoint closingQuote (q : ascii) (s : t) : option nat :=
  match s with
  | [] => None
  | c :: s' =>
      if Ascii.eqb c q then Some 1
      else if Ascii.eqb c backslash then
        match s' with
        | [] => None
        | d :: s'' =>
            if isLineTerminator d then None
            else option_map (fun n => S (S n)) (closingQuote q s'')
        end
      else option_map S (closingQuote q s')
  end.

(** [s.replace(/q(?:[^q\\]|\\.)*q/g, 'qq')]. *)
Fixpoint replaceQuoted (q : ascii) (skip : nat) (s : t) : t :=
  match s with
  | [] => []
  | c :: s' =>
      match skip with
      | S k => replaceQuoted q k s'
      | 0 =>
          if Ascii.eqb c q then
            match closingQuote q s' with
            | Some n => q :: q :: replaceQuoted q n s'
            | None => c :: replaceQuoted q 0 s'
            end
          else c :: replaceQuoted q 0 s'
      end
  end.

Definition isDigit (c : ascii) : bool :=
  let n := nat_of_ascii c in (48 <=? n) && (n <=? 57).

(** [\w]. *)
Definition isWordChar (c : ascii) : bool :=
  let n := nat_of_ascii c in
  ((65 <=? n) && (n <=? 90)) || ((97 <=? n) && (n <=? 122))
  || isDigit c || (n =? 95).

(** What [[^\w\$\._]] refuses. *)
Definition isTokenChar (c : ascii) : bool :=
  isWordChar c || Ascii.eqb c "$" || Ascii.eqb c "." || Ascii.eqb c "_".

(** [s.split(/[SEPARATORS]+/)]: the pieces between the runs of separators,
    [current] being the piece under way. *)
Fixpoint splitRuns (separator : ascii -> bool) (current : t) (inSeparator : bool)
         (s : t) : list t :=
  match s with
  | [] => [current]
  | c :: s' =>
      if separator c then
        if inSeparator then splitRuns separator current true s'
        else current :: splitRuns separator [] true s'
      else splitRuns separator (current ++ [c]) false s'
  end.

(** [s.split(/[SEPARATORS]/)]: the pieces between the separators. *)
Fixpoint splitEach (separator : ascii -> bool) (current : t) (s : t) : list t :=
  match s with
  | [] => [current]
  | c :: s' =>
      if separator c then current :: splitEach separator [] s'
      else splitEach separator (current ++ [c]) s'
  end.

(** [pieces.join(sep)]. *)
Fixpoint join (sep : t) (pieces : list t) : t :=
  match pieces with
  | [] => []
  | [piece] => piece
  | piece :: rest => piece ++ sep ++ join sep rest
  end.

(** [s.replace(pattern, replacement)] for a global pattern.  [matchAt prev s]
    is the length of the match of the pattern at the head of [s], [prev]
    being the code unit in front of it; [skip] counts the code units of
    the current match still to be passed over. *)
Fixpoint replaceAll (matchAt : option ascii -> t -> option nat) (replacement : t)
         (prev : option ascii) (skip : nat) (s : t) : t :=
  match s with
  | [] => []
  | c :: s' =>
      match skip with
      | S k => replaceAll matchAt replacement (Some c) k s'
      | 0 =>
          match matchAt prev s with
          | Some (S k) => replacement ++ replaceAll matchAt replacement (Some c) k s'
          | _ => c :: replaceAll matchAt replacement (Some c) 0 s'
          end
      end
  end.

(** The length of the match of [.*$] (flag [m]) at the head of [s]. *)
Fixpoint lineLength (s : t) : nat :=
  match s with
  | [] => 0
  | c :: s' => if isLineTerminator c then 0 else S (lineLength s')
  end.

(** The length of the match of [\d*] at the head of [s]. *)
Fixpoint digits (s : t) : nat :=
  match s with
  | [] => 0
  | c :: s' => if isDigit c then S (digits s') else 0
  end.

(** The two sides of [\b]: a word character in front, a word character
    at the head. *)
Definition wordBefore (prev : option ascii) : bool :=
  match prev with
  | Some c => isWordChar c
  | None => false
  end.

Definition wordAt (s : t) : bool :=
  match s with
  | c :: _ => isWordChar c
  | [] => false
  end.

(** [/^\d+$/.test(token)]. *)
Definition allDigits (token : t) : bool :=
  match token with
  | [] => false
  | _ => forallb isDigit token
  end.

End Text.

(* ================================================================== *)
(** * The two tokenizer classes *)
(* ================================================================== *)

(** The part of a file name after its last dot, or all of it when it has
    none: [name.split('.').pop()]. *)
Definition last_segment (filename : string) : option string :=
  JS.pop (JS.split "." filename).

Module Tokenizer.

Definition extensions : list (string * string) :=
  [ ("js", "javascript"); ("ts", "typescript"); ("py", "python");
    ("java", "java"); ("cpp", "cpp"); ("cc", "cpp"); ("c", "c");
    ("rs", "rust"); ("go", "go"); ("php", "php"); ("rb", "ruby");
    ("swift", "swift"); ("kt", "kotlin"); ("scala", "scala");
    ("cs", "csharp"); ("html", "html"); ("css", "css"); ("sql", "sql") ]%string.

(** [detectLanguage(filename, content?)]: the second argument is never read. *)
Definition detectLanguage (filename : string) (content : option string) : JS.value :=
  let ext := option_map JS.toLowerCase (last_segment filename) in
  JS.or_else
    (JS.get extensions (match ext with
                        | None | Some EmptyString => EmptyString
                        | Some e => e
                        end))
    "text".

Definition slashLanguages : list string :=
  [ "javascript"; "typescript"; "java"; "cpp"; "c"; "rust"; "go"; "swift";
    "kotlin"; "scala"; "csharp" ]%string.

(** [removeStringLiterals(content, language)]: the double-quoted literals
    first, then the single-quoted ones. *)
Definition removeStringLiterals (content : Text.t) (language : JS.value) : Text.t :=
  let content :=
    if JSValue.among slashLanguages language then
      Text.replaceQuoted Text.singleQuote 0
        (Text.replaceQuoted Text.doubleQuote 0 content)
    else content in
  if JSValue.among ["python"; "ruby"]%string language then
    Text.replaceQuoted Text.singleQuote 0
      (Text.replaceQuoted Text.doubleQuote 0 content)
  else content.

(** The passes of [normalize] before the string literals go. *)
Definition stripComments (content : Text.t) (language : JS.value) : Text.t :=
  let normalized := content in
  let normalized :=
    if JSValue.among slashLanguages language
    then Text.removeToLineEnd (Text.ofString "//") false normalized
    else normalized in
  let normalized :=
    if JSValue.among ["python"; "ruby"]%string language
    then Text.removeToLineEnd (Text.ofString "#") false normalized
    else normalized in
  let normalized :=
    if JSValue.among ["sql"]%string language
    then Text.removeToLineEnd (Text.ofString "--") false normalized
    else normalized in
  let normalized :=
    if JSValue.among (slashLanguages ++ ["css"]%string) language
    then Text.removeBlocks (Text.ofString "/*") (Text.ofString "*/") 0 normalized
    else normalized in
  if JSValue.among ["html"]%string language
  then Text.removeBlocks (Text.ofString "<!--") (Text.ofString "-->") 0 normalized
  else normalized.

Definition normalizeText (content : Text.t) (language : JS.value) : Text.t :=
  let normalized := stripComments content language in
  let normalized := Text.trim (Text.collapseSpaces false normalized) in
  removeStringLiterals normalized language.

(** [normalize(content, language)]. *)
Definition normalize (content : string) (language : JS.value) : string :=
  Text.toString (normalizeText (Text.ofString content) language).

(** [extractTokens(content, language)]; the patterns looked up for the
    language are not used. *)
Definition extractTokens (content : string) (language : JS.value) : list string :=
  let rawTokens :=
    filter (fun token => 0 <? List.length token)
           (Text.splitRuns (fun c => negb (Text.isTokenChar c)) [] false
                           (Text.ofString content)) in
  map (fun token => JS.toLowerCase (Text.toString token))
      (filter (fun token => negb (List.length token <? 2)
                            && negb (Text.allDigits token))
              rawTokens).

(** [tokenize(content, language)]. *)
Definition tokenize (content : string) (language : JS.value) : list string :=
  extractTokens (normalize content language) language.

End Tokenizer.

Module CodeTokenizer.

Definition langMap : list (string * string) :=
  [ ("js", "javascript"); ("jsx", "javascript"); ("ts", "typescript");
    ("tsx", "typescript"); ("py", "python"); ("java", "java"); ("cpp", "cpp");
    ("c", "c"); ("go", "go"); ("rs", "rust"); ("rb", "ruby"); ("php", "php");
    ("cs", "csharp"); ("swift", "swift"); ("kt", "kotlin") ]%string.

Definition detectLanguage (filepath : string) : JS.value :=
  let ext := match last_segment (JS.toLowerCase filepath) with
             | None | Some EmptyString => EmptyString
             | Some e => e
             end in
  JS.or_else (JS.get langMap ext) "unknown".

(** [COMMENTS = /\/\/.*$|\/\*[\s\S]*?\*\/|#.*$/gm]. *)
Definition COMMENTS (prev : option ascii) (s : Text.t) : option nat :=
  if Text.startsWith (Text.ofString "//") s
  then Some (2 + Text.lineLength (skipn 2 s))
  else
    match Text.blockLength (Text.ofString "/*") (Text.ofString "*/") s with
    | Some n => Some n
    | None =>
        if Text.startsWith (Text.ofString "#") s
        then Some (1 + Text.lineLength (skipn 1 s))
        else None
    end.

Definition backtick : ascii := "096"%char.

Definition isQuote (c : ascii) : bool :=
  Ascii.eqb c Text.doubleQuote || Ascii.eqb c Text.singleQuote || Ascii.eqb c backtick.

(** [STRINGS]: from a double quote, a single quote or a backtick to the
    next one of its kind, whatever stands between them. *)
Definition STRINGS (prev : option ascii) (s : Text.t) : option nat :=
  match s with
  | [] => None
  | q :: s' =>
      if isQuote q then option_map (fun i => i + 2) (Text.indexOf [q] s')
      else None
  end.

(** [NUMBERS = /\b\d+\.?\d*\b/g].  The digits have to begin a word.  With
    a point after them, the match takes the point and the decimals when
    no word goes on behind these, stops behind the point when one does,
    and stops in front of a point that nothing follows; without a point
    there is a match only if the word ends with the digits. *)
Definition NUMBERS (prev : option ascii) (s : Text.t) : option nat :=
  if Text.wordBefore prev then None
  else
    let whole := Text.digits s in
    match whole, skipn whole s with
    | 0, _ => None
    | _, [] => Some whole
    | _, c :: fraction =>
        if Ascii.eqb c "." then
          let decimals := Text.digits fraction in
          if Text.wordAt (skipn decimals fraction) then Some (whole + 1)
          else if decimals =? 0 then Some whole
          else Some (whole + 1 + decimals)
        else if Text.isWordChar c then None
        else Some whole
    end.

(** [/\bW1\b|\bW2\b|.../g] for words [W1], [W2], ... *)
Fixpoint wholeWord (words : list Text.t) (prev : option ascii) (s : Text.t)
  : option nat :=
  match words with
  | [] => None
  | word :: rest =>
      if negb (Text.wordBefore prev) && Text.startsWith word s
         && negb (Text.wordAt (skipn (List.length word) s))
      then Some (List.length word)
      else wholeWord rest prev s
  end.

(** [code.replace(pattern, replacement)]. *)
Definition replace (pattern : option ascii -> Text.t -> option nat)
           (replacement : string) (code : Text.t) : Text.t :=
  Text.replaceAll pattern (Text.ofString replacement) None 0 code.

Definition words (l : list string) := wholeWord (map Text.ofString l).

Definition normalizeJavaScript (code : Text.t) : Text.t :=
  replace (words ["await"]) "AWAIT"
    (replace (words ["async"]) "ASYNC"
       (replace (words ["class"]) "CLASS"
          (replace (words ["function"]) "FUNC"
             (replace (words ["const"; "let"; "var"]) "VAR" code)))).

Definition normalizePython (code : Text.t) : Text.t :=
  replace (words ["lambda"]) "LAMBDA"
    (replace (words ["await"]) "AWAIT"
       (replace (words ["async"]) "ASYNC"
          (replace (words ["class"]) "CLASS"
             (replace (words ["def"]) "FUNC" code)))).

Definition normalizeText (code : Text.t) (language : JS.value) : Text.t :=
  let normalized :=
    Text.trim
      (Text.collapseSpaces false
         (replace NUMBERS "NUM" (replace STRINGS "STR" (replace COMMENTS "" code)))) in
  if JSValue.eqb language (JS.VStr "javascript")
     || JSValue.eqb language (JS.VStr "typescript")
  then normalizeJavaScript normalized
  else if JSValue.eqb language (JS.VStr "python")
  then normalizePython normalized
  else normalized.

(** [normalize(code, language)]. *)
Definition normalize (code : string) (language : JS.value) : string :=
  Text.toString (normalizeText (Text.ofString code) language).

(** [OPERATORS = /[+\-*/%=<>!&|^~?:;,.\[\]{}()]/g]. *)
Definition isOperator (c : ascii) : bool :=
  existsb (Ascii.eqb c) (Text.ofString "+-*/%=<>!&|^~?:;,.[]{}()").

(** [tokenize(code, language)]; no token holds white space, so the filter
    on [token.trim()] leaves out the empty ones. *)
Definition tokenize (code : string) (language : JS.value) : list string :=
  let normalized :=
    replace NUMBERS "NUMBER"
      (replace STRINGS "STRING" (replace COMMENTS " " (Text.ofString code))) in
  let tokens :=
    Text.splitRuns Text.isSpace [] false
      (Text.join [Text.space] (Text.splitEach isOperator [] normalized)) in
  map (fun token => JS.toLowerCase (Text.toString token))
      (filter (fun token => 0 <? List.length (Text.trim token)) tokens).

(** [extractNGrams(tokens, n)]: the windows of [n] tokens at
    [i = 0 .. tokens.length - n], each joined by a space. *)
Definition extractNGrams (tokens : list string) (n : nat) : list string :=
  map (fun i => JS.join " " (JS.slice i (i + n) tokens))
      (seq 0 (S (List.length tokens) - n)).

End CodeTokenizer.

(** The extension both detectors look up: the last segment, lower-cased. *)
Definition extension (filename : string) : string :=
  JS.toLowerCase (last (JS.split "." filename) EmptyString).

(* ================================================================== *)
(** * Records of the library ([CodeCollage], [Clusterer], [MinHashLSH],
      [PatternExtractor]).  Identifiers and timestamps drawn from the
      clock and [Math.random] are left out of the records built here. *)
(* ================================================================== *)

Module CodeSnippet.
Record t : Type := make {
  id : string;
  content : string;
  language : JS.value;
  filename : string;
  hash : string;
  minHashes : list Z;
  tokens : list string;
  patterns : list string;
  clusterId : option string
}.
End CodeSnippet.

Module Pattern.
Inductive kind : Type := ngram | lcs | ast.
Record t : Type := make {
  type : kind;
  content : string;
  frequency : nat;
  snippets : list string;
  languages : list JS.value
}.
End Pattern.

(* ================================================================== *)
(** * Pattern extraction *)
(* ================================================================== *)

Module PatternExtractor.

(** One entry of [ngramCounts] and of [structureCounts]. *)
Record entry : Type := mkEntry {
  count : nat;
  snippets : list string;
  languages : list JS.value
}.

(** The body of both counting loops: create the entry when the key is new,
    then [count++], [snippets.add(id)], [languages.add(language)]. *)
Definition tally (key : string) (snippet : CodeSnippet.t) (m : JSMap.t entry) : JSMap.t entry :=
  let m1 := if JSMap.has key m then m else JSMap.set key (mkEntry 0 [] []) m in
  match JSMap.get key m1 with
  | Some e =>
      JSMap.set key
        (mkEntry (S (count e))
                 (JSSet.add String.eqb (CodeSnippet.id snippet) (snippets e))
                 (JSSet.add JSValue.eqb (CodeSnippet.language snippet) (languages e)))
        m1
  | None => m1
  end.

(** The final loop of both: one pattern per entry seen at least twice. *)
Definition emit (k : Pattern.kind) (m : JSMap.t entry) : list Pattern.t :=
  flat_map (fun kd : string * entry =>
              let (content, data) := kd in
              if 2 <=? count data
              then [Pattern.make k content (count data) (snippets data) (languages data)]
              else [])
           m.

(** [generateNGrams(tokens, n)]: windows at [i = 0 .. tokens.length - n]. *)
Definition generateNGrams (tokens : list string) (n : nat) : list (list string) :=
  map (fun i => JS.slice i (i + n) tokens) (seq 0 (S (List.length tokens) - n)).

Definition ngramKeys (n : nat) (snippet : CodeSnippet.t) : list string :=
  map (JS.join " ") (generateNGrams (CodeSnippet.tokens snippet) n).

Definition countKeys (keysOf : CodeSnippet.t -> list string)
           (snippets : list CodeSnippet.t) : JSMap.t entry :=
  fold_left
    (fun m snippet => fold_left (fun m key => tally key snippet m) (keysOf snippet) m)
    snippets [].

Definition extractNGramPatterns (ngramSize : nat) (snippets : list CodeSnippet.t) : list Pattern.t :=
  emit Pattern.ngram (countKeys (ngramKeys ngramSize) snippets).

(** *** Longest common subsequence *)

Definition table : Type := list (list nat).

Definition cell (dp : table) (i j : nat) : nat := nth j (nth i dp []) 0.

Definition set_cell (dp : table) (i j v : nat) : table :=
  JS.set_nth i (JS.set_nth j v (nth i dp [])) dp.

Section LCS.
Variables tokens1 tokens2 : list string.

Definition at1 (i : nat) : string := nth (i - 1) tokens1 EmptyString.
Definition at2 (j : nat) : string := nth (j - 1) tokens2 EmptyString.

(** The body of the inner loop of the table construction. *)
Definition fill (dp : table) (i j : nat) : table :=
  if String.eqb (at1 i) (at2 j)
  then set_cell dp i j (cell dp (i - 1) (j - 1) + 1)
  else set_cell dp i j (Nat.max (cell dp (i - 1) j) (cell dp i (j - 1))).

Definition build : table :=
  let m := List.length tokens1 in
  let n := List.length tokens2 in
  fold_left (fun dp i => fold_left (fun dp j => fill dp i j) (seq 1 n) dp)
            (seq 1 m)
            (repeat (repeat 0 (n + 1)) (m + 1)).

(** The backtracking loop; each turn lowers [i + j], so [i + j] turns of
    fuel are never used up. *)
Fixpoint backtrack (dp : table) (fuel i j : nat) (lcs : list string) : list string :=
  match fuel with
  | O => lcs
  | S fuel' =>
      if (0 <? i) && (0 <? j) then
        if String.eqb (at1 i) (at2 j) then
          backtrack dp fuel' (i - 1) (j - 1) (at1 i :: lcs)
        else if cell dp i (j - 1) <? cell dp (i - 1) j then
          backtrack dp fuel' (i - 1) j lcs
        else
          backtrack dp fuel' i (j - 1) lcs
      else lcs
  end.

Definition findLCS : list string :=
  let m := List.length tokens1 in
  let n := List.length tokens2 in
  backtrack build (m + n) m n [].

End LCS.

Definition lcsStep (st : list string * list Pattern.t) (pr : CodeSnippet.t * CodeSnippet.t)
  : list string * list Pattern.t :=
  let (processed, patterns) := st in
  let (snippet1, snippet2) := pr in
  let pairKey := (CodeSnippet.id snippet1 ++ "-" ++ CodeSnippet.id snippet2)%string in
  if JSSet.has String.eqb pairKey processed then st
  else
    let processed' := JSSet.add String.eqb pairKey processed in
    let lcs := findLCS (CodeSnippet.tokens snippet1) (CodeSnippet.tokens snippet2) in
    if 3 <=? List.length lcs then
      (processed',
       patterns ++ [Pattern.make Pattern.lcs (JS.join " " lcs) 2
                      [CodeSnippet.id snippet1; CodeSnippet.id snippet2]
                      [CodeSnippet.language snippet1; CodeSnippet.language snippet2]])
    else (processed', patterns).

Definition extractLCSPatterns (snippets : list CodeSnippet.t) : list Pattern.t :=
  snd (fold_left lcsStep (JS.pairs snippets) ([], [])).

(** *** Ranking: [Array.prototype.sort] is stable *)

Definition compare (a b : Pattern.t) : Z :=
  if negb (Pattern.frequency a =? Pattern.frequency b) then
    Z.of_nat (Pattern.frequency b) - Z.of_nat (Pattern.frequency a)
  else
    let aLanguages := List.length (Pattern.languages a) in
    let bLanguages := List.length (Pattern.languages b) in
    if negb (aLanguages =? bLanguages) then Z.of_nat bLanguages - Z.of_nat aLanguages
    else Z.of_nat (List.length (Pattern.snippets b)) - Z.of_nat (List.length (Pattern.snippets a)).

Fixpoint insert (p : Pattern.t) (l : list Pattern.t) : list Pattern.t :=
  match l with
  | [] => [p]
  | q :: l' => if (compare p q <=? 0)%Z then p :: l else q :: insert p l'
  end.

Definition rankPatterns (patterns : list Pattern.t) : list Pattern.t :=
  fold_right insert [] patterns.

Section Extract.
(** The structural tier reads its canonical forms off the content with a
    suite of regular expressions; the counting below is indifferent to what
    they return. *)
Variable extractStructuralPatterns : string -> JS.value -> list string.
Variable ngramSize : nat.

Definition structureKeys (snippet : CodeSnippet.t) : list string :=
  extractStructuralPatterns (CodeSnippet.content snippet) (CodeSnippet.language snippet).

Definition extractASTPatterns (snippets : list CodeSnippet.t) : list Pattern.t :=
  emit Pattern.ast (countKeys structureKeys snippets).

Definition extractPatterns (snippets : list CodeSnippet.t) : list Pattern.t :=
  rankPatterns (extractNGramPatterns ngramSize snippets
                ++ extractLCSPatterns snippets
                ++ extractASTPatterns snippets).

End Extract.

End PatternExtractor.

(* ================================================================== *)
(** * Records of the command-line tree ([MinHashClusterer], the JSONL
      store, the commands) *)
(* ================================================================== *)

Module Cli.

Module CodeSnippet.
Record t : Type := make {
  id : string;
  content : string;
  language : JS.value;
  filepath : string;
  lineStart : nat;
  lineEnd : nat;
  hash : string;
  tokens : list string;
  normalized : string
}.
End CodeSnippet.

Module MinHashSignature.
Record t : Type := make {
  signature : list JS.num;
  bands : list (list JS.num);
  snippetId : string
}.
End MinHashSignature.

Module ClusteringConfig.
Record t : Type := make {
  minhashBands : nat;
  minhashRows : nat;
  similarityThreshold : float;
  minClusterSize : nat
}.
End ClusteringConfig.

Module CodeCluster.
(** [centroid] is [None] where the source would store [undefined];
    [patterns] is always the empty list and is left out. *)
Record t : Type := make {
  id : string;
  snippets : list string;
  centroid : option string;
  size : nat;
  similarity : float
}.
End CodeCluster.

Module Pattern.
Record t : Type := make {
  type : Pattern.kind;
  content : string;
  frequency : nat;
  snippets : list string;
  confidence : float
}.
End Pattern.

End Cli.

(* ================================================================== *)
(** * The MinHash hash family (the same in both MinHash classes) *)
(* ================================================================== *)

Module HashFamily.

Definition p : Z := 2147483647.

Definition charCode (c : ascii) : Z := Z.of_nat (nat_of_ascii c).

(** The loop [hash = ((hash * 31) + x.charCodeAt(j)) % p]. *)
Fixpoint roll (hash : Z) (x : string) : Z :=
  match x with
  | EmptyString => hash
  | String c x' => roll ((hash * 31 + charCode c) mod p) x'
  end.

Section Draws.
(** [random k] is the value of the [k]-th [Math.floor(Math.random() *
    1000000)] of the constructor; only its residue below 1000000 counts. *)
Variable random : nat -> Z.

Definition draw (k : nat) : Z := (random k mod 1000000)%Z.

(** The [i]-th function pushed by [generateHashFunctions]. *)
Definition hashFunction (i : nat) (x : string) : Z :=
  let a := (draw (2 * i) + 1)%Z in
  let b := draw (2 * i + 1) in
  ((a * roll 0 x + b) mod p)%Z.

Definition generateHashFunctions (count : nat) : list (string -> Z) :=
  map hashFunction (seq 0 count).

End Draws.

End HashFamily.

(* ================================================================== *)
(** * [MinHashClusterer] *)
(* ================================================================== *)

Module MinHashClusterer.

Import Cli.

Section Instance.
Variable config : ClusteringConfig.t.
Variable random : nat -> Z.
(** [CodeTokenizer.tokenize]. *)
Variable tokenize : string -> JS.value -> list string.

Definition hashFunctions : list (string -> Z) :=
  HashFamily.generateHashFunctions random
    (ClusteringConfig.minhashBands config * ClusteringConfig.minhashRows config).

Definition generateShingles (tokens : list string) (size : nat) : list string :=
  map (fun i => JS.join " " (JS.slice i (i + size) tokens))
      (seq 0 (S (List.length tokens) - size)).

(** The two nested loops over the shingles and the hash functions. *)
Definition minima (shingles : list string) : list JS.num :=
  fold_left
    (fun signature shingle =>
       fold_left
         (fun signature i =>
            let hash := nth i hashFunctions (fun _ => 0%Z) shingle in
            JS.set_nth i (JS.min (nth i signature JS.Infinity) hash) signature)
         (seq 0 (List.length hashFunctions)) signature)
    shingles
    (repeat JS.Infinity (List.length hashFunctions)).

Definition generateSignature (snippet : CodeSnippet.t) : MinHashSignature.t :=
  let tokens := tokenize (CodeSnippet.content snippet) (CodeSnippet.language snippet) in
  let shingles := generateShingles tokens 3 in
  let signature := minima shingles in
  let rowsPerBand := ClusteringConfig.minhashRows config in
  let bands :=
    map (fun i => let start := i * rowsPerBand in
                  JS.slice start (start + rowsPerBand) signature)
        (seq 0 (ClusteringConfig.minhashBands config)) in
  MinHashSignature.make signature bands (CodeSnippet.id snippet).

(** Positions [i < sig1.length] with [sig1[i] === sig2[i]]. *)
Fixpoint countMatches (sig1 sig2 : list JS.num) : nat :=
  match sig1 with
  | [] => 0
  | x :: sig1' =>
      (match sig2 with
       | y :: _ => if JS.num_eqb x y then 1 else 0
       | [] => 0
       end) + countMatches sig1' (tl sig2)
  end.

(** [calculateSimilarity(sig1, sig2)] on what [sigMap.get] gave: reading
    [.signature] of [undefined] throws, and [sig2] is only read inside the
    loop. *)
Definition calculateSimilarity (sig1 sig2 : option MinHashSignature.t) : JS.result float :=
  match sig1 with
  | None => JS.Throw "TypeError"
  | Some s1 =>
      let n := List.length (MinHashSignature.signature s1) in
      match n, sig2 with
      | O, _ => JS.Ok (PrimFloat.div 0 0)
      | _, None => JS.Throw "TypeError"
      | _, Some s2 =>
          JS.Ok (PrimFloat.div
                   (JS.toFloat (Z.of_nat (countMatches (MinHashSignature.signature s1)
                                                       (MinHashSignature.signature s2))))
                   (JS.toFloat (Z.of_nat n)))
      end
  end.

Definition hashBand (band : list JS.num) : string := JS.join "," (map JS.show band).

(** [bandBuckets.get(key).push(id)], the bucket created when new. *)
Definition pushBucket (key id : string) (m : JSMap.t (list string)) : JSMap.t (list string) :=
  let m1 := if JSMap.has key m then m else JSMap.set key [] m in
  match JSMap.get key m1 with
  | Some bucket => JSMap.set key (bucket ++ [id]) m1
  | None => m1
  end.

Definition indexed {A} (l : list A) : list (nat * A) := combine (seq 0 (List.length l)) l.

Definition findCandidatePairs (signatures : list MinHashSignature.t) : list string :=
  let bandBuckets :=
    fold_left
      (fun m sig =>
         fold_left
           (fun m (ib : nat * list JS.num) =>
              let (bandIdx, band) := ib in
              let bucketKey := (JS.showZ (Z.of_nat bandIdx) ++ "-" ++ hashBand band)%string in
              pushBucket bucketKey (MinHashSignature.snippetId sig) m)
           (indexed (MinHashSignature.bands sig)) m)
      signatures [] in
  fold_left
    (fun candidates bucket =>
       if 1 <? List.length bucket then
         fold_left
           (fun candidates (ab : string * string) =>
              JSSet.add String.eqb (JS.join "," (JS.sort2 (fst ab) (snd ab))) candidates)
           (JS.pairs bucket) candidates
       else candidates)
    (JSMap.values bandBuckets) [].

Definition graph : Type := JSMap.t (list string).

(** [graph.get(a)!.add(b)]. *)
Definition addEdge (a b : string) (g : graph) : JS.result graph :=
  match JSMap.get a g with
  | Some s => JS.Ok (JSMap.set a (JSSet.add String.eqb b s) g)
  | None => JS.Throw "TypeError"
  end.

Definition sigMapOf (signatures : list MinHashSignature.t) : JSMap.t MinHashSignature.t :=
  fold_left (fun m sig => JSMap.set (MinHashSignature.snippetId sig) sig m) signatures [].

(** One candidate pair of the graph-building loop.  [pairStr.split(',')]
    has at least two parts, every pair string holding a comma. *)
Definition addPair (sigMap : JSMap.t MinHashSignature.t) (g : graph) (pairStr : string)
  : JS.result graph :=
  let parts := JS.split "," pairStr in
  let id1 := nth 0 parts EmptyString in
  let id2 := nth 1 parts EmptyString in
  match calculateSimilarity (JSMap.get id1 sigMap) (JSMap.get id2 sigMap) with
  | JS.Throw e => JS.Throw e
  | JS.Ok similarity =>
      if PrimFloat.leb (ClusteringConfig.similarityThreshold config) similarity then
        match addEdge id1 id2 g with
        | JS.Throw e => JS.Throw e
        | JS.Ok g1 => addEdge id2 id1 g1
        end
      else JS.Ok g
  end.

(** The loop of [findConnectedComponent]; the stack is kept top first.
    [None] only if [fuel] turns are not enough. *)
Fixpoint walk (g : graph) (fuel : nat) (stack visited component : list string)
  : option (list string * list string) :=
  match stack with
  | [] => Some (visited, component)
  | id :: stack' =>
      match fuel with
      | O => None
      | S fuel' =>
          if JSSet.has String.eqb id visited then walk g fuel' stack' visited component
          else
            let visited' := JSSet.add String.eqb id visited in
            let neighbors := match JSMap.get id g with Some s => s | None => [] end in
            let stack'' :=
              fold_left (fun st neighbor =>
                           if JSSet.has String.eqb neighbor visited' then st
                           else neighbor :: st)
                        neighbors stack' in
            walk g fuel' stack'' visited' (component ++ [id])
      end
  end.

(** Turns that always suffice: one per push, and no node is expanded twice. *)
Definition walkFuel (g : graph) : nat :=
  1 + fold_right (fun kv acc => S (List.length (snd kv)) + acc) 0 g.

Definition findConnectedComponent (startId : string) (g : graph) (visited : list string)
  : option (list string * list string) :=
  walk g (walkFuel g) [startId] visited [].

(** [totalSimilarity] after the inner loop of [findCentroid]. *)
Definition totalAgainst (sigMap : JSMap.t MinHashSignature.t) (cluster : list string)
           (candidateId : string) : JS.result float :=
  JS.foldM (fun total otherId =>
           if String.eqb candidateId otherId then JS.Ok total
           else match calculateSimilarity (JSMap.get candidateId sigMap)
                                          (JSMap.get otherId sigMap) with
                | JS.Throw e => JS.Throw e
                | JS.Ok s => JS.Ok (PrimFloat.add total s)
                end)
        cluster 0%float.

Definition findCentroid (cluster : list string) (signatures : list MinHashSignature.t)
  : JS.result (option string) :=
  let sigMap := sigMapOf signatures in
  match
    JS.foldM (fun (st : option string * float) candidateId =>
             let (bestCentroid, maxAvgSimilarity) := st in
             match totalAgainst sigMap cluster candidateId with
             | JS.Throw e => JS.Throw e
             | JS.Ok totalSimilarity =>
                 let avgSimilarity :=
                   PrimFloat.div totalSimilarity
                     (JS.toFloat (Z.of_nat (List.length cluster) - 1)) in
                 if PrimFloat.ltb maxAvgSimilarity avgSimilarity
                 then JS.Ok (Some candidateId, avgSimilarity)
                 else JS.Ok st
             end)
          cluster (nth_error cluster 0, 0%float)
  with
  | JS.Throw e => JS.Throw e
  | JS.Ok (bestCentroid, _) => JS.Ok bestCentroid
  end.

Definition calculateClusterSimilarity (cluster : list string)
           (sigMap : JSMap.t MinHashSignature.t) : JS.result float :=
  if List.length cluster <? 2 then JS.Ok 1%float
  else
    match
      JS.foldM (fun (st : float * nat) (ab : string * string) =>
               let (totalSimilarity, pairCount) := st in
               match calculateSimilarity (JSMap.get (fst ab) sigMap)
                                          (JSMap.get (snd ab) sigMap) with
               | JS.Throw e => JS.Throw e
               | JS.Ok s => JS.Ok (PrimFloat.add totalSimilarity s, S pairCount)
               end)
            (JS.pairs cluster) (0%float, 0)
    with
    | JS.Throw e => JS.Throw e
    | JS.Ok (totalSimilarity, pairCount) =>
        JS.Ok (PrimFloat.div totalSimilarity (JS.toFloat (Z.of_nat pairCount)))
    end.

(** One turn of the loop over the snippet ids that collects the clusters. *)
Definition visit (signatures : list MinHashSignature.t)
           (sigMap : JSMap.t MinHashSignature.t) (g : graph)
           (st : list string * list CodeCluster.t) (snippetId : string)
  : JS.result (list string * list CodeCluster.t) :=
  let (visited, clusters) := st in
  if JSSet.has String.eqb snippetId visited then JS.Ok st
  else
    match findConnectedComponent snippetId g visited with
    | None => JS.Throw "out of fuel"
    | Some (visited', cluster) =>
        if ClusteringConfig.minClusterSize config <=? List.length cluster then
          match findCentroid cluster signatures with
          | JS.Throw e => JS.Throw e
          | JS.Ok centroid =>
              match calculateClusterSimilarity cluster sigMap with
              | JS.Throw e => JS.Throw e
              | JS.Ok similarity =>
                  JS.Ok (visited',
                         clusters ++
                         [CodeCluster.make
                            ("cluster-" ++ JS.showZ (Z.of_nat (List.length clusters)))
                            cluster centroid (List.length cluster) similarity])
              end
          end
        else JS.Ok (visited', clusters)
    end.

Definition clusterSnippets (snippets : list CodeSnippet.t) : JS.result (list CodeCluster.t) :=
  let signatures := map generateSignature snippets in
  let sigMap := sigMapOf signatures in
  let candidatePairs := findCandidatePairs signatures in
  let ids := map CodeSnippet.id snippets in
  let emptyGraph : graph := fold_left (fun g id => JSMap.set id [] g) ids [] in
  match JS.foldM (addPair sigMap) candidatePairs emptyGraph with
  | JS.Throw e => JS.Throw e
  | JS.Ok similarityGraph =>
      match JS.foldM (visit signatures sigMap similarityGraph) ids ([], []) with
      | JS.Throw e => JS.Throw e
      | JS.Ok (_, clusters) => JS.Ok clusters
      end
  end.

End Instance.

End MinHashClusterer.

(* ================================================================== *)
(** * [MinHashLSH], [Clusterer] and the de-duplication pass of
      [CodeCollage] *)
(* ================================================================== *)

Module Config.
Record t : Type := make {
  minHashBands : nat;
  minHashRows : nat;
  ngramSize : nat;
  similarityThreshold : float;
  clusterThreshold : float
}.

(** [DEFAULT_CONFIG]; the two thresholds are the doubles nearest 0.8 and 0.7. *)
Definition DEFAULT_CONFIG : t :=
  make 20 5 3 0x1.999999999999ap-1%float 0x1.6666666666666p-1%float.
End Config.

Module CodeCluster.
(** The [centroid] of this tree is a vector, not an id. *)
Record t : Type := make {
  snippets : list string;
  centroid : list float;
  size : nat;
  patterns : list string;
  languages : list JS.value
}.
End CodeCluster.

Module MinHashLSH.

Section Instance.
Variable config : Config.t.
Variable random : nat -> Z.

Definition hashFunctions : list (string -> Z) :=
  HashFamily.generateHashFunctions random
    (Config.minHashBands config * Config.minHashRows config).

(** [new Set(tokens)]. *)
Definition setOf (tokens : list string) : list string :=
  fold_left (fun s token => JSSet.add String.eqb token s) tokens [].

(** [hash < minHash]. *)
Definition below (hash : Z) (minHash : JS.num) : bool :=
  match minHash with
  | JS.Infinity => true
  | JS.Int z => (hash <? z)%Z
  end.

Definition computeMinHash (tokens : list string) : list Z :=
  let tokenSet := setOf tokens in
  map (fun hashFunc : string -> Z =>
         let minHash :=
           fold_left (fun minHash token =>
                        let hash := hashFunc token in
                        if below hash minHash then JS.Int hash else minHash)
                     tokenSet JS.Infinity in
         match minHash with
         | JS.Infinity => 0%Z
         | JS.Int z => z
         end)
      hashFunctions.

Definition computeLSHSignature (minHashSignature : list Z) : list string :=
  let rowsPerBand := Config.minHashRows config in
  map (fun i =>
         let bandStart := i * rowsPerBand in
         let bandEnd := Nat.min (bandStart + rowsPerBand) (List.length minHashSignature) in
         JS.join "," (map JS.showZ (JS.slice bandStart bandEnd minHashSignature)))
      (seq 0 (Config.minHashBands config)).

(** [this.buckets]: band signature to the ids filed under it. *)
Definition buckets : Type := JSMap.t (list string).

Definition addSnippet (snippet : CodeSnippet.t) (b : buckets) : buckets :=
  fold_left
    (fun b bandSignature =>
       let b1 := if JSMap.has bandSignature b then b else JSMap.set bandSignature [] b in
       match JSMap.get bandSignature b1 with
       | Some bucket =>
           if existsb (String.eqb (CodeSnippet.id snippet)) bucket then b1
           else JSMap.set bandSignature (bucket ++ [CodeSnippet.id snippet]) b1
       | None => b1
       end)
    (computeLSHSignature (CodeSnippet.minHashes snippet)) b.

Definition findCandidates (snippet : CodeSnippet.t) (b : buckets) : list string :=
  fold_left
    (fun candidates bandSignature =>
       match JSMap.get bandSignature b with
       | Some bucket =>
           fold_left (fun candidates candidateId =>
                        if String.eqb candidateId (CodeSnippet.id snippet) then candidates
                        else JSSet.add String.eqb candidateId candidates)
                     bucket candidates
       | None => candidates
       end)
    (computeLSHSignature (CodeSnippet.minHashes snippet)) [].

Fixpoint countMatches (signature1 signature2 : list Z) : nat :=
  match signature1, signature2 with
  | x :: s1, y :: s2 => (if Z.eqb x y then 1 else 0) + countMatches s1 s2
  | _, _ => 0
  end.

Definition calculateSimilarity (signature1 signature2 : list Z) : JS.result float :=
  if negb (List.length signature1 =? List.length signature2)
  then JS.Throw "Signatures must have the same length"
  else JS.Ok (PrimFloat.div (JS.toFloat (Z.of_nat (countMatches signature1 signature2)))
                            (JS.toFloat (Z.of_nat (List.length signature1)))).

(** [bucket.snippets.splice(index, 1)] at the first index of [snippetId],
    nothing when it is not there. *)
Fixpoint removeFirst (snippetId : string) (bucket : list string) : list string :=
  match bucket with
  | [] => []
  | id :: bucket' =>
      if String.eqb id snippetId then bucket' else id :: removeFirst snippetId bucket'
  end.

(** [removeSnippet(snippetId)]: the id leaves every bucket, then the
    buckets left empty are deleted. *)
Definition removeSnippet (snippetId : string) (b : buckets) : buckets :=
  filter (fun kv : string * list string => negb (List.length (snd kv) =? 0))
         (map (fun kv : string * list string => (fst kv, removeFirst snippetId (snd kv))) b).

(** [getStats()]: the number of buckets and of filed ids; the average is
    their quotient, 0 for no bucket. *)
Definition getStats (b : buckets) : nat * nat :=
  (List.length b, fold_left (fun sum kv => sum + List.length (snd kv)) b 0).

End Instance.

End MinHashLSH.

Module Clusterer.

Section Instance.
Variable config : Config.t.

(** [allSnippets.find(s => s.id === id)]. *)
Definition findById (id : string) (l : list CodeSnippet.t) : option CodeSnippet.t :=
  find (fun s => String.eqb (CodeSnippet.id s) id) l.

Definition dedup {A} (eqb : A -> A -> bool) (l : list A) : list A :=
  fold_left (fun s x => JSSet.add eqb x s) l [].

(** [centroid[i] += snippet.minHashes[i]]; a missing entry adds [NaN]. *)
Definition accumulate (signatureLength : nat) (centroid : list float) (snippet : CodeSnippet.t)
  : list float :=
  fold_left
    (fun centroid i =>
       let h := match nth_error (CodeSnippet.minHashes snippet) i with
                | Some z => JS.toFloat z
                | None => PrimFloat.nan
                end in
       JS.set_nth i (PrimFloat.add (nth i centroid 0%float) h) centroid)
    (seq 0 signatureLength) centroid.

Definition computeCentroid (snippets : list CodeSnippet.t) : list float :=
  match snippets with
  | [] => []
  | first :: _ =>
      let signatureLength := List.length (CodeSnippet.minHashes first) in
      let sums := fold_left (accumulate signatureLength) snippets
                            (repeat 0%float signatureLength) in
      map (fun c => PrimFloat.div c (JS.toFloat (Z.of_nat (List.length snippets)))) sums
  end.

Definition createCluster (snippetIds : list string) (allSnippets : list CodeSnippet.t)
  : CodeCluster.t :=
  let clusterSnippets :=
    flat_map (fun id => match findById id allSnippets with
                        | Some s => [s]
                        | None => []
                        end) snippetIds in
  let languages := dedup JSValue.eqb (map CodeSnippet.language clusterSnippets) in
  let patterns := dedup String.eqb (flat_map CodeSnippet.patterns clusterSnippets) in
  CodeCluster.make snippetIds (computeCentroid clusterSnippets)
                   (List.length snippetIds) patterns languages.

(** The candidates of one snippet that join it: not yet clustered, known,
    and similar enough.  Comparing two signatures of different lengths throws. *)
Definition similarTo (snippets : list CodeSnippet.t) (clustered : list string)
           (snippet : CodeSnippet.t) (candidates : list string) : JS.result (list string) :=
  JS.foldM
    (fun similarSnippets candidateId =>
       if JSSet.has String.eqb candidateId clustered then JS.Ok similarSnippets
       else match findById candidateId snippets with
            | None => JS.Ok similarSnippets
            | Some candidate =>
                match MinHashLSH.calculateSimilarity (CodeSnippet.minHashes snippet)
                                                     (CodeSnippet.minHashes candidate) with
                | JS.Throw e => JS.Throw e
                | JS.Ok similarity =>
                    if PrimFloat.leb (Config.clusterThreshold config) similarity
                    then JS.Ok (similarSnippets ++ [candidateId])
                    else JS.Ok similarSnippets
                end
            end)
    candidates [CodeSnippet.id snippet].

(** [clusterSnippets] on a clusterer whose LSH index holds [lsh]; the
    index after the call is not returned, no claim reads it. *)
Definition clusterSnippets (lsh : MinHashLSH.buckets) (snippets : list CodeSnippet.t)
  : JS.result (list CodeCluster.t) :=
  let lsh1 := fold_left (fun b s => MinHashLSH.addSnippet config s b) snippets lsh in
  match
    JS.foldM
      (fun (st : list CodeCluster.t * list string) snippet =>
         let (clusters, clustered) := st in
         if JSSet.has String.eqb (CodeSnippet.id snippet) clustered then JS.Ok st
         else
           let candidates := MinHashLSH.findCandidates config snippet lsh1 in
           match similarTo snippets clustered snippet candidates with
           | JS.Throw e => JS.Throw e
           | JS.Ok similarSnippets =>
               if 1 <? List.length similarSnippets then
                 JS.Ok (clusters ++ [createCluster similarSnippets snippets],
                        fold_left (fun c id => JSSet.add String.eqb id c)
                                  similarSnippets clustered)
               else JS.Ok st
           end)
      snippets ([], [])
  with
  | JS.Throw e => JS.Throw e
  | JS.Ok (clusters, clustered) =>
      JS.Ok (fold_left
               (fun clusters snippet =>
                  if JSSet.has String.eqb (CodeSnippet.id snippet) clustered then clusters
                  else clusters ++ [createCluster [CodeSnippet.id snippet] snippets])
               snippets clusters)
  end.

End Instance.

End Clusterer.

Module CodeCollage.

Section Instance.
Variable config : Config.t.

(** The state of the loop of [deduplicate]. *)
Record state : Type := mkState {
  lsh : MinHashLSH.buckets;
  unique : JSMap.t CodeSnippet.t;
  processed : list string
}.

(** The loop over the candidates, left at the first one that is kept and
    similar enough. *)
Fixpoint isDuplicate (snippet : CodeSnippet.t) (unique : JSMap.t CodeSnippet.t)
         (candidates : list string) : JS.result bool :=
  match candidates with
  | [] => JS.Ok false
  | candidateId :: rest =>
      match JSMap.get candidateId unique with
      | None => isDuplicate snippet unique rest
      | Some candidate =>
          match MinHashLSH.calculateSimilarity (CodeSnippet.minHashes snippet)
                                               (CodeSnippet.minHashes candidate) with
          | JS.Throw e => JS.Throw e
          | JS.Ok similarity =>
              if PrimFloat.leb (Config.similarityThreshold config) similarity
              then JS.Ok true
              else isDuplicate snippet unique rest
          end
      end
  end.

Definition step (st : state) (snippet : CodeSnippet.t) : JS.result state :=
  if JSSet.has String.eqb (CodeSnippet.id snippet) (processed st) then JS.Ok st
  else if existsb (fun s => String.eqb (CodeSnippet.hash s) (CodeSnippet.hash snippet))
                  (JSMap.values (unique st))
  then JS.Ok (mkState (lsh st) (unique st)
                      (JSSet.add String.eqb (CodeSnippet.id snippet) (processed st)))
  else
    let lsh1 := MinHashLSH.addSnippet config snippet (lsh st) in
    let candidates := MinHashLSH.findCandidates config snippet lsh1 in
    match isDuplicate snippet (unique st) candidates with
    | JS.Throw e => JS.Throw e
    | JS.Ok dup =>
        JS.Ok (mkState lsh1
                       (if dup then unique st
                        else JSMap.set (CodeSnippet.id snippet) snippet (unique st))
                       (JSSet.add String.eqb (CodeSnippet.id snippet) (processed st)))
    end.

Definition run (snippets : list CodeSnippet.t) : JS.result state :=
  JS.foldM step snippets (mkState [] [] []).

(** [deduplicate(snippets)]: [(uniqueSnippets, duplicatesRemoved)]. *)
Definition deduplicate (snippets : list CodeSnippet.t)
  : JS.result (list CodeSnippet.t * nat) :=
  match run snippets with
  | JS.Throw e => JS.Throw e
  | JS.Ok st =>
      let uniqueSnippets := JSMap.values (unique st) in
      JS.Ok (uniqueSnippets, List.length snippets - List.length uniqueSnippets)
  end.

(** What [ingestFile] takes from outside on its [call]-th run: the digest
    of [generateHash], the draws of the [MinHashLSH] it makes, and the
    identifier of [generateSnippetId]. *)
Variable generateHash : string -> string.
Variable random : nat -> nat -> Z.
Variable generateSnippetId : nat -> string.

(** [ingestFile(filepath)]: [file] is what [readFile] gives, [None] when
    it throws; the result [None] is [null]. *)
Definition ingestFile (call : nat) (file : option string) (filepath : string)
  : option CodeSnippet.t :=
  match file with
  | None => None
  | Some content =>
      let language := Tokenizer.detectLanguage filepath (Some content) in
      if JSValue.eqb language (JS.VStr "text")
         || (100000 <? Z.of_nat (String.length content))%Z
      then None
      else
        let tokens := Tokenizer.tokenize content language in
        let hash := generateHash content in
        let minHashes := MinHashLSH.computeMinHash config (random call) tokens in
        Some (CodeSnippet.make (generateSnippetId call) content language
                               filepath hash minHashes tokens [] None)
  end.

(** The counters and the list of [ingest]. *)
Record ingested : Type := mkIngested {
  processedFiles : nat;
  skippedFiles : nat;
  snippets : list CodeSnippet.t
}.

(** One turn of the loop of [ingest] on a path that is a file. *)
Definition ingestStep (acc : ingested) (entry : string * option string) : ingested :=
  let call := processedFiles acc + skippedFiles acc in
  match ingestFile call (snd entry) (fst entry) with
  | Some snippet =>
      mkIngested (S (processedFiles acc)) (skippedFiles acc)
                 (snippets acc ++ [snippet])
  | None =>
      mkIngested (processedFiles acc) (S (skippedFiles acc)) (snippets acc)
  end.

(** [ingest(paths)] on paths that are all files, each given with what
    reading it gives. *)
Definition ingest (files : list (string * option string)) : ingested :=
  fold_left ingestStep files (mkIngested 0 0 []).

(** What is at a path: a regular file with what [readFile] gives ([None]
    when it throws), a directory with its entries in the order [readdir]
    lists them, or something that is neither (a link, a socket). *)
#[local] Unset Elimination Schemes.
Inductive node : Type :=
| File (content : option string)
| Directory (entries : list (string * node))
| Other.
#[local] Set Elimination Schemes.

(** [path.join(dirPath, name)]. *)
Variable join : string -> string -> string.

(** [entry.name.startsWith('.')]. *)
Definition startsWithDot (name : string) : bool :=
  match name with
  | String c _ => Ascii.eqb c "."
  | EmptyString => false
  end.

(** [snippets.push(...r.snippets); processed += r.processed;
    skipped += r.skipped], which is also what the branch for a file does
    with its one outcome. *)
Definition plus (acc r : ingested) : ingested :=
  mkIngested (processedFiles acc + processedFiles r)
             (skippedFiles acc + skippedFiles r)
             (snippets acc ++ snippets r).

(** What one path adds, [calls] runs of [ingestFile] having been made
    before: the outcome of [ingestFile] for a file, the result of
    [ingestDirectory] for a directory, nothing for the rest.  In the loop
    of [ingestDirectory] a directory whose name starts with a dot is not
    entered, and it is no file either. *)
Fixpoint ingestNode (calls : nat) (path : string) (n : node) : ingested :=
  match n with
  | File content =>
      match ingestFile calls content path with
      | Some snippet => mkIngested 1 0 [snippet]
      | None => mkIngested 0 1 []
      end
  | Other => mkIngested 0 0 []
  | Directory entries =>
      (fix loop (entries : list (string * node)) (acc : ingested) : ingested :=
         match entries with
         | [] => acc
         | (name, child) :: rest =>
             let fullPath := join path name in
             let made := calls + processedFiles acc + skippedFiles acc in
             let r := match child with
                      | Directory _ =>
                          if startsWithDot name then mkIngested 0 0 []
                          else ingestNode made fullPath child
                      | _ => ingestNode made fullPath child
                      end in
             loop rest (plus acc r)
         end) entries (mkIngested 0 0 [])
  end.

(** [ingestDirectory(dirPath)]. *)
Definition ingestDirectory (calls : nat) (dirPath : string) (entries : list (string * node))
  : ingested :=
  ingestNode calls dirPath (Directory entries).

(** [ingest(paths)], each path given with what [stat] finds there, [None]
    when [stat] throws; the counters and the list it returns. *)
Definition ingestPaths (paths : list (string * option node)) : JS.result ingested :=
  JS.foldM
    (fun acc (entry : string * option node) =>
       match snd entry with
       | None => JS.Throw "ENOENT"
       | Some n =>
           JS.Ok (plus acc (ingestNode (processedFiles acc + skippedFiles acc) (fst entry) n))
       end)
    paths (mkIngested 0 0 []).

End Instance.

End CodeCollage.

(* ================================================================== *)
(** * [JSON.parse] and [JSON.stringify].  The reader is a pushdown reader
      of the JSON grammar that builds the value read: the strings with
      their escapes resolved, the objects as JavaScript makes them.  A
      number read is kept as its numeral, of which the number is a
      function. *)
(* ================================================================== *)

Module JSON.

(** A string read, as its code units: an escape can name a code unit
    from 256 on, which no string of a text holds here. *)
Definition units : Type := list N.

Definition unitsOf (s : string) : units := map N_of_ascii (list_ascii_of_string s).

Fixpoint sameKey (a b : units) : bool :=
  match a, b with
  | [], [] => true
  | x :: a', y :: b' => (x =? y)%N && sameKey a' b'
  | _, _ => false
  end.

#[local] Unset Elimination Schemes.
Inductive json : Type :=
| JNull
| JBool (b : bool)
| JNumber (lexeme : string)
| JString (s : units)
| JArray (items : list json)
| JObject (members : list (units * json)).
#[local] Set Elimination Schemes.

(** *** Objects *)

(** A member is defined on the object made so far: a key already there
    keeps its place and takes the new value, a new key goes last. *)
Fixpoint define (key : units) (v : json) (members : list (units * json))
  : list (units * json) :=
  match members with
  | [] => [(key, v)]
  | (k, w) :: rest =>
      if sameKey k key then (k, v) :: rest else (k, w) :: define key v rest
  end.

Definition digitOf (u : N) : option N :=
  if ((48 <=? u) && (u <=? 57))%N then Some (u - 48)%N else None.

Fixpoint numberOf (acc : N) (digits : units) : option N :=
  match digits with
  | [] => Some acc
  | u :: rest =>
      match digitOf u with
      | Some d => numberOf (10 * acc + d)%N rest
      | None => None
      end
  end.

(** The array index a key is, when it is one: the key is the decimal
    numeral, without a leading zero, of an integer below 2^32 - 1. *)
Definition arrayIndex (key : units) : option N :=
  match key with
  | [] => None
  | u :: rest =>
      if (u =? 48)%N then match rest with [] => Some 0%N | _ => None end
      else match numberOf 0 key with
           | Some n => if (n <? 4294967295)%N then Some n else None
           | None => None
           end
  end.

Fixpoint place (i : N) (member : units * json) (sorted : list (N * (units * json)))
  : list (N * (units * json)) :=
  match sorted with
  | [] => [(i, member)]
  | (j, other) :: rest =>
      if (i <=? j)%N then (i, member) :: sorted else (j, other) :: place i member rest
  end.

(** The order in which the members of an object are gone through: the
    array indices first, ascending, then the other keys in the order of
    their definition. *)
Definition ordered (members : list (units * json)) : list (units * json) :=
  let indexed :=
    flat_map (fun member => match arrayIndex (fst member) with
                            | Some i => [(i, member)]
                            | None => []
                            end) members in
  let named :=
    filter (fun member => match arrayIndex (fst member) with
                          | Some _ => false
                          | None => true
                          end) members in
  map snd (fold_right (fun im sorted => place (fst im) (snd im) sorted) [] indexed)
  ++ named.

(** The object of the members read, in the order they were read. *)
Definition objectOf (members : list (units * json)) : list (units * json) :=
  ordered (fold_left (fun object member => define (fst member) (snd member) object)
                     members []).

(** *** The reader *)

(** An open array or object; what it holds so far is kept last first. *)
Inductive frame : Type :=
| FArray (items : list json)
| FObject (members : list (units * json))
| FMember (members : list (units * json)) (key : units).

Inductive numState : Type :=
| NMinus | NZero | NInt | NDot | NFrac | NExp | NExpSign | NExpDigits.

Inductive mode : Type :=
| MValue
| MValueOrClose
| MKeyOrClose
| MKey
| MColon
| MAfter
| MString (forKey : bool) (acc : units)
| MEscape (forKey : bool) (acc : units)
| MUnicode (forKey : bool) (remaining : nat) (code : N) (acc : units)
| MNumber (st : numState) (acc : string)
| MLiteral (rest : string) (v : json)
| MDone (v : json).

Definition state : Type := (list frame * mode)%type.

Definition snoc (s : string) (c : ascii) : string := (s ++ String c EmptyString)%string.

Definition isWs (c : ascii) : bool :=
  let n := nat_of_ascii c in (n =? 32) || (n =? 9) || (n =? 10) || (n =? 13).

Definition isDigit (c : ascii) : bool :=
  let n := nat_of_ascii c in (48 <=? n) && (n <=? 57).

Definition hexValue (c : ascii) : option N :=
  let n := nat_of_ascii c in
  if isDigit c then Some (N.of_nat (n - 48))
  else if (97 <=? n) && (n <=? 102) then Some (N.of_nat (n - 87))
  else if (65 <=? n) && (n <=? 70) then Some (N.of_nat (n - 55))
  else None.

(** The code unit a one-letter escape stands for. *)
Definition escapeOf (c : ascii) : option N :=
  let n := nat_of_ascii c in
  if n =? 34 then Some 34%N
  else if n =? 92 then Some 92%N
  else if n =? 47 then Some 47%N
  else if n =? 98 then Some 8%N
  else if n =? 102 then Some 12%N
  else if n =? 110 then Some 10%N
  else if n =? 114 then Some 13%N
  else if n =? 116 then Some 9%N
  else None.

(** A value is complete: it is the text's value, or goes into the open
    array or object. *)
Definition complete (v : json) (stack : list frame) : option state :=
  match stack with
  | [] => Some ([], MDone v)
  | FArray items :: stack' => Some (FArray (v :: items) :: stack', MAfter)
  | FMember members key :: stack' => Some (FObject ((key, v) :: members) :: stack', MAfter)
  | FObject _ :: _ => None
  end.

Definition startValue (stack : list frame) (c : ascii) : option state :=
  let n := nat_of_ascii c in
  if n =? 34 then Some (stack, MString false [])
  else if n =? 91 then Some (FArray [] :: stack, MValueOrClose)
  else if n =? 123 then Some (FObject [] :: stack, MKeyOrClose)
  else if n =? 45 then Some (stack, MNumber NMinus (String c EmptyString))
  else if n =? 48 then Some (stack, MNumber NZero (String c EmptyString))
  else if isDigit c then Some (stack, MNumber NInt (String c EmptyString))
  else if n =? 116 then Some (stack, MLiteral "rue" (JBool true))
  else if n =? 102 then Some (stack, MLiteral "alse" (JBool false))
  else if n =? 110 then Some (stack, MLiteral "ull" JNull)
  else None.

(** After a value: a comma, the closing bracket, or white space. *)
Definition afterValue (stack : list frame) (c : ascii) : option state :=
  let n := nat_of_ascii c in
  if isWs c then Some (stack, MAfter)
  else match stack with
       | FArray items :: stack' =>
           if n =? 44 then Some (stack, MValue)
           else if n =? 93 then complete (JArray (rev items)) stack'
           else None
       | FObject members :: stack' =>
           if n =? 44 then Some (stack, MKey)
           else if n =? 125 then complete (JObject (objectOf (rev members))) stack'
           else None
       | _ => None
       end.

(** The character after a number ends it and is read again. *)
Definition endNumber (stack : list frame) (acc : string) (c : ascii) : option state :=
  match stack with
  | [] => if isWs c then Some ([], MDone (JNumber acc)) else None
  | _ => match complete (JNumber acc) stack with
         | Some (stack', _) => afterValue stack' c
         | None => None
         end
  end.

Definition numberStep (stack : list frame) (st : numState) (acc : string) (c : ascii)
  : option state :=
  let n := nat_of_ascii c in
  let go st' := Some (stack, MNumber st' (snoc acc c)) in
  let isE := (n =? 101) || (n =? 69) in
  match st with
  | NMinus => if n =? 48 then go NZero else if isDigit c then go NInt else None
  | NZero => if n =? 46 then go NDot else if isE then go NExp else endNumber stack acc c
  | NInt => if isDigit c then go NInt else if n =? 46 then go NDot
            else if isE then go NExp else endNumber stack acc c
  | NDot => if isDigit c then go NFrac else None
  | NFrac => if isDigit c then go NFrac else if isE then go NExp else endNumber stack acc c
  | NExp => if (n =? 43) || (n =? 45) then go NExpSign
            else if isDigit c then go NExpDigits else None
  | NExpSign => if isDigit c then go NExpDigits else None
  | NExpDigits => if isDigit c then go NExpDigits else endNumber stack acc c
  end.

Definition step (s : state) (c : ascii) : option state :=
  let (stack, m) := s in
  let n := nat_of_ascii c in
  match m with
  | MValue => if isWs c then Some s else startValue stack c
  | MValueOrClose =>
      if isWs c then Some s
      else if n =? 93 then
        match stack with
        | FArray items :: stack' => complete (JArray (rev items)) stack'
        | _ => None
        end
      else match stack with
           | FArray _ :: _ => startValue stack c
           | _ => None
           end
  | MKeyOrClose =>
      if isWs c then Some s
      else if n =? 125 then
        match stack with
        | FObject members :: stack' => complete (JObject (objectOf (rev members))) stack'
        | _ => None
        end
      else if n =? 34 then Some (stack, MString true [])
      else None
  | MKey =>
      if isWs c then Some s
      else if n =? 34 then Some (stack, MString true [])
      else None
  | MColon =>
      if isWs c then Some s
      else if n =? 58 then Some (stack, MValue)
      else None
  | MAfter => afterValue stack c
  | MString forKey acc =>
      if n =? 34 then
        if forKey then
          match stack with
          | FObject members :: stack' => Some (FMember members acc :: stack', MColon)
          | _ => None
          end
        else complete (JString acc) stack
      else if n =? 92 then Some (stack, MEscape forKey acc)
      else if n <? 32 then None
      else Some (stack, MString forKey (acc ++ [N_of_ascii c]))
  | MEscape forKey acc =>
      if n =? 117 then Some (stack, MUnicode forKey 4 0%N acc)
      else match escapeOf c with
           | Some u => Some (stack, MString forKey (acc ++ [u]))
           | None => None
           end
  | MUnicode forKey remaining code acc =>
      match hexValue c with
      | Some h =>
          let code' := (16 * code + h)%N in
          match remaining with
          | 0 | 1 => Some (stack, MString forKey (acc ++ [code']))
          | S remaining' => Some (stack, MUnicode forKey remaining' code' acc)
          end
      | None => None
      end
  | MNumber st acc => numberStep stack st acc c
  | MLiteral rest v =>
      match rest with
      | EmptyString => None
      | String d rest' =>
          if Ascii.eqb c d then
            match rest' with
            | EmptyString => complete v stack
            | _ => Some (stack, MLiteral rest' v)
            end
          else None
      end
  | MDone v => if isWs c then Some s else None
  end.

Fixpoint run (text : string) (s : state) : option state :=
  match text with
  | EmptyString => Some s
  | String c text' =>
      match step s c with
      | Some s' => run text' s'
      | None => None
      end
  end.

(** [JSON.parse(text)]: [None] where it throws a [SyntaxError]. *)
Definition parse (text : string) : option json :=
  match run text ([], MValue) with
  | Some ([], MDone v) => Some v
  | Some ([], MNumber st acc) =>
      match st with
      | NZero | NInt | NFrac | NExpDigits => Some (JNumber acc)
      | _ => None
      end
  | _ => None
  end.

(** ** [JSON.stringify] *)

(** The integers a number holds exactly, which [String(n)] writes as their
    decimal numerals: [Number.isSafeInteger]. *)
Definition isSafe (z : Z) : bool := (Z.abs z <? 2 ^ 53)%Z.

Record safeInteger : Type := Safe {
  integer : Z;
  inRange : isSafe integer = true
}.

Definition safeOf (z : Z) : option safeInteger :=
  match Bool.bool_dec (isSafe z) true with
  | left H => Some (Safe z H)
  | right _ => None
  end.

(** What the stores write, as far as it is modelled here: a number is a
    safe integer, a string holds code units below 256, and the members
    of an object stand in the order in which [JSON.stringify] goes
    through them. *)
#[local] Unset Elimination Schemes.
Inductive value : Type :=
| VNull
| VBool (b : bool)
| VNumber (n : safeInteger)
| VString (s : string)
| VArray (items : list value)
| VObject (members : list (string * value)).
#[local] Set Elimination Schemes.

Definition hexDigit (n : nat) : ascii :=
  if n <? 10 then ascii_of_nat (48 + n) else ascii_of_nat (87 + n).

(** One code unit as [JSON.stringify] writes it inside a string. *)
Definition escapeChar (c : ascii) : string :=
  let n := nat_of_ascii c in
  let escaped (d : ascii) := String "\" (String d EmptyString) in
  if n =? 34 then escaped "034"%char
  else if n =? 92 then escaped "\"%char
  else if n =? 8 then escaped "b"%char
  else if n =? 12 then escaped "f"%char
  else if n =? 10 then escaped "n"%char
  else if n =? 13 then escaped "r"%char
  else if n =? 9 then escaped "t"%char
  else if n <? 32 then
    String "\" (String "u" (String "0" (String "0"
      (String (hexDigit (n / 16)) (String (hexDigit (n mod 16)) EmptyString)))))
  else String c EmptyString.

Fixpoint escape (s : string) : string :=
  match s with
  | EmptyString => EmptyString
  | String c s' => (escapeChar c ++ escape s')%string
  end.

(** A string between its quotes. *)
Definition quote (s : string) : string :=
  String "034" (escape s ++ String "034" EmptyString)%string.

Fixpoint stringify (v : value) : string :=
  match v with
  | VNull => "null"
  | VBool true => "true"
  | VBool false => "false"
  | VNumber n => JS.showZ (integer n)
  | VString s => quote s
  | VArray items => ("[" ++ String.concat "," (map stringify items) ++ "]")%string
  | VObject members =>
      ("{" ++ String.concat ","
                (map (fun kv : string * value =>
                        let (k, v) := kv in (quote k ++ ":" ++ stringify v)%string)
                     members)
           ++ "}")%string
  end.

(** A value as the reader builds it. *)
Fixpoint written (v : value) : json :=
  match v with
  | VNull => JNull
  | VBool b => JBool b
  | VNumber n => JNumber (JS.showZ (integer n))
  | VString s => JString (unitsOf s)
  | VArray items => JArray (map written items)
  | VObject members =>
      JObject (map (fun kv : string * value => let (k, v) := kv in (unitsOf k, written v))
                   members)
  end.

(** The string of some code units, when all of them are below 256. *)
Fixpoint stringOf (s : units) : option string :=
  match s with
  | [] => Some EmptyString
  | u :: rest =>
      if (u <? 256)%N then option_map (String (ascii_of_N u)) (stringOf rest) else None
  end.

(** What was read as a value of the kind the stores write, when it is
    one: its numbers safe integers written as [String(n)] writes them,
    its strings of code units below 256. *)
Fixpoint valueOf (j : json) : option value :=
  match j with
  | JNull => Some VNull
  | JBool b => Some (VBool b)
  | JNumber lexeme =>
      match NilZero.int_of_string lexeme with
      | Some d =>
          if String.eqb (JS.showZ (Z.of_int d)) lexeme
          then option_map VNumber (safeOf (Z.of_int d))
          else None
      | None => None
      end
  | JString s => option_map VString (stringOf s)
  | JArray items =>
      option_map VArray
        (fold_right (fun item rest =>
                       match valueOf item, rest with
                       | Some v, Some vs => Some (v :: vs)
                       | _, _ => None
                       end)
                    (Some []) items)
  | JObject members =>
      option_map VObject
        (fold_right (fun (kj : units * json) rest =>
                       let (k, j') := kj in
                       match stringOf k, valueOf j', rest with
                       | Some key, Some v, Some kvs => Some ((key, v) :: kvs)
                       | _, _, _ => None
                       end)
                    (Some []) members)
  end.

End JSON.

(* ================================================================== *)
(** * The JSONL store: reading a log back *)
(* ================================================================== *)

Module JSONLStorage.

(** White space and line terminators below 256, what [trim] strips. *)
Definition isSpace (c : ascii) : bool :=
  let n := nat_of_ascii c in
  ((9 <=? n) && (n <=? 13)) || (n =? 32) || (n =? 160).

Fixpoint trimStart (s : string) : string :=
  match s with
  | EmptyString => EmptyString
  | String c s' => if isSpace c then trimStart s' else s
  end.

(** [s] without its trailing white space. *)
Fixpoint trimEnd (s : string) : string :=
  match s with
  | EmptyString => EmptyString
  | String c s' =>
      match trimEnd s' with
      | EmptyString => if isSpace c then EmptyString else String c EmptyString
      | t => String c t
      end
  end.

Definition trim (s : string) : string := trimEnd (trimStart s).

Definition nonEmpty (s : string) : bool :=
  match s with EmptyString => false | _ => true end.

(** [lines.map(line => JSON.parse(line))]: the first line that does not
    parse throws. *)
Fixpoint parseLines (lines : list string) : JS.result (list JSON.json) :=
  match lines with
  | [] => JS.Ok []
  | line :: rest =>
      match JSON.parse line with
      | None => JS.Throw "SyntaxError"
      | Some record =>
          match parseLines rest with
          | JS.Ok records => JS.Ok (record :: records)
          | JS.Throw e => JS.Throw e
          end
      end
  end.

(** The lines [readSnippets], [readClusters] and [readPatterns] parse. *)
Definition scannedLines (content : string) : list string :=
  filter (fun line => nonEmpty (trim line)) (JS.split "010" content).

(** The body shared by [readSnippets], [readClusters] and [readPatterns];
    [file] is [None] when [fs.readFile] throws.  Whatever is thrown inside
    the [try] is caught and answered by []. *)
Definition readLog (file : option string) : list JSON.json :=
  match file with
  | None => []
  | Some content =>
      match parseLines (scannedLines content) with
      | JS.Ok records => records
      | JS.Throw _ => []
      end
  end.

Definition readSnippets := readLog.
Definition readClusters := readLog.
Definition readPatterns := readLog.

(** The lines [loadJSONL] parses (the store of the library). *)
Definition loadedLines (content : string) : list string :=
  filter (fun line => 0 <? String.length line) (JS.split "010" (trim content)).

Definition loadJSONL (file : option string) : list JSON.json :=
  match file with
  | None => []
  | Some content =>
      match parseLines (loadedLines content) with
      | JS.Ok records => records
      | JS.Throw _ => []
      end
  end.

(** [arr.slice(start)] for an integer [start]: counted from the end when
    negative, and kept inside the array. *)
Definition sliceFrom {A} (start : Z) (l : list A) : list A :=
  let len := Z.of_nat (List.length l) in
  let from := if (start <? 0)%Z then Z.max (len + start) 0 else Z.min start len in
  skipn (Z.to_nat from) l.

(** [getLatestSnippets(limit)]: [snippets.slice(-limit).reverse()]. *)
Definition getLatestSnippets (limit : Z) (file : option string) : list JSON.json :=
  rev (sliceFrom (- limit) (readSnippets file)).

Definition newline : string := String "010" EmptyString.

(** [fs.appendFile(filepath, text)]: the file is made when it is not there. *)
Definition appendFile (file : option string) (text : string) : option string :=
  match file with
  | None => Some text
  | Some content => Some (content ++ text)%string
  end.

(** The body shared by [appendSnippet], [appendCluster] and
    [appendPattern]: one line, [JSON.stringify(record) + '\n']. *)
Definition appendRecord (file : option string) (record : JSON.value) : option string :=
  appendFile file (JSON.stringify record ++ newline)%string.

Definition appendSnippet := appendRecord.
Definition appendCluster := appendRecord.
Definition appendPattern := appendRecord.

(** The body shared by [saveSnippets], [saveClusters] and [savePatterns]
    of the library's store: the lines of all the records in one append. *)
Definition saveRecords (file : option string) (records : list JSON.value) : option string :=
  appendFile file
    (String.concat EmptyString
       (map (fun record => (JSON.stringify record ++ newline)%string) records)).

Definition saveSnippets := saveRecords.
Definition saveClusters := saveRecords.
Definition savePatterns := saveRecords.

(** [saveSnippet], [saveCluster] and [savePattern]: one record. *)
Definition saveRecord (file : option string) (record : JSON.value) : option string :=
  appendFile file (JSON.stringify record ++ newline)%string.

Definition loadSnippets := loadJSONL.
Definition loadClusters := loadJSONL.
Definition loadPatterns := loadJSONL.

End JSONLStorage.

(* ================================================================== *)
(** * The [synth] command: patterns mined cluster by cluster *)
(* ================================================================== *)

Module Synth.

(** One entry of [ngramCounts] and of [structurePatterns]. *)
Record entry : Type := mkEntry {
  count : nat;
  snippets : list string
}.

(** The body of both counting loops. *)
Definition tally (key id : string) (m : JSMap.t entry) : JSMap.t entry :=
  let m1 := if JSMap.has key m then m else JSMap.set key (mkEntry 0 []) m in
  match JSMap.get key m1 with
  | Some e => JSMap.set key (mkEntry (S (count e)) (JSSet.add String.eqb id (snippets e))) m1
  | None => m1
  end.

(** [Array.from(counts.entries()).map(...)]: one pattern per entry, its
    confidence the share of the [total] snippets that hold it. *)
Definition patternsOf (k : Pattern.kind) (total : nat) (m : JSMap.t entry)
  : list Cli.Pattern.t :=
  map (fun kd : string * entry =>
         let (content, data) := kd in
         Cli.Pattern.make k content (count data) (snippets data)
           (PrimFloat.div (JS.toFloat (Z.of_nat (List.length (snippets data))))
                          (JS.toFloat (Z.of_nat total))))
      m.

Definition extractNGramPatterns (snippets : list Cli.CodeSnippet.t) : list Cli.Pattern.t :=
  patternsOf Pattern.ngram (List.length snippets)
    (fold_left
       (fun m snippet =>
          let tokens := CodeTokenizer.tokenize (Cli.CodeSnippet.content snippet)
                                               (Cli.CodeSnippet.language snippet) in
          fold_left (fun m ngram => tally ngram (Cli.CodeSnippet.id snippet) m)
                    (CodeTokenizer.extractNGrams tokens 3) m)
       snippets []).

(** The code units of a string, each as a string of its own. *)
Definition chars (s : string) : list string :=
  map (fun c => String c EmptyString) (list_ascii_of_string s).

(** [findLCS(str1, str2)]: the table and the walk back through it are
    those of [PatternExtractor.findLCS], over code units instead of
    tokens, the result put together as a string. *)
Definition findLCS (str1 str2 : string) : string :=
  String.concat "" (PatternExtractor.findLCS (chars str1) (chars str2)).

Definition extractLCSPatterns (snippets : list Cli.CodeSnippet.t) : list Cli.Pattern.t :=
  flat_map
    (fun ab : Cli.CodeSnippet.t * Cli.CodeSnippet.t =>
       let lcs := findLCS (Cli.CodeSnippet.normalized (fst ab)) (Cli.CodeSnippet.normalized (snd ab)) in
       if 10 <? String.length lcs
       then [Cli.Pattern.make Pattern.lcs lcs 2
               [Cli.CodeSnippet.id (fst ab); Cli.CodeSnippet.id (snd ab)]
               0x1.999999999999ap-1%float]
       else [])
    (JS.pairs snippets).

(** [line.includes(word)]. *)
Definition includes (word line : string) : bool :=
  match Text.indexOf (Text.ofString word) (Text.ofString line) with
  | Some _ => true
  | None => false
  end.

(** What one trimmed line adds to the structure, if anything. *)
Definition lineTag (line : string) : option string :=
  let startsWith word := Text.startsWith (Text.ofString word) (Text.ofString line) in
  if startsWith "function" || startsWith "def" then Some "FUNCTION"
  else if startsWith "class" then Some "CLASS"
  else if startsWith "if" then Some "IF"
  else if startsWith "for" || startsWith "while" then Some "LOOP"
  else if includes "return" line then Some "RETURN"
  else if String.eqb line "{" || String.eqb line "}" then Some line
  else None.

(** The array [structure] of [extractSimpleStructure]. *)
Definition structure (code : string) : list string :=
  flat_map (fun line => match lineTag (JSONLStorage.trim line) with
                        | Some tag => [tag]
                        | None => []
                        end)
           (JS.split "010" code).

Definition extractSimpleStructure (code : string) : string :=
  JS.join " " (structure code).

Definition extractASTPatterns (snippets : list Cli.CodeSnippet.t) : list Cli.Pattern.t :=
  patternsOf Pattern.ast (List.length snippets)
    (fold_left
       (fun m snippet =>
          tally (extractSimpleStructure (Cli.CodeSnippet.content snippet))
                (Cli.CodeSnippet.id snippet) m)
       snippets []).

(** [new Map(snippets.map(s => [s.id, s]))]. *)
Definition snippetMapOf (snippets : list Cli.CodeSnippet.t) : JSMap.t Cli.CodeSnippet.t :=
  fold_left (fun m s => JSMap.set (Cli.CodeSnippet.id s) s m) snippets [].

(** The snippets of a cluster that the store knows. *)
Definition clusterSnippets (snippetMap : JSMap.t Cli.CodeSnippet.t) (cluster : Cli.CodeCluster.t)
  : list Cli.CodeSnippet.t :=
  flat_map (fun id => match JSMap.get id snippetMap with
                      | Some s => [s]
                      | None => []
                      end)
           (Cli.CodeCluster.snippets cluster).

(** [options.type || 'ngrams']. *)
Definition typeOf (type : option string) : string :=
  match type with
  | None | Some EmptyString => "ngrams"
  | Some t => t
  end.

(** The array [patterns] after the loop over the clusters. *)
Definition mined (type : string) (snippets : list Cli.CodeSnippet.t)
           (clusters : list Cli.CodeCluster.t) : list Cli.Pattern.t :=
  let snippetMap := snippetMapOf snippets in
  flat_map
    (fun cluster =>
       let found := clusterSnippets snippetMap cluster in
       if String.eqb type "ngrams" then extractNGramPatterns found
       else if String.eqb type "lcs" then extractLCSPatterns found
       else if String.eqb type "ast" then extractASTPatterns found
       else [])
    clusters.

(** [sort((a, b) => b.frequency - a.frequency)], a stable sort. *)
Fixpoint insert (p : Cli.Pattern.t) (l : list Cli.Pattern.t) : list Cli.Pattern.t :=
  match l with
  | [] => [p]
  | q :: l' =>
      if Cli.Pattern.frequency q <=? Cli.Pattern.frequency p then p :: l else q :: insert p l'
  end.

(** [synthCommand(options)] on what the store holds: the patterns it
    appends to the pattern log, in order; [None] where it leaves by
    [process.exit(1)] for want of clusters. *)
Definition synthCommand (type : option string) (snippets : list Cli.CodeSnippet.t)
           (clusters : list Cli.CodeCluster.t) : option (list Cli.Pattern.t) :=
  match clusters with
  | [] => None
  | _ =>
      let patterns := mined (typeOf type) snippets clusters in
      Some (firstn 100
              (fold_right insert []
                 (filter (fun p => 3 <=? Cli.Pattern.frequency p) patterns)))
  end.

End Synth.

(* ================================================================== *)
(** * Sample inputs *)
(* ================================================================== *)

Module Sample.

Definition twice : CodeSnippet.t :=
  CodeSnippet.make "s1" "a b c a b c" (JS.VStr "javascript") "s1.js" "" []
    ["a"; "b"; "c"; "a"; "b"; "c"] [] None.

Definition once : CodeSnippet.t :=
  CodeSnippet.make "s2" "a b c" (JS.VStr "python") "s2.py" "" []
    ["a"; "b"; "c"] [] None.

(** The pattern mined from [twice; once]. *)
Definition abc : Pattern.t :=
  Pattern.make Pattern.ngram "a b c" 3 ["s1"; "s2"]
    [JS.VStr "javascript"; JS.VStr "python"].

(** A one-function hash family: every draw is 0, so [a = 1] and [b = 0]. *)
Definition zeroDraws (k : nat) : Z := 0%Z.

Definition oneHash : Config.t :=
  Config.make 1 1 3 0x1.999999999999ap-1%float 0x1.6666666666666p-1%float.

(** A stand-in for [CodeTokenizer.tokenize] in worked examples: the words
    between single spaces. *)
Definition words (content : string) (language : JS.value) : list string :=
  JS.split " " content.

Definition smallClustering : Cli.ClusteringConfig.t :=
  Cli.ClusteringConfig.make 2 2 0x1.6666666666666p-1%float 2.

Definition draws (k : nat) : Z := (Z.of_nat k * 7919 + 13)%Z.

Definition cliSnippet (id content : string) : Cli.CodeSnippet.t :=
  Cli.CodeSnippet.make id content (JS.VStr "javascript") "f.js" 1 1 "" [] "".

Definition stored (id hash : string) (minHashes : list Z) : CodeSnippet.t :=
  CodeSnippet.make id "" (JS.VStr "javascript") "" hash minHashes [] [] None.

(** Two snippets with the same words and a third unlike them. *)
Definition trio : list Cli.CodeSnippet.t :=
  [cliSnippet "a" "x y z w"; cliSnippet "b" "x y z w"; cliSnippet "c" "q r s t"].

Definition pairCluster : Cli.CodeCluster.t :=
  Cli.CodeCluster.make "cluster-0" ["a"; "b"] (Some "a") 2 1%float.

(** Two stored snippets with the same content hash and signature. *)
Definition twins : list CodeSnippet.t :=
  [stored "first" "h1" [1; 2; 3; 4]%Z; stored "second" "h1" [1; 2; 3; 4]%Z].

(** Two bands of two rows: signatures of length 4. *)
Definition twoBands : Config.t :=
  Config.make 2 2 3 0x1.999999999999ap-1%float 0x1.6666666666666p-1%float.

(** [s1] and [s2] have one content hash; the signature of [s1] is that of
    [s0], the signature of [s2] agrees with it on one band only. *)
Definition s0 : CodeSnippet.t := stored "s0" "h0" [1; 2; 3; 4]%Z.
Definition s1 : CodeSnippet.t := stored "s1" "h1" [1; 2; 3; 4]%Z.
Definition s2 : CodeSnippet.t := stored "s2" "h1" [1; 2; 8; 9]%Z.

(** A record that repeats the id of [s0] and is like nothing kept. *)
Definition s0again : CodeSnippet.t := stored "s0" "h7" [5; 6; 7; 8]%Z.

Definition quote : string := String "034" EmptyString.
Definition newline : string := String "010" EmptyString.

(** The line [{"id":"<id>"}]. *)
Definition recordLine (id : string) : string :=
  ("{" ++ quote ++ "id" ++ quote ++ ":" ++ quote ++ id ++ quote ++ "}")%string.

Definition record (id : string) : JSON.json :=
  JSON.JObject [(JSON.unitsOf "id", JSON.JString (JSON.unitsOf id))].

(** A snippet as the command-line store writes it, and a record of one
    field. *)
Definition snippetValue : JSON.value :=
  JSON.VObject
    [("id", JSON.VString "snippet_1");
     ("content", JSON.VString ("let x = " ++ quote ++ "a" ++ quote ++ ";" ++ newline));
     ("language", JSON.VString "javascript");
     ("filepath", JSON.VString "src/a.js");
     ("lineStart", JSON.VNumber (JSON.Safe 1 eq_refl));
     ("lineEnd", JSON.VNumber (JSON.Safe 2 eq_refl));
     ("hash", JSON.VString "0f3a");
     ("tokens", JSON.VArray [JSON.VString "let"; JSON.VString "x"]);
     ("normalized", JSON.VString "VAR x = STR")].

Definition idValue : JSON.value := JSON.VObject [("id", JSON.VString "b")].

(** A log of two records. *)
Definition cleanLog : string :=
  (recordLine "a" ++ newline ++ recordLine "b" ++ newline)%string.

(** The same log with a line cut short between the two. *)
Definition tornLog : string :=
  (recordLine "a" ++ newline ++ "{" ++ quote ++ "id" ++ newline
   ++ recordLine "b" ++ newline)%string.

(** The log of two records with a line of one space between them. *)
Definition spacedLog : string :=
  (recordLine "a" ++ newline ++ " " ++ newline ++ recordLine "b" ++ newline)%string.

(** A javascript file of 100001 characters, and the identifiers handed to
    the files of a run. *)
Definition longFile : string :=
  Text.toString (repeat "a"%char (Z.to_nat 100001)).

Definition snippetIds (call : nat) : string :=
  ("snippet_" ++ JS.showZ (Z.of_nat call))%string.

(** A directory with a hidden sub-directory, a supported file, a text
    file, a link and a sub-directory holding a file that cannot be read. *)
Definition checkout : list (string * option CodeCollage.node) :=
  [("src",
    Some (CodeCollage.Directory
            [(".git", CodeCollage.Directory [("x.js", CodeCollage.File (Some "var y"))]);
             ("a.js", CodeCollage.File (Some "let x = 1"));
             ("notes.txt", CodeCollage.File (Some "hello"));
             ("link", CodeCollage.Other);
             ("lib", CodeCollage.Directory [("b.py", CodeCollage.File None)])]))].

(** A css text whose first comment ends where a second one seems to
    begin, the same one level deeper, the like in html, and a javascript
    text with every kind of thing [normalize] removes. *)
Definition commentInComment : string := "//* a */* bb */".
Definition nestedComments : string := "///*c*/*a*//*d*/*bb*/".
Definition htmlComment : string := "<!<!--a-->--bb-->".
Definition css : JS.value := JS.VStr "css".
Definition html : JS.value := JS.VStr "html".
Definition javascript : JS.value := JS.VStr "javascript".
Definition source : string :=
  ("let  s = 'a \' b' + " ++ quote ++ "c" ++ quote ++ "; // note" ++ newline
   ++ "/* about f */ f(s)")%string.

End Sample.

(* ================================================================== *)
(** * Properties *)
(* ================================================================== *)

Section JSFacts.
Import JS.

Lemma split_not_nil sep s : split sep s <> [].
Proof.
  destruct s as [|c s]; simpl; [discriminate|].
  destruct (Ascii.eqb c sep); [discriminate|].
  destruct (split sep s); discriminate.
Qed.

Lemma lower_char_code c :
  code (lower_char c) = if is_upper c then code c + 32 else code c.
Proof.
  unfold lower_char. destruct (is_upper c) eqn:E; [|reflexivity].
  unfold code. apply nat_ascii_embedding.
  unfold is_upper, code in E.
  apply orb_true_iff in E. destruct E as [E|E].
  - apply andb_true_iff in E. destruct E as [_ E]. apply Nat.leb_le in E. lia.
  - apply andb_true_iff in E. destruct E as [E _].
    apply andb_true_iff in E. destruct E as [_ E]. apply Nat.leb_le in E. lia.
Qed.

Lemma code_inj c d : code c = code d -> c = d.
Proof.
  unfold code. intros H.
  rewrite <- (ascii_nat_embedding c), <- (ascii_nat_embedding d). now rewrite H.
Qed.

(** Lower-casing never makes or unmakes a dot. *)
Lemma lower_char_dot c : Ascii.eqb (lower_char c) "."%char = Ascii.eqb c "."%char.
Proof.
  destruct (Ascii.eqb c ".") eqn:E.
  - apply Ascii.eqb_eq in E. subst c. reflexivity.
  - apply Ascii.eqb_neq in E. apply Ascii.eqb_neq. intros H. apply E.
    apply code_inj. apply (f_equal code) in H. rewrite lower_char_code in H.
    change (code ".") with 46 in *.
    destruct (is_upper c) eqn:U; [|exact H].
    unfold is_upper in U. apply orb_true_iff in U. destruct U as [U|U].
    + apply andb_true_iff in U. destruct U as [U _]. apply Nat.leb_le in U. lia.
    + apply andb_true_iff in U. destruct U as [U _].
      apply andb_true_iff in U. destruct U as [U _]. apply Nat.leb_le in U. lia.
Qed.

Lemma split_toLowerCase s :
  split "." (toLowerCase s) = map toLowerCase (split "." s).
Proof.
  induction s as [|c s IH]; simpl; [reflexivity|].
  rewrite lower_char_dot. destruct (Ascii.eqb c "."); simpl.
  - now rewrite IH.
  - rewrite IH. destruct (split "." s); reflexivity.
Qed.

Lemma last_map {A B} (f : A -> B) l d e :
  l <> [] -> last (map f l) e = f (last l d).
Proof.
  induction l as [|x l IH]; intros Hl; [congruence|].
  destruct l as [|y l]; [reflexivity|].
  change (last (map f (y :: l)) e = f (last (y :: l) d)). apply IH. discriminate.
Qed.

End JSFacts.

(* ------------------------------------------------------------------ *)
(** ** Language detection *)

Section DetectLanguage.

Lemma last_segment_split filename :
  last_segment filename = Some (last (JS.split "." filename) EmptyString).
Proof.
  unfold last_segment, JS.pop.
  destruct (JS.split "." filename) eqn:E; [|reflexivity].
  now apply split_not_nil in E.
Qed.

Lemma Tokenizer_detectLanguage_ext filename content :
  Tokenizer.detectLanguage filename content =
  JS.or_else (JS.get Tokenizer.extensions (extension filename)) "text".
Proof.
  unfold Tokenizer.detectLanguage, extension.
  rewrite last_segment_split. cbn [option_map].
  generalize (JS.toLowerCase (last (JS.split "." filename) EmptyString)).
  intros e. destruct e; reflexivity.
Qed.

Lemma CodeTokenizer_detectLanguage_ext filepath :
  CodeTokenizer.detectLanguage filepath =
  JS.or_else (JS.get CodeTokenizer.langMap (extension filepath)) "unknown".
Proof.
  unfold CodeTokenizer.detectLanguage, extension.
  rewrite last_segment_split, split_toLowerCase.
  rewrite (last_map JS.toLowerCase EmptyString EmptyString) by apply split_not_nil.
  generalize (JS.toLowerCase (last (JS.split "." filepath) EmptyString)).
  intros e. destruct e; reflexivity.
Qed.

(** C9, as stated, fails on the [Tokenizer] class: a file name whose
    extension is in no table is tagged [text], not [unknown]. *)
Lemma detectLanguage_unknown_counterexample :
  JS.own Tokenizer.extensions (extension "notes.xyz") = None /\
  Tokenizer.detectLanguage "notes.xyz" None = JS.VStr "text" /\
  Tokenizer.detectLanguage "notes.xyz" None <> JS.VStr "unknown".
Proof.
  split; [reflexivity|]. split; [reflexivity|]. discriminate.
Qed.

(** A text without a dot. *)
Definition dotless (s : string) : Prop := ~ In "."%char (list_ascii_of_string s).

Lemma split_dotless (s : string) : dotless s -> JS.split "." s = [s].
Proof.
  unfold dotless. induction s as [|c s IH]; cbn; [reflexivity|]. intros H.
  destruct (Ascii.eqb_spec c ".") as [->|_]; [tauto|].
  rewrite IH by tauto. reflexivity.
Qed.

Lemma last_split_after_dot (stem rest : string) (d : string) :
  last (JS.split "." (stem ++ String "." rest)) d = last (JS.split "." rest) d.
Proof.
  enough (G : exists h t, JS.split "." (stem ++ String "." rest) = h :: t /\ t <> []
                          /\ last t d = last (JS.split "." rest) d).
  { destruct G as (h & t & -> & Ht & <-). destruct t; [congruence | reflexivity]. }
  induction stem as [|c stem (h & t & E & Ht & El)]; cbn [append JS.split].
  - exists EmptyString, (JS.split "." rest). split; [reflexivity|].
    split; [apply split_not_nil | reflexivity].
  - destruct (Ascii.eqb c ".").
    + exists EmptyString, (h :: t). rewrite E. split; [reflexivity|].
      split; [discriminate|]. destruct t; [congruence | exact El].
    + rewrite E. exists (String c h), t. auto.
Qed.

(** C9 (amended): for a file name whose lower-cased extension is in
    neither table and is not the name of a member every object inherits,
    [CodeTokenizer.detectLanguage] answers [unknown] and
    [Tokenizer.detectLanguage] answers [text]; and both answers are a
    function of the extension alone: two file names with the same
    extension get the same answer whatever content is passed along.  The
    extension is the last of the pieces the name falls into at its dots,
    in lower case: what stands after the last dot, and the whole name
    when it has no dot. *)
Theorem detectLanguage_by_extension_only :
  (forall filename content,
      JS.inherited (extension filename) = false ->
      (JS.own CodeTokenizer.langMap (extension filename) = None ->
       CodeTokenizer.detectLanguage filename = JS.VStr "unknown") /\
      (JS.own Tokenizer.extensions (extension filename) = None ->
       Tokenizer.detectLanguage filename content = JS.VStr "text")) /\
  (forall f1 f2 content1 content2,
      extension f1 = extension f2 ->
      CodeTokenizer.detectLanguage f1 = CodeTokenizer.detectLanguage f2 /\
      Tokenizer.detectLanguage f1 content1 = Tokenizer.detectLanguage f2 content2) /\
  (forall stem ext,
      dotless ext -> extension (stem ++ String "." ext) = JS.toLowerCase ext) /\
  (forall name, dotless name -> extension name = JS.toLowerCase name).
Proof.
  split; [|split; [|split]].
  - intros filename content Hinh. split; intros Hown.
    + rewrite CodeTokenizer_detectLanguage_ext. unfold JS.get.
      now rewrite Hown, Hinh.
    + rewrite Tokenizer_detectLanguage_ext. unfold JS.get.
      now rewrite Hown, Hinh.
  - intros f1 f2 c1 c2 Hext.
    rewrite !CodeTokenizer_detectLanguage_ext, !Tokenizer_detectLanguage_ext.
    now rewrite Hext.
  - intros stem ext Hext. unfold extension.
    now rewrite last_split_after_dot, split_dotless.
  - intros name Hname. unfold extension. now rewrite split_dotless.
Qed.

Lemma detectLanguage_by_extension_only_witness :
  (CodeTokenizer.detectLanguage "test.unknown" = JS.VStr "unknown" /\
   Tokenizer.detectLanguage "test.unknown" (Some "int x;"%string) = JS.VStr "text") /\
  (CodeTokenizer.detectLanguage "a/Main.PY" = CodeTokenizer.detectLanguage "b.py" /\
   Tokenizer.detectLanguage "a/Main.PY" None = Tokenizer.detectLanguage "b.py" (Some "x"%string)) /\
  extension "lib.v2/Main.PY" = "py"%string /\
  extension "Makefile" = "makefile"%string /\
  extension "go" = "go"%string.
Proof.
  assert (Hdot : forall s, forallb (fun c => negb (Ascii.eqb c ".")) (list_ascii_of_string s)
                           = true -> dotless s).
  { intros s H Hin. rewrite forallb_forall in H. specialize (H _ Hin).
    now rewrite Ascii.eqb_refl in H. }
  split; [|split; [|split; [|split]]].
  - pose proof (proj1 detectLanguage_by_extension_only "test.unknown"
                  (Some "int x;"%string) eq_refl) as [H1 H2].
    split; [apply H1 | apply H2]; reflexivity.
  - apply (proj1 (proj2 detectLanguage_by_extension_only) "a/Main.PY" "b.py"). reflexivity.
  - apply (proj1 (proj2 (proj2 detectLanguage_by_extension_only)) "lib.v2/Main" "PY").
    apply Hdot. reflexivity.
  - apply (proj2 (proj2 (proj2 detectLanguage_by_extension_only)) "Makefile").
    apply Hdot. reflexivity.
  - apply (proj2 (proj2 (proj2 detectLanguage_by_extension_only)) "go").
    apply Hdot. reflexivity.
Defined.

End DetectLanguage.

(* ------------------------------------------------------------------ *)
(** ** Insertion-ordered maps and sets *)

Section MapFacts.
Context {V : Type}.
Implicit Types (m : JSMap.t V) (k : string) (v : V).

Lemma get_set_same k v m : JSMap.get k (JSMap.set k v m) = Some v.
Proof.
  induction m as [|[k' v'] m IH]; simpl.
  - now rewrite String.eqb_refl.
  - destruct (String.eqb k' k) eqn:E; simpl; rewrite E; auto.
Qed.

Lemma get_set_other k k' v m :
  k <> k' -> JSMap.get k' (JSMap.set k v m) = JSMap.get k' m.
Proof.
  intros Hne. induction m as [|[k0 v0] m IH]; simpl.
  - apply String.eqb_neq in Hne. now rewrite Hne.
  - destruct (String.eqb k0 k) eqn:E; simpl.
    + apply String.eqb_eq in E. subst k0.
      apply String.eqb_neq in Hne. now rewrite Hne.
    + destruct (String.eqb k0 k'); auto.
Qed.

Lemma keys_set k v m :
  JSMap.keys (JSMap.set k v m) =
  if JSMap.has k m then JSMap.keys m else JSMap.keys m ++ [k].
Proof.
  unfold JSMap.has, JSMap.keys.
  induction m as [|[k0 v0] m IH]; simpl; [reflexivity|].
  destruct (String.eqb k0 k) eqn:E; simpl; [reflexivity|].
  rewrite IH. now destruct (JSMap.get k m).
Qed.

Lemma get_none_keys k m : JSMap.get k m = None <-> ~ In k (JSMap.keys m).
Proof.
  unfold JSMap.keys. induction m as [|[k0 v0] m IH]; simpl; [tauto|].
  destruct (String.eqb k0 k) eqn:E.
  - apply String.eqb_eq in E. split; [discriminate | tauto].
  - apply String.eqb_neq in E. rewrite IH. tauto.
Qed.

Lemma NoDup_keys_set k v m : NoDup (JSMap.keys m) -> NoDup (JSMap.keys (JSMap.set k v m)).
Proof.
  intros H. rewrite keys_set. unfold JSMap.has.
  destruct (JSMap.get k m) eqn:E; [exact H|].
  apply get_none_keys in E.
  apply NoDup_app; [exact H | constructor; [tauto | constructor] |].
  intros x Hx [<-|[]]. contradiction.
Qed.

Lemma get_of_In k v m : NoDup (JSMap.keys m) -> In (k, v) m -> JSMap.get k m = Some v.
Proof.
  unfold JSMap.keys. induction m as [|[k0 v0] m IH]; simpl; [tauto|].
  intros Hnd [Heq|Hin].
  - inversion Heq; subst. now rewrite String.eqb_refl.
  - inversion Hnd as [|? ? Hnot Hnd']; subst.
    destruct (String.eqb k0 k) eqn:E; [|auto].
    apply String.eqb_eq in E. subst k0. exfalso. apply Hnot.
    change k with (fst (k, v)). now apply in_map.
Qed.

End MapFacts.

Section SetFacts.
Context {A : Type} (eqb : A -> A -> bool).
Hypothesis eqb_spec : forall x y, eqb x y = true <-> x = y.

Lemma set_has_In x s : JSSet.has eqb x s = true <-> In x s.
Proof.
  unfold JSSet.has. rewrite existsb_exists. split.
  - intros (y & Hy & E). apply eqb_spec in E. now subst.
  - intros H. exists x. split; [exact H | now apply eqb_spec].
Qed.

Lemma set_add_In x y s : In y (JSSet.add eqb x s) <-> y = x \/ In y s.
Proof.
  unfold JSSet.add. destruct (JSSet.has eqb x s) eqn:E.
  - apply set_has_In in E. split; [tauto | intros [->|]; auto].
  - rewrite in_app_iff. simpl. split; [intros [|[|[]]]; auto | intros [|]; auto].
Qed.

Lemma set_add_NoDup x s : NoDup s -> NoDup (JSSet.add eqb x s).
Proof.
  intros H. unfold JSSet.add. destruct (JSSet.has eqb x s) eqn:E; [exact H|].
  assert (Hx : ~ In x s) by (rewrite <- set_has_In; congruence).
  apply NoDup_app; [exact H | constructor; [tauto | constructor] |].
  intros y Hy [<-|[]]. contradiction.
Qed.

Lemma set_add_length x s : List.length (JSSet.add eqb x s) <= S (List.length s).
Proof.
  unfold JSSet.add. destruct (JSSet.has eqb x s); [lia|].
  rewrite length_app. simpl. lia.
Qed.

End SetFacts.

(* ------------------------------------------------------------------ *)
(** ** Pattern frequencies *)

Section Counting.
Import PatternExtractor.

(** What one more occurrence in [snippet] makes of a key's entry. *)
Definition bump (snippet : CodeSnippet.t) (e : option entry) : entry :=
  let e0 := match e with Some e => e | None => mkEntry 0 [] [] end in
  mkEntry (S (count e0))
          (JSSet.add String.eqb (CodeSnippet.id snippet) (snippets e0))
          (JSSet.add JSValue.eqb (CodeSnippet.language snippet) (languages e0)).

Lemma get_tally key snippet m k :
  JSMap.get k (tally key snippet m) =
  if String.eqb key k then Some (bump snippet (JSMap.get key m)) else JSMap.get k m.
Proof.
  unfold tally, JSMap.has, bump.
  destruct (JSMap.get key m) as [e|] eqn:G.
  - rewrite G. destruct (String.eqb key k) eqn:E.
    + apply String.eqb_eq in E. subst k. apply get_set_same.
    + apply String.eqb_neq in E. now apply get_set_other.
  - rewrite get_set_same. destruct (String.eqb key k) eqn:E.
    + apply String.eqb_eq in E. subst k. apply get_set_same.
    + apply String.eqb_neq in E. now rewrite !get_set_other.
Qed.

Lemma NoDup_keys_tally key snippet m :
  NoDup (JSMap.keys m) -> NoDup (JSMap.keys (tally key snippet m)).
Proof.
  intros H. unfold tally.
  assert (H1 : NoDup (JSMap.keys (if JSMap.has key m then m
                                  else JSMap.set key (mkEntry 0 [] []) m))).
  { destruct (JSMap.has key m); [exact H | now apply NoDup_keys_set]. }
  destruct (JSMap.get key _); [now apply NoDup_keys_set | exact H1].
Qed.

(** The occurrences seen by the counting loops, in loop order. *)
Definition events (keysOf : CodeSnippet.t -> list string) (l : list CodeSnippet.t)
  : list (string * CodeSnippet.t) :=
  flat_map (fun snippet => map (fun key => (key, snippet)) (keysOf snippet)) l.

Definition tallyAll (evs : list (string * CodeSnippet.t)) (m : JSMap.t entry) :=
  fold_left (fun m ev => tally (fst ev) (snd ev) m) evs m.

Lemma countKeys_events keysOf l : countKeys keysOf l = tallyAll (events keysOf l) [].
Proof.
  unfold countKeys, tallyAll, events. generalize (@nil (string * entry)) as m.
  induction l as [|s l IH]; intros m; simpl; [reflexivity|].
  rewrite fold_left_app, IH. f_equal.
  generalize m. induction (keysOf s) as [|k ks IHk]; intros m0; simpl; auto.
Qed.

Lemma map_fst_events keysOf l : map fst (events keysOf l) = flat_map keysOf l.
Proof.
  unfold events. induction l as [|s l IH]; simpl; [reflexivity|].
  rewrite map_app, IH, map_map. simpl. now rewrite map_id.
Qed.

(** The history of one key. *)
Definition replay (k : string) (evs : list (string * CodeSnippet.t)) (e : option entry)
  : option entry :=
  fold_left (fun e ev => if String.eqb (fst ev) k then Some (bump (snd ev) e) else e) evs e.

Lemma get_tallyAll k evs m : JSMap.get k (tallyAll evs m) = replay k evs (JSMap.get k m).
Proof.
  unfold tallyAll, replay. revert m.
  induction evs as [|[key s] evs IH]; intros m; simpl; [reflexivity|].
  rewrite IH, get_tally.
  destruct (String.eqb key k) eqn:E; [|reflexivity].
  apply String.eqb_eq in E. now subst.
Qed.

Lemma NoDup_keys_tallyAll evs m :
  NoDup (JSMap.keys m) -> NoDup (JSMap.keys (tallyAll evs m)).
Proof.
  unfold tallyAll. revert m. induction evs as [|ev evs IH]; intros m H; simpl; auto.
  apply IH. now apply NoDup_keys_tally.
Qed.

Definition entry_ok (k : string) (seen : list (string * CodeSnippet.t)) (e : option entry) : Prop :=
  match e with
  | None => count_occ string_dec (map fst seen) k = 0
  | Some d =>
      count d = count_occ string_dec (map fst seen) k /\
      NoDup (snippets d) /\
      (forall i, In i (snippets d) <->
                 exists s, In (k, s) seen /\ CodeSnippet.id s = i) /\
      List.length (snippets d) <= count d
  end.

Lemma entry_ok_step k seen e ev :
  entry_ok k seen e ->
  entry_ok k (seen ++ [ev])
           (if String.eqb (fst ev) k then Some (bump (snd ev) e) else e).
Proof.
  destruct ev as [key s]. simpl. intros H.
  destruct (String.eqb key k) eqn:E.
  - apply String.eqb_eq in E. subst key.
    assert (Hc : count_occ string_dec (map fst (seen ++ [(k, s)])) k
                 = S (count_occ string_dec (map fst seen) k)).
    { rewrite map_app, count_occ_app. simpl.
      destruct (string_dec k k); [lia | congruence]. }
    unfold entry_ok, bump. rewrite Hc.
    destruct e as [d|]; simpl in *.
    + destruct H as (H1 & H2 & H3 & H4). repeat split.
      * now rewrite H1.
      * apply set_add_NoDup; [apply String.eqb_eq | exact H2].
      * intros Hi. apply (set_add_In _ String.eqb_eq) in Hi.
        destruct Hi as [->|Hi].
        -- exists s. rewrite in_app_iff. simpl. auto.
        -- apply H3 in Hi. destruct Hi as (s' & Hs' & Hid).
           exists s'. rewrite in_app_iff. auto.
      * intros (s' & Hs' & Hid). apply (set_add_In _ String.eqb_eq).
        rewrite in_app_iff in Hs'. destruct Hs' as [Hs'|[Hs'|[]]].
        -- right. apply H3. eauto.
        -- inversion Hs'; subst. now left.
      * pose proof (set_add_length String.eqb (CodeSnippet.id s) (snippets d)). lia.
    + repeat split.
      * now rewrite H.
      * constructor; [intros [] | constructor].
      * intros [<-|[]]. exists s. rewrite in_app_iff. simpl. auto.
      * intros (s' & Hs' & Hid).
        rewrite in_app_iff in Hs'. destruct Hs' as [Hs'|[Hs'|[]]].
        -- exfalso. apply (in_map fst) in Hs'. simpl in Hs'.
           apply (count_occ_In string_dec) in Hs'. lia.
        -- inversion Hs'; subst. now left.
      * lia.
  - apply String.eqb_neq in E.
    assert (Hc : count_occ string_dec (map fst (seen ++ [(key, s)])) k
                 = count_occ string_dec (map fst seen) k).
    { rewrite map_app, count_occ_app. simpl.
      destruct (string_dec key k); [congruence | lia]. }
    unfold entry_ok in *. rewrite Hc. destruct e as [d|]; [|exact H].
    destruct H as (H1 & H2 & H3 & H4). repeat split; auto.
    + intros Hi. apply H3 in Hi. destruct Hi as (s' & Hs' & Hid).
      exists s'. rewrite in_app_iff. auto.
    + intros (s' & Hs' & Hid). apply H3. exists s'. split; [|exact Hid].
      rewrite in_app_iff in Hs'. destruct Hs' as [Hs'|[Hs'|[]]]; [exact Hs'|].
      inversion Hs'. congruence.
Qed.

Lemma entry_ok_replay k evs : forall seen e,
  entry_ok k seen e -> entry_ok k (seen ++ evs) (replay k evs e).
Proof.
  unfold replay. induction evs as [|ev evs IH]; intros seen e H; simpl.
  - now rewrite app_nil_r.
  - replace (seen ++ ev :: evs) with ((seen ++ [ev]) ++ evs)
      by (now rewrite <- app_assoc).
    apply IH. now apply entry_ok_step.
Qed.

Lemma In_events keysOf l k s :
  In (k, s) (events keysOf l) <-> In s l /\ In k (keysOf s).
Proof.
  unfold events. rewrite in_flat_map. split.
  - intros (s' & Hs' & Hin). apply in_map_iff in Hin.
    destruct Hin as (k' & Heq & Hk'). inversion Heq; subst. auto.
  - intros [Hs Hk]. exists s. split; [exact Hs|].
    apply in_map_iff. exists k. auto.
Qed.

(** Every entry of the counting map: its count is the number of
    occurrences of its key over all snippets, its snippet set the ids of
    the snippets the key occurs in, each once. *)
Lemma countKeys_entry keysOf l k d :
  In (k, d) (countKeys keysOf l) ->
  count d = count_occ string_dec (flat_map keysOf l) k /\
  NoDup (snippets d) /\
  (forall i, In i (snippets d) <->
             exists s, In s l /\ CodeSnippet.id s = i /\ In k (keysOf s)) /\
  List.length (snippets d) <= count d.
Proof.
  intros Hin. rewrite countKeys_events in Hin.
  apply get_of_In in Hin; [|apply NoDup_keys_tallyAll; constructor].
  rewrite get_tallyAll in Hin. simpl in Hin.
  pose proof (@entry_ok_replay k (events keysOf l) [] None eq_refl) as H.
  rewrite Hin in H. simpl in H. rewrite map_fst_events in H.
  destruct H as (H1 & H2 & H3 & H4). repeat split; auto.
  - intros Hi. apply H3 in Hi. destruct Hi as (s & Hs & Hid).
    apply In_events in Hs. exists s. tauto.
  - intros (s & Hs & Hid & Hk). apply H3. exists s. split; [|exact Hid].
    apply In_events. tauto.
Qed.

Lemma In_emit kind m p :
  In p (emit kind m) <->
  exists k d, In (k, d) m /\ 2 <= count d /\
              p = Pattern.make kind k (count d) (snippets d) (languages d).
Proof.
  unfold emit. rewrite in_flat_map. split.
  - intros ([k d] & Hin & Hp). destruct (2 <=? count d) eqn:E; [|destruct Hp].
    apply Nat.leb_le in E. destruct Hp as [<-|[]]. eauto.
  - intros (k & d & Hin & Hc & ->). exists (k, d). split; [exact Hin|].
    apply Nat.leb_le in Hc. rewrite Hc. now left.
Qed.

Lemma lcsStep_frequency st pr :
  Forall (fun p => Pattern.type p = Pattern.lcs /\ Pattern.frequency p = 2) (snd st) ->
  Forall (fun p => Pattern.type p = Pattern.lcs /\ Pattern.frequency p = 2)
         (snd (lcsStep st pr)).
Proof.
  destruct st as [processed patterns], pr as [s1 s2]. unfold lcsStep.
  cbv zeta. cbn [snd]. intros H.
  repeat match goal with
         | |- context [if ?c then _ else _] => destruct c
         end; cbn [snd]; try exact H.
  apply Forall_app. split; [exact H|]. constructor; [|constructor]. now split.
Qed.

Lemma extractLCSPatterns_frequency l :
  Forall (fun p => Pattern.type p = Pattern.lcs /\ Pattern.frequency p = 2)
         (extractLCSPatterns l).
Proof.
  unfold extractLCSPatterns.
  assert (H : forall prs st,
             Forall (fun p => Pattern.type p = Pattern.lcs /\ Pattern.frequency p = 2) (snd st) ->
             Forall (fun p => Pattern.type p = Pattern.lcs /\ Pattern.frequency p = 2)
                    (snd (fold_left lcsStep prs st))).
  { induction prs as [|pr prs IH]; intros st Hst; simpl; [exact Hst|].
    apply IH. now apply lcsStep_frequency. }
  apply H. constructor.
Qed.

Lemma insert_perm p l : Permutation (p :: l) (insert p l).
Proof.
  induction l as [|q l IH]; simpl; [apply Permutation_refl|].
  destruct (compare p q <=? 0)%Z; [apply Permutation_refl|].
  eapply Permutation_trans; [apply perm_swap|]. now apply perm_skip.
Qed.

(** Ranking reorders and nothing else. *)
Lemma rankPatterns_perm l : Permutation l (rankPatterns l).
Proof.
  unfold rankPatterns. induction l as [|p l IH]; simpl; [constructor|].
  eapply Permutation_trans; [apply perm_skip, IH | apply insert_perm].
Qed.

End Counting.

Section Frequencies.
Import PatternExtractor.
Variable extractStructuralPatterns : string -> JS.value -> list string.
Variable ngramSize : nat.

(** The keys a snippet contributes to the tier of a pattern type. *)
Definition tierKeys (k : Pattern.kind) (s : CodeSnippet.t) : list string :=
  match k with
  | Pattern.ngram => ngramKeys ngramSize s
  | Pattern.ast => structureKeys extractStructuralPatterns s
  | Pattern.lcs => []
  end.

(** C1 (amended): the frequency of an n-gram or structural pattern is the
    number of occurrences of its content over all snippets, a snippet that
    holds it several times counting several times; that number is at least
    2 and at least the number of distinct ids in the pattern's snippet set,
    which lists each snippet holding the content once.  The frequency of an
    LCS pattern is 2. *)
Theorem pattern_frequency_counts_occurrences (l : list CodeSnippet.t) (p : Pattern.t) :
  In p (extractPatterns extractStructuralPatterns ngramSize l) ->
  match Pattern.type p with
  | Pattern.lcs => Pattern.frequency p = 2
  | tier =>
      Pattern.frequency p =
        count_occ string_dec (flat_map (tierKeys tier) l) (Pattern.content p) /\
      2 <= Pattern.frequency p /\
      NoDup (Pattern.snippets p) /\
      (forall i, In i (Pattern.snippets p) <->
                 exists s, In s l /\ CodeSnippet.id s = i /\
                           In (Pattern.content p) (tierKeys tier s)) /\
      List.length (Pattern.snippets p) <= Pattern.frequency p
  end.
Proof.
  unfold extractPatterns. intros Hin.
  apply (Permutation_in _ (Permutation_sym (rankPatterns_perm _))) in Hin.
  rewrite !in_app_iff in Hin. destruct Hin as [Hin|[Hin|Hin]].
  - unfold extractNGramPatterns in Hin. apply In_emit in Hin.
    destruct Hin as (k & d & Hkd & Hc & ->). simpl.
    apply countKeys_entry in Hkd. tauto.
  - pose proof (extractLCSPatterns_frequency l) as H.
    rewrite Forall_forall in H. destruct (H p Hin) as [-> ->]. reflexivity.
  - unfold extractASTPatterns in Hin. apply In_emit in Hin.
    destruct Hin as (k & d & Hkd & Hc & ->). simpl.
    apply countKeys_entry in Hkd. tauto.
Qed.

End Frequencies.

(** C1, as stated, fails: one snippet whose tokens hold the window
    [a b c] twice yields an n-gram pattern of frequency 2 whose snippet set
    has one id. *)
Lemma pattern_frequency_counterexample :
  exists p,
    In p (PatternExtractor.extractPatterns (fun _ _ => []) 3 [Sample.twice]) /\
    Pattern.type p = Pattern.ngram /\
    Pattern.snippets p = ["s1"] /\
    NoDup (Pattern.snippets p) /\
    Pattern.frequency p = 2 /\
    Pattern.frequency p <> List.length (Pattern.snippets p).
Proof.
  eexists. split; [left; reflexivity|]. simpl.
  repeat split; try discriminate.
  constructor; [intros [] | constructor].
Qed.

Lemma pattern_frequency_counts_occurrences_witness :
  Pattern.frequency Sample.abc =
    count_occ string_dec
      (flat_map (tierKeys (fun _ _ => []) 3 Pattern.ngram) [Sample.twice; Sample.once])
      "a b c" /\
  2 <= Pattern.frequency Sample.abc /\
  NoDup (Pattern.snippets Sample.abc) /\
  (forall i, In i (Pattern.snippets Sample.abc) <->
             exists s, In s [Sample.twice; Sample.once] /\ CodeSnippet.id s = i /\
                       In "a b c" (tierKeys (fun _ _ => []) 3 Pattern.ngram s)) /\
  List.length (Pattern.snippets Sample.abc) <= Pattern.frequency Sample.abc.
Proof.
  exact (@pattern_frequency_counts_occurrences (fun _ _ => []) 3
           [Sample.twice; Sample.once] Sample.abc (or_introl eq_refl)).
Defined.

(* ------------------------------------------------------------------ *)
(** ** Longest common subsequence *)

Inductive Subseq {A : Type} : list A -> list A -> Prop :=
| Subseq_nil : Subseq [] []
| Subseq_skip x s l : Subseq s l -> Subseq s (x :: l)
| Subseq_take x s l : Subseq s l -> Subseq (x :: s) (x :: l).

Section SubseqFacts.
Context {A : Type}.
Implicit Types (s l : list A) (x : A).

Lemma Subseq_nil_l l : Subseq [] l.
Proof. induction l; constructor; auto. Qed.

Lemma Subseq_nil_r s : Subseq s [] -> s = [].
Proof. now inversion 1. Qed.

Lemma Subseq_refl l : Subseq l l.
Proof. induction l; [apply Subseq_nil | now apply Subseq_take]. Qed.

Lemma Subseq_length s l : Subseq s l -> List.length s <= List.length l.
Proof. induction 1; simpl; lia. Qed.

Lemma Subseq_app s1 l1 s2 l2 :
  Subseq s1 l1 -> Subseq s2 l2 -> Subseq (s1 ++ s2) (l1 ++ l2).
Proof.
  induction 1; intros H2; simpl;
    [exact H2 | apply Subseq_skip; auto | apply Subseq_take; auto].
Qed.

Lemma Subseq_snoc_skip s l x : Subseq s l -> Subseq s (l ++ [x]).
Proof.
  intros H. rewrite <- (app_nil_r s).
  apply Subseq_app; [exact H | apply Subseq_nil_l].
Qed.

Lemma Subseq_snoc_take s l x : Subseq s l -> Subseq (s ++ [x]) (l ++ [x]).
Proof. intros H. apply Subseq_app; [exact H | apply Subseq_refl]. Qed.

(** A subsequence of [l ++ [x]] either avoids the last place or ends there. *)
Lemma Subseq_snoc_inv s l x :
  Subseq s (l ++ [x]) ->
  Subseq s l \/ exists s', s = s' ++ [x] /\ Subseq s' l.
Proof.
  revert s. induction l as [|y l IH]; intros s H; simpl in H.
  - inversion H as [|? ? ? H1|? ? ? H1]; subst.
    + apply Subseq_nil_r in H1. subst. left. constructor.
    + apply Subseq_nil_r in H1. subst. right. exists []. split; [reflexivity | constructor].
  - inversion H as [|? ? ? H1|? ? ? H1]; subst.
    + destruct (IH _ H1) as [H2|(s' & -> & H2)].
      * left. now constructor.
      * right. exists s'. split; [reflexivity | now constructor].
    + destruct (IH _ H1) as [H2|(s' & -> & H2)].
      * left. now constructor.
      * right. exists (y :: s'). split; [reflexivity | now constructor].
Qed.

Lemma Subseq_removelast s l x : Subseq s (l ++ [x]) -> Subseq (removelast s) l.
Proof.
  intros H. apply Subseq_snoc_inv in H. destruct H as [H|(s' & -> & H)].
  - clear x. induction H; simpl.
    + constructor.
    + now constructor.
    + destruct s as [|y s]; [apply Subseq_nil_l | now constructor].
  - now rewrite removelast_last.
Qed.

Lemma length_removelast_le s : List.length s <= S (List.length (removelast s)).
Proof.
  induction s as [|x s IH]; simpl; [lia|]. destruct s; simpl in *; lia.
Qed.

End SubseqFacts.

Section TableFacts.
Import JS PatternExtractor.

Lemma length_set_nth {A} n (v : A) l : List.length (set_nth n v l) = List.length l.
Proof. revert n. induction l; intros [|n]; simpl; auto. Qed.

Lemma nth_set_nth {A} n k (v d : A) l :
  n < List.length l ->
  nth k (set_nth n v l) d = if k =? n then v else nth k l d.
Proof.
  revert n k. induction l as [|x l IH]; intros n k Hn; simpl in *; [lia|].
  destruct n as [|n], k as [|k]; simpl; auto.
  apply IH. lia.
Qed.

(** Shape of the table: [rows] rows of [cols] cells. *)
Definition shaped (rows cols : nat) (dp : table) : Prop :=
  List.length dp = rows /\ forall i, i < rows -> List.length (nth i dp []) = cols.

Lemma shaped_set_cell rows cols dp i j v :
  shaped rows cols dp -> i < rows -> shaped rows cols (set_cell dp i j v).
Proof.
  intros [Hr Hc] Hi. unfold set_cell. split.
  - now rewrite length_set_nth.
  - intros k Hk. rewrite nth_set_nth by lia.
    destruct (k =? i) eqn:E; [|auto].
    rewrite length_set_nth. auto.
Qed.

Lemma cell_set_cell rows cols dp i j v i' j' :
  shaped rows cols dp -> i < rows -> j < cols ->
  cell (set_cell dp i j v) i' j' =
  if (i' =? i) && (j' =? j) then v else cell dp i' j'.
Proof.
  intros [Hr Hc] Hi Hj. unfold cell, set_cell.
  rewrite nth_set_nth by lia.
  destruct (i' =? i) eqn:E; simpl; [|reflexivity].
  apply Nat.eqb_eq in E. subst i'.
  rewrite nth_set_nth by (rewrite Hc; lia). reflexivity.
Qed.

Lemma shaped_zeros rows cols : shaped rows cols (repeat (repeat 0 cols) rows).
Proof.
  split; [apply repeat_length|].
  intros i Hi. rewrite nth_repeat_lt by exact Hi. apply repeat_length.
Qed.

Lemma cell_zeros rows cols i j : cell (repeat (repeat 0 cols) rows) i j = 0.
Proof.
  unfold cell. destruct (Nat.lt_ge_cases i rows) as [Hi|Hi].
  - rewrite nth_repeat_lt by exact Hi. apply nth_repeat.
  - rewrite (nth_overflow (repeat (repeat 0 cols) rows))
      by (rewrite repeat_length; exact Hi).
    now destruct j.
Qed.

(** A loop [for (k = start; k < start + len; k++)] keeps an invariant
    indexed by the counter. *)
Lemma fold_left_seq_inv {S} (P : nat -> S -> Prop) (f : S -> nat -> S) len :
  forall start st,
    P start st ->
    (forall k st, start <= k < start + len -> P k st -> P (1 + k) (f st k)) ->
    P (start + len) (fold_left f (seq start len) st).
Proof.
  induction len as [|len IH]; intros start st H0 Hstep; simpl.
  - now rewrite Nat.add_0_r.
  - replace (start + Datatypes.S len) with (Datatypes.S start + len) by lia.
    apply IH.
    + apply (Hstep start st); [lia | exact H0].
    + intros k st' Hk. apply Hstep. lia.
Qed.

End TableFacts.

Section LCSCorrect.
Import PatternExtractor.
Variables tokens1 tokens2 : list string.
Let m := List.length tokens1.
Let n := List.length tokens2.

(** The recurrence the table is filled by. *)
Fixpoint lcsLength (i j : nat) {struct i} : nat :=
  match i with
  | O => 0
  | S i' =>
      (fix row (j : nat) : nat :=
         match j with
         | O => 0
         | S j' =>
             if String.eqb (nth i' tokens1 EmptyString) (nth j' tokens2 EmptyString)
             then lcsLength i' j' + 1
             else Nat.max (lcsLength i' (S j')) (row j')
         end) j
  end.

Lemma lcsLength_0_r i : lcsLength i 0 = 0.
Proof. now destruct i. Qed.

Lemma lcsLength_S i j :
  lcsLength (S i) (S j) =
  if String.eqb (nth i tokens1 EmptyString) (nth j tokens2 EmptyString)
  then lcsLength i j + 1
  else Nat.max (lcsLength i (S j)) (lcsLength (S i) j).
Proof. reflexivity. Qed.

(** State of the table when the loops stand at row [i], column [j]. *)
Definition filled (i j : nat) (dp : table) : Prop :=
  shaped (m + 1) (n + 1) dp /\
  forall i' j', i' <= m -> j' <= n ->
                i' = 0 \/ j' = 0 \/ i' < i \/ (i' = i /\ j' < j) ->
                cell dp i' j' = lcsLength i' j'.

Lemma filled_fill dp i j :
  1 <= i <= m -> 1 <= j <= n ->
  filled i j dp -> filled i (1 + j) (fill tokens1 tokens2 dp i j).
Proof.
  intros Hi Hj [Hs Hc].
  assert (E1 : cell dp (i - 1) (j - 1) = lcsLength (i - 1) (j - 1)) by (apply Hc; lia).
  assert (E2 : cell dp (i - 1) j = lcsLength (i - 1) j) by (apply Hc; lia).
  assert (E3 : cell dp i (j - 1) = lcsLength i (j - 1)) by (apply Hc; lia).
  assert (EL : lcsLength i j =
               if String.eqb (at1 tokens1 i) (at2 tokens2 j)
               then lcsLength (i - 1) (j - 1) + 1
               else Nat.max (lcsLength (i - 1) j) (lcsLength i (j - 1))).
  { destruct i as [|i]; [lia|]. destruct j as [|j]; [lia|].
    rewrite lcsLength_S. unfold at1, at2.
    replace (S i - 1) with i by lia. replace (S j - 1) with j by lia. reflexivity. }
  unfold fill. rewrite E1, E2, E3.
  split.
  - destruct (String.eqb _ _); apply shaped_set_cell; auto; lia.
  - intros i' j' Hi' Hj' Hd.
    assert (Hget : forall v, cell (set_cell dp i j v) i' j' =
                             if (i' =? i) && (j' =? j) then v else cell dp i' j').
    { intros v. apply (cell_set_cell (rows := m + 1) (cols := n + 1)); auto; lia. }
    destruct (String.eqb (at1 tokens1 i) (at2 tokens2 j));
      rewrite Hget;
      (destruct ((i' =? i) && (j' =? j)) eqn:E;
       [ apply andb_true_iff in E; destruct E as [Ea Eb];
         apply Nat.eqb_eq in Ea; apply Nat.eqb_eq in Eb; subst; now rewrite EL
       | apply Hc; auto;
         apply andb_false_iff in E; destruct E as [E|E]; apply Nat.eqb_neq in E; lia ]).
Qed.

Lemma filled_build : filled (m + 1) 1 (build tokens1 tokens2).
Proof.
  unfold build. fold m n.
  replace (m + 1) with (1 + m) at 1 by lia.
  apply (fold_left_seq_inv (fun i dp => filled i 1 dp)).
  - split; [apply shaped_zeros|].
    intros i' j' _ _ Hd. rewrite cell_zeros.
    assert (i' = 0 \/ j' = 0) as [->| ->] by lia;
      [reflexivity | now rewrite lcsLength_0_r].
  - intros i dp Hi Hdp.
    assert (H : filled i (1 + n) (fold_left (fun dp j => fill tokens1 tokens2 dp i j) (seq 1 n) dp)).
    { apply (fold_left_seq_inv (fun j dp => filled i j dp)); [exact Hdp|].
      intros j dp' Hj Hdp'. apply filled_fill; auto; lia. }
    destruct H as [Hs Hc]. split; [exact Hs|].
    intros i' j' Hi' Hj' Hd. apply Hc; auto. lia.
Qed.

Lemma cell_build i j : i <= m -> j <= n -> cell (build tokens1 tokens2) i j = lcsLength i j.
Proof. intros Hi Hj. apply filled_build; auto. lia. Qed.

Lemma firstn_S_snoc (l : list string) i :
  i < List.length l -> firstn (S i) l = firstn i l ++ [nth i l EmptyString].
Proof.
  revert i. induction l as [|x l IH]; intros i Hi; simpl in *; [lia|].
  destruct i as [|i]; [reflexivity|]. simpl. f_equal. apply IH. lia.
Qed.

(** No common subsequence of two prefixes is longer than the table says. *)
Lemma lcsLength_upper i : forall j s,
  i <= m -> j <= n ->
  Subseq s (firstn i tokens1) -> Subseq s (firstn j tokens2) ->
  List.length s <= lcsLength i j.
Proof.
  induction i as [|i IHi]; intros j s Hi Hj H1 H2.
  - simpl in H1. apply Subseq_nil_r in H1. subst. simpl. lia.
  - revert s H1 H2. induction j as [|j IHj]; intros s H1 H2.
    + simpl in H2. apply Subseq_nil_r in H2. subst. simpl. lia.
    + rewrite lcsLength_S.
      rewrite firstn_S_snoc in H1 by (fold m; lia).
      rewrite firstn_S_snoc in H2 by (fold n; lia).
      destruct (String.eqb _ _) eqn:E.
      * apply Subseq_removelast in H1. apply Subseq_removelast in H2.
        pose proof (IHi j (removelast s) ltac:(lia) ltac:(lia) H1 H2).
        pose proof (length_removelast_le s). lia.
      * apply String.eqb_neq in E.
        destruct (Subseq_snoc_inv _ _ H1) as [H1'|(s1 & -> & H1')].
        -- rewrite <- firstn_S_snoc in H2 by (fold n; lia).
           pose proof (IHi (S j) s ltac:(lia) ltac:(lia) H1' H2). lia.
        -- destruct (Subseq_snoc_inv _ _ H2) as [H2'|(s2 & Heq & H2')].
           ++ rewrite <- firstn_S_snoc in H1 by (fold m; lia).
              pose proof (IHj ltac:(lia) _ H1 H2'). lia.
           ++ apply app_inj_tail in Heq. destruct Heq as [_ Heq]. congruence.
Qed.

(** The backtracking walk from cell [(i, j)] prepends to [lcs] a common
    subsequence of the two prefixes whose length is the cell's value. *)
Lemma backtrack_sound fuel : forall i j lcs,
  i <= m -> j <= n -> i + j <= fuel ->
  exists r,
    backtrack tokens1 tokens2 (build tokens1 tokens2) fuel i j lcs = r ++ lcs /\
    Subseq r (firstn i tokens1) /\ Subseq r (firstn j tokens2) /\
    List.length r = lcsLength i j.
Proof.
  induction fuel as [|fuel IH]; intros i j lcs Hi Hj Hf.
  - assert (i = 0) by lia. assert (j = 0) by lia. subst.
    exists []. simpl. repeat split; constructor.
  - simpl. destruct i as [|i].
    + exists []. simpl. repeat split; try constructor. apply Subseq_nil_l.
    + destruct j as [|j].
      * exists []. simpl. repeat split; try constructor. apply Subseq_nil_l.
      * change ((0 <? S i) && (0 <? S j)) with true. cbv iota.
        unfold at1, at2.
        replace (S i - 1) with i by lia. replace (S j - 1) with j by lia.
        rewrite !cell_build by lia. rewrite lcsLength_S.
        rewrite (@firstn_S_snoc tokens1 i) by (fold m; lia).
        rewrite (@firstn_S_snoc tokens2 j) by (fold n; lia).
        destruct (String.eqb _ _) eqn:E.
        -- apply String.eqb_eq in E.
           destruct (IH i j (nth i tokens1 EmptyString :: lcs)) as (r & Hr & S1 & S2 & Hl);
             try lia.
           exists (r ++ [nth i tokens1 EmptyString]). repeat split.
           ++ rewrite Hr. now rewrite <- app_assoc.
           ++ now apply Subseq_snoc_take.
           ++ rewrite <- E. now apply Subseq_snoc_take.
           ++ rewrite length_app. simpl. lia.
        -- destruct (lcsLength (S i) j <? lcsLength i (S j)) eqn:C.
           ++ apply Nat.ltb_lt in C.
              destruct (IH i (S j) lcs) as (r & Hr & S1 & S2 & Hl); try lia.
              exists r. repeat split; auto.
              ** now apply Subseq_snoc_skip.
              ** rewrite <- firstn_S_snoc by (fold n; lia). exact S2.
              ** lia.
           ++ apply Nat.ltb_ge in C.
              destruct (IH (S i) j lcs) as (r & Hr & S1 & S2 & Hl); try lia.
              exists r. repeat split; auto.
              ** rewrite <- firstn_S_snoc by (fold m; lia). exact S1.
              ** now apply Subseq_snoc_skip.
              ** lia.
Qed.

(** The loop leaves by its own test: fuel beyond [i + j] is never used. *)
Lemma backtrack_fuel dp fuel : forall i j lcs extra,
  i + j <= fuel ->
  backtrack tokens1 tokens2 dp (fuel + extra) i j lcs =
  backtrack tokens1 tokens2 dp fuel i j lcs.
Proof.
  induction fuel as [|fuel IH]; intros i j lcs extra Hf.
  - assert (i = 0) by lia. subst. destruct extra; reflexivity.
  - simpl. destruct ((0 <? i) && (0 <? j)) eqn:E; [|reflexivity].
    apply andb_true_iff in E. destruct E as [Ei Ej].
    apply Nat.ltb_lt in Ei. apply Nat.ltb_lt in Ej.
    destruct (String.eqb _ _); [apply IH; lia|].
    destruct (_ <? _); apply IH; lia.
Qed.

Lemma findLCS_common_longest :
  Subseq (findLCS tokens1 tokens2) tokens1 /\
  Subseq (findLCS tokens1 tokens2) tokens2 /\
  forall s, Subseq s tokens1 -> Subseq s tokens2 ->
            List.length s <= List.length (findLCS tokens1 tokens2).
Proof.
  unfold findLCS. fold m n.
  destruct (@backtrack_sound (m + n) m n []) as (r & Hr & S1 & S2 & Hl); try lia.
  rewrite Hr, app_nil_r.
  unfold m in S1 at 1. unfold n in S2 at 1. rewrite firstn_all in S1, S2.
  repeat split; auto.
  intros s H1 H2. rewrite Hl. apply lcsLength_upper; auto.
  - unfold m. now rewrite firstn_all.
  - unfold n. now rewrite firstn_all.
Qed.

End LCSCorrect.

(** C5: [findLCS] returns a common subsequence of its two inputs, no
    common subsequence is longer, and on [a,b,c,d,e] and [z,a,c,x,e] it
    returns [a,c,e]. *)
Theorem findLCS_longest_common_subsequence :
  (forall tokens1 tokens2 : list string,
      Subseq (PatternExtractor.findLCS tokens1 tokens2) tokens1 /\
      Subseq (PatternExtractor.findLCS tokens1 tokens2) tokens2 /\
      forall s, Subseq s tokens1 -> Subseq s tokens2 ->
                List.length s <= List.length (PatternExtractor.findLCS tokens1 tokens2)) /\
  PatternExtractor.findLCS ["a"; "b"; "c"; "d"; "e"] ["z"; "a"; "c"; "x"; "e"]
  = ["a"; "c"; "e"].
Proof.
  split; [apply findLCS_common_longest | reflexivity].
Qed.

(* ------------------------------------------------------------------ *)
(** ** MinHash signatures *)

(** [v] is the least of the values [h x] for [x] in [xs], and [Infinity]
    when there is none. *)
Definition leastOver (h : string -> Z) (xs : list string) (v : JS.num) : Prop :=
  match v with
  | JS.Infinity => xs = []
  | JS.Int z => (exists x, In x xs /\ h x = z) /\ forall x, In x xs -> (z <= h x)%Z
  end.

Section Minima.

Lemma leastOver_snoc h xs x v :
  leastOver h xs v -> leastOver h (xs ++ [x]) (JS.min v (h x)).
Proof.
  destruct v as [|z]; simpl.
  - intros ->. simpl. split.
    + exists x. auto.
    + intros y [<-|[]]. lia.
  - intros [(x0 & Hx0 & Hz) Hle]. split.
    + destruct (Z.min_spec z (h x)) as [[_ ->]|[_ ->]].
      * exists x0. rewrite in_app_iff. auto.
      * exists x. rewrite in_app_iff. simpl. auto.
    + intros y Hy. rewrite in_app_iff in Hy. destruct Hy as [Hy|[<-|[]]].
      * specialize (Hle y Hy). lia.
      * lia.
Qed.

Lemma leastOver_members h xs ys v :
  (forall x, In x xs <-> In x ys) -> leastOver h xs v -> leastOver h ys v.
Proof.
  intros Hm. destruct v as [|z]; simpl.
  - intros ->. destruct ys as [|y ys]; [reflexivity|].
    exfalso. apply (Hm y). now left.
  - intros [(x & Hx & Hz) Hle]. split.
    + exists x. split; [now apply Hm | exact Hz].
    + intros y Hy. apply Hle. now apply Hm.
Qed.

Lemma nth_generateHashFunctions random count i d :
  i < count ->
  nth i (HashFamily.generateHashFunctions random count) d = HashFamily.hashFunction random i.
Proof.
  intros Hi. unfold HashFamily.generateHashFunctions.
  rewrite (nth_indep _ d (HashFamily.hashFunction random 0))
    by (rewrite length_map, length_seq; exact Hi).
  rewrite (map_nth (HashFamily.hashFunction random) (seq 0 count) 0 i).
  now rewrite seq_nth.
Qed.

Lemma length_generateHashFunctions random count :
  List.length (HashFamily.generateHashFunctions random count) = count.
Proof. unfold HashFamily.generateHashFunctions. now rewrite length_map, length_seq. Qed.

Variable config : Cli.ClusteringConfig.t.
Variable random : nat -> Z.

Let K := Cli.ClusteringConfig.minhashBands config * Cli.ClusteringConfig.minhashRows config.

Lemma length_hashFunctions :
  List.length (MinHashClusterer.hashFunctions config random) = K.
Proof. apply length_generateHashFunctions. Qed.

(** One shingle through the inner loop: every position takes the minimum
    with that shingle's hash. *)
Lemma inner_loop signature shingle :
  List.length signature = K ->
  let signature' :=
    fold_left
      (fun signature i =>
         let hash := nth i (MinHashClusterer.hashFunctions config random) (fun _ => 0%Z) shingle in
         JS.set_nth i (JS.min (nth i signature JS.Infinity) hash) signature)
      (seq 0 K) signature in
  List.length signature' = K /\
  forall i, i < K ->
            nth i signature' JS.Infinity =
            JS.min (nth i signature JS.Infinity) (HashFamily.hashFunction random i shingle).
Proof.
  intros Hlen. cbv zeta.
  pose (P := fun (k : nat) (s : list JS.num) =>
               List.length s = K /\
               forall i, i < K ->
                 nth i s JS.Infinity =
                 if i <? k
                 then JS.min (nth i signature JS.Infinity)
                             (HashFamily.hashFunction random i shingle)
                 else nth i signature JS.Infinity).
  assert (H : P (0 + K) (fold_left
      (fun signature i =>
         let hash := nth i (MinHashClusterer.hashFunctions config random) (fun _ => 0%Z) shingle in
         JS.set_nth i (JS.min (nth i signature JS.Infinity) hash) signature)
      (seq 0 K) signature)).
  { apply (fold_left_seq_inv P).
    - split; [exact Hlen|]. intros i Hi. reflexivity.
    - intros k s Hk [Hs Hn]. split; [now rewrite length_set_nth|].
      intros i Hi. rewrite nth_set_nth by lia.
      destruct (i =? k) eqn:E.
      + apply Nat.eqb_eq in E. subst i.
        replace (k <? 1 + k) with true by (symmetry; apply Nat.ltb_lt; lia).
        rewrite Hn by lia. rewrite Nat.ltb_irrefl.
        unfold MinHashClusterer.hashFunctions. fold K.
        now rewrite nth_generateHashFunctions by lia.
      + apply Nat.eqb_neq in E. rewrite Hn by lia.
        destruct (i <? k) eqn:E1.
        * apply Nat.ltb_lt in E1.
          replace (i <? 1 + k) with true by (symmetry; apply Nat.ltb_lt; lia).
          reflexivity.
        * apply Nat.ltb_ge in E1.
          replace (i <? 1 + k) with false by (symmetry; apply Nat.ltb_ge; lia).
          reflexivity. }
  destruct H as [H1 H2]. split; [exact H1|].
  intros i Hi. rewrite H2 by exact Hi.
  replace (i <? 0 + K) with true by (symmetry; apply Nat.ltb_lt; lia). reflexivity.
Qed.

Lemma minima_spec shingles :
  List.length (MinHashClusterer.minima config random shingles) = K /\
  forall i, i < K ->
            leastOver (HashFamily.hashFunction random i) shingles
                      (nth i (MinHashClusterer.minima config random shingles) JS.Infinity).
Proof.
  unfold MinHashClusterer.minima. rewrite length_hashFunctions.
  assert (G : forall todo seen signature,
             List.length signature = K ->
             (forall i, i < K ->
                        leastOver (HashFamily.hashFunction random i) seen
                                  (nth i signature JS.Infinity)) ->
             let final :=
               fold_left
                 (fun signature shingle =>
                    fold_left
                      (fun signature i =>
                         let hash := nth i (MinHashClusterer.hashFunctions config random)
                                         (fun _ => 0%Z) shingle in
                         JS.set_nth i (JS.min (nth i signature JS.Infinity) hash) signature)
                      (seq 0 K) signature)
                 todo signature in
             List.length final = K /\
             forall i, i < K ->
                       leastOver (HashFamily.hashFunction random i) (seen ++ todo)
                                 (nth i final JS.Infinity)).
  { induction todo as [|s todo IH]; intros seen signature Hlen Hsig; cbv zeta; simpl.
    - rewrite app_nil_r. auto.
    - destruct (inner_loop signature s Hlen) as [Hlen' Hn].
      replace (seen ++ s :: todo) with ((seen ++ [s]) ++ todo)
        by (now rewrite <- app_assoc).
      apply IH; [exact Hlen'|].
      intros i Hi. rewrite Hn by exact Hi. apply leastOver_snoc. auto. }
  apply (G shingles []).
  - apply repeat_length.
  - intros i Hi. rewrite nth_repeat. reflexivity.
Qed.

End Minima.

Section SignatureFacts.

Lemma setOf_In tokens x : In x (MinHashLSH.setOf tokens) <-> In x tokens.
Proof.
  unfold MinHashLSH.setOf.
  assert (G : forall l s, In x (fold_left (fun s t => JSSet.add String.eqb t s) l s)
                          <-> In x s \/ In x l).
  { induction l as [|t l IH]; intros s; simpl; [tauto|].
    rewrite IH, (set_add_In String.eqb String.eqb_eq). intuition auto. }
  rewrite G. simpl. tauto.
Qed.

Lemma below_min hash minHash :
  (if MinHashLSH.below hash minHash then JS.Int hash else minHash) = JS.min minHash hash.
Proof.
  destruct minHash as [|z]; simpl; [reflexivity|].
  destruct (hash <? z)%Z eqn:E.
  - apply Z.ltb_lt in E. now rewrite Z.min_r by lia.
  - apply Z.ltb_ge in E. now rewrite Z.min_l by lia.
Qed.

Lemma scan_leastOver (h : string -> Z) todo : forall seen v,
  leastOver h seen v ->
  leastOver h (seen ++ todo)
    (fold_left (fun minHash token =>
                  let hash := h token in
                  if MinHashLSH.below hash minHash then JS.Int hash else minHash)
               todo v).
Proof.
  induction todo as [|t todo IH]; intros seen v Hv; simpl.
  - now rewrite app_nil_r.
  - replace (seen ++ t :: todo) with ((seen ++ [t]) ++ todo)
      by (now rewrite <- app_assoc).
    apply IH. rewrite below_min. now apply leastOver_snoc.
Qed.

(** Every entry of [computeMinHash]: the least hash over the tokens
    themselves, and 0 when there is no token. *)
Lemma computeMinHash_spec config random tokens :
  let K := Config.minHashBands config * Config.minHashRows config in
  List.length (MinHashLSH.computeMinHash config random tokens) = K /\
  forall i, i < K ->
    exists v, leastOver (HashFamily.hashFunction random i) tokens v /\
              nth i (MinHashLSH.computeMinHash config random tokens) 0%Z =
              match v with JS.Infinity => 0%Z | JS.Int z => z end.
Proof.
  intros K. unfold MinHashLSH.computeMinHash, MinHashLSH.hashFunctions. fold K.
  split; [now rewrite length_map, length_generateHashFunctions|].
  intros i Hi.
  set (f := fun hashFunc : string -> Z => _).
  rewrite (nth_indep _ 0%Z (f (fun _ => 0%Z)))
    by (now rewrite length_map, length_generateHashFunctions).
  rewrite (map_nth f). rewrite nth_generateHashFunctions by exact Hi.
  unfold f.
  eexists. split; [|reflexivity].
  apply leastOver_members with (xs := MinHashLSH.setOf tokens); [apply setOf_In|].
  apply (scan_leastOver (HashFamily.hashFunction random i) (MinHashLSH.setOf tokens)
                        [] JS.Infinity).
  reflexivity.
Qed.

Lemma skipn_nth {A} (l : list A) k d :
  k < List.length l -> skipn k l = nth k l d :: skipn (S k) l.
Proof.
  revert k. induction l as [|x l IH]; intros k Hk; simpl in *; [lia|].
  destruct k as [|k]; [reflexivity|]. apply IH. lia.
Qed.

(** The shingles: the windows of 3 consecutive tokens, joined by a space. *)
Lemma generateShingles_3 tokens :
  MinHashClusterer.generateShingles tokens 3 =
  map (fun k => (nth k tokens "" ++ " " ++ nth (k + 1) tokens "" ++ " "
                 ++ nth (k + 2) tokens "")%string)
      (seq 0 (List.length tokens - 2)).
Proof.
  unfold MinHashClusterer.generateShingles.
  replace (S (List.length tokens) - 3) with (List.length tokens - 2) by lia.
  apply map_ext_in. intros k Hk. apply in_seq in Hk.
  unfold JS.slice. replace (k + 3 - k) with 3 by lia.
  rewrite (skipn_nth tokens ""%string) by lia.
  rewrite (skipn_nth tokens ""%string) by lia.
  rewrite (skipn_nth tokens ""%string) by lia.
  replace (S k) with (k + 1) by lia. replace (S (k + 1)) with (k + 2) by lia.
  reflexivity.
Qed.

End SignatureFacts.

(** C4, as stated, fails on [MinHashLSH.computeMinHash]: with the one hash
    function [h(x) = poly31(x) mod p], the tokens [aa, bb, cc] have the one
    shingle [aa bb cc], yet position 0 of the signature is [h(aa) = 3104],
    the least hash of the tokens, not [h(aa bb cc)]. *)
Lemma computeMinHash_shingles_counterexample :
  MinHashClusterer.generateShingles ["aa"; "bb"; "cc"] 3 = ["aa bb cc"] /\
  nth 0 (MinHashLSH.computeMinHash Sample.oneHash Sample.zeroDraws ["aa"; "bb"; "cc"]) 0%Z
  = 3104%Z /\
  ~ leastOver (HashFamily.hashFunction Sample.zeroDraws 0)
              (MinHashClusterer.generateShingles ["aa"; "bb"; "cc"] 3)
              (JS.Int 3104).
Proof.
  split; [reflexivity|]. split; [reflexivity|].
  intros [(x & Hx & Hz) _]. destruct Hx as [<-|[]].
  vm_compute in Hz. discriminate.
Qed.

(** C4 (amended): position [i] of the signature of
    [MinHashClusterer.generateSignature] is the least value of hash function
    [i] over the 3-token contiguous shingles of the snippet's tokens (three
    tokens joined by a space), [Infinity] when there is none; position [i]
    of the signature of [MinHashLSH.computeMinHash] is the least value of
    hash function [i] over the tokens themselves, 0 when there is none. *)
Theorem minhash_signature_minima :
  (forall config random tokenize snippet i,
      let tokens := tokenize (Cli.CodeSnippet.content snippet)
                             (Cli.CodeSnippet.language snippet) in
      let shingles :=
        map (fun k => (nth k tokens "" ++ " " ++ nth (k + 1) tokens "" ++ " "
                       ++ nth (k + 2) tokens "")%string)
            (seq 0 (List.length tokens - 2)) in
      i < Cli.ClusteringConfig.minhashBands config * Cli.ClusteringConfig.minhashRows config ->
      leastOver (HashFamily.hashFunction random i) shingles
        (nth i (Cli.MinHashSignature.signature
                  (MinHashClusterer.generateSignature config random tokenize snippet))
             JS.Infinity)) /\
  (forall config random tokens i,
      i < Config.minHashBands config * Config.minHashRows config ->
      exists v,
        leastOver (HashFamily.hashFunction random i) tokens v /\
        nth i (MinHashLSH.computeMinHash config random tokens) 0%Z =
        match v with JS.Infinity => 0%Z | JS.Int z => z end).
Proof.
  split.
  - intros config random tokenize snippet i tokens shingles Hi.
    unfold MinHashClusterer.generateSignature. cbn [Cli.MinHashSignature.signature].
    fold tokens. rewrite generateShingles_3. fold shingles.
    now apply minima_spec.
  - intros config random tokens i Hi. now apply computeMinHash_spec.
Qed.

(** C8, as stated, fails on [MinHashLSH.computeMinHash]: one token is
    fewer than three, yet the entry is the token's hash, not the sentinel. *)
Lemma computeMinHash_sentinel_counterexample :
  List.length ["ab"] < 3 /\
  MinHashLSH.computeMinHash Sample.oneHash Sample.zeroDraws ["ab"] = [3105%Z] /\
  ~ Forall (eq 0%Z) (MinHashLSH.computeMinHash Sample.oneHash Sample.zeroDraws ["ab"]).
Proof.
  split; [simpl; lia|]. split; [reflexivity|].
  intros H. inversion H as [|? ? H0 _]. discriminate H0.
Qed.

(** C8 (amended): both signature generators are total and return
    [bands * rows] entries.  [MinHashClusterer.generateSignature] returns
    [Infinity] everywhere when the snippet has fewer than 3 tokens.
    [MinHashLSH.computeMinHash] returns its sentinel 0 everywhere when
    there is no token at all; with any token, each entry is the hash of one
    of the tokens. *)
Theorem signature_length_and_sentinel :
  (forall config random tokenize snippet,
      let signature := Cli.MinHashSignature.signature
                         (MinHashClusterer.generateSignature config random tokenize snippet) in
      List.length signature =
        Cli.ClusteringConfig.minhashBands config * Cli.ClusteringConfig.minhashRows config /\
      (List.length (tokenize (Cli.CodeSnippet.content snippet)
                             (Cli.CodeSnippet.language snippet)) < 3 ->
       Forall (eq JS.Infinity) signature)) /\
  (forall config random tokens,
      let signature := MinHashLSH.computeMinHash config random tokens in
      List.length signature = Config.minHashBands config * Config.minHashRows config /\
      (tokens = [] -> Forall (eq 0%Z) signature) /\
      (tokens <> [] ->
       forall i, i < List.length signature ->
                 exists token, In token tokens /\
                               nth i signature 0%Z = HashFamily.hashFunction random i token)).
Proof.
  split.
  - intros config random tokenize snippet signature. split.
    + apply minima_spec.
    + intros Hlt. unfold signature, MinHashClusterer.generateSignature.
      cbn [Cli.MinHashSignature.signature].
      unfold MinHashClusterer.generateShingles.
      replace (S (List.length _) - 3) with 0 by lia.
      unfold MinHashClusterer.minima. simpl.
      generalize (List.length (MinHashClusterer.hashFunctions config random)).
      intros n. induction n; simpl; constructor; auto.
  - intros config random tokens signature.
    destruct (computeMinHash_spec config random tokens) as [Hlen Hn].
    split; [exact Hlen|]. split.
    + intros ->. unfold signature, MinHashLSH.computeMinHash. simpl.
      generalize (MinHashLSH.hashFunctions config random).
      intros l. induction l; simpl; constructor; auto.
    + intros Hne i Hi. unfold signature in *. rewrite Hlen in Hi.
      destruct (Hn i Hi) as (v & Hv & ->).
      destruct v as [|z]; simpl in Hv.
      * contradiction.
      * destruct Hv as [(x & Hx & Hz) _]. exists x. auto.
Qed.

(* ------------------------------------------------------------------ *)
(** ** Clusters *)

Section LoopFacts.

Lemma foldM_inv {S B} (P : S -> Prop) (f : S -> B -> JS.result S) l :
  forall st r,
    P st ->
    (forall st b st', In b l -> P st -> f st b = JS.Ok st' -> P st') ->
    JS.foldM f l st = JS.Ok r -> P r.
Proof.
  induction l as [|b l IH]; intros st r H0 Hstep Hr; simpl in Hr.
  - now inversion Hr; subst.
  - destruct (f st b) as [st'|e] eqn:E; [|discriminate].
    apply (IH st' r); auto.
    + apply (Hstep st b); simpl; auto.
    + intros st0 b0 st1 Hb. apply Hstep. now right.
Qed.

Lemma fold_left_inv {S B} (P : S -> Prop) (f : S -> B -> S) l :
  forall st, P st -> (forall st b, In b l -> P st -> P (f st b)) -> P (fold_left f l st).
Proof.
  induction l as [|b l IH]; intros st H0 Hstep; simpl; [exact H0|].
  apply IH.
  - apply Hstep; simpl; auto.
  - intros st0 b0 Hb. apply Hstep. now right.
Qed.

End LoopFacts.

Section Walk.
Import MinHashClusterer.
Variable g : graph.

(** What is left to expand: a node not yet visited may still push all its
    neighbours. *)
Fixpoint weight (g : graph) (visited : list string) : nat :=
  match g with
  | [] => 0
  | (k, ns) :: g' =>
      (if JSSet.has String.eqb k visited then 0 else S (List.length ns))
      + weight g' visited
  end.

Lemma has_add_same x s : JSSet.has String.eqb x (JSSet.add String.eqb x s) = true.
Proof.
  apply (set_has_In String.eqb String.eqb_eq).
  apply (set_add_In String.eqb String.eqb_eq). now left.
Qed.

Lemma has_add_mono x y s :
  JSSet.has String.eqb y s = true -> JSSet.has String.eqb y (JSSet.add String.eqb x s) = true.
Proof.
  intros H. apply (set_has_In String.eqb String.eqb_eq).
  apply (set_add_In String.eqb String.eqb_eq). right.
  now apply (set_has_In String.eqb String.eqb_eq).
Qed.

Lemma weight_add_le h id visited :
  weight h (JSSet.add String.eqb id visited) <= weight h visited.
Proof.
  induction h as [|[k ns] h IH]; simpl; [lia|].
  destruct (JSSet.has String.eqb k visited) eqn:E.
  - rewrite (has_add_mono id _ _ E). lia.
  - destruct (JSSet.has String.eqb k (JSSet.add String.eqb id visited)); lia.
Qed.

Lemma weight_add_get h id visited ns :
  JSSet.has String.eqb id visited = false ->
  JSMap.get id h = Some ns ->
  weight h (JSSet.add String.eqb id visited) + S (List.length ns) <= weight h visited.
Proof.
  intros Hv. induction h as [|[k ns'] h IH]; simpl; [discriminate|].
  destruct (String.eqb k id) eqn:E.
  - apply String.eqb_eq in E. subst k. intros Hg. inversion Hg; subst.
    rewrite Hv, has_add_same. pose proof (weight_add_le h id visited). lia.
  - intros Hg. specialize (IH Hg).
    destruct (JSSet.has String.eqb k visited) eqn:E1.
    + rewrite (has_add_mono id _ _ E1). lia.
    + destruct (JSSet.has String.eqb k (JSSet.add String.eqb id visited)); lia.
Qed.

Lemma length_push visited' neighbors : forall stack,
  List.length
    (fold_left (fun st neighbor =>
                  if JSSet.has String.eqb neighbor visited' then st else neighbor :: st)
               neighbors stack)
  <= List.length stack + List.length neighbors.
Proof.
  induction neighbors as [|x ns IH]; intros stack; simpl; [lia|].
  destruct (JSSet.has String.eqb x visited').
  - specialize (IH stack). lia.
  - specialize (IH (x :: stack)). simpl in IH. lia.
Qed.

(** The walk ends by emptying its stack within [weight + |stack|] turns. *)
Lemma walk_returns fuel : forall stack visited component,
  List.length stack + weight g visited <= fuel ->
  exists r, walk g fuel stack visited component = Some r.
Proof.
  induction fuel as [|fuel IH]; intros stack visited component Hf.
  - destruct stack; [eexists; reflexivity | simpl in Hf; lia].
  - destruct stack as [|id stack]; [eexists; reflexivity|].
    simpl. simpl in Hf.
    destruct (JSSet.has String.eqb id visited) eqn:E.
    + apply IH. lia.
    + apply IH.
      pose proof (length_push (JSSet.add String.eqb id visited)
                    (match JSMap.get id g with Some s => s | None => [] end) stack) as Hp.
      destruct (JSMap.get id g) as [ns|] eqn:G.
      * pose proof (weight_add_get g id visited E G). lia.
      * pose proof (weight_add_le g id visited). simpl in Hp |- *. lia.
Qed.

Lemma weight_le_walkFuel h visited : 1 + weight h visited <= walkFuel h.
Proof.
  unfold walkFuel. apply le_n_S.
  induction h as [|[k ns] h IH]; [simpl; lia|].
  cbn [weight fold_right snd].
  destruct (JSSet.has String.eqb k visited); lia.
Qed.

(** [findConnectedComponent] always returns. *)
Lemma findConnectedComponent_returns startId visited :
  exists r, findConnectedComponent startId g visited = Some r.
Proof.
  unfold findConnectedComponent. apply walk_returns.
  pose proof (weight_le_walkFuel g visited). simpl. lia.
Qed.

Lemma walk_extends fuel : forall stack visited component visited' component',
  walk g fuel stack visited component = Some (visited', component') ->
  exists more, component' = component ++ more.
Proof.
  induction fuel as [|fuel IH]; intros stack visited component visited' component' H.
  - destruct stack; [|discriminate]. inversion H; subst. exists []. now rewrite app_nil_r.
  - destruct stack as [|id stack].
    + inversion H; subst. exists []. now rewrite app_nil_r.
    + simpl in H. destruct (JSSet.has String.eqb id visited).
      * eapply IH; eauto.
      * apply IH in H. destruct H as (more & ->).
        exists (id :: more). now rewrite <- app_assoc.
Qed.

(** The component found from an unvisited node starts with that node. *)
Lemma findConnectedComponent_start startId visited visited' cluster :
  JSSet.has String.eqb startId visited = false ->
  findConnectedComponent startId g visited = Some (visited', cluster) ->
  exists more, cluster = startId :: more.
Proof.
  unfold findConnectedComponent, walkFuel. intros Hv H.
  simpl in H. rewrite Hv in H.
  apply walk_extends in H. exact H.
Qed.

End Walk.

Section ClusterFacts.

Lemma findCentroid_member cluster signatures centroid :
  cluster <> [] ->
  MinHashClusterer.findCentroid cluster signatures = JS.Ok centroid ->
  exists x, centroid = Some x /\ In x cluster.
Proof.
  intros Hne. unfold MinHashClusterer.findCentroid.
  destruct (JS.foldM _ cluster _) as [[best mx]|e] eqn:E; [|discriminate].
  intros H. inversion H; subst. clear H.
  apply (foldM_inv (fun st : option string * float =>
                      exists x, fst st = Some x /\ In x cluster)) in E.
  - exact E.
  - destruct cluster as [|x0 cluster]; [congruence|].
    exists x0. simpl. auto.
  - intros [b m] candidateId st' Hin Hst Hstep.
    destruct (MinHashClusterer.totalAgainst _ _ _) as [total|e]; [|discriminate].
    destruct (PrimFloat.ltb _ _); inversion Hstep; subst.
    + exists candidateId. auto.
    + exact Hst.
Qed.

(** What C2 asks of a cluster of the command-line tree. *)
Definition wellFormed (config : Cli.ClusteringConfig.t) (c : Cli.CodeCluster.t) : Prop :=
  (exists x, Cli.CodeCluster.centroid c = Some x /\ In x (Cli.CodeCluster.snippets c)) /\
  Cli.CodeCluster.size c = List.length (Cli.CodeCluster.snippets c) /\
  Cli.ClusteringConfig.minClusterSize config <= Cli.CodeCluster.size c.

Lemma visit_wellFormed config signatures sigMap g st snippetId st' :
  Forall (wellFormed config) (snd st) ->
  MinHashClusterer.visit config signatures sigMap g st snippetId = JS.Ok st' ->
  Forall (wellFormed config) (snd st').
Proof.
  destruct st as [visited clusters]. unfold MinHashClusterer.visit. intros Hst.
  destruct (JSSet.has String.eqb snippetId visited) eqn:Hv.
  - intros H. inversion H; subst. exact Hst.
  - destruct (MinHashClusterer.findConnectedComponent snippetId g visited)
      as [[visited' cluster]|] eqn:Hc; [|discriminate].
    destruct (findConnectedComponent_start _ _ _ Hv Hc) as (more & ->).
    destruct (_ <=? _) eqn:Hsize.
    + destruct (MinHashClusterer.findCentroid _ _) as [centroid|e] eqn:Hcen; [|discriminate].
      destruct (MinHashClusterer.calculateClusterSimilarity _ _) as [similarity|e];
        [|discriminate].
      intros H. inversion H; subst. simpl.
      apply Forall_app. split; [exact Hst|]. constructor; [|constructor].
      apply findCentroid_member in Hcen; [|discriminate].
      apply Nat.leb_le in Hsize.
      split; [exact Hcen|]. split; [reflexivity | exact Hsize].
    + intros H. inversion H; subst. exact Hst.
Qed.

Lemma createCluster_size ids snippets :
  CodeCluster.size (Clusterer.createCluster ids snippets) = List.length ids /\
  CodeCluster.snippets (Clusterer.createCluster ids snippets) = ids.
Proof. split; reflexivity. Qed.

(** What holds of a cluster of the library's [Clusterer]. *)
Definition created (snippets : list CodeSnippet.t) (c : CodeCluster.t) : Prop :=
  c = Clusterer.createCluster (CodeCluster.snippets c) snippets /\
  CodeCluster.size c = List.length (CodeCluster.snippets c) /\
  1 <= CodeCluster.size c.

Lemma created_createCluster ids snippets :
  1 <= List.length ids -> created snippets (Clusterer.createCluster ids snippets).
Proof. intros H. unfold created. simpl. auto. Qed.

Lemma similarTo_length config snippets clustered snippet candidates similar :
  Clusterer.similarTo config snippets clustered snippet candidates = JS.Ok similar ->
  1 <= List.length similar.
Proof.
  unfold Clusterer.similarTo. intros H.
  apply (foldM_inv (fun l : list string => 1 <= List.length l)) in H; auto.
  intros st b st' _ Hst Hstep.
  destruct (JSSet.has _ _ _); [inversion Hstep; subst; exact Hst|].
  destruct (Clusterer.findById _ _); [|inversion Hstep; subst; exact Hst].
  destruct (MinHashLSH.calculateSimilarity _ _); [|discriminate].
  destruct (PrimFloat.leb _ _); inversion Hstep; subst; [|exact Hst].
  rewrite length_app. lia.
Qed.

Lemma Clusterer_clusters_created config lsh snippets clusters :
  Clusterer.clusterSnippets config lsh snippets = JS.Ok clusters ->
  Forall (created snippets) clusters.
Proof.
  unfold Clusterer.clusterSnippets.
  destruct (JS.foldM _ snippets _) as [[clusters0 clustered]|e] eqn:E; [|discriminate].
  intros H. inversion H; subst. clear H.
  apply (foldM_inv (fun st : list CodeCluster.t * list string =>
                      Forall (created snippets) (fst st))) in E.
  - simpl in E. apply fold_left_inv; [exact E|].
    intros st s _ Hst. destruct (JSSet.has _ _ _); [exact Hst|].
    apply Forall_app. split; [exact Hst|]. constructor; [|constructor].
    apply created_createCluster. simpl. lia.
  - constructor.
  - intros [cl cd] s st' _ Hst Hstep. simpl in Hst.
    destruct (JSSet.has _ _ _); [inversion Hstep; subst; exact Hst|].
    destruct (Clusterer.similarTo _ _ _ _ _) as [similar|e0] eqn:Hsim; [|discriminate].
    destruct (1 <? _); inversion Hstep; subst; [|exact Hst].
    simpl. apply Forall_app. split; [exact Hst|]. constructor; [|constructor].
    apply created_createCluster. eapply similarTo_length; eauto.
Qed.

End ClusterFacts.

(** C2, as stated, fails on the library's [Clusterer]: a lone snippet
    comes back as a cluster of size 1, below the minimum cluster size 2,
    and its centroid is a vector of numbers, not a snippet id. *)
Lemma singleton_cluster_counterexample :
  exists c,
    Clusterer.clusterSnippets Config.DEFAULT_CONFIG []
      [Sample.stored "a" "h1" [1; 2; 3; 4]%Z] = JS.Ok [c] /\
    CodeCluster.snippets c = ["a"] /\
    CodeCluster.size c = 1 /\
    ~ 2 <= CodeCluster.size c /\
    CodeCluster.centroid c = [1; 2; 3; 4]%float.
Proof.
  eexists. split; [vm_compute; reflexivity|].
  simpl. repeat split. lia.
Qed.

(** C2 (amended): every cluster produced by
    [MinHashClusterer.clusterSnippets] has a centroid that is one of its
    snippet ids, and a size equal to the number of its snippet ids and at
    least [minClusterSize].  Every cluster produced by the library's
    [Clusterer.clusterSnippets] has a size equal to the number of its
    snippet ids and at least 1, snippets left alone coming back as
    clusters of one; its centroid is the vector [computeCentroid] makes of
    its members' signatures, not an id. *)
Theorem clusters_well_formed :
  (forall config random tokenize snippets clusters c,
      MinHashClusterer.clusterSnippets config random tokenize snippets = JS.Ok clusters ->
      In c clusters ->
      (exists x, Cli.CodeCluster.centroid c = Some x /\ In x (Cli.CodeCluster.snippets c)) /\
      Cli.CodeCluster.size c = List.length (Cli.CodeCluster.snippets c) /\
      Cli.ClusteringConfig.minClusterSize config <= Cli.CodeCluster.size c) /\
  (forall config lsh snippets clusters c,
      Clusterer.clusterSnippets config lsh snippets = JS.Ok clusters ->
      In c clusters ->
      c = Clusterer.createCluster (CodeCluster.snippets c) snippets /\
      CodeCluster.size c = List.length (CodeCluster.snippets c) /\
      1 <= CodeCluster.size c).
Proof.
  split.
  - intros config random tokenize snippets clusters c H Hin.
    unfold MinHashClusterer.clusterSnippets in H.
    destruct (JS.foldM (MinHashClusterer.addPair _ _) _ _) as [g|e]; [|discriminate].
    destruct (JS.foldM (MinHashClusterer.visit _ _ _ _) _ _) as [[visited cl]|e] eqn:E;
      [|discriminate].
    inversion H; subst. clear H.
    apply (foldM_inv (fun st : list string * list Cli.CodeCluster.t =>
                        Forall (wellFormed config) (snd st))) in E.
    + simpl in E. rewrite Forall_forall in E. apply (E c Hin).
    + constructor.
    + intros st b st' _ Hst Hstep. eapply visit_wellFormed; eauto.
  - intros config lsh snippets clusters c H Hin.
    apply Clusterer_clusters_created in H. rewrite Forall_forall in H.
    apply (H c Hin).
Qed.

Lemma clusters_well_formed_witness :
  (exists x, Cli.CodeCluster.centroid Sample.pairCluster = Some x /\
             In x (Cli.CodeCluster.snippets Sample.pairCluster)) /\
  Cli.CodeCluster.size Sample.pairCluster
  = List.length (Cli.CodeCluster.snippets Sample.pairCluster) /\
  Cli.ClusteringConfig.minClusterSize Sample.smallClustering
  <= Cli.CodeCluster.size Sample.pairCluster.
Proof.
  apply (proj1 clusters_well_formed Sample.smallClustering Sample.draws Sample.words
           Sample.trio [Sample.pairCluster] Sample.pairCluster).
  - vm_compute. reflexivity.
  - left. reflexivity.
Defined.

(* ------------------------------------------------------------------ *)
(** ** De-duplication *)

Section Buckets.
Variable config : Config.t.

(** [id] is filed under [band]. *)
Definition inBucket (b : MinHashLSH.buckets) (band id : string) : Prop :=
  exists bucket, JSMap.get band b = Some bucket /\ In id bucket.

(** The band signatures of a snippet. *)
Definition bandsOf (s : CodeSnippet.t) : list string :=
  MinHashLSH.computeLSHSignature config (CodeSnippet.minHashes s).

Lemma existsb_eqb_In (x : string) l : existsb (String.eqb x) l = true <-> In x l.
Proof.
  rewrite existsb_exists. split.
  - intros (y & Hy & E). apply String.eqb_eq in E. now subst.
  - intros H. exists x. split; [exact H | apply String.eqb_refl].
Qed.

Lemma fileUnder_spec id band (b : MinHashLSH.buckets) band' i :
  inBucket
    (let b1 := if JSMap.has band b then b else JSMap.set band [] b in
     match JSMap.get band b1 with
     | Some bucket =>
         if existsb (String.eqb id) bucket then b1
         else JSMap.set band (bucket ++ [id]) b1
     | None => b1
     end) band' i
  <-> inBucket b band' i \/ (band' = band /\ i = id).
Proof.
  cbv zeta. unfold JSMap.has, inBucket.
  destruct (JSMap.get band b) as [bucket|] eqn:G.
  - rewrite G. destruct (existsb (String.eqb id) bucket) eqn:E.
    + apply existsb_eqb_In in E. split; [auto|].
      intros [H|[-> ->]]; [exact H|]. eauto.
    + destruct (String.eqb band band') eqn:Eb.
      * apply String.eqb_eq in Eb. subst band'. rewrite get_set_same, G. split.
        -- intros (bk & Hbk & Hi). inversion Hbk; subst.
           rewrite in_app_iff in Hi. destruct Hi as [Hi|[<-|[]]]; eauto.
        -- intros [(bk & Hbk & Hi)|[_ ->]].
           ++ inversion Hbk; subst. eexists. split; [reflexivity|].
              rewrite in_app_iff. auto.
           ++ eexists. split; [reflexivity|]. rewrite in_app_iff. simpl. auto.
      * apply String.eqb_neq in Eb. rewrite get_set_other by exact Eb.
        split; [auto|]. intros [H|[-> _]]; [exact H | congruence].
  - rewrite get_set_same. simpl.
    destruct (String.eqb band band') eqn:Eb.
    + apply String.eqb_eq in Eb. subst band'. rewrite get_set_same, G. split.
      * intros (bk & Hbk & Hi). inversion Hbk; subst.
        destruct Hi as [<-|[]]. auto.
      * intros [(bk & Hbk & Hi)|[_ ->]]; [discriminate|].
        eexists. split; [reflexivity|]. simpl. auto.
    + apply String.eqb_neq in Eb.
      rewrite !get_set_other by exact Eb.
      split; [auto|]. intros [H|[-> _]]; [exact H | congruence].
Qed.

Lemma addSnippet_spec s b band i :
  inBucket (MinHashLSH.addSnippet config s b) band i
  <-> inBucket b band i \/ (i = CodeSnippet.id s /\ In band (bandsOf s)).
Proof.
  unfold MinHashLSH.addSnippet, bandsOf.
  generalize (MinHashLSH.computeLSHSignature config (CodeSnippet.minHashes s)) as bands.
  intros bands. revert b. induction bands as [|bd bands IH]; intros b; simpl.
  - tauto.
  - rewrite IH. rewrite (fileUnder_spec (CodeSnippet.id s) bd b band i).
    split.
    + intros [[H|[-> ->]]|[-> H]]; auto.
    + intros [H|[-> [<-|H]]]; auto.
Qed.

Lemma findCandidates_spec s b i :
  In i (MinHashLSH.findCandidates config s b)
  <-> i <> CodeSnippet.id s /\ exists band, In band (bandsOf s) /\ inBucket b band i.
Proof.
  unfold MinHashLSH.findCandidates, bandsOf.
  generalize (MinHashLSH.computeLSHSignature config (CodeSnippet.minHashes s)) as bands.
  intros bands.
  assert (G : forall bands candidates,
             In i (fold_left
                     (fun candidates bandSignature =>
                        match JSMap.get bandSignature b with
                        | Some bucket =>
                            fold_left
                              (fun candidates candidateId =>
                                 if String.eqb candidateId (CodeSnippet.id s) then candidates
                                 else JSSet.add String.eqb candidateId candidates)
                              bucket candidates
                        | None => candidates
                        end) bands candidates)
             <-> In i candidates \/
                 (i <> CodeSnippet.id s /\
                  exists band, In band bands /\ inBucket b band i)).
  { clear bands. induction bands as [|bd bands IH]; intros candidates; simpl.
    - split; [auto|]. intros [H|(_ & band & [] & _)]. exact H.
    - rewrite IH. clear IH.
      assert (B : forall bucket candidates,
                 In i (fold_left
                         (fun candidates candidateId =>
                            if String.eqb candidateId (CodeSnippet.id s) then candidates
                            else JSSet.add String.eqb candidateId candidates)
                         bucket candidates)
                 <-> In i candidates \/ (i <> CodeSnippet.id s /\ In i bucket)).
      { induction bucket as [|c bucket IHb]; intros cs; simpl.
        - tauto.
        - rewrite IHb. destruct (String.eqb c (CodeSnippet.id s)) eqn:E.
          + apply String.eqb_eq in E. subst c. split.
            * intros [H|[H1 H2]]; auto.
            * intros [H|[H1 [H2|H2]]]; auto. congruence.
          + apply String.eqb_neq in E.
            rewrite (set_add_In String.eqb String.eqb_eq). split.
            * intros [[->|H]|[H1 H2]]; auto.
            * intros [H|[H1 [<-|H2]]]; auto. }
      unfold inBucket. destruct (JSMap.get bd b) as [bucket|] eqn:Gb.
      + rewrite B. split.
        * intros [[H|[H1 H2]]|(H1 & band & Hb & H2)]; auto.
          -- right. split; [exact H1|]. exists bd. split; [now left|]. eauto.
          -- right. split; [exact H1|]. exists band. split; [now right | exact H2].
        * intros [H|(H1 & band & [<-|Hb] & bk & Hg & Hi)]; auto.
          -- rewrite Gb in Hg. inversion Hg; subst. auto.
          -- right. split; [exact H1|]. exists band. split; [exact Hb|]. eauto.
      + split.
        * intros [H|(H1 & band & Hb & H2)]; auto.
          right. split; [exact H1|]. exists band. split; [now right | exact H2].
        * intros [H|(H1 & band & [<-|Hb] & bk & Hg & Hi)]; auto.
          -- rewrite Gb in Hg. discriminate.
          -- right. split; [exact H1|]. exists band. split; [exact Hb|]. eauto. }
  rewrite G. simpl. tauto.
Qed.

End Buckets.

Section Dedup.
Variable config : Config.t.

(** The estimate reaches the threshold (signatures of equal length). *)
Definition similar (s k : CodeSnippet.t) : bool :=
  match MinHashLSH.calculateSimilarity (CodeSnippet.minHashes s) (CodeSnippet.minHashes k) with
  | JS.Ok similarity => PrimFloat.leb (Config.similarityThreshold config) similarity
  | JS.Throw _ => false
  end.

(** [k] is an LSH candidate for [s]: they have a band signature in common. *)
Definition sharesBand (s k : CodeSnippet.t) : bool :=
  existsb (fun band => existsb (String.eqb band) (bandsOf config k)) (bandsOf config s).

(** No kept snippet has the hash of [s], and no kept LSH candidate is similar. *)
Definition keeps (kept : list CodeSnippet.t) (s : CodeSnippet.t) : bool :=
  negb (existsb (fun k => String.eqb (CodeSnippet.hash k) (CodeSnippet.hash s)) kept)
  && negb (existsb (fun k => sharesBand s k && similar s k) kept).

(** The snippets kept out of [l], in order. *)
Definition keptAfter (l : list CodeSnippet.t) : list CodeSnippet.t :=
  fold_left (fun kept s => if keeps kept s then kept ++ [s] else kept) l [].

Definition entryOf (k : CodeSnippet.t) : string * CodeSnippet.t := (CodeSnippet.id k, k).

Lemma keptAfter_snoc l s :
  keptAfter (l ++ [s]) =
  if keeps (keptAfter l) s then keptAfter l ++ [s] else keptAfter l.
Proof. unfold keptAfter. now rewrite fold_left_app. Qed.

Lemma keptAfter_incl l k : In k (keptAfter l) -> In k l.
Proof.
  induction l as [|s l IH] using rev_ind; [intros []|].
  rewrite keptAfter_snoc, in_app_iff.
  destruct (keeps (keptAfter l) s); [|auto].
  rewrite in_app_iff. intros [H|H]; auto.
Qed.

Lemma NoDup_ids_inj (seen : list CodeSnippet.t) :
  NoDup (map CodeSnippet.id seen) ->
  forall k k', In k seen -> In k' seen -> CodeSnippet.id k = CodeSnippet.id k' -> k = k'.
Proof.
  induction seen as [|x seen IH]; intros Hnd k k' Hk Hk' Heq; [destruct Hk|].
  simpl in Hnd. inversion Hnd as [|? ? Hx Hnd']; subst.
  destruct Hk as [<-|Hk], Hk' as [<-|Hk']; auto.
  - exfalso. apply Hx. rewrite Heq. now apply in_map.
  - exfalso. apply Hx. rewrite <- Heq. now apply in_map.
Qed.

Lemma NoDup_ids_keptAfter l :
  NoDup (map CodeSnippet.id l) -> NoDup (map CodeSnippet.id (keptAfter l)).
Proof.
  induction l as [|s l IH] using rev_ind; [constructor|].
  rewrite map_app. intros Hnd. rewrite keptAfter_snoc.
  pose proof (NoDup_remove_1 _ _ _ Hnd) as H1. rewrite app_nil_r in H1.
  destruct (keeps (keptAfter l) s); [|auto].
  rewrite map_app. simpl.
  apply NoDup_app; auto.
  - constructor; [intros [] | constructor].
  - intros x Hx [<-|[]].
    apply in_map_iff in Hx. destruct Hx as (k & Hk1 & Hk2).
    apply keptAfter_incl in Hk2.
    apply (NoDup_remove_2 _ _ _ Hnd). rewrite app_nil_r.
    rewrite <- Hk1. now apply in_map.
Qed.

Lemma values_entries kept : JSMap.values (map entryOf kept) = kept.
Proof. unfold JSMap.values. rewrite map_map. simpl. apply map_id. Qed.

Lemma get_entries kept c k :
  NoDup (map CodeSnippet.id kept) ->
  (JSMap.get c (map entryOf kept) = Some k <-> In k kept /\ CodeSnippet.id k = c).
Proof.
  induction kept as [|x kept IH]; simpl; intros Hnd.
  - split; [discriminate | tauto].
  - inversion Hnd as [|? ? Hx Hnd']; subst.
    destruct (String.eqb (CodeSnippet.id x) c) eqn:E.
    + apply String.eqb_eq in E. split.
      * intros H. inversion H; subst. auto.
      * intros [[->|Hk] Hid]; [reflexivity|].
        exfalso. apply Hx. rewrite E, <- Hid. now apply in_map.
    + apply String.eqb_neq in E. rewrite (IH Hnd'). split.
      * intros [H1 H2]. auto.
      * intros [[->|Hk] Hid]; [congruence | auto].
Qed.

Lemma set_entries kept s :
  ~ In (CodeSnippet.id s) (map CodeSnippet.id kept) ->
  JSMap.set (CodeSnippet.id s) s (map entryOf kept) = map entryOf (kept ++ [s]).
Proof.
  induction kept as [|x kept IH]; simpl; intros Hn; [reflexivity|].
  destruct (String.eqb (CodeSnippet.id x) (CodeSnippet.id s)) eqn:E.
  - apply String.eqb_eq in E. tauto.
  - f_equal. apply IH. tauto.
Qed.

Lemma calculateSimilarity_same_length s k :
  List.length (CodeSnippet.minHashes s) = List.length (CodeSnippet.minHashes k) ->
  exists similarity,
    MinHashLSH.calculateSimilarity (CodeSnippet.minHashes s) (CodeSnippet.minHashes k)
    = JS.Ok similarity /\
    similar s k = PrimFloat.leb (Config.similarityThreshold config) similarity.
Proof.
  intros Hl. unfold similar, MinHashLSH.calculateSimilarity.
  rewrite Hl, Nat.eqb_refl. simpl. eexists. split; reflexivity.
Qed.

(** The candidate loop, when no comparison can throw. *)
Lemma isDuplicate_spec s unique candidates :
  (forall c k, In c candidates -> JSMap.get c unique = Some k ->
               List.length (CodeSnippet.minHashes s) = List.length (CodeSnippet.minHashes k)) ->
  exists d,
    CodeCollage.isDuplicate config s unique candidates = JS.Ok d /\
    (d = true <-> exists c k, In c candidates /\ JSMap.get c unique = Some k /\
                              similar s k = true).
Proof.
  induction candidates as [|c cs IH]; intros Hlen; simpl.
  - exists false. split; [reflexivity|]. split; [discriminate|].
    intros (c & k & [] & _).
  - destruct IH as (d & Hd & Hiff).
    { intros c0 k0 Hc0. apply Hlen. now right. }
    destruct (JSMap.get c unique) as [k|] eqn:G.
    + assert (Hl := Hlen c k (or_introl eq_refl) G).
      destruct (calculateSimilarity_same_length s k Hl) as (sim & Hcalc & Hsim).
      rewrite Hcalc. rewrite <- Hsim.
      destruct (similar s k) eqn:E.
      * exists true. split; [reflexivity|]. split; [|reflexivity].
        intros _. exists c, k. split; [now left|]. auto.
      * exists d. split; [exact Hd|]. rewrite Hiff. split.
        -- intros (c0 & k0 & H1 & H2 & H3). exists c0, k0. auto.
        -- intros (c0 & k0 & [<-|H1] & H2 & H3).
           ++ rewrite G in H2. inversion H2; subst. congruence.
           ++ exists c0, k0. auto.
    + exists d. split; [exact Hd|]. rewrite Hiff. split.
      * intros (c0 & k0 & H1 & H2 & H3). exists c0, k0. auto.
      * intros (c0 & k0 & [<-|H1] & H2 & H3); [congruence|].
        exists c0, k0. auto.
Qed.

Lemma sharesBand_spec s k :
  sharesBand s k = true <->
  exists band, In band (bandsOf config s) /\ In band (bandsOf config k).
Proof.
  unfold sharesBand. rewrite existsb_exists. split.
  - intros (band & H1 & H2). apply existsb_eqb_In in H2. eauto.
  - intros (band & H1 & H2). exists band. split; [exact H1|].
    now apply existsb_eqb_In.
Qed.

(** What the loop of [deduplicate] maintains after the snippets [seen]. *)
Record invariant (seen : list CodeSnippet.t) (st : CodeCollage.state) : Prop := {
  inv_processed : forall i, In i (CodeCollage.processed st) <-> In i (map CodeSnippet.id seen);
  inv_unique : CodeCollage.unique st = map entryOf (keptAfter seen);
  inv_sound : forall band i,
      inBucket (CodeCollage.lsh st) band i ->
      exists x, In x seen /\ CodeSnippet.id x = i /\ In band (bandsOf config x);
  inv_complete : forall k band,
      In k (keptAfter seen) -> In band (bandsOf config k) ->
      inBucket (CodeCollage.lsh st) band (CodeSnippet.id k)
}.

Lemma step_invariant seen st s len :
  NoDup (map CodeSnippet.id (seen ++ [s])) ->
  (forall x, In x (seen ++ [s]) -> List.length (CodeSnippet.minHashes x) = len) ->
  invariant seen st ->
  exists st', CodeCollage.step config st s = JS.Ok st' /\ invariant (seen ++ [s]) st'.
Proof.
  intros Hnd Hlen [Hp Hu Hs Hc].
  assert (Hnd' : NoDup (map CodeSnippet.id seen)).
  { rewrite map_app in Hnd. apply NoDup_remove_1 in Hnd. now rewrite app_nil_r in Hnd. }
  assert (Hnew : ~ In (CodeSnippet.id s) (map CodeSnippet.id seen)).
  { rewrite map_app in Hnd. apply NoDup_remove_2 in Hnd. now rewrite app_nil_r in Hnd. }
  assert (Hproc : forall i, In i (JSSet.add String.eqb (CodeSnippet.id s) (CodeCollage.processed st))
                            <-> In i (map CodeSnippet.id (seen ++ [s]))).
  { intros i. rewrite (set_add_In String.eqb String.eqb_eq), Hp, map_app, in_app_iff.
    simpl. intuition auto. }
  unfold CodeCollage.step.
  replace (JSSet.has String.eqb (CodeSnippet.id s) (CodeCollage.processed st)) with false.
  2:{ symmetry. apply not_true_is_false. intros H.
      apply (set_has_In String.eqb String.eqb_eq) in H. apply Hp in H. contradiction. }
  rewrite Hu, values_entries.
  destruct (existsb _ (keptAfter seen)) eqn:Ehash.
  - eexists. split; [reflexivity|].
    assert (Hk : keptAfter (seen ++ [s]) = keptAfter seen).
    { rewrite keptAfter_snoc. unfold keeps. now rewrite Ehash. }
    constructor; simpl.
    + exact Hproc.
    + now rewrite Hk.
    + intros band i H. destruct (Hs band i H) as (x & Hx & Hid & Hb).
      exists x. rewrite in_app_iff. auto.
    + intros k band. rewrite Hk. apply Hc.
  - set (lsh1 := MinHashLSH.addSnippet config s (CodeCollage.lsh st)).
    set (candidates := MinHashLSH.findCandidates config s lsh1).
    destruct (isDuplicate_spec s (map entryOf (keptAfter seen)) candidates)
      as (d & Hd & Hiff).
    { intros c k _ G. apply get_entries in G; [|now apply NoDup_ids_keptAfter].
      destruct G as [G _]. apply keptAfter_incl in G.
      rewrite (Hlen s), (Hlen k); auto; rewrite in_app_iff; simpl; auto. }
    rewrite Hd. eexists. split; [reflexivity|].
    assert (Hdup : d = existsb (fun k => sharesBand s k && similar s k) (keptAfter seen)).
    { apply eq_true_iff_eq. rewrite Hiff, existsb_exists. split.
      - intros (c & k & Hcand & G & Hsim).
        apply get_entries in G; [|now apply NoDup_ids_keptAfter].
        destruct G as [Hk Hid]. exists k. split; [exact Hk|].
        rewrite Hsim, andb_true_r. apply sharesBand_spec.
        apply findCandidates_spec in Hcand.
        destruct Hcand as (Hne & band & Hb & Hin).
        apply addSnippet_spec in Hin. destruct Hin as [Hin|[Hin _]]; [|congruence].
        destruct (Hs band c Hin) as (x & Hx & Hxid & Hxb).
        assert (x = k).
        { apply NoDup_ids_inj with (seen := seen); auto.
          - now apply keptAfter_incl.
          - congruence. }
        subst x. eauto.
      - intros (k & Hk & Hand). apply andb_true_iff in Hand. destruct Hand as [Hsh Hsim].
        apply sharesBand_spec in Hsh. destruct Hsh as (band & Hb1 & Hb2).
        exists (CodeSnippet.id k), k. split; [|split; [|exact Hsim]].
        + apply findCandidates_spec. split.
          * intros E. apply Hnew. rewrite <- E. apply in_map. now apply keptAfter_incl.
          * exists band. split; [exact Hb1|]. apply addSnippet_spec. left. now apply Hc.
        + apply get_entries; [now apply NoDup_ids_keptAfter | auto]. }
    assert (Hk : keptAfter (seen ++ [s]) =
                 if d then keptAfter seen else keptAfter seen ++ [s]).
    { rewrite keptAfter_snoc. unfold keeps. rewrite Ehash, <- Hdup. now destruct d. }
    constructor; simpl.
    + exact Hproc.
    + rewrite Hk. destruct d; [reflexivity|]. apply set_entries.
      intros H. apply Hnew. apply in_map_iff in H. destruct H as (k & Hk1 & Hk2).
      rewrite <- Hk1. apply in_map. now apply keptAfter_incl.
    + intros band i H. apply addSnippet_spec in H. destruct H as [H|[-> H]].
      * destruct (Hs band i H) as (x & Hx & Hid & Hb).
        exists x. rewrite in_app_iff. auto.
      * exists s. rewrite in_app_iff. simpl. auto.
    + intros k band Hin Hb. apply addSnippet_spec.
      rewrite Hk in Hin.
      assert (Hcases : In k (keptAfter seen) \/ k = s).
      { destruct d; [auto|]. rewrite in_app_iff in Hin. simpl in Hin. intuition auto. }
      destruct Hcases as [H| ->]; [left; now apply Hc | right; auto].
Qed.

(** The loop with its index and its sets does what [keptAfter] says. *)
Lemma run_keptAfter l len :
  NoDup (map CodeSnippet.id l) ->
  (forall x, In x l -> List.length (CodeSnippet.minHashes x) = len) ->
  exists st, CodeCollage.run config l = JS.Ok st /\
             JSMap.values (CodeCollage.unique st) = keptAfter l.
Proof.
  intros Hnd Hlen. unfold CodeCollage.run.
  assert (G : forall todo seen st,
             l = seen ++ todo -> invariant seen st ->
             exists st', JS.foldM (CodeCollage.step config) todo st = JS.Ok st' /\
                         invariant l st').
  { induction todo as [|s todo IH]; intros seen st Hl Hinv; simpl.
    - exists st. rewrite app_nil_r in Hl. subst. auto.
    - assert (Hl' : l = (seen ++ [s]) ++ todo) by (now rewrite <- app_assoc).
      destruct (@step_invariant seen st s len) as (st' & Hst & Hinv'); auto.
      + rewrite Hl', map_app in Hnd. now apply NoDup_app_remove_r in Hnd.
      + intros x Hx. apply Hlen. rewrite Hl', in_app_iff. auto.
      + rewrite Hst. now apply (IH (seen ++ [s])). }
  destruct (G l [] (CodeCollage.mkState [] [] [])) as (st & Hst & Hinv); auto.
  - constructor; simpl; try tauto.
    intros band i (bk & Hbk & _). discriminate.
  - exists st. split; [exact Hst|].
    destruct Hinv as [_ Hu _ _]. rewrite Hu. apply values_entries.
Qed.

End Dedup.

Section DedupSpec.
Variable config : Config.t.

Lemma keptAfter_app l1 l2 :
  exists extra, keptAfter config (l1 ++ l2) = keptAfter config l1 ++ extra /\
                incl extra l2.
Proof.
  induction l2 as [|s l2 IH] using rev_ind.
  - exists []. rewrite !app_nil_r. split; [reflexivity | intros x []].
  - destruct IH as (extra & He & Hi). rewrite app_assoc, keptAfter_snoc, He.
    destruct (keeps config _ s).
    + exists (extra ++ [s]). split; [now rewrite app_assoc|].
      intros x Hx. rewrite in_app_iff in *. simpl in *. destruct Hx as [Hx|Hx]; auto.
    + exists extra. split; [reflexivity|].
      intros x Hx. rewrite in_app_iff. auto.
Qed.

Lemma NoDup_ids_NoDup (l : list CodeSnippet.t) : NoDup (map CodeSnippet.id l) -> NoDup l.
Proof. apply NoDup_map_inv. Qed.

(** Whether a snippet is kept is decided when the loop reaches it. *)
Lemma keptAfter_decided before s after :
  NoDup (map CodeSnippet.id (before ++ s :: after)) ->
  (In s (keptAfter config (before ++ s :: after))
   <-> keeps config (keptAfter config before) s = true).
Proof.
  intros Hnd. apply NoDup_ids_NoDup in Hnd.
  assert (Hs1 : ~ In s before /\ ~ In s after).
  { apply NoDup_remove_2 in Hnd. rewrite in_app_iff in Hnd. tauto. }
  replace (before ++ s :: after) with ((before ++ [s]) ++ after)
    by (now rewrite <- app_assoc).
  destruct (keptAfter_app (before ++ [s]) after) as (extra & -> & Hi).
  rewrite keptAfter_snoc, in_app_iff.
  destruct (keeps config (keptAfter config before) s).
  - rewrite in_app_iff. simpl. tauto.
  - split; [|discriminate]. intros [H|H].
    + apply keptAfter_incl in H. tauto.
    + apply Hi in H. tauto.
Qed.

Lemma keeps_spec kept s :
  keeps config kept s = true <->
  (forall k, In k kept -> CodeSnippet.hash k <> CodeSnippet.hash s) /\
  (forall k, In k kept -> sharesBand config s k = true -> similar config s k = false).
Proof.
  unfold keeps. rewrite andb_true_iff, !negb_true_iff.
  rewrite <- !not_true_iff_false, !existsb_exists. split.
  - intros [H1 H2]. split.
    + intros k Hk E. apply H1. exists k. split; [exact Hk|]. now apply String.eqb_eq.
    + intros k Hk Hsh. apply not_true_is_false. intros Hsim. apply H2.
      exists k. split; [exact Hk|]. now rewrite Hsh, Hsim.
  - intros [H1 H2]. split.
    + intros (k & Hk & E). apply String.eqb_eq in E. now apply (H1 k).
    + intros (k & Hk & E). apply andb_true_iff in E. destruct E as [E1 E2].
      rewrite (H2 k Hk E1) in E2. discriminate.
Qed.

Lemma NoDup_hash_keptAfter l : NoDup (map CodeSnippet.hash (keptAfter config l)).
Proof.
  induction l as [|s l IH] using rev_ind; [constructor|].
  rewrite keptAfter_snoc. destruct (keeps config _ s) eqn:E; [|exact IH].
  rewrite map_app. simpl. apply NoDup_app; auto.
  - constructor; [intros [] | constructor].
  - intros h Hh [<-|[]]. apply in_map_iff in Hh. destruct Hh as (k & Hk1 & Hk2).
    apply keeps_spec in E. destruct E as [E _]. now apply (E k).
Qed.

(** C6 (amended): on snippets with pairwise distinct ids and signatures of
    one length, [deduplicate] returns, and it keeps a snippet exactly when, as
    the loop reaches it, no snippet kept so far has its content hash and no
    snippet kept so far that is an LSH candidate for it (shares a band
    signature) has an estimated similarity at or above the threshold.
    Snippets once kept stay kept, the kept snippets have pairwise distinct
    hashes, and of two snippets with one hash the later is never kept
    beside the earlier. *)
Theorem deduplicate_keeps_unmatched (l : list CodeSnippet.t) (len : nat) :
  NoDup (map CodeSnippet.id l) ->
  (forall x, In x l -> List.length (CodeSnippet.minHashes x) = len) ->
  exists kept,
    CodeCollage.deduplicate config l = JS.Ok (kept, List.length l - List.length kept) /\
    (forall before s after,
        l = before ++ s :: after ->
        exists keptBefore,
          CodeCollage.deduplicate config before
          = JS.Ok (keptBefore, List.length before - List.length keptBefore) /\
          (forall k, In k keptBefore -> In k kept) /\
          (In s kept <->
           (forall k, In k keptBefore -> CodeSnippet.hash k <> CodeSnippet.hash s) /\
           (forall k, In k keptBefore -> sharesBand config s k = true ->
                      similar config s k = false))) /\
    NoDup (map CodeSnippet.hash kept) /\
    (forall before s mid s' after,
        l = before ++ s :: mid ++ s' :: after ->
        CodeSnippet.hash s = CodeSnippet.hash s' ->
        In s kept -> ~ In s' kept).
Proof.
  intros Hnd Hlen.
  destruct (run_keptAfter config l Hnd Hlen) as (st & Hrun & Hkept).
  exists (keptAfter config l). split; [|split; [|split]].
  - unfold CodeCollage.deduplicate. now rewrite Hrun, Hkept.
  - intros before s after Hl.
    assert (Hnd1 : NoDup (map CodeSnippet.id before)).
    { rewrite Hl, map_app in Hnd. now apply NoDup_app_remove_r in Hnd. }
    destruct (@run_keptAfter config before len Hnd1) as (st1 & Hrun1 & Hkept1).
    { intros x Hx. apply Hlen. rewrite Hl, in_app_iff. auto. }
    exists (keptAfter config before). split; [|split].
    + unfold CodeCollage.deduplicate. now rewrite Hrun1, Hkept1.
    + intros k Hk. rewrite Hl.
      destruct (keptAfter_app before (s :: after)) as (extra & -> & _).
      rewrite in_app_iff. auto.
    + rewrite Hl, keptAfter_decided by (rewrite <- Hl; exact Hnd).
      apply keeps_spec.
  - apply NoDup_hash_keptAfter.
  - intros before s mid s' after Hl Hh Hs Hs'.
    assert (s = s').
    { pose proof (NoDup_hash_keptAfter l) as Hnh.
      revert Hnh Hs Hs' Hh. generalize (keptAfter config l) as kept.
      induction kept as [|k kept IH]; simpl; [tauto|].
      intros Hnh Hs Hs' Hh. inversion Hnh as [|? ? Hk Hnh']; subst.
      destruct Hs as [->|Hs], Hs' as [->|Hs']; auto.
      - exfalso. apply Hk. rewrite Hh. now apply in_map.
      - exfalso. apply Hk. rewrite <- Hh. now apply in_map. }
    subst s'. apply NoDup_ids_NoDup in Hnd. rewrite Hl in Hnd.
    apply NoDup_remove_2 in Hnd. apply Hnd.
    rewrite !in_app_iff. simpl. auto.
Qed.

End DedupSpec.

Lemma deduplicate_keeps_unmatched_witness :
  CodeCollage.deduplicate Config.DEFAULT_CONFIG Sample.twins
  = JS.Ok ([Sample.stored "first" "h1" [1; 2; 3; 4]%Z], 1) /\
  exists kept,
    CodeCollage.deduplicate Config.DEFAULT_CONFIG Sample.twins
    = JS.Ok (kept, List.length Sample.twins - List.length kept) /\
    (forall before s after,
        Sample.twins = before ++ s :: after ->
        exists keptBefore,
          CodeCollage.deduplicate Config.DEFAULT_CONFIG before
          = JS.Ok (keptBefore, List.length before - List.length keptBefore) /\
          (forall k, In k keptBefore -> In k kept) /\
          (In s kept <->
           (forall k, In k keptBefore -> CodeSnippet.hash k <> CodeSnippet.hash s) /\
           (forall k, In k keptBefore -> sharesBand Config.DEFAULT_CONFIG s k = true ->
                      similar Config.DEFAULT_CONFIG s k = false))) /\
    NoDup (map CodeSnippet.hash kept) /\
    (forall before s mid s' after,
        Sample.twins = before ++ s :: mid ++ s' :: after ->
        CodeSnippet.hash s = CodeSnippet.hash s' ->
        In s kept -> ~ In s' kept).
Proof.
  split; [vm_compute; reflexivity|].
  apply (@deduplicate_keeps_unmatched Config.DEFAULT_CONFIG Sample.twins 4).
  - simpl. constructor; [intros [H|[]]; discriminate|].
    constructor; [intros [] | constructor].
  - intros x [<-|[<-|[]]]; reflexivity.
Defined.

(** C6, as stated, fails.  Of the two snippets [s1] and [s2] with one
    content hash it is the second that is retained: [s1] is dropped as a
    near-duplicate of [s0], its hash is not remembered, and [s2] is judged
    on its own signature.  And a record that repeats an id already seen is
    dropped although no kept snippet has its hash or is similar to it. *)
Lemma deduplicate_counterexample :
  CodeSnippet.hash Sample.s1 = CodeSnippet.hash Sample.s2 /\
  CodeCollage.deduplicate Sample.twoBands [Sample.s0; Sample.s1; Sample.s2]
  = JS.Ok ([Sample.s0; Sample.s2], 1) /\
  CodeCollage.deduplicate Sample.twoBands [Sample.s0; Sample.s0again]
  = JS.Ok ([Sample.s0], 1) /\
  CodeSnippet.hash Sample.s0 <> CodeSnippet.hash Sample.s0again /\
  similar Sample.twoBands Sample.s0again Sample.s0 = false.
Proof.
  split; [reflexivity|]. split; [vm_compute; reflexivity|].
  split; [vm_compute; reflexivity|]. split; [discriminate | vm_compute; reflexivity].
Qed.

(* ------------------------------------------------------------------ *)
(** ** Scanning a log *)

(** What the specification asks of a scan: the records of the lines that
    parse, in order, the others skipped. *)
Definition wellFormedRecords (lines : list string) : list JSON.json :=
  flat_map (fun line => match JSON.parse line with
                        | Some record => [record]
                        | None => []
                        end) lines.

Section Scan.
Import JSONLStorage.

Lemma parseLines_all lines :
  Forall (fun line => JSON.parse line <> None) lines ->
  exists records, parseLines lines = JS.Ok records /\
                  map Some records = map JSON.parse lines /\
                  records = wellFormedRecords lines.
Proof.
  induction 1 as [|line lines Hline _ IH]; simpl.
  - exists []. auto.
  - destruct IH as (records & -> & Hm & Hw).
    destruct (JSON.parse line) as [record|] eqn:E; [|congruence].
    exists (record :: records). simpl. rewrite Hm, Hw. auto.
Qed.

Lemma parseLines_some_bad lines :
  Exists (fun line => JSON.parse line = None) lines ->
  exists e, parseLines lines = JS.Throw e.
Proof.
  induction 1 as [line lines Hline|line lines _ IH]; simpl.
  - rewrite Hline. eauto.
  - destruct (JSON.parse line); [|eauto].
    destruct IH as (e & ->). eauto.
Qed.

End Scan.

(** C3, as stated, fails: a log whose second line is cut short reads back
    as the empty list, in both stores, although its first and third lines
    are well-formed records. *)
Lemma scan_counterexample :
  wellFormedRecords (JSONLStorage.scannedLines Sample.tornLog)
  = [Sample.record "a"; Sample.record "b"] /\
  JSONLStorage.readSnippets (Some Sample.tornLog) = [] /\
  JSONLStorage.loadJSONL (Some Sample.tornLog) = [].
Proof. repeat split; vm_compute; reflexivity. Qed.

(** C3 (amended): [readSnippets], [readClusters] and [readPatterns] of the
    command-line store never raise.  When every line that is not blank
    (not empty once trimmed) is well-formed, they return all the records
    in insertion order; when any such line is malformed, they return the
    empty list, dropping the well-formed records too; so do they when
    the file cannot be read.  [loadJSONL] of the library store trims the
    content as a whole, splits it at the line feeds and leaves out the
    empty lines only: when every line so kept is well-formed, it returns
    all the records in insertion order, and the empty list when the file
    cannot be read. *)
Theorem scan_all_or_nothing (content : string) :
  (Forall (fun line => JSON.parse line <> None) (JSONLStorage.scannedLines content) ->
   map Some (JSONLStorage.readSnippets (Some content))
   = map JSON.parse (JSONLStorage.scannedLines content) /\
   JSONLStorage.readSnippets (Some content)
   = wellFormedRecords (JSONLStorage.scannedLines content)) /\
  (Exists (fun line => JSON.parse line = None) (JSONLStorage.scannedLines content) ->
   JSONLStorage.readSnippets (Some content) = []) /\
  (Forall (fun line => JSON.parse line <> None) (JSONLStorage.loadedLines content) ->
   map Some (JSONLStorage.loadJSONL (Some content))
   = map JSON.parse (JSONLStorage.loadedLines content) /\
   JSONLStorage.loadJSONL (Some content)
   = wellFormedRecords (JSONLStorage.loadedLines content)) /\
  JSONLStorage.readClusters (Some content) = JSONLStorage.readSnippets (Some content) /\
  JSONLStorage.readPatterns (Some content) = JSONLStorage.readSnippets (Some content) /\
  JSONLStorage.readSnippets None = [] /\
  JSONLStorage.loadJSONL None = [] /\
  (forall line,
      In line (JSONLStorage.scannedLines content)
      <-> In line (JS.split "010" content) /\ JSONLStorage.trim line <> EmptyString) /\
  (forall line,
      In line (JSONLStorage.loadedLines content)
      <-> In line (JS.split "010" (JSONLStorage.trim content)) /\ line <> EmptyString).
Proof.
  unfold JSONLStorage.readSnippets, JSONLStorage.readClusters, JSONLStorage.readPatterns,
    JSONLStorage.readLog, JSONLStorage.loadJSONL.
  split; [|split; [|split; [|split; [|split; [|split; [|split; [|split]]]]]]];
    try reflexivity.
  - intros H. destruct (parseLines_all H) as (records & -> & Hm & Hw). now split.
  - intros H. destruct (parseLines_some_bad H) as (e & ->). reflexivity.
  - intros H. destruct (parseLines_all H) as (records & -> & Hm & Hw). now split.
  - intros line. unfold JSONLStorage.scannedLines. rewrite filter_In.
    unfold JSONLStorage.nonEmpty. destruct (JSONLStorage.trim line);
      (split; intros [H1 H2]; split; congruence).
  - intros line. unfold JSONLStorage.loadedLines. rewrite filter_In.
    destruct line; cbn; (split; intros [H1 H2]; split; congruence).
Qed.

Lemma scan_all_or_nothing_witness :
  JSONLStorage.readSnippets (Some Sample.cleanLog)
  = [Sample.record "a"; Sample.record "b"] /\
  JSONLStorage.readSnippets (Some Sample.tornLog) = [].
Proof.
  assert (Hclean : JSONLStorage.scannedLines Sample.cleanLog
                   = [Sample.recordLine "a"; Sample.recordLine "b"])
    by (vm_compute; reflexivity).
  assert (Htorn : JSONLStorage.scannedLines Sample.tornLog
                  = [Sample.recordLine "a";
                     ("{" ++ Sample.quote ++ "id")%string;
                     Sample.recordLine "b"])
    by (vm_compute; reflexivity).
  split.
  - etransitivity.
    + apply (proj1 (scan_all_or_nothing Sample.cleanLog)).
      rewrite Hclean.
      repeat constructor; vm_compute; discriminate.
    + rewrite Hclean. vm_compute. reflexivity.
  - apply (proj1 (proj2 (scan_all_or_nothing Sample.tornLog))).
    rewrite Htorn.
    apply Exists_cons_tl. apply Exists_cons_hd. vm_compute. reflexivity.
Defined.

(** The two stores do not keep the same lines: a line of white space
    inside the log is left out by the command-line store and is parsed,
    as a malformed line, by the library's. *)
Lemma scan_blank_line :
  JSONLStorage.scannedLines Sample.spacedLog = [Sample.recordLine "a"; Sample.recordLine "b"]
  /\ JSONLStorage.readSnippets (Some Sample.spacedLog)
     = [Sample.record "a"; Sample.record "b"]
  /\ JSONLStorage.loadedLines Sample.spacedLog
     = [Sample.recordLine "a"; " "%string; Sample.recordLine "b"]
  /\ JSON.parse " " = None.
Proof. repeat split; vm_compute; reflexivity. Qed.

(* ------------------------------------------------------------------ *)
(** ** The size cutoff of [ingestFile] *)

Section Ingest.
Variable config : Config.t.
Variable generateHash : string -> string.
Variable random : nat -> nat -> Z.
Variable generateSnippetId : nat -> string.

Let ingestFile := CodeCollage.ingestFile config generateHash random generateSnippetId.
Let ingest := CodeCollage.ingest config generateHash random generateSnippetId.
Let ingestStep := CodeCollage.ingestStep config generateHash random generateSnippetId.

Lemma ingest_snoc (files : list (string * option string)) (entry : string * option string) :
  ingest (files ++ [entry]) = ingestStep (ingest files) entry.
Proof.
  unfold ingest, CodeCollage.ingest. now rewrite fold_left_app.
Qed.

(** A snippet comes back only for a supported language and a content of
    at most 100000 code units. *)
Lemma ingestFile_some (call : nat) (file : option string) (filepath : string)
      (snippet : CodeSnippet.t) :
  ingestFile call file filepath = Some snippet ->
  exists content,
    file = Some content /\
    (Z.of_nat (String.length content) <= 100000)%Z /\
    Tokenizer.detectLanguage filepath (Some content) <> JS.VStr "text" /\
    CodeSnippet.content snippet = content /\
    CodeSnippet.filename snippet = filepath /\
    CodeSnippet.language snippet = Tokenizer.detectLanguage filepath (Some content) /\
    CodeSnippet.tokens snippet = Tokenizer.tokenize content (CodeSnippet.language snippet).
Proof.
  unfold ingestFile, CodeCollage.ingestFile.
  destruct file as [content|]; [|discriminate].
  cbv zeta.
  destruct (JSValue.eqb _ _) eqn:Hlang; [discriminate|].
  destruct (100000 <? _)%Z eqn:Hlen; [discriminate|].
  cbn [orb]. intros [= <-]. exists content. cbn.
  repeat split; try reflexivity.
  - now apply Z.ltb_ge.
  - intros Heq. rewrite Heq in Hlang. discriminate.
Qed.

End Ingest.

(** C10: a readable file whose content is longer than 100000 code units
    makes [ingestFile] return [null] whatever its name, so also when its
    language is supported; in the loop of [ingest] such a file adds one
    to the skipped files and leaves the processed files and the snippets
    as they were. *)
Theorem ingestFile_skips_long_files
        (config : Config.t) (generateHash : string -> string)
        (random : nat -> nat -> Z) (generateSnippetId : nat -> string)
        (call : nat) (filepath content : string)
        (files : list (string * option string)) :
  (100000 < Z.of_nat (String.length content))%Z ->
  CodeCollage.ingestFile config generateHash random generateSnippetId call
                         (Some content) filepath = None
  /\ let before := CodeCollage.ingest config generateHash random generateSnippetId files in
     let after := CodeCollage.ingest config generateHash random generateSnippetId
                                     (files ++ [(filepath, Some content)]) in
     CodeCollage.processedFiles after = CodeCollage.processedFiles before
     /\ CodeCollage.skippedFiles after = S (CodeCollage.skippedFiles before)
     /\ CodeCollage.snippets after = CodeCollage.snippets before.
Proof.
  intros Hlong.
  assert (Hnull : forall k,
             CodeCollage.ingestFile config generateHash random generateSnippetId k
                                    (Some content) filepath = None).
  { intros k. unfold CodeCollage.ingestFile. cbv zeta.
    apply Z.ltb_lt in Hlong. rewrite Hlong, orb_true_r. reflexivity. }
  split; [apply Hnull|].
  cbv zeta. rewrite ingest_snoc. unfold CodeCollage.ingestStep.
  cbn [fst snd]. rewrite Hnull. cbn. auto.
Qed.

Lemma ingestFile_skips_long_files_witness :
  Tokenizer.detectLanguage "big.js" (Some Sample.longFile) = JS.VStr "javascript"
  /\ CodeCollage.ingestFile Config.DEFAULT_CONFIG (fun content => content)
                            (fun _ => Sample.draws) Sample.snippetIds 0
                            (Some Sample.longFile) "big.js" = None.
Proof.
  split; [reflexivity|].
  refine (proj1 (ingestFile_skips_long_files
                   Config.DEFAULT_CONFIG (fun content => content)
                   (fun _ => Sample.draws) Sample.snippetIds 0 "big.js"
                   Sample.longFile [] _)).
  vm_compute. reflexivity.
Defined.

(* ------------------------------------------------------------------ *)
(** ** The passes of [normalize], one by one *)

(** [pattern] occurs somewhere in [s]. *)
Definition occurs (pattern s : Text.t) : bool :=
  match Text.indexOf pattern s with
  | Some _ => true
  | None => false
  end.

(** No code unit of [s] satisfies [p]. *)
Definition free (p : ascii -> bool) (s : Text.t) : Prop :=
  Forall (fun c => p c = false) s.

Section Occurrences.

Lemma startsWith_nil (s : Text.t) : Text.startsWith [] s = true.
Proof. now destruct s. Qed.

Lemma startsWith_cons (p : ascii) (pattern : Text.t) (c : ascii) (s : Text.t) :
  Text.startsWith (p :: pattern) (c :: s) = Ascii.eqb p c && Text.startsWith pattern s.
Proof. reflexivity. Qed.

Lemma startsWith_app (pattern s r : Text.t) :
  Text.startsWith pattern s = true -> Text.startsWith pattern (s ++ r) = true.
Proof.
  revert s. induction pattern as [|p pattern IH]; intros [|c s]; cbn; try easy.
  intros H. apply andb_true_iff in H as [-> H]. now rewrite IH.
Qed.

Lemma occurs_cons (pattern : Text.t) (c : ascii) (s : Text.t) :
  occurs pattern (c :: s) = Text.startsWith pattern (c :: s) || occurs pattern s.
Proof.
  unfold occurs. cbn [Text.indexOf].
  destruct (Text.startsWith pattern (c :: s)); [reflexivity|].
  now destruct (Text.indexOf pattern s).
Qed.

Lemma occurs_nil (p : ascii) (pattern : Text.t) : occurs (p :: pattern) [] = false.
Proof. reflexivity. Qed.

Lemma occurs_app_r (pattern a s : Text.t) :
  occurs pattern s = true -> occurs pattern (a ++ s) = true.
Proof.
  intros H. induction a as [|c a IH]; [exact H|].
  cbn [app]. rewrite occurs_cons, IH. apply orb_true_r.
Qed.

Lemma occurs_app_l (pattern s r : Text.t) :
  occurs pattern s = true -> occurs pattern (s ++ r) = true.
Proof.
  induction s as [|c s IH].
  - destruct pattern; [|discriminate]. intros _.
    destruct r; [reflexivity|]. cbn [app]. now rewrite occurs_cons, startsWith_nil.
  - cbn [app]. rewrite !occurs_cons. intros H.
    apply orb_true_iff in H as [H|H].
    + change (c :: s ++ r) with ((c :: s) ++ r). now rewrite startsWith_app.
    + rewrite IH by exact H. apply orb_true_r.
Qed.

Lemma occurs_false_cons (pattern : Text.t) (c : ascii) (s : Text.t) :
  occurs pattern (c :: s) = false ->
  Text.startsWith pattern (c :: s) = false /\ occurs pattern s = false.
Proof. rewrite occurs_cons. apply orb_false_iff. Qed.

(** The first code unit of a text, as a pattern of length one would see it. *)
Lemma startsWith_head (p : ascii) (pattern s : Text.t) :
  Text.startsWith (p :: pattern) s = true -> hd_error s = Some p.
Proof.
  destruct s as [|c s]; [discriminate|]. cbn.
  intros H. apply andb_true_iff in H as [H _].
  apply Ascii.eqb_eq in H. now subst.
Qed.

End Occurrences.

(** *** Comments that run to the end of the line *)

Section LineComments.
Variable marker : Text.t.
Hypothesis marker_not_nil : marker <> [].
Hypothesis marker_on_one_line : free Text.isLineTerminator marker.

Lemma removeToLineEnd_inside (s : Text.t) :
  match Text.removeToLineEnd marker true s with
  | [] => True
  | c :: _ => Text.isLineTerminator c = true
  end.
Proof.
  induction s as [|c s IH]; cbn; [exact I|].
  destruct (Text.isLineTerminator c) eqn:Hc; [exact Hc|exact IH].
Qed.

(** What the result begins with, the text began with. *)
Lemma removeToLineEnd_head (pattern s : Text.t) :
  free Text.isLineTerminator pattern ->
  Text.startsWith pattern (Text.removeToLineEnd marker false s) = true ->
  Text.startsWith pattern s = true.
Proof.
  revert s. induction pattern as [|p pattern IH]; intros s Hp; [now rewrite startsWith_nil|].
  inversion Hp as [|? ? Hp1 Hp2]; subst.
  destruct s as [|c s]; [discriminate|].
  cbn [Text.removeToLineEnd].
  destruct (Text.startsWith marker (c :: s)) eqn:Hm.
  - pose proof (removeToLineEnd_inside s) as Hin.
    destruct (Text.removeToLineEnd marker true s) as [|d r]; [discriminate|].
    cbn. intros H. apply andb_true_iff in H as [H _].
    apply Ascii.eqb_eq in H. subst. congruence.
  - cbn. intros H. apply andb_true_iff in H as [-> H]. cbn.
    now apply IH.
Qed.

Lemma marker_shape :
  exists m marker',
    marker = m :: marker' /\ Text.isLineTerminator m = false
    /\ free Text.isLineTerminator marker'.
Proof.
  destruct marker as [|m marker']; [congruence|].
  exists m, marker'. now inversion marker_on_one_line.
Qed.

(** No marker is left. *)
Lemma removeToLineEnd_clean (inComment : bool) (s : Text.t) :
  occurs marker (Text.removeToLineEnd marker inComment s) = false.
Proof.
  destruct marker_shape as (m & marker' & Hmarker & Hm1 & Hfree).
  revert inComment. induction s as [|c s IH]; intros b.
  - rewrite Hmarker. now destruct b.
  - destruct b; cbn [Text.removeToLineEnd].
    + destruct (Text.isLineTerminator c) eqn:Hc; [|apply IH].
      rewrite occurs_cons, IH, orb_false_r.
      rewrite Hmarker. cbn.
      destruct (Ascii.eqb_spec m c) as [->|]; [congruence|reflexivity].
    + destruct (Text.startsWith marker (c :: s)) eqn:Hm; [apply IH|].
      rewrite occurs_cons, IH, orb_false_r.
      destruct (Text.startsWith marker (c :: Text.removeToLineEnd marker false s)) eqn:Hout;
        [|reflexivity].
      assert (Hs : Text.startsWith marker (c :: s) = true); [|congruence].
      rewrite Hmarker in Hout |- *. cbn in Hout |- *.
      apply andb_true_iff in Hout as [-> Hout]. cbn.
      rewrite <- Hmarker in Hout. now apply removeToLineEnd_head.
Qed.

(** A text without the marker is left as it is. *)
Lemma removeToLineEnd_fixed (s : Text.t) :
  occurs marker s = false -> Text.removeToLineEnd marker false s = s.
Proof.
  induction s as [|c s IH]; [reflexivity|].
  intros H. apply occurs_false_cons in H as [H1 H2].
  cbn [Text.removeToLineEnd]. rewrite H1. f_equal. now apply IH.
Qed.

End LineComments.

(** *** Passes that leave stretches out *)

(** [t] is [s] with stretches left out, a code unit satisfying [special]
    standing in [t] where a stretch went. *)
Inductive Shrinks (special : ascii -> bool) : Text.t -> Text.t -> Prop :=
| Shrinks_nil : Shrinks special [] []
| Shrinks_keep (c : ascii) (s t : Text.t) :
    Shrinks special s t -> Shrinks special (c :: s) (c :: t)
| Shrinks_cut (c : ascii) (a s t : Text.t) :
    special c = true -> Shrinks special s t -> Shrinks special (a ++ s) (c :: t).

(** A match of [/OPENING[\s\S]*?CLOSING/] begins at the head of [s]. *)
Definition blockAt (opening closing s : Text.t) : bool :=
  match Text.blockLength opening closing s with
  | Some _ => true
  | None => false
  end.

(** Such a match begins somewhere in [s]. *)
Fixpoint hasBlock (opening closing s : Text.t) : bool :=
  match s with
  | [] => false
  | _ :: s' => blockAt opening closing s || hasBlock opening closing s'
  end.

Section Blocks.
Variables opening closing : Text.t.

Lemma blockAt_spec (s : Text.t) :
  blockAt opening closing s
  = Text.startsWith opening s && occurs closing (skipn (List.length opening) s).
Proof.
  unfold blockAt, Text.blockLength, occurs.
  destruct (Text.startsWith opening s); [|reflexivity].
  now destruct (Text.indexOf closing _).
Qed.

Lemma hasBlock_app_r (a s : Text.t) :
  hasBlock opening closing s = true -> hasBlock opening closing (a ++ s) = true.
Proof.
  intros H. induction a as [|c a IH]; [exact H|].
  cbn. rewrite IH. apply orb_true_r.
Qed.

Lemma skipn_startsWith_app (pattern s r : Text.t) :
  Text.startsWith pattern s = true ->
  skipn (List.length pattern) (s ++ r) = skipn (List.length pattern) s ++ r.
Proof.
  revert s. induction pattern as [|p pattern IH]; intros [|c s]; cbn; try easy.
  intros H. apply andb_true_iff in H as [_ H]. now apply IH.
Qed.

Lemma blockAt_app_l (s r : Text.t) :
  blockAt opening closing s = true -> blockAt opening closing (s ++ r) = true.
Proof.
  rewrite !blockAt_spec. intros H. apply andb_true_iff in H as [H1 H2].
  rewrite startsWith_app by exact H1.
  rewrite skipn_startsWith_app by exact H1.
  now rewrite occurs_app_l.
Qed.

Lemma hasBlock_app_l (s r : Text.t) :
  hasBlock opening closing s = true -> hasBlock opening closing (s ++ r) = true.
Proof.
  induction s as [|c s IH]; [discriminate|].
  cbn [app hasBlock]. intros H. apply orb_true_iff in H as [H|H].
  - change (c :: s ++ r) with ((c :: s) ++ r). now rewrite blockAt_app_l.
  - rewrite IH by exact H. apply orb_true_r.
Qed.

End Blocks.

Section ShrinksFacts.
Variable special : ascii -> bool.

Lemma Shrinks_refl (s : Text.t) : Shrinks special s s.
Proof. induction s; now constructor. Qed.

(** What the result begins with, the text began with. *)
Lemma Shrinks_head (pattern s t : Text.t) :
  free special pattern -> Shrinks special s t ->
  Text.startsWith pattern t = true -> Text.startsWith pattern s = true.
Proof.
  intros Hp. revert s t.
  induction Hp as [|p pattern Hp1 Hp2 IH]; intros s t Hst; [now rewrite startsWith_nil|].
  destruct t as [|c t]; [discriminate|].
  cbn. intros H. apply andb_true_iff in H as [Hc H].
  apply Ascii.eqb_eq in Hc. subst c.
  inversion Hst; subst; [|congruence].
  cbn. rewrite Ascii.eqb_refl. cbn. eapply IH; eassumption.
Qed.

Lemma Shrinks_skip (pattern s t : Text.t) :
  free special pattern -> Shrinks special s t ->
  Text.startsWith pattern t = true ->
  Shrinks special (skipn (List.length pattern) s) (skipn (List.length pattern) t).
Proof.
  intros Hp. revert s t.
  induction Hp as [|p pattern Hp1 Hp2 IH]; intros s t Hst; [easy|].
  destruct t as [|c t]; [discriminate|].
  cbn. intros H. apply andb_true_iff in H as [Hc H].
  apply Ascii.eqb_eq in Hc. subst c.
  inversion Hst; subst; [|congruence].
  cbn. now apply IH.
Qed.

Lemma Shrinks_occurs (p : ascii) (pattern s t : Text.t) :
  free special (p :: pattern) -> Shrinks special s t ->
  occurs (p :: pattern) t = true -> occurs (p :: pattern) s = true.
Proof.
  intros Hp Hst. induction Hst as [|c s t Hst IH|c a s t Hc Hst IH].
  - easy.
  - rewrite !occurs_cons. intros H. apply orb_true_iff in H as [H|H].
    + erewrite Shrinks_head; [reflexivity|exact Hp| |exact H]. now constructor.
    + rewrite IH by exact H. apply orb_true_r.
  - rewrite occurs_cons. intros H. apply orb_true_iff in H as [H|H].
    + cbn in H. apply andb_true_iff in H as [H _].
      apply Ascii.eqb_eq in H. subst. inversion Hp; congruence.
    + apply occurs_app_r. now apply IH.
Qed.

Lemma Shrinks_blockAt (o : ascii) (opening : Text.t) (c : ascii) (closing s t : Text.t) :
  free special (o :: opening) -> free special (c :: closing) ->
  Shrinks special s t ->
  blockAt (o :: opening) (c :: closing) t = true ->
  blockAt (o :: opening) (c :: closing) s = true.
Proof.
  intros Ho Hc Hst. rewrite !blockAt_spec. intros H.
  apply andb_true_iff in H as [H1 H2].
  rewrite (Shrinks_head Ho Hst H1). cbn [andb].
  eapply Shrinks_occurs; [exact Hc| |exact H2].
  now apply Shrinks_skip.
Qed.

Lemma Shrinks_hasBlock (o : ascii) (opening : Text.t) (c : ascii) (closing s t : Text.t) :
  free special (o :: opening) -> free special (c :: closing) ->
  Shrinks special s t ->
  hasBlock (o :: opening) (c :: closing) t = true ->
  hasBlock (o :: opening) (c :: closing) s = true.
Proof.
  intros Ho Hc Hst. induction Hst as [|d s t Hst IH|d a s t Hd Hst IH].
  - easy.
  - cbn [hasBlock]. intros H. apply orb_true_iff in H as [H|H].
    + erewrite Shrinks_blockAt; [reflexivity|exact Ho|exact Hc| |exact H].
      now constructor.
    + rewrite IH by exact H. apply orb_true_r.
  - cbn [hasBlock]. intros H. apply orb_true_iff in H as [H|H].
    + rewrite blockAt_spec in H. apply andb_true_iff in H as [H _].
      cbn in H. apply andb_true_iff in H as [H _].
      apply Ascii.eqb_eq in H. subst. inversion Ho; congruence.
    + apply hasBlock_app_r. now apply IH.
Qed.

Lemma Shrinks_free (p : ascii -> bool) (s t : Text.t) :
  (forall c, special c = true -> p c = false) ->
  Shrinks special s t -> free p s -> free p t.
Proof.
  intros Hsp Hst. induction Hst as [|c s t Hst IH|c a s t Hc Hst IH]; intros Hs.
  - constructor.
  - inversion Hs; subst. constructor; [assumption|now apply IH].
  - apply Forall_app in Hs as [_ Hs]. constructor; [now apply Hsp|now apply IH].
Qed.

End ShrinksFacts.

(** *** White space *)

(** Single spaces only, none at the end, and none at the head when
    [afterSpace] is set. *)
Fixpoint spaced (afterSpace : bool) (s : Text.t) : bool :=
  match s with
  | [] => negb afterSpace
  | c :: s' =>
      if Text.isSpace c
      then Ascii.eqb c Text.space && negb afterSpace && spaced true s'
      else spaced false s'
  end.

(** The texts that [replace(/\s+/g, ' ').trim()] leaves as they are. *)
Definition tidy (s : Text.t) : Prop := s = [] \/ spaced true s = true.

Section WhiteSpace.

Lemma spaced_word (b : bool) (c : ascii) (s : Text.t) :
  Text.isSpace c = false -> spaced b (c :: s) = spaced false s.
Proof. intros H. cbn. now rewrite H. Qed.

Lemma spaced_weaken (s : Text.t) : spaced true s = true -> spaced false s = true.
Proof.
  destruct s as [|c s]; [reflexivity|]. cbn.
  destruct (Text.isSpace c); [|easy].
  now rewrite andb_false_r.
Qed.

Lemma spaced_app (b : bool) (a s : Text.t) :
  spaced b (a ++ s) = true -> spaced false s = true.
Proof.
  revert b. induction a as [|c a IH]; intros b.
  - cbn. destruct b; [apply spaced_weaken|easy].
  - cbn. destruct (Text.isSpace c).
    + intros H. apply andb_true_iff in H as [_ H]. now apply IH in H.
    + apply IH.
Qed.

Lemma collapseSpaces_fixed (b : bool) (s : Text.t) :
  spaced b s = true -> Text.collapseSpaces b s = s.
Proof.
  revert b. induction s as [|c s IH]; intros b; [reflexivity|].
  cbn. destruct (Text.isSpace c) eqn:Hc.
  - intros H. apply andb_true_iff in H as [H H3].
    apply andb_true_iff in H as [H1 H2].
    apply Ascii.eqb_eq in H1. subst c.
    destruct b; [discriminate|]. f_equal. now apply IH.
  - intros H. f_equal. now apply IH.
Qed.

Lemma trimStart_fixed (s : Text.t) : spaced true s = true -> Text.trimStart s = s.
Proof.
  destruct s as [|c s]; [reflexivity|]. cbn.
  destruct (Text.isSpace c); [|reflexivity].
  now rewrite andb_false_r.
Qed.

Lemma trimEnd_fixed (b : bool) (s : Text.t) : spaced b s = true -> Text.trimEnd s = s.
Proof.
  revert b. induction s as [|c s IH]; intros b; [reflexivity|].
  cbn. destruct (Text.isSpace c) eqn:Hc.
  - intros H. apply andb_true_iff in H as [_ H].
    rewrite (IH _ H). destruct s; [discriminate|reflexivity].
  - intros H. rewrite (IH _ H). now destruct s.
Qed.

Lemma tidy_fixed (s : Text.t) :
  tidy s -> Text.trim (Text.collapseSpaces false s) = s.
Proof.
  intros [->|H]; [reflexivity|].
  rewrite collapseSpaces_fixed by now apply spaced_weaken.
  unfold Text.trim. rewrite trimStart_fixed by exact H.
  now apply trimEnd_fixed with (b := true).
Qed.

Lemma trimStart_collapseSpaces_inRun (s : Text.t) :
  Text.trimStart (Text.collapseSpaces true s) = Text.collapseSpaces true s.
Proof.
  induction s as [|c s IH]; [reflexivity|].
  cbn. destruct (Text.isSpace c) eqn:Hc; [exact IH|].
  cbn. now rewrite Hc.
Qed.

Lemma trimStart_collapseSpaces (b : bool) (s : Text.t) :
  Text.trimStart (Text.collapseSpaces b s) = Text.collapseSpaces true s.
Proof.
  destruct b; [apply trimStart_collapseSpaces_inRun|].
  destruct s as [|c s]; [reflexivity|].
  cbn. destruct (Text.isSpace c) eqn:Hc.
  - cbn. apply trimStart_collapseSpaces_inRun.
  - cbn. now rewrite Hc.
Qed.

Lemma trimEnd_collapseSpaces (s : Text.t) :
  spaced false (Text.trimEnd (Text.collapseSpaces false s)) = true
  /\ (Text.trimEnd (Text.collapseSpaces true s) = []
      \/ spaced true (Text.trimEnd (Text.collapseSpaces true s)) = true).
Proof.
  induction s as [|c s [IH1 IH2]]; [now split; [|left]|].
  cbn. destruct (Text.isSpace c) eqn:Hc.
  - split; [|exact IH2].
    cbn. destruct IH2 as [->|IH2]; [reflexivity|].
    destruct (Text.trimEnd (Text.collapseSpaces true s)) as [|d r] eqn:Hr; [discriminate|].
    change (spaced false (Text.space :: d :: r) = true).
    cbn [spaced] in IH2 |- *. change (Text.isSpace Text.space) with true. cbv iota.
    now rewrite IH2.
  - cbn [Text.trimEnd].
    destruct (Text.trimEnd (Text.collapseSpaces false s)) as [|d r].
    + rewrite Hc. split; [|right]; cbn; now rewrite Hc.
    + split; [|right]; now rewrite spaced_word by exact Hc.
Qed.

(** [replace(/\s+/g, ' ').trim()] gives a tidy text. *)
Lemma trim_collapseSpaces_tidy (s : Text.t) :
  tidy (Text.trim (Text.collapseSpaces false s)).
Proof.
  unfold Text.trim. rewrite trimStart_collapseSpaces.
  apply trimEnd_collapseSpaces.
Qed.

Lemma spaced_one_line (b : bool) (s : Text.t) :
  spaced b s = true -> free Text.isLineTerminator s.
Proof.
  revert b. induction s as [|c s IH]; intros b; [constructor|].
  cbn. destruct (Text.isSpace c) eqn:Hc.
  - intros H. apply andb_true_iff in H as [H H3].
    apply andb_true_iff in H as [H1 _].
    apply Ascii.eqb_eq in H1. subst c.
    constructor; [reflexivity|]. now apply IH in H3.
  - intros H. constructor; [|now apply IH in H].
    revert Hc. unfold Text.isSpace, Text.isLineTerminator.
    destruct (nat_of_ascii c =? 10) eqn:H10.
    + apply Nat.eqb_eq in H10. now rewrite H10.
    + destruct (nat_of_ascii c =? 13) eqn:H13; [|reflexivity].
      apply Nat.eqb_eq in H13. now rewrite H13.
Qed.

Lemma tidy_one_line (s : Text.t) : tidy s -> free Text.isLineTerminator s.
Proof.
  intros [->|H]; [constructor|]. now apply spaced_one_line in H.
Qed.

(** A pass that only leaves stretches out, marking them with something
    that is not white space, keeps a tidy text tidy. *)
Lemma Shrinks_spaced (special : ascii -> bool) (s t : Text.t) :
  (forall c, special c = true -> Text.isSpace c = false) ->
  Shrinks special s t ->
  forall b, spaced b s = true -> spaced b t = true.
Proof.
  intros Hsp Hst. induction Hst as [|c s t Hst IH|c a s t Hc Hst IH]; intros b.
  - easy.
  - cbn. destruct (Text.isSpace c).
    + intros H. apply andb_true_iff in H as [-> H]. cbn. now apply IH.
    + apply IH.
  - intros H. cbn. rewrite (Hsp _ Hc). apply IH. now apply spaced_app in H.
Qed.

Lemma Shrinks_tidy (special : ascii -> bool) (s t : Text.t) :
  (forall c, special c = true -> Text.isSpace c = false) ->
  Shrinks special s t -> tidy s -> tidy t.
Proof.
  intros Hsp Hst [->|H].
  - inversion Hst as [| |c a s' t' Hc Hst' Ha]; subst; [now left|right].
    cbn. rewrite (Hsp _ Hc).
    apply (Shrinks_spaced Hsp Hst').
    apply app_eq_nil in Ha as [_ ->]. reflexivity.
  - right. now apply (Shrinks_spaced Hsp Hst).
Qed.

End WhiteSpace.

Section WhiteSpaceShrinks.

Lemma trimStart_suffix (s : Text.t) : exists a, s = a ++ Text.trimStart s.
Proof.
  induction s as [|c s [a IH]]; [now exists []|].
  cbn. destruct (Text.isSpace c); [|now exists []].
  exists (c :: a). cbn. now f_equal.
Qed.

Lemma trimEnd_prefix (s : Text.t) : exists r, s = Text.trimEnd s ++ r.
Proof.
  induction s as [|c s [r IH]]; [now exists []|].
  cbn [Text.trimEnd]. destruct (Text.trimEnd s) as [|d u] eqn:Hu.
  - destruct (Text.isSpace c); [now exists (c :: s)|].
    exists s. reflexivity.
  - exists r. cbn. now f_equal.
Qed.

Lemma collapseSpaces_Shrinks (s : Text.t) :
  Shrinks Text.isSpace s (Text.collapseSpaces false s)
  /\ Shrinks Text.isSpace (Text.trimStart s) (Text.collapseSpaces true s).
Proof.
  induction s as [|c s [IH1 IH2]]; [split; constructor|].
  cbn. destruct (Text.isSpace c) eqn:Hc.
  - split; [|exact IH2].
    destruct (trimStart_suffix s) as [a Ha].
    replace (c :: s) with ((c :: a) ++ Text.trimStart s) by (cbn; now f_equal).
    now constructor.
  - split; now constructor.
Qed.

(** What occurs after [replace(/\s+/g, ' ').trim()] occurred before, as
    long as it holds no white space. *)
Lemma trim_collapseSpaces_occurs (p : ascii) (pattern s : Text.t) :
  free Text.isSpace (p :: pattern) ->
  occurs (p :: pattern) (Text.trim (Text.collapseSpaces false s)) = true ->
  occurs (p :: pattern) s = true.
Proof.
  intros Hp. unfold Text.trim. rewrite trimStart_collapseSpaces. intros H.
  destruct (trimEnd_prefix (Text.collapseSpaces true s)) as [r Hr].
  apply occurs_app_l with (r := r) in H. rewrite <- Hr in H.
  apply (Shrinks_occurs Hp (proj2 (collapseSpaces_Shrinks s))) in H.
  destruct (trimStart_suffix s) as [a Ha]. rewrite Ha.
  now apply occurs_app_r.
Qed.

Lemma trim_collapseSpaces_hasBlock (o : ascii) (opening : Text.t) (c : ascii)
      (closing s : Text.t) :
  free Text.isSpace (o :: opening) -> free Text.isSpace (c :: closing) ->
  hasBlock (o :: opening) (c :: closing) (Text.trim (Text.collapseSpaces false s)) = true ->
  hasBlock (o :: opening) (c :: closing) s = true.
Proof.
  intros Ho Hc. unfold Text.trim. rewrite trimStart_collapseSpaces. intros H.
  destruct (trimEnd_prefix (Text.collapseSpaces true s)) as [r Hr].
  apply hasBlock_app_l with (r := r) in H. rewrite <- Hr in H.
  apply (Shrinks_hasBlock Ho Hc (proj2 (collapseSpaces_Shrinks s))) in H.
  destruct (trimStart_suffix s) as [a Ha]. rewrite Ha.
  now apply hasBlock_app_r.
Qed.

End WhiteSpaceShrinks.

(** *** Block comments *)

Section BlockComments.

Let slash : ascii := "/"%char.
Let star : ascii := "*"%char.
Let opening : Text.t := Text.ofString "/*".
Let closing : Text.t := Text.ofString "*/".
Let removeBlocks := Text.removeBlocks opening closing.

Lemma removeBlocks_skip (k : nat) (s : Text.t) :
  removeBlocks k s = removeBlocks 0 (skipn k s).
Proof.
  revert k. induction s as [|c s IH]; intros [|k]; try reflexivity.
  cbn [skipn]. rewrite <- IH. reflexivity.
Qed.

(** One turn of the scan outside a match. *)
Lemma removeBlocks_cons (c : ascii) (s : Text.t) :
  removeBlocks 0 (c :: s)
  = if blockAt opening closing (c :: s)
    then removeBlocks (Nat.pred (List.length opening
                             + match Text.indexOf closing (skipn 2 (c :: s)) with
                               | Some i => i
                               | None => 0
                               end
                             + List.length closing)) s
    else c :: removeBlocks 0 s.
Proof.
  unfold removeBlocks at 1. cbn [Text.removeBlocks].
  unfold blockAt, Text.blockLength.
  destruct (Text.startsWith opening (c :: s)); [|reflexivity].
  change (List.length opening) with 2.
  destruct (Text.indexOf closing (skipn 2 (c :: s))); reflexivity.
Qed.

Lemma blockAt_head (s : Text.t) :
  blockAt opening closing s = true -> hd_error s = Some slash.
Proof.
  rewrite blockAt_spec. intros H. apply andb_true_iff in H as [H _].
  now apply startsWith_head in H.
Qed.

(** A slash at the head of the result was at the head of the text. *)
Lemma removeBlocks_head (s : Text.t) :
  hd_error (removeBlocks 0 s) = Some slash -> hd_error s = Some slash.
Proof.
  destruct s as [|c s]; [easy|].
  rewrite removeBlocks_cons.
  destruct (blockAt opening closing (c :: s)) eqn:Hb; [|easy].
  intros _. now apply blockAt_head.
Qed.

(** A slash after [x] in the result stood after [x] in the text. *)
Lemma removeBlocks_occurs (x : ascii) (k : nat) (s : Text.t) :
  occurs [x; slash] (removeBlocks k s) = true -> occurs [x; slash] s = true.
Proof.
  revert k. induction s as [|c s IH]; intros k; [now destruct k|].
  rewrite (occurs_cons _ c s).
  destruct k as [|k].
  - rewrite removeBlocks_cons.
    destruct (blockAt opening closing (c :: s)) eqn:Hb.
    + intros H. rewrite (IH _ H). apply orb_true_r.
    + rewrite occurs_cons. intros H. apply orb_true_iff in H as [H|H].
      * rewrite startsWith_cons in H. apply andb_true_iff in H as [Hx H].
        apply startsWith_head, removeBlocks_head in H.
        destruct s as [|d s]; [discriminate|]. injection H as ->.
        now rewrite !startsWith_cons, Hx, Ascii.eqb_refl.
      * rewrite (IH _ H). apply orb_true_r.
  - intros H. change (removeBlocks (S k) (c :: s)) with (removeBlocks k s) in H.
    rewrite (IH _ H). apply orb_true_r.
Qed.

(** Without two slashes in a row, no match is left. *)
Lemma removeBlocks_clean (k : nat) (s : Text.t) :
  occurs [slash; slash] s = false ->
  hasBlock opening closing (removeBlocks k s) = false.
Proof.
  revert k. induction s as [|c s IH]; intros k Hs; [now destruct k|].
  apply occurs_false_cons in Hs as [Hs1 Hs2].
  destruct k as [|k]; [|now apply IH].
  rewrite removeBlocks_cons.
  destruct (blockAt opening closing (c :: s)) eqn:Hb; [now apply IH|].
  cbn [hasBlock]. rewrite (IH 0 Hs2), orb_false_r.
  destruct (blockAt opening closing (c :: removeBlocks 0 s)) eqn:Hout; [|reflexivity].
  exfalso.
  rewrite blockAt_spec in Hout, Hb.
  change opening with [slash; star] in Hout, Hb.
  change (List.length [slash; star]) with 2 in Hout, Hb.
  apply andb_true_iff in Hout as [Ho1 Ho2].
  rewrite startsWith_cons in Ho1. apply andb_true_iff in Ho1 as [Hc Ho1].
  apply Ascii.eqb_eq in Hc. subst c.
  destruct s as [|e s]; [discriminate|].
  rewrite removeBlocks_cons in Ho1, Ho2.
  destruct (blockAt opening closing (e :: s)) eqn:He.
  - apply blockAt_head in He. injection He as ->.
    now rewrite !startsWith_cons, !Ascii.eqb_refl in Hs1.
  - rewrite startsWith_cons in Ho1. apply andb_true_iff in Ho1 as [He1 _].
    apply Ascii.eqb_eq in He1. subst e.
    cbn [skipn] in Ho2, Hb.
    apply (removeBlocks_occurs star 0) in Ho2.
    rewrite !startsWith_cons, !Ascii.eqb_refl, startsWith_nil in Hb.
    cbn [andb] in Hb. change closing with [star; slash] in Hb. congruence.
Qed.

(** A text without a match is left as it is. *)
Lemma removeBlocks_fixed (s : Text.t) :
  hasBlock opening closing s = false -> removeBlocks 0 s = s.
Proof.
  induction s as [|c s IH]; [reflexivity|].
  cbn [hasBlock]. intros H. apply orb_false_iff in H as [H1 H2].
  rewrite removeBlocks_cons, H1. f_equal. now apply IH.
Qed.

End BlockComments.

(** *** String literals *)

(** Every literal of [s] in quotes [q] is empty, or the quote that would
    open it is never closed. *)
Inductive Settled (q : ascii) : Text.t -> Prop :=
| Settled_nil : Settled q []
| Settled_keep (c : ascii) (s : Text.t) :
    c <> q -> Settled q s -> Settled q (c :: s)
| Settled_pair (s : Text.t) : Settled q s -> Settled q (q :: q :: s)
| Settled_open (s : Text.t) : Text.closingQuote q s = None -> Settled q (q :: s).

Lemma text_length_ind (P : Text.t -> Prop) :
  (forall s, (forall r, List.length r < List.length s -> P r) -> P s) ->
  forall s, P s.
Proof.
  intros H s. remember (List.length s) as n eqn:Hn.
  revert s Hn. induction n as [n IH] using lt_wf_ind.
  intros s ->. apply H. intros r Hr. now apply (IH _ Hr).
Qed.

Lemma free_skipn (p : ascii -> bool) (n : nat) (s : Text.t) :
  free p s -> free p (skipn n s).
Proof.
  intros H. rewrite <- (firstn_skipn n s) in H. now apply Forall_app in H.
Qed.

Section Quotes.
Variable q : ascii.
Hypothesis q_not_backslash : q <> Text.backslash.

Let closingQuote := Text.closingQuote q.
Let replaceQuoted := Text.replaceQuoted q.

Lemma replaceQuoted_skip (k : nat) (s : Text.t) :
  replaceQuoted k s = replaceQuoted 0 (skipn k s).
Proof.
  revert k. induction s as [|c s IH]; intros [|k]; try reflexivity.
  cbn [skipn]. rewrite <- IH. reflexivity.
Qed.

(** One turn of the scan outside a match. *)
Lemma replaceQuoted_cons (c : ascii) (s : Text.t) :
  replaceQuoted 0 (c :: s)
  = if Ascii.eqb c q then
      match closingQuote s with
      | Some n => q :: q :: replaceQuoted 0 (skipn n s)
      | None => c :: replaceQuoted 0 s
      end
    else c :: replaceQuoted 0 s.
Proof.
  unfold replaceQuoted at 1. cbn [Text.replaceQuoted].
  destruct (Ascii.eqb c q); [|reflexivity].
  fold closingQuote. destruct (closingQuote s) as [n|]; [|reflexivity].
  fold replaceQuoted. now rewrite replaceQuoted_skip.
Qed.

Lemma replaceQuoted_other (c : ascii) (s : Text.t) :
  c <> q -> replaceQuoted 0 (c :: s) = c :: replaceQuoted 0 s.
Proof.
  intros H. rewrite replaceQuoted_cons.
  now destruct (Ascii.eqb_spec c q).
Qed.

Lemma replaceQuoted_open (s : Text.t) :
  closingQuote s = None -> replaceQuoted 0 (q :: s) = q :: replaceQuoted 0 s.
Proof.
  intros H. now rewrite replaceQuoted_cons, Ascii.eqb_refl, H.
Qed.

Lemma replaceQuoted_closed (n : nat) (s : Text.t) :
  closingQuote s = Some n ->
  replaceQuoted 0 (q :: s) = q :: q :: replaceQuoted 0 (skipn n s).
Proof.
  intros H. now rewrite replaceQuoted_cons, Ascii.eqb_refl, H.
Qed.

(** One turn of the search for the closing quote. *)
Lemma closingQuote_quote (s : Text.t) : closingQuote (q :: s) = Some 1.
Proof. unfold closingQuote. cbn. now rewrite Ascii.eqb_refl. Qed.

Lemma closingQuote_escape (d : ascii) (s : Text.t) :
  closingQuote (Text.backslash :: d :: s)
  = if Text.isLineTerminator d then None
    else option_map (fun n => S (S n)) (closingQuote s).
Proof.
  unfold closingQuote. cbn [Text.closingQuote].
  destruct (Ascii.eqb_spec Text.backslash q) as [H|_]; [now symmetry in H|].
  now rewrite Ascii.eqb_refl.
Qed.

Lemma closingQuote_escape_end : closingQuote [Text.backslash] = None.
Proof.
  unfold closingQuote. cbn [Text.closingQuote].
  destruct (Ascii.eqb_spec Text.backslash q) as [H|_]; [now symmetry in H|].
  now rewrite Ascii.eqb_refl.
Qed.

Lemma closingQuote_other (c : ascii) (s : Text.t) :
  c <> q -> c <> Text.backslash ->
  closingQuote (c :: s) = option_map S (closingQuote s).
Proof.
  intros H1 H2. unfold closingQuote. cbn [Text.closingQuote].
  destruct (Ascii.eqb_spec c q); [easy|].
  now destruct (Ascii.eqb_spec c Text.backslash).
Qed.

(** The three ways a text can begin, as the search sees them. *)
Lemma text_cases (s : Text.t) :
  s = [] \/ (exists s', s = q :: s') \/ s = [Text.backslash]
  \/ (exists d s', s = Text.backslash :: d :: s')
  \/ (exists c s', s = c :: s' /\ c <> q /\ c <> Text.backslash).
Proof.
  destruct s as [|c s]; [now left|right].
  destruct (Ascii.eqb_spec c q) as [->|Hq]; [left; now exists s|right].
  destruct (Ascii.eqb_spec c Text.backslash) as [->|Hb].
  - destruct s as [|d s]; [now left|right; left; now exists d, s].
  - right; right. now exists c, s.
Qed.

(** Where the closing quote is. *)
Lemma closingQuote_split (s : Text.t) (n : nat) :
  closingQuote s = Some n ->
  exists body rest,
    s = body ++ q :: rest /\ n = S (List.length body) /\ skipn n s = rest.
Proof.
  revert n. induction s as [s IH] using text_length_ind. intros n.
  destruct (text_cases s) as [->|[(s' & ->)|[->|[(d & s' & ->)|(c & s' & -> & Hq & Hb)]]]].
  - discriminate.
  - rewrite closingQuote_quote. intros [= <-]. now exists [], s'.
  - now rewrite closingQuote_escape_end.
  - rewrite closingQuote_escape. destruct (Text.isLineTerminator d); [discriminate|].
    destruct (closingQuote s') as [m|] eqn:Hm; [|discriminate].
    intros [= <-].
    destruct (IH s' ltac:(cbn; lia) m Hm) as (body & rest & -> & -> & Hskip).
    exists (Text.backslash :: d :: body), rest. now repeat split.
  - rewrite closingQuote_other by assumption.
    destruct (closingQuote s') as [m|] eqn:Hm; [|discriminate].
    intros [= <-].
    destruct (IH s' ltac:(cbn; lia) m Hm) as (body & rest & -> & -> & Hskip).
    exists (c :: body), rest. now repeat split.
Qed.

(** The pass only leaves stretches out, a quote standing where one went. *)
Lemma replaceQuoted_Shrinks (s : Text.t) :
  Shrinks (Ascii.eqb q) s (replaceQuoted 0 s).
Proof.
  induction s as [s IH] using text_length_ind.
  destruct s as [|c s]; [constructor|].
  rewrite replaceQuoted_cons.
  destruct (Ascii.eqb_spec c q) as [->|Hq].
  - destruct (closingQuote s) as [n|] eqn:Hn.
    + destruct (closingQuote_split _ Hn) as (body & rest & -> & -> & ->).
      change (q :: body ++ q :: rest) with ((q :: body) ++ q :: rest).
      apply Shrinks_cut; [apply Ascii.eqb_refl|].
      apply Shrinks_keep. apply IH. cbn. rewrite length_app. cbn. lia.
    + apply Shrinks_keep. apply IH. cbn. lia.
  - apply Shrinks_keep. apply IH. cbn. lia.
Qed.

Section OneLine.

(** A quote that is never closed: nothing after it is touched. *)
Lemma replaceQuoted_unclosed (s : Text.t) :
  free Text.isLineTerminator s -> closingQuote s = None -> replaceQuoted 0 s = s.
Proof.
  induction s as [s IH] using text_length_ind. intros Hlt.
  destruct (text_cases s) as [->|[(s' & ->)|[->|[(d & s' & ->)|(c & s' & -> & Hq & Hb)]]]].
  - reflexivity.
  - now rewrite closingQuote_quote.
  - intros _. now rewrite replaceQuoted_other by (now apply not_eq_sym).
  - inversion Hlt as [|? ? _ Hlt1]; subst. inversion Hlt1 as [|? ? Hd Hlt2]; subst.
    rewrite closingQuote_escape, Hd.
    destruct (closingQuote s') as [m|] eqn:Hm; [discriminate|]. intros _.
    rewrite replaceQuoted_other by (now apply not_eq_sym). f_equal.
    rewrite replaceQuoted_cons, Hm.
    rewrite (IH s') by (cbn; lia || assumption).
    now destruct (Ascii.eqb d q).
  - inversion Hlt as [|? ? _ Hlt1]; subst.
    rewrite closingQuote_other by assumption.
    destruct (closingQuote s') as [m|] eqn:Hm; [discriminate|]. intros _.
    rewrite replaceQuoted_other by assumption. f_equal.
    apply IH; cbn; lia || assumption.
Qed.

(** A settled text is left as it is. *)
Lemma Settled_fixed (s : Text.t) :
  free Text.isLineTerminator s -> Settled q s -> replaceQuoted 0 s = s.
Proof.
  intros Hlt Hs. induction Hs as [|c s Hc Hs IH|s Hs IH|s Hs].
  - reflexivity.
  - inversion Hlt; subst. rewrite replaceQuoted_other by assumption. f_equal. auto.
  - inversion Hlt as [|? ? _ Hlt1]; subst. inversion Hlt1; subst.
    rewrite (@replaceQuoted_closed 1) by apply closingQuote_quote.
    cbn [skipn]. do 2 f_equal. auto.
  - inversion Hlt; subst. rewrite replaceQuoted_open by assumption. f_equal.
    now apply replaceQuoted_unclosed.
Qed.

(** The pass settles the text. *)
Lemma replaceQuoted_Settled (s : Text.t) :
  free Text.isLineTerminator s -> Settled q (replaceQuoted 0 s).
Proof.
  induction s as [s IH] using text_length_ind. intros Hlt.
  destruct s as [|c s]; [constructor|].
  inversion Hlt as [|? ? _ Hlt1]; subst.
  rewrite replaceQuoted_cons.
  destruct (Ascii.eqb_spec c q) as [->|Hq].
  - destruct (closingQuote s) as [n|] eqn:Hn.
    + destruct (closingQuote_split _ Hn) as (body & rest & -> & -> & ->).
      apply Settled_pair. apply IH.
      * cbn. rewrite length_app. cbn. lia.
      * apply Forall_app in Hlt1 as [_ Hlt1]. now inversion Hlt1.
    + rewrite replaceQuoted_unclosed by assumption. now apply Settled_open.
  - apply Settled_keep; [assumption|]. apply IH; [cbn; lia|assumption].
Qed.

(** Past a quote that is never closed, every text is settled. *)
Lemma unclosed_Settled (s : Text.t) :
  free Text.isLineTerminator s -> closingQuote s = None -> Settled q s.
Proof.
  intros Hlt Hs. rewrite <- (replaceQuoted_unclosed Hlt Hs).
  now apply replaceQuoted_Settled.
Qed.

Lemma unclosed_Settled_suffix (a b : Text.t) :
  free Text.isLineTerminator (a ++ b) -> closingQuote (a ++ b) = None -> Settled q b.
Proof.
  induction a as [a IH] using text_length_ind. intros Hlt.
  destruct (text_cases a) as [->|[(a' & ->)|[->|[(d & a' & ->)|(c & a' & -> & Hq & Hb)]]]].
  - now apply unclosed_Settled.
  - cbn [app]. now rewrite closingQuote_quote.
  - destruct b as [|d b]; [constructor|].
    cbn [app] in *. inversion Hlt as [|? ? _ Hlt1]; subst.
    inversion Hlt1 as [|? ? Hd Hlt2]; subst.
    rewrite closingQuote_escape, Hd.
    destruct (closingQuote b) as [m|] eqn:Hm; [discriminate|]. intros _.
    destruct (Ascii.eqb_spec d q) as [->|Hdq].
    + now apply Settled_open.
    + apply Settled_keep; [assumption|]. now apply unclosed_Settled.
  - cbn [app] in *. inversion Hlt as [|? ? _ Hlt1]; subst.
    inversion Hlt1 as [|? ? Hd Hlt2]; subst.
    rewrite closingQuote_escape, Hd.
    destruct (closingQuote (a' ++ b)) as [m|] eqn:Hm; [discriminate|]. intros _.
    apply (IH a'); [cbn; lia|assumption|assumption].
  - cbn [app] in *. inversion Hlt as [|? ? _ Hlt1]; subst.
    rewrite closingQuote_other by assumption.
    destruct (closingQuote (a' ++ b)) as [m|] eqn:Hm; [discriminate|]. intros _.
    apply (IH a'); [cbn; lia|assumption|assumption].
Qed.

(** What follows another code unit of a settled text is settled. *)
Lemma Settled_suffix (a : Text.t) (c : ascii) (b : Text.t) :
  free Text.isLineTerminator (a ++ c :: b) -> c <> q ->
  Settled q (a ++ c :: b) -> Settled q b.
Proof.
  induction a as [a IH] using text_length_ind. intros Hlt Hc Hs.
  destruct a as [|x a]; cbn [app] in *.
  - inversion Hs; subst; easy.
  - inversion Hlt as [|? ? _ Hlt1]; subst.
    inversion Hs as [|? ? Hx Hs'|s0 Hs' Hq|s0 Hs' Hq].
    + apply (IH a); [cbn; lia|assumption..].
    + match goal with H : _ :: s0 = a ++ c :: b |- _ => rename H into Heq end.
      subst x. destruct a as [|y a]; cbn [app] in Heq; injection Heq as Hy Heq; [congruence|].
      subst. inversion Hlt1; subst.
      apply (IH a); [cbn; lia|assumption..].
    + subst x. apply unclosed_Settled_suffix with (a := a ++ [c]); now rewrite <- app_assoc.
Qed.

End OneLine.

End Quotes.

Section TwoQuotes.
Variables q1 q2 : ascii.
Hypothesis q1_not_backslash : q1 <> Text.backslash.
Hypothesis q2_not_backslash : q2 <> Text.backslash.
Hypothesis q1_not_q2 : q1 <> q2.

(** A literal in quotes [q1] inside a stretch where no quote [q2] closes
    leaves the search for [q2] where it was. *)
Lemma closingQuote_past (s : Text.t) (n : nat) :
  Text.closingQuote q1 s = Some n -> Text.closingQuote q2 s = None ->
  Text.closingQuote q2 (skipn n s) = None.
Proof.
  revert n. induction s as [s IH] using text_length_ind. intros n.
  destruct (text_cases q1 s) as [->|[(s' & ->)|[->|[(d & s' & ->)|(c & s' & -> & Hq & Hb)]]]].
  - discriminate.
  - rewrite closingQuote_quote. intros [= <-].
    rewrite closingQuote_other by (assumption || now apply not_eq_sym).
    cbn [skipn]. now destruct (Text.closingQuote q2 s').
  - now rewrite closingQuote_escape_end.
  - rewrite !closingQuote_escape by assumption.
    destruct (Text.isLineTerminator d); [discriminate|].
    destruct (Text.closingQuote q1 s') as [m|] eqn:Hm; [|discriminate].
    intros [= <-]. cbn [skipn].
    destruct (Text.closingQuote q2 s') as [k|] eqn:Hk; [discriminate|]. intros _.
    apply IH; [cbn; lia|assumption..].
  - rewrite (closingQuote_other (q := q1)) by assumption.
    destruct (Text.closingQuote q1 s') as [m|] eqn:Hm; [|discriminate].
    intros [= <-]. cbn [skipn].
    destruct (Ascii.eqb_spec c q2) as [->|Hc2]; [now rewrite closingQuote_quote|].
    rewrite closingQuote_other by assumption.
    destruct (Text.closingQuote q2 s') as [k|] eqn:Hk; [discriminate|]. intros _.
    apply IH; [cbn; lia|assumption..].
Qed.

(** The pass for [q1] closes no quote [q2] that was not closed. *)
Lemma replaceQuoted_unclosed_other (s : Text.t) :
  free Text.isLineTerminator s ->
  Text.closingQuote q2 s = None ->
  Text.closingQuote q2 (Text.replaceQuoted q1 0 s) = None.
Proof.
  induction s as [s IH] using text_length_ind. intros Hlt.
  assert (Hstep : forall c s', s = c :: s' -> c <> q2 -> c <> Text.backslash ->
                    Text.closingQuote q2 s' = None ->
                    Text.closingQuote q2 (Text.replaceQuoted q1 0 s) = None).
  { intros c s' -> Hc2 Hcb Hs'. inversion Hlt as [|? ? _ Hlt1]; subst.
    rewrite replaceQuoted_cons.
    destruct (Ascii.eqb_spec c q1) as [->|Hc1].
    - destruct (Text.closingQuote q1 s') as [n|] eqn:Hn.
      + rewrite !closingQuote_other by assumption.
        rewrite IH; [reflexivity|..].
        * destruct (closingQuote_split q1_not_backslash _ Hn) as (body & rest & -> & -> & ->).
          cbn. rewrite length_app. cbn. lia.
        * now apply free_skipn.
        * now apply closingQuote_past.
      + rewrite closingQuote_other by assumption.
        rewrite IH; [reflexivity|cbn; lia|assumption..].
    - rewrite closingQuote_other by assumption.
      rewrite IH; [reflexivity|cbn; lia|assumption..]. }
  destruct (text_cases q2 s) as [->|[(s' & ->)|[->|[(d & s' & ->)|(c & s' & -> & Hq & Hb)]]]].
  - reflexivity.
  - now rewrite closingQuote_quote.
  - intros _. rewrite replaceQuoted_other by (now apply not_eq_sym).
    cbn [Text.replaceQuoted]. now apply closingQuote_escape_end.
  - inversion Hlt as [|? ? _ Hlt1]; subst. inversion Hlt1 as [|? ? Hd Hlt2]; subst.
    rewrite closingQuote_escape, Hd by assumption.
    destruct (Text.closingQuote q2 s') as [k|] eqn:Hk; [discriminate|]. intros _.
    rewrite replaceQuoted_other by (now apply not_eq_sym).
    rewrite replaceQuoted_cons.
    destruct (Ascii.eqb_spec d q1) as [->|Hd1].
    + destruct (Text.closingQuote q1 s') as [n|] eqn:Hn.
      * rewrite closingQuote_escape, Hd by assumption.
        rewrite closingQuote_other by (assumption || now apply not_eq_sym).
        rewrite IH; [reflexivity|..].
        -- destruct (closingQuote_split q1_not_backslash _ Hn) as (body & rest & -> & -> & ->).
           cbn. rewrite length_app. cbn. lia.
        -- now apply free_skipn.
        -- now apply closingQuote_past.
      * rewrite closingQuote_escape, Hd by assumption.
        rewrite IH; [reflexivity|cbn; lia|assumption..].
    + rewrite closingQuote_escape, Hd by assumption.
      rewrite IH; [reflexivity|cbn; lia|assumption..].
  - rewrite closingQuote_other by assumption.
    destruct (Text.closingQuote q2 s') as [k|] eqn:Hk; [discriminate|]. intros _.
    now apply (Hstep c s').
Qed.

(** The pass for [q1] keeps a text settled for [q2]. *)
Lemma replaceQuoted_Settled_other (s : Text.t) :
  free Text.isLineTerminator s -> Settled q2 s ->
  Settled q2 (Text.replaceQuoted q1 0 s).
Proof.
  induction s as [s IH] using text_length_ind. intros Hlt Hs.
  destruct s as [|c s]; [constructor|].
  inversion Hlt as [|? ? _ Hlt1]; subst.
  rewrite replaceQuoted_cons.
  destruct (Ascii.eqb_spec c q1) as [->|Hc1].
  - inversion Hs as [|? ? _ Hs'| |]; try congruence.
    destruct (Text.closingQuote q1 s) as [n|] eqn:Hn.
    + destruct (closingQuote_split q1_not_backslash _ Hn) as (body & rest & -> & -> & ->).
      do 2 (apply Settled_keep; [assumption|]).
      apply IH.
      * cbn. rewrite length_app. cbn. lia.
      * apply Forall_app in Hlt1 as [_ Hlt1]. now inversion Hlt1.
      * eapply Settled_suffix;
          [exact q2_not_backslash|exact Hlt1|exact q1_not_q2|exact Hs'].
    + apply Settled_keep; [assumption|]. apply IH; [cbn; lia|assumption..].
  - destruct (Ascii.eqb_spec c q2) as [->|Hc2].
    + inversion Hs as [|? ? Hne Hs'|s0 Hs'|s0 Hs']; [congruence| |].
      * subst s. rewrite replaceQuoted_other by assumption.
        inversion Hlt1; subst.
        apply Settled_pair. apply IH; [cbn; lia|assumption..].
      * apply Settled_open. now apply replaceQuoted_unclosed_other.
    + inversion Hs as [|? ? _ Hs'| |]; try congruence.
      apply Settled_keep; [assumption|]. apply IH; [cbn; lia|assumption..].
Qed.

End TwoQuotes.

(** After the two passes of [removeStringLiterals], neither finds anything
    to replace. *)
Lemma removeStringLiterals_fixed (s : Text.t) :
  free Text.isLineTerminator s ->
  let r := Text.replaceQuoted Text.singleQuote 0
             (Text.replaceQuoted Text.doubleQuote 0 s) in
  Text.replaceQuoted Text.doubleQuote 0 r = r
  /\ Text.replaceQuoted Text.singleQuote 0 r = r.
Proof.
  intros Hlt r.
  assert (Hd : Text.doubleQuote <> Text.backslash) by discriminate.
  assert (Hs : Text.singleQuote <> Text.backslash) by discriminate.
  assert (Hsd : Text.singleQuote <> Text.doubleQuote) by discriminate.
  assert (Hlt1 : free Text.isLineTerminator (Text.replaceQuoted Text.doubleQuote 0 s)).
  { apply Shrinks_free with (special := Ascii.eqb Text.doubleQuote) (s := s).
    - intros c Hc. apply Ascii.eqb_eq in Hc. now subst.
    - now apply replaceQuoted_Shrinks.
    - exact Hlt. }
  assert (Hlt2 : free Text.isLineTerminator r).
  { apply Shrinks_free with (special := Ascii.eqb Text.singleQuote)
                            (s := Text.replaceQuoted Text.doubleQuote 0 s).
    - intros c Hc. apply Ascii.eqb_eq in Hc. now subst.
    - now apply replaceQuoted_Shrinks.
    - exact Hlt1. }
  split; apply Settled_fixed; try assumption.
  - apply replaceQuoted_Settled_other; try assumption.
    now apply replaceQuoted_Settled.
  - now apply replaceQuoted_Settled.
Qed.

(** *** [normalize] applied twice *)

Section Normalize.

Lemma not_true_false (b b' : bool) : (b' = true -> b = true) -> b = false -> b' = false.
Proof. destruct b, b'; intuition congruence. Qed.

(** The lists of languages of [normalize], for a language that is neither
    css nor html. *)
Lemma language_lists (language : JS.value) :
  JSValue.among ["css"; "html"] language = false ->
  JSValue.among (Tokenizer.slashLanguages ++ ["css"]) language
  = JSValue.among Tokenizer.slashLanguages language
  /\ JSValue.among ["html"] language = false
  /\ (JSValue.among Tokenizer.slashLanguages language = true ->
      JSValue.among ["python"; "ruby"] language = false
      /\ JSValue.among ["sql"] language = false)
  /\ (JSValue.among ["python"; "ruby"] language = true ->
      JSValue.among ["sql"] language = false).
Proof.
  destruct language as [s|k]; [|now cbn].
  unfold JSValue.among, Tokenizer.slashLanguages. cbn [existsb app].
  repeat match goal with
         | |- context [String.eqb s ?l] => destruct (String.eqb_spec s l) as [->|?]
         end; cbn; intuition congruence.
Qed.


(** After the passes for a language with [//] and [/* */] comments. *)
Lemma slash_passes_fixed (s : Text.t) :
  let y := Text.replaceQuoted Text.singleQuote 0
             (Text.replaceQuoted Text.doubleQuote 0
                (Text.trim (Text.collapseSpaces false
                   (Text.removeBlocks (Text.ofString "/*") (Text.ofString "*/") 0
                      (Text.removeToLineEnd (Text.ofString "//") false s))))) in
  Text.removeToLineEnd (Text.ofString "//") false y = y
  /\ Text.removeBlocks (Text.ofString "/*") (Text.ofString "*/") 0 y = y
  /\ Text.trim (Text.collapseSpaces false y) = y
  /\ Text.replaceQuoted Text.doubleQuote 0 y = y
  /\ Text.replaceQuoted Text.singleQuote 0 y = y.
Proof.
  set (s1 := Text.removeToLineEnd (Text.ofString "//") false s).
  set (s2 := Text.removeBlocks (Text.ofString "/*") (Text.ofString "*/") 0 s1).
  set (s3 := Text.trim (Text.collapseSpaces false s2)).
  set (s4 := Text.replaceQuoted Text.doubleQuote 0 s3).
  intros y.
  assert (Hd : Text.doubleQuote <> Text.backslash) by discriminate.
  assert (Hq : Text.singleQuote <> Text.backslash) by discriminate.
  assert (Sh4 : Shrinks (Ascii.eqb Text.doubleQuote) s3 s4)
    by now apply replaceQuoted_Shrinks.
  assert (Sh5 : Shrinks (Ascii.eqb Text.singleQuote) s4 y)
    by now apply replaceQuoted_Shrinks.
  assert (H1 : occurs (Text.ofString "//") s1 = false).
  { apply removeToLineEnd_clean; [discriminate|]. now repeat constructor. }
  assert (Hy1 : occurs (Text.ofString "//") y = false).
  { revert H1. apply not_true_false. intros H.
    apply (removeBlocks_occurs "/" 0).
    apply trim_collapseSpaces_occurs; [now repeat constructor|].
    eapply Shrinks_occurs; [|exact Sh4|]; [now repeat constructor|].
    eapply Shrinks_occurs; [|exact Sh5|]; [now repeat constructor|].
    exact H. }
  assert (Hy2 : hasBlock (Text.ofString "/*") (Text.ofString "*/") y = false).
  { generalize (removeBlocks_clean 0 s1 H1). apply not_true_false. intros H.
    apply trim_collapseSpaces_hasBlock; [now repeat constructor..|].
    eapply Shrinks_hasBlock; [| |exact Sh4|]; [now repeat constructor..|].
    eapply Shrinks_hasBlock; [| |exact Sh5|]; [now repeat constructor..|].
    exact H. }
  assert (Hy3 : tidy y).
  { eapply Shrinks_tidy; [|exact Sh5|].
    - intros c Hc. apply Ascii.eqb_eq in Hc. now subst.
    - eapply Shrinks_tidy; [|exact Sh4|].
      + intros c Hc. apply Ascii.eqb_eq in Hc. now subst.
      + apply trim_collapseSpaces_tidy. }
  split; [now apply removeToLineEnd_fixed|].
  split; [now apply removeBlocks_fixed|].
  split; [now apply tidy_fixed|].
  apply removeStringLiterals_fixed. apply tidy_one_line. apply trim_collapseSpaces_tidy.
Qed.

(** After the passes for a language with [#] comments. *)
Lemma hash_passes_fixed (s : Text.t) :
  let y := Text.replaceQuoted Text.singleQuote 0
             (Text.replaceQuoted Text.doubleQuote 0
                (Text.trim (Text.collapseSpaces false
                   (Text.removeToLineEnd (Text.ofString "#") false s)))) in
  Text.removeToLineEnd (Text.ofString "#") false y = y
  /\ Text.trim (Text.collapseSpaces false y) = y
  /\ Text.replaceQuoted Text.doubleQuote 0 y = y
  /\ Text.replaceQuoted Text.singleQuote 0 y = y.
Proof.
  set (s1 := Text.removeToLineEnd (Text.ofString "#") false s).
  set (s3 := Text.trim (Text.collapseSpaces false s1)).
  set (s4 := Text.replaceQuoted Text.doubleQuote 0 s3).
  intros y.
  assert (Hd : Text.doubleQuote <> Text.backslash) by discriminate.
  assert (Hq : Text.singleQuote <> Text.backslash) by discriminate.
  assert (Sh4 : Shrinks (Ascii.eqb Text.doubleQuote) s3 s4)
    by now apply replaceQuoted_Shrinks.
  assert (Sh5 : Shrinks (Ascii.eqb Text.singleQuote) s4 y)
    by now apply replaceQuoted_Shrinks.
  assert (H1 : occurs (Text.ofString "#") s1 = false).
  { apply removeToLineEnd_clean; [discriminate|]. now repeat constructor. }
  assert (Hy1 : occurs (Text.ofString "#") y = false).
  { revert H1. apply not_true_false. intros H.
    apply trim_collapseSpaces_occurs; [now repeat constructor|].
    eapply Shrinks_occurs; [|exact Sh4|]; [now repeat constructor|].
    eapply Shrinks_occurs; [|exact Sh5|]; [now repeat constructor|].
    exact H. }
  assert (Hy3 : tidy y).
  { eapply Shrinks_tidy; [|exact Sh5|].
    - intros c Hc. apply Ascii.eqb_eq in Hc. now subst.
    - eapply Shrinks_tidy; [|exact Sh4|].
      + intros c Hc. apply Ascii.eqb_eq in Hc. now subst.
      + apply trim_collapseSpaces_tidy. }
  split; [now apply removeToLineEnd_fixed|].
  split; [now apply tidy_fixed|].
  apply removeStringLiterals_fixed. apply tidy_one_line. apply trim_collapseSpaces_tidy.
Qed.

(** After the passes for a language with [--] comments. *)
Lemma dash_passes_fixed (s : Text.t) :
  let y := Text.trim (Text.collapseSpaces false
             (Text.removeToLineEnd (Text.ofString "--") false s)) in
  Text.removeToLineEnd (Text.ofString "--") false y = y
  /\ Text.trim (Text.collapseSpaces false y) = y.
Proof.
  intros y.
  assert (H1 : occurs (Text.ofString "--")
                      (Text.removeToLineEnd (Text.ofString "--") false s) = false).
  { apply removeToLineEnd_clean; [discriminate|]. now repeat constructor. }
  split.
  - apply removeToLineEnd_fixed. revert H1. apply not_true_false.
    apply trim_collapseSpaces_occurs. now repeat constructor.
  - apply tidy_fixed, trim_collapseSpaces_tidy.
Qed.

(** [normalize], on the code units, is idempotent for every language but
    css and html. *)
Lemma normalizeText_idempotent (s : Text.t) (language : JS.value) :
  JSValue.among ["css"; "html"] language = false ->
  Tokenizer.normalizeText (Tokenizer.normalizeText s language) language
  = Tokenizer.normalizeText s language.
Proof.
  intros Hl.
  destruct (language_lists language Hl) as (Hblock & Hhtml & Hslash & Hhash).
  unfold Tokenizer.normalizeText, Tokenizer.stripComments, Tokenizer.removeStringLiterals.
  cbv zeta. rewrite Hblock, Hhtml.
  destruct (JSValue.among Tokenizer.slashLanguages language) eqn:Hs.
  - destruct (Hslash eq_refl) as [-> ->].
    destruct (slash_passes_fixed s) as (E1 & E2 & E3 & E4 & E5).
    cbv zeta in E1, E2, E3, E4, E5.
    now rewrite E1, E2, E3, E4, E5.
  - destruct (JSValue.among ["python"; "ruby"] language) eqn:Hh.
    + rewrite (Hhash eq_refl).
      destruct (hash_passes_fixed s) as (E1 & E3 & E4 & E5).
      cbv zeta in E1, E3, E4, E5.
      now rewrite E1, E3, E4, E5.
    + destruct (JSValue.among ["sql"] language) eqn:Hq.
      * destruct (dash_passes_fixed s) as (E1 & E3).
        cbv zeta in E1, E3. now rewrite E1, E3.
      * apply tidy_fixed, trim_collapseSpaces_tidy.
Qed.

End Normalize.

(* ------------------------------------------------------------------ *)
(** ** The passes of [CodeTokenizer.normalize] *)

(** The pattern matches somewhere in [s]. *)
Fixpoint fires (matchAt : option ascii -> Text.t -> option nat)
         (prev : option ascii) (s : Text.t) : bool :=
  match s with
  | [] => false
  | c :: s' =>
      match matchAt prev s with
      | Some (S _) => true
      | _ => false
      end
      || fires matchAt (Some c) s'
  end.

(** The code unit in front of what follows [a]. *)
Definition behind (prev : option ascii) (a : Text.t) : option ascii :=
  fold_left (fun _ c => Some c) a prev.

Section ReplaceAll.
Variable matchAt : option ascii -> Text.t -> option nat.
Variable replacement : Text.t.

Let replaceAll := Text.replaceAll matchAt replacement.

Lemma replaceAll_skip (prev : option ascii) (k : nat) (s : Text.t) :
  replaceAll prev k s = replaceAll (behind prev (firstn k s)) 0 (skipn k s).
Proof.
  revert prev k. induction s as [|c s IH]; intros prev [|k]; try reflexivity.
  change (replaceAll prev (S k) (c :: s)) with (replaceAll (Some c) k s).
  rewrite IH. reflexivity.
Qed.

(** One turn of the scan outside a match. *)
Lemma replaceAll_cons (prev : option ascii) (c : ascii) (s : Text.t) :
  replaceAll prev 0 (c :: s)
  = match matchAt prev (c :: s) with
    | Some (S k) =>
        replacement ++ replaceAll (behind (Some c) (firstn k s)) 0 (skipn k s)
    | _ => c :: replaceAll (Some c) 0 s
    end.
Proof.
  unfold replaceAll at 1. cbn [Text.replaceAll].
  destruct (matchAt prev (c :: s)) as [[|k]|]; try reflexivity.
  fold replaceAll. now rewrite replaceAll_skip.
Qed.

(** Where the pattern matches nowhere, the text is left as it is. *)
Lemma replaceAll_fixed (prev : option ascii) (s : Text.t) :
  fires matchAt prev s = false -> replaceAll prev 0 s = s.
Proof.
  revert prev. induction s as [|c s IH]; intros prev; [reflexivity|].
  cbn [fires]. intros H. apply orb_false_iff in H as [H1 H2].
  rewrite replaceAll_cons.
  destruct (matchAt prev (c :: s)) as [[|k]|]; try discriminate;
    f_equal; now apply IH.
Qed.

Lemma Shrinks_insert (special : ascii -> bool) (r s t : Text.t) :
  Forall (fun c => special c = true) r -> Shrinks special s t ->
  Shrinks special s (r ++ t).
Proof.
  intros Hr Hst. induction Hr as [|c r Hc Hr IH]; [exact Hst|].
  cbn [app]. now apply (Shrinks_cut c [] Hc).
Qed.

(** With a replacement that is not empty, the pass only leaves stretches
    out, the replacement standing where one went. *)
Lemma replaceAll_Shrinks (special : ascii -> bool) (prev : option ascii) (s : Text.t) :
  replacement <> [] -> Forall (fun c => special c = true) replacement ->
  Shrinks special s (replaceAll prev 0 s).
Proof.
  intros Hne Hr. revert prev.
  induction s as [s IH] using text_length_ind. intros prev.
  destruct s as [|c s]; [constructor|].
  rewrite replaceAll_cons.
  destruct (matchAt prev (c :: s)) as [[|k]|].
  - apply Shrinks_keep, IH. cbn. lia.
  - destruct replacement as [|r1 r]; [congruence|].
    inversion Hr; subst.
    rewrite <- (firstn_skipn k s) at 1. cbn [app].
    apply (Shrinks_cut r1 (c :: firstn k s)); [assumption|].
    apply Shrinks_insert; [assumption|].
    apply IH. cbn. rewrite length_skipn. lia.
  - apply Shrinks_keep, IH. cbn. lia.
Qed.

End ReplaceAll.

(** *** Comments *)

Section Comments.

Let slash : ascii := "/"%char.
Let star : ascii := "*"%char.
Let hash : ascii := "#"%char.
Let opening : Text.t := Text.ofString "/*".
Let closing : Text.t := Text.ofString "*/".
Let removeComments := Text.replaceAll CodeTokenizer.COMMENTS [].

(** What [COMMENTS] matches begins with a slash, or with a hash and then
    runs to the end of the line. *)
Lemma COMMENTS_some (prev : option ascii) (s : Text.t) (n : nat) :
  CodeTokenizer.COMMENTS prev s = Some n ->
  hd_error s = Some slash
  \/ (hd_error s = Some hash /\ n = S (Text.lineLength (tl s))).
Proof.
  unfold CodeTokenizer.COMMENTS.
  destruct (Text.startsWith (Text.ofString "//") s) eqn:H1.
  { intros _. left. now apply startsWith_head in H1. }
  destruct (Text.blockLength (Text.ofString "/*") (Text.ofString "*/") s) eqn:H2.
  { intros _. left. apply (blockAt_head s). unfold blockAt. now rewrite H2. }
  destruct (Text.startsWith (Text.ofString "#") s) eqn:H3; [|discriminate].
  intros [= <-]. right. apply startsWith_head in H3.
  destruct s as [|c s]; [discriminate|]. now split.
Qed.

Lemma COMMENTS_none (prev : option ascii) (s : Text.t) :
  CodeTokenizer.COMMENTS prev s = None ->
  Text.startsWith [slash; slash] s = false
  /\ blockAt opening closing s = false
  /\ hd_error s <> Some hash.
Proof.
  unfold CodeTokenizer.COMMENTS.
  change (Text.ofString "//") with [slash; slash].
  destruct (Text.startsWith [slash; slash] s); [discriminate|].
  unfold blockAt. fold opening closing.
  destruct (Text.blockLength opening closing s); [discriminate|].
  destruct s as [|c s]; [easy|].
  change (Text.ofString "#") with [hash]. rewrite startsWith_cons, startsWith_nil.
  destruct (Ascii.eqb_spec hash c) as [<-|Hc]; [discriminate|].
  intros _. repeat split. now intros [= ->].
Qed.

Lemma COMMENTS_not_zero (prev : option ascii) (s : Text.t) :
  CodeTokenizer.COMMENTS prev s <> Some 0.
Proof.
  unfold CodeTokenizer.COMMENTS, Text.blockLength.
  repeat match goal with
         | |- context [if ?b then _ else _] => destruct b
         | |- context [Text.indexOf ?p ?t] => destruct (Text.indexOf p t)
         end; cbn; discriminate.
Qed.

Lemma lineLength_rest (s : Text.t) :
  match skipn (Text.lineLength s) s with
  | [] => True
  | c :: _ => Text.isLineTerminator c = true
  end.
Proof.
  induction s as [|c s IH]; [exact I|].
  cbn. destruct (Text.isLineTerminator c) eqn:Hc; [exact Hc|exact IH].
Qed.

(** One turn of the scan. *)
Lemma removeComments_cons (prev : option ascii) (c : ascii) (s : Text.t) :
  removeComments prev 0 (c :: s)
  = match CodeTokenizer.COMMENTS prev (c :: s) with
    | Some n => removeComments (behind (Some c) (firstn (Nat.pred n) s)) 0
                               (skipn (Nat.pred n) s)
    | None => c :: removeComments (Some c) 0 s
    end.
Proof.
  unfold removeComments. rewrite replaceAll_cons.
  destruct (CodeTokenizer.COMMENTS prev (c :: s)) as [[|k]|] eqn:H; try reflexivity.
  now apply COMMENTS_not_zero in H.
Qed.

Lemma removeComments_line (prev : option ascii) (c : ascii) (s : Text.t) :
  Text.isLineTerminator c = true ->
  removeComments prev 0 (c :: s) = c :: removeComments (Some c) 0 s.
Proof.
  intros Hc. rewrite removeComments_cons.
  destruct (CodeTokenizer.COMMENTS prev (c :: s)) as [n|] eqn:H; [|reflexivity].
  apply COMMENTS_some in H as [H|[H _]]; injection H as ->; discriminate.
Qed.

(** What the result begins with, the text began with, unless the text
    began with a slash. *)
Lemma removeComments_head (x : ascii) (prev : option ascii) (s : Text.t) :
  Text.isLineTerminator x = false ->
  hd_error (removeComments prev 0 s) = Some x ->
  hd_error s = Some x \/ hd_error s = Some slash.
Proof.
  intros Hx. destruct s as [|c s]; [discriminate|].
  rewrite removeComments_cons.
  destruct (CodeTokenizer.COMMENTS prev (c :: s)) as [n|] eqn:H; [|now left].
  apply COMMENTS_some in H as [H|[H ->]]; [now right|].
  cbn [Nat.pred tl].
  pose proof (lineLength_rest s) as Hrest.
  destruct (skipn (Text.lineLength s) s) as [|d r]; [discriminate|].
  rewrite removeComments_line by exact Hrest.
  intros [= ->]. congruence.
Qed.

(** A slash after [x] in the result stood after [x] in the text. *)
Lemma removeComments_occurs (x : ascii) (prev : option ascii) (s : Text.t) :
  occurs [x; slash] (removeComments prev 0 s) = true -> occurs [x; slash] s = true.
Proof.
  revert prev. induction s as [s IH] using text_length_ind. intros prev.
  destruct s as [|c s]; [easy|].
  rewrite removeComments_cons.
  destruct (CodeTokenizer.COMMENTS prev (c :: s)) as [n|] eqn:H.
  - intros Ho. apply IH in Ho; [|cbn; rewrite length_skipn; lia].
    rewrite <- (firstn_skipn (Nat.pred n) s).
    now apply (occurs_app_r _ (c :: firstn (Nat.pred n) s)).
  - rewrite !occurs_cons. intros Ho. apply orb_true_iff in Ho as [Ho|Ho].
    + rewrite startsWith_cons in Ho. apply andb_true_iff in Ho as [Hx Ho].
      apply startsWith_head in Ho.
      apply (@removeComments_head slash (Some c) s eq_refl) in Ho.
      destruct s as [|d s]; [now destruct Ho|].
      assert (d = slash) as -> by (destruct Ho as [Ho|Ho]; now injection Ho).
      now rewrite !startsWith_cons, Hx, Ascii.eqb_refl.
    + rewrite (IH s ltac:(cbn; lia) _ Ho). apply orb_true_r.
Qed.

Lemma removeComments_no_slashes (prev : option ascii) (s : Text.t) :
  occurs [slash; slash] (removeComments prev 0 s) = false.
Proof.
  revert prev. induction s as [s IH] using text_length_ind. intros prev.
  destruct s as [|c s]; [easy|].
  rewrite removeComments_cons.
  destruct (CodeTokenizer.COMMENTS prev (c :: s)) as [n|] eqn:H.
  - apply IH. cbn. rewrite length_skipn. lia.
  - rewrite occurs_cons, IH, orb_false_r by (cbn; lia).
    apply COMMENTS_none in H as (H1 & _ & _).
    destruct (Text.startsWith [slash; slash]
                (c :: removeComments (Some c) 0 s)) eqn:Ho; [|reflexivity].
    rewrite startsWith_cons in Ho. apply andb_true_iff in Ho as [Hc Ho].
    apply startsWith_head in Ho.
      apply (@removeComments_head slash (Some c) s eq_refl) in Ho.
    destruct s as [|d s]; [now destruct Ho|].
    assert (d = slash) as -> by (destruct Ho as [Ho|Ho]; now injection Ho).
    now rewrite !startsWith_cons, Hc, Ascii.eqb_refl in H1.
Qed.

Lemma removeComments_no_hash (prev : option ascii) (s : Text.t) :
  ~ In hash (removeComments prev 0 s).
Proof.
  revert prev. induction s as [s IH] using text_length_ind. intros prev.
  destruct s as [|c s]; [easy|].
  rewrite removeComments_cons.
  destruct (CodeTokenizer.COMMENTS prev (c :: s)) as [n|] eqn:H.
  - apply IH. cbn. rewrite length_skipn. lia.
  - apply COMMENTS_none in H as (_ & _ & H3).
    intros [->|Hin]; [now apply H3|].
    revert Hin. apply IH. cbn. lia.
Qed.

Lemma removeComments_no_block (prev : option ascii) (s : Text.t) :
  hasBlock opening closing (removeComments prev 0 s) = false.
Proof.
  revert prev. induction s as [s IH] using text_length_ind. intros prev.
  destruct s as [|c s]; [easy|].
  rewrite removeComments_cons.
  destruct (CodeTokenizer.COMMENTS prev (c :: s)) as [n|] eqn:H.
  - apply IH. cbn. rewrite length_skipn. lia.
  - cbn [hasBlock]. rewrite IH, orb_false_r by (cbn; lia).
    apply COMMENTS_none in H as (H1 & H2 & _).
    destruct (blockAt opening closing (c :: removeComments (Some c) 0 s)) eqn:Ho;
      [|reflexivity].
    exfalso. rewrite blockAt_spec in Ho, H2.
    change opening with [slash; star] in Ho, H2.
    change (List.length [slash; star]) with 2 in Ho, H2.
    apply andb_true_iff in Ho as [Ho1 Ho2].
    rewrite startsWith_cons in Ho1. apply andb_true_iff in Ho1 as [Hc Ho1].
    apply Ascii.eqb_eq in Hc. subst c.
    pose proof Ho1 as Hhead.
    apply startsWith_head in Hhead.
    apply (@removeComments_head star (Some slash) s eq_refl) in Hhead.
    destruct s as [|d s]; [now destruct Hhead|].
    destruct Hhead as [Hd|Hd]; injection Hd as ->.
    + rewrite removeComments_cons in Ho1, Ho2.
      destruct (CodeTokenizer.COMMENTS (Some slash) (star :: s)) as [n|] eqn:Hn.
      { apply COMMENTS_some in Hn as [Hn|[Hn _]]; discriminate. }
      cbn [skipn] in Ho2, H2.
      apply removeComments_occurs in Ho2.
      rewrite !startsWith_cons, !Ascii.eqb_refl, startsWith_nil in H2.
      cbn [andb] in H2. change closing with [star; slash] in H2.
      unfold star in H2. congruence.
    + now rewrite !startsWith_cons, !Ascii.eqb_refl in H1.
Qed.

(** A text without two slashes in a row, a block comment or a hash has
    nothing for [COMMENTS] to match. *)
Lemma COMMENTS_fires (prev : option ascii) (s : Text.t) :
  occurs [slash; slash] s = false -> hasBlock opening closing s = false ->
  ~ In hash s ->
  fires CodeTokenizer.COMMENTS prev s = false.
Proof.
  revert prev. induction s as [|c s IH]; intros prev H1 H2 H3; [reflexivity|].
  apply occurs_false_cons in H1 as [H1 H1'].
  cbn [hasBlock] in H2. apply orb_false_iff in H2 as [H2 H2'].
  cbn [fires]. rewrite IH; [|assumption..|intros Hin; apply H3; now right].
  rewrite orb_false_r.
  destruct (CodeTokenizer.COMMENTS prev (c :: s)) as [n|] eqn:Hn; [|reflexivity].
  exfalso. revert Hn. unfold CodeTokenizer.COMMENTS.
  change (Text.ofString "//") with [slash; slash]. rewrite H1.
  unfold blockAt in H2. fold opening closing.
  destruct (Text.blockLength opening closing (c :: s)); [discriminate|].
  change (Text.ofString "#") with [hash]. rewrite startsWith_cons, startsWith_nil.
  destruct (Ascii.eqb_spec hash c) as [<-|Hc]; [|discriminate].
  exfalso. apply H3. now left.
Qed.

End Comments.

(** *** String literals *)

(** How often [q] stands in [s]. *)
Definition count (q : ascii) (s : Text.t) : nat := count_occ ascii_dec s q.

Section Strings.

Lemma occurs_one (q : ascii) (s : Text.t) : occurs [q] s = true <-> In q s.
Proof.
  induction s as [|c s IH]; [easy|].
  rewrite occurs_cons, startsWith_cons, startsWith_nil, andb_true_r, orb_true_iff, IH.
  cbn [In]. rewrite Ascii.eqb_eq. intuition congruence.
Qed.

Lemma count_zero (q : ascii) (s : Text.t) : ~ In q s <-> count q s = 0.
Proof. apply count_occ_not_In. Qed.

Lemma count_app (q : ascii) (a b : Text.t) : count q (a ++ b) = count q a + count q b.
Proof. apply count_occ_app. Qed.

Lemma count_cons (q c : ascii) (s : Text.t) :
  count q (c :: s) = (if Ascii.eqb c q then 1 else 0) + count q s.
Proof.
  unfold count. cbn [count_occ].
  destruct (ascii_dec c q) as [->|H].
  - now rewrite Ascii.eqb_refl.
  - now destruct (Ascii.eqb_spec c q).
Qed.

Lemma Shrinks_count (special : ascii -> bool) (q : ascii) (s t : Text.t) :
  special q = false -> Shrinks special s t -> count q t <= count q s.
Proof.
  intros Hq Hst. induction Hst as [|c s t Hst IH|c a s t Hc Hst IH].
  - reflexivity.
  - rewrite !count_cons. lia.
  - rewrite count_cons, count_app.
    destruct (Ascii.eqb_spec c q) as [->|_]; [congruence|]. lia.
Qed.

Lemma isQuote_not_word (q : ascii) :
  CodeTokenizer.isQuote q = true -> Text.isWordChar q = false.
Proof.
  unfold CodeTokenizer.isQuote. intros H.
  apply orb_true_iff in H as [H|H]; [apply orb_true_iff in H as [H|H]|];
    apply Ascii.eqb_eq in H; now subst.
Qed.

Lemma STRINGS_some (prev : option ascii) (s : Text.t) (n : nat) :
  CodeTokenizer.STRINGS prev s = Some n ->
  exists q s', s = q :: s' /\ CodeTokenizer.isQuote q = true /\ In q s'.
Proof.
  destruct s as [|q s]; [discriminate|]. cbn.
  destruct (CodeTokenizer.isQuote q) eqn:Hq; [|discriminate].
  destruct (Text.indexOf [q] s) as [i|] eqn:Hi; [|discriminate].
  intros _. exists q, s. split; [reflexivity|]. split; [exact Hq|].
  apply occurs_one. unfold occurs. now rewrite Hi.
Qed.

Lemma STRINGS_none (prev : option ascii) (q : ascii) (s : Text.t) :
  CodeTokenizer.STRINGS prev (q :: s) = None ->
  CodeTokenizer.isQuote q = true -> ~ In q s.
Proof.
  cbn. intros H Hq. rewrite Hq in H.
  destruct (Text.indexOf [q] s) as [i|] eqn:Hi; [discriminate|].
  intros Hin. apply occurs_one in Hin. unfold occurs in Hin. now rewrite Hi in Hin.
Qed.

Lemma STRINGS_not_zero (prev : option ascii) (s : Text.t) :
  CodeTokenizer.STRINGS prev s <> Some 0.
Proof.
  destruct s as [|q s]; [discriminate|]. cbn.
  destruct (CodeTokenizer.isQuote q); [|discriminate].
  destruct (Text.indexOf [q] s); cbn; [|discriminate].
  intros [= H]. lia.
Qed.

Let removeStrings := Text.replaceAll CodeTokenizer.STRINGS (Text.ofString "STR").

Lemma removeStrings_Shrinks (prev : option ascii) (s : Text.t) :
  Shrinks Text.isWordChar s (removeStrings prev 0 s).
Proof. apply replaceAll_Shrinks; [discriminate|now repeat constructor]. Qed.

(** Of each kind of quote, at most one is left. *)
Lemma removeStrings_once (q : ascii) (prev : option ascii) (s : Text.t) :
  CodeTokenizer.isQuote q = true -> count q (removeStrings prev 0 s) <= 1.
Proof.
  intros Hq. revert prev. induction s as [s IH] using text_length_ind. intros prev.
  destruct s as [|c s]; [cbn; lia|].
  unfold removeStrings. rewrite replaceAll_cons. fold removeStrings.
  destruct (CodeTokenizer.STRINGS prev (c :: s)) as [[|k]|] eqn:H.
  - now apply STRINGS_not_zero in H.
  - rewrite count_app.
    assert (Hstr : count q (Text.ofString "STR") = 0).
    { apply count_zero. apply isQuote_not_word in Hq.
      intros [<-|[<-|[<-|[]]]]; discriminate. }
    rewrite Hstr. apply IH. cbn. rewrite length_skipn. lia.
  - rewrite count_cons. destruct (Ascii.eqb_spec c q) as [->|Hc].
    + pose proof (STRINGS_none _ _ _ H Hq) as Hin. apply count_zero in Hin.
      pose proof (Shrinks_count q (isQuote_not_word q Hq)
                                (removeStrings_Shrinks (Some q) s)).
      lia.
    + cbn. apply IH. cbn. lia.
Qed.

(** With at most one quote of each kind, [STRINGS] matches nothing. *)
Lemma STRINGS_fires (prev : option ascii) (s : Text.t) :
  (forall q, CodeTokenizer.isQuote q = true -> count q s <= 1) ->
  fires CodeTokenizer.STRINGS prev s = false.
Proof.
  revert prev. induction s as [|c s IH]; intros prev Hs; [reflexivity|].
  cbn [fires]. rewrite IH, orb_false_r.
  - destruct (CodeTokenizer.STRINGS prev (c :: s)) as [[|k]|] eqn:H; try reflexivity.
    apply STRINGS_some in H as (q & s' & [= <- <-] & Hq & Hin).
    specialize (Hs c Hq). rewrite count_cons, Ascii.eqb_refl in Hs.
    assert (count c s <> 0) by (intros H0; now apply count_zero in H0).
    lia.
  - intros q Hq. specialize (Hs q Hq). rewrite count_cons in Hs. lia.
Qed.

(** [replace(/\s+/g, ' ').trim()] adds nothing but spaces. *)
Lemma trim_collapseSpaces_count (q : ascii) (s : Text.t) :
  Text.isSpace q = false ->
  count q (Text.trim (Text.collapseSpaces false s)) <= count q s.
Proof.
  intros Hq. unfold Text.trim. rewrite trimStart_collapseSpaces.
  destruct (trimEnd_prefix (Text.collapseSpaces true s)) as [r Hr].
  destruct (trimStart_suffix s) as [a Ha].
  pose proof (Shrinks_count q Hq (proj2 (collapseSpaces_Shrinks s))) as H.
  rewrite Hr, count_app in H. rewrite Ha at 2. rewrite count_app. lia.
Qed.

End Strings.

(** *** Words *)

(** The word characters at the head of [s]. *)
Fixpoint leadingWord (s : Text.t) : Text.t :=
  match s with
  | [] => []
  | c :: s' => if Text.isWordChar c then c :: leadingWord s' else []
  end.

(** The words of [s], its maximal runs of word characters.  With [inWord]
    set, the word characters at the head go on a word begun in front of
    [s] and are left out. *)
Fixpoint wordsFrom (inWord : bool) (s : Text.t) : list Text.t :=
  match s with
  | [] => []
  | c :: s' =>
      if Text.isWordChar c then
        if inWord then wordsFrom true s'
        else (c :: leadingWord s') :: wordsFrom true s'
      else wordsFrom false s'
  end.

(** A word that may be put where one went: not empty, word characters
    only. *)
Definition isWord (w : Text.t) : Prop :=
  w <> [] /\ Forall (fun c => Text.isWordChar c = true) w.

Section Words.

Lemma wordsFrom_incl (P : Text.t -> Prop) (s : Text.t) :
  Forall P (wordsFrom false s) -> Forall P (wordsFrom true s).
Proof.
  destruct s as [|c s]; [easy|]. cbn.
  destruct (Text.isWordChar c); [|easy].
  intros H. now inversion H.
Qed.

Lemma wordsFrom_separated (b : bool) (s : Text.t) :
  Text.wordAt s = false -> wordsFrom b s = wordsFrom false s.
Proof.
  destruct s as [|c s]; [easy|]. cbn. now intros ->.
Qed.

Lemma leadingWord_separated (s : Text.t) :
  Text.wordAt s = false -> leadingWord s = [].
Proof.
  destruct s as [|c s]; [easy|]. cbn. now intros ->.
Qed.

Lemma leadingWord_app (w s : Text.t) :
  Forall (fun c => Text.isWordChar c = true) w ->
  leadingWord (w ++ s) = w ++ leadingWord s.
Proof.
  intros Hw. induction Hw as [|c w Hc Hw IH]; [reflexivity|].
  cbn. rewrite Hc. now f_equal.
Qed.

Lemma wordsFrom_inWord_app (w s : Text.t) :
  Forall (fun c => Text.isWordChar c = true) w ->
  wordsFrom true (w ++ s) = wordsFrom true s.
Proof.
  intros Hw. induction Hw as [|c w Hc Hw IH]; [reflexivity|].
  cbn. now rewrite Hc.
Qed.

Lemma wordsFrom_word_app (w s : Text.t) :
  isWord w ->
  wordsFrom false (w ++ s) = (w ++ leadingWord s) :: wordsFrom true s.
Proof.
  intros [Hne Hw]. destruct w as [|c w]; [congruence|].
  inversion Hw as [|? ? Hc Hw']; subst.
  cbn. rewrite Hc. now rewrite leadingWord_app, wordsFrom_inWord_app.
Qed.

(** A word at the head of [s] that ends there is the leading word. *)
Lemma startsWith_firstn (w s : Text.t) :
  Text.startsWith w s = true -> s = w ++ skipn (List.length w) s.
Proof.
  revert s. induction w as [|p w IH]; intros [|c s]; cbn; try easy.
  intros H. apply andb_true_iff in H as [Hc H].
  apply Ascii.eqb_eq in Hc. subst. f_equal. now apply IH.
Qed.

Lemma startsWith_self_app (w s : Text.t) : Text.startsWith w (w ++ s) = true.
Proof.
  induction w as [|c w IH]; [apply startsWith_nil|].
  cbn. now rewrite Ascii.eqb_refl.
Qed.

Lemma leadingWord_whole (w s : Text.t) :
  Forall (fun c => Text.isWordChar c = true) w ->
  Text.startsWith w s = true -> Text.wordAt (skipn (List.length w) s) = false ->
  leadingWord s = w.
Proof.
  intros Hw Hs Hend. rewrite (startsWith_firstn _ _ Hs).
  rewrite leadingWord_app by exact Hw.
  rewrite leadingWord_separated by exact Hend. apply app_nil_r.
Qed.

Lemma leadingWord_spec (s : Text.t) :
  Forall (fun c => Text.isWordChar c = true) (leadingWord s)
  /\ Text.startsWith (leadingWord s) s = true
  /\ Text.wordAt (skipn (List.length (leadingWord s)) s) = false.
Proof.
  induction s as [|c s (IH1 & IH2 & IH3)]; [now repeat split|].
  cbn. destruct (Text.isWordChar c) eqn:Hc.
  - cbn. rewrite Ascii.eqb_refl. repeat split; auto.
  - cbn. now rewrite Hc.
Qed.

Lemma isSpace_not_word (c : ascii) :
  Text.isSpace c = true -> Text.isWordChar c = false.
Proof.
  unfold Text.isSpace, Text.isWordChar, Text.isDigit.
  destruct c as [[] [] [] [] [] [] [] []]; cbn; intros H; reflexivity || discriminate H.
Qed.

Lemma isDigit_word (c : ascii) : Text.isDigit c = true -> Text.isWordChar c = true.
Proof.
  unfold Text.isWordChar. intros ->. now rewrite orb_true_r.
Qed.

End Words.

(** *** Patterns that begin and end with a word *)

Section Anchored.
Variable matchAt : option ascii -> Text.t -> option nat.
Variable replacement : Text.t.
Hypothesis anchored :
  forall prev s k, matchAt prev s = Some (S k) ->
                   Text.wordBefore prev = false /\ Text.wordAt s = true.
Hypothesis replacement_word : isWord replacement.

Let replaceAll := Text.replaceAll matchAt replacement.

Lemma anchored_inside (prev : option ascii) (c : ascii) (s : Text.t) :
  Text.wordBefore prev = true \/ Text.isWordChar c = false ->
  replaceAll prev 0 (c :: s) = c :: replaceAll (Some c) 0 s.
Proof.
  intros H. unfold replaceAll. rewrite replaceAll_cons.
  destruct (matchAt prev (c :: s)) as [[|k]|] eqn:Hm; try reflexivity.
  apply anchored in Hm as [H1 H2]. cbn in H2. destruct H; congruence.
Qed.

Lemma anchored_separated (prev : option ascii) (s : Text.t) :
  Text.wordAt s = false -> Text.wordAt (replaceAll prev 0 s) = false.
Proof.
  destruct s as [|c s]; [easy|]. cbn [Text.wordAt]. intros Hc.
  rewrite anchored_inside by now right. exact Hc.
Qed.

(** Inside a word nothing is replaced. *)
Lemma anchored_leadingWord (prev : option ascii) (s : Text.t) :
  Text.wordBefore prev = true ->
  leadingWord (replaceAll prev 0 s) = leadingWord s.
Proof.
  revert prev. induction s as [|c s IH]; intros prev Hp; [reflexivity|].
  rewrite anchored_inside by now left.
  cbn. destruct (Text.isWordChar c) eqn:Hc; [|reflexivity].
  f_equal. apply IH. exact Hc.
Qed.

(** The words from a place on are among the words of the whole text. *)
Lemma wordsFrom_suffix (P : Text.t -> Prop) (prev : option ascii) (a r : Text.t) :
  Forall P (wordsFrom (Text.wordBefore prev) (a ++ r)) ->
  Forall P (wordsFrom (Text.wordBefore (behind prev a)) r).
Proof.
  revert prev. induction a as [|c a IH]; intros prev; [easy|].
  cbn [app wordsFrom]. change (behind prev (c :: a)) with (behind (Some c) a).
  destruct (Text.isWordChar c) eqn:Hc.
  - destruct (Text.wordBefore prev); intros H; apply IH; cbn; rewrite Hc;
      [exact H|now inversion H].
  - intros H. apply IH. cbn. now rewrite Hc.
Qed.

(** What holds of the replacement with anything behind it, and of every
    word with [Q] at whose head there is no match, holds of the words of
    the result when [Q] holds of the words of the text. *)
Lemma anchored_words (Q P : Text.t -> Prop) (prev : option ascii) (s : Text.t) :
  (forall r, P (replacement ++ r)) ->
  (forall prev s, Text.wordBefore prev = false -> Text.wordAt s = true ->
                  match matchAt prev s with Some (S _) => False | _ => True end ->
                  Q (leadingWord s) -> P (leadingWord s)) ->
  Forall Q (wordsFrom (Text.wordBefore prev) s) ->
  Forall P (wordsFrom (Text.wordBefore prev) (replaceAll prev 0 s)).
Proof.
  intros Hrepl Hkeep. revert prev.
  induction s as [s IH] using text_length_ind. intros prev HQ.
  destruct s as [|c s]; [constructor|].
  assert (Hnext : Forall P (wordsFrom (Text.wordBefore (Some c))
                                      (replaceAll (Some c) 0 s))).
  { apply IH; [cbn; lia|]. exact (@wordsFrom_suffix Q prev [c] s HQ). }
  cbn [Text.wordBefore] in Hnext.
  destruct (Text.wordBefore prev) eqn:Hp.
  { rewrite anchored_inside by now left.
    cbn [wordsFrom]. now destruct (Text.isWordChar c). }
  destruct (Text.isWordChar c) eqn:Hc.
  2:{ rewrite anchored_inside by now right. cbn [wordsFrom]. now rewrite Hc. }
  assert (Hkept : match matchAt prev (c :: s) with Some (S _) => False | _ => True end ->
                  Forall P (wordsFrom false (c :: replaceAll (Some c) 0 s))).
  { intros Hm. cbn [wordsFrom]. rewrite Hc. constructor; [|exact Hnext].
    rewrite anchored_leadingWord by exact Hc.
    replace (c :: leadingWord s) with (leadingWord (c :: s))
      by (cbn; now rewrite Hc).
    apply (Hkeep prev (c :: s)); try assumption.
    cbn [wordsFrom] in HQ. rewrite Hc in HQ. inversion HQ; subst.
    cbn. now rewrite Hc. }
  unfold replaceAll. rewrite replaceAll_cons. fold replaceAll.
  destruct (matchAt prev (c :: s)) as [[|k]|] eqn:Hm; try (now apply Hkept).
  rewrite wordsFrom_word_app by exact replacement_word. constructor.
  - apply Hrepl.
  - assert (H : Forall P (wordsFrom (Text.wordBefore (behind (Some c) (firstn k s)))
                                    (replaceAll (behind (Some c) (firstn k s)) 0
                                                (skipn k s)))).
    { apply IH; [cbn; rewrite length_skipn; lia|].
      apply (@wordsFrom_suffix Q prev (c :: firstn k s) (skipn k s)).
      cbn [app]. rewrite firstn_skipn. now rewrite Hp. }
    destruct (Text.wordBefore _) in H; [exact H|now apply wordsFrom_incl].
Qed.

(** A match is at the head of a word. *)
Lemma anchored_fires (R : Text.t -> Prop) (prev : option ascii) (s : Text.t) :
  (forall prev s k, matchAt prev s = Some (S k) -> R (leadingWord s)) ->
  fires matchAt prev s = true ->
  Exists R (wordsFrom (Text.wordBefore prev) s).
Proof.
  intros HR. revert prev. induction s as [|c s IH]; intros prev; [discriminate|].
  cbn [fires]. intros H. apply orb_true_iff in H as [H|H].
  - destruct (matchAt prev (c :: s)) as [[|k]|] eqn:Hm; try discriminate.
    destruct (anchored Hm) as [Hp Hc]. cbn in Hc.
    rewrite Hp. cbn [wordsFrom]. rewrite Hc. apply Exists_cons_hd.
    pose proof (HR _ _ _ Hm) as Hw. cbn in Hw. now rewrite Hc in Hw.
  - apply IH in H. cbn [Text.wordBefore] in H.
    cbn [wordsFrom]. destruct (Text.isWordChar c); [|exact H].
    destruct (Text.wordBefore prev); [exact H|now apply Exists_cons_tl].
Qed.

End Anchored.

(** *** Numbers *)

(** The word is not made of digits only. *)
Definition hasOther (w : Text.t) : bool :=
  existsb (fun c => negb (Text.isDigit c)) w.

Section Numbers.

Lemma leadingWord_digits (s : Text.t) :
  Text.wordAt (skipn (Text.digits s) s) = false -> hasOther (leadingWord s) = false.
Proof.
  induction s as [|c s IH]; [reflexivity|].
  cbn [Text.digits]. destruct (Text.isDigit c) eqn:Hd.
  - cbn [skipn leadingWord]. rewrite (isDigit_word c Hd). intros H.
    cbn. rewrite Hd. now apply IH.
  - cbn. now intros ->.
Qed.

Lemma leadingWord_other (s : Text.t) :
  Text.wordAt (skipn (Text.digits s) s) = true -> hasOther (leadingWord s) = true.
Proof.
  induction s as [|c s IH]; [discriminate|].
  cbn [Text.digits]. destruct (Text.isDigit c) eqn:Hd.
  - cbn [skipn leadingWord]. rewrite (isDigit_word c Hd). intros H.
    cbn. rewrite Hd. now apply IH.
  - cbn. intros ->. cbn. now rewrite Hd.
Qed.

Lemma digits_word (s : Text.t) : Text.digits s <> 0 -> Text.wordAt s = true.
Proof.
  destruct s as [|c s]; [easy|]. cbn.
  destruct (Text.isDigit c) eqn:Hd; [|easy].
  intros _. now apply isDigit_word.
Qed.

(** What [NUMBERS] says at a place, in three cases. *)
Lemma NUMBERS_cases (prev : option ascii) (s : Text.t) :
  match CodeTokenizer.NUMBERS prev s with
  | Some (S _) =>
      Text.wordBefore prev = false /\ Text.wordAt s = true
      /\ Text.wordAt (skipn (Text.digits s) s) = false
  | _ =>
      Text.wordBefore prev = true \/ Text.wordAt s = false
      \/ Text.wordAt (skipn (Text.digits s) s) = true
  end.
Proof.
  unfold CodeTokenizer.NUMBERS.
  destruct (Text.wordBefore prev) eqn:Hp; [now left|].
  destruct (Text.digits s) as [|n] eqn:Hn.
  { cbn [skipn]. destruct (Text.wordAt s); [now right; right|now right; left]. }
  assert (Hs : Text.wordAt s = true) by (apply digits_word; now rewrite Hn).
  destruct (skipn (S n) s) as [|c fraction] eqn:Hrest; [now repeat split|].
  destruct (Ascii.eqb_spec c ".") as [->|Hdot].
  - destruct (Text.wordAt (skipn (Text.digits fraction) fraction)).
    + replace (S n + 1) with (S (n + 1)) by lia. now repeat split.
    + destruct (Text.digits fraction =? 0); [now repeat split|].
      replace (S n + 1 + Text.digits fraction)
        with (S (n + 1 + Text.digits fraction)) by lia.
      now repeat split.
  - cbn [Text.wordAt]. destruct (Text.isWordChar c); [now right; right|].
    now repeat split.
Qed.

Lemma NUMBERS_anchored (prev : option ascii) (s : Text.t) (k : nat) :
  CodeTokenizer.NUMBERS prev s = Some (S k) ->
  Text.wordBefore prev = false /\ Text.wordAt s = true.
Proof.
  intros H. pose proof (NUMBERS_cases prev s) as Hc. rewrite H in Hc. tauto.
Qed.

Lemma NUMBERS_digits (prev : option ascii) (s : Text.t) (k : nat) :
  CodeTokenizer.NUMBERS prev s = Some (S k) -> hasOther (leadingWord s) = false.
Proof.
  intros H. pose proof (NUMBERS_cases prev s) as Hc. rewrite H in Hc.
  now apply leadingWord_digits.
Qed.

Lemma NUMBERS_other (prev : option ascii) (s : Text.t) :
  Text.wordBefore prev = false -> Text.wordAt s = true ->
  match CodeTokenizer.NUMBERS prev s with Some (S _) => False | _ => True end ->
  hasOther (leadingWord s) = true.
Proof.
  intros Hp Hs Hm. pose proof (NUMBERS_cases prev s) as Hc.
  apply leadingWord_other.
  destruct (CodeTokenizer.NUMBERS prev s) as [[|k]|]; try easy;
    destruct Hc as [Hc|[Hc|Hc]]; congruence.
Qed.

Let removeNumbers := Text.replaceAll CodeTokenizer.NUMBERS (Text.ofString "NUM").

Lemma NUM_word : isWord (Text.ofString "NUM").
Proof. split; [discriminate|now repeat constructor]. Qed.

Lemma removeNumbers_Shrinks (prev : option ascii) (s : Text.t) :
  Shrinks Text.isWordChar s (removeNumbers prev 0 s).
Proof. apply replaceAll_Shrinks; [discriminate|now repeat constructor]. Qed.

(** No word of the result is made of digits only. *)
Lemma removeNumbers_words (s : Text.t) :
  Forall (fun w => hasOther w = true) (wordsFrom false (removeNumbers None 0 s)).
Proof.
  apply (@anchored_words CodeTokenizer.NUMBERS (Text.ofString "NUM")
                         NUMBERS_anchored NUM_word (fun _ => True)
                         (fun w => hasOther w = true) None s).
  - reflexivity.
  - intros prev t Hp Ht Hm _. exact (NUMBERS_other _ _ Hp Ht Hm).
  - now apply Forall_forall.
Qed.

(** Where no word is made of digits only, [NUMBERS] matches nothing. *)
Lemma NUMBERS_fires (s : Text.t) :
  Forall (fun w => hasOther w = true) (wordsFrom false s) ->
  fires CodeTokenizer.NUMBERS None s = false.
Proof.
  intros H. destruct (fires CodeTokenizer.NUMBERS None s) eqn:Hf; [|reflexivity].
  apply (@anchored_fires CodeTokenizer.NUMBERS NUMBERS_anchored
                         (fun w => hasOther w = false)) in Hf.
  - apply Exists_exists in Hf as (w & Hw & Hd).
    rewrite Forall_forall in H. specialize (H w Hw). congruence.
  - intros prev t k Hm. exact (NUMBERS_digits _ _ Hm).
Qed.

End Numbers.

(** *** Whole words *)

Section WholeWords.
Variable keywords : list Text.t.
Hypothesis keywords_words : Forall isWord keywords.

Lemma wholeWord_some (prev : option ascii) (s : Text.t) (n : nat) :
  CodeTokenizer.wholeWord keywords prev s = Some n ->
  Text.wordBefore prev = false
  /\ exists w, In w keywords /\ Text.startsWith w s = true
               /\ Text.wordAt (skipn (List.length w) s) = false
               /\ n = List.length w.
Proof.
  clear keywords_words.
  induction keywords as [|w ks IH]; [discriminate|].
  cbn [CodeTokenizer.wholeWord].
  destruct (negb (Text.wordBefore prev) && Text.startsWith w s
            && negb (Text.wordAt (skipn (List.length w) s))) eqn:H.
  - intros [= <-]. apply andb_true_iff in H as [H H3].
    apply andb_true_iff in H as [H1 H2].
    apply negb_true_iff in H1, H3. split; [assumption|].
    exists w. repeat split; try assumption. now left.
  - intros Hn. destruct (IH Hn) as (Hp & w' & Hin & Hrest).
    split; [assumption|]. exists w'. split; [now right|assumption].
Qed.

Lemma wholeWord_complete (prev : option ascii) (s w : Text.t) :
  Text.wordBefore prev = false -> In w keywords ->
  Text.startsWith w s = true -> Text.wordAt (skipn (List.length w) s) = false ->
  exists k, CodeTokenizer.wholeWord keywords prev s = Some (S k).
Proof.
  intros Hp Hin Hs Hend.
  induction keywords_words as [|w' ks Hw' Hks IH]; [easy|].
  cbn [CodeTokenizer.wholeWord].
  destruct (negb (Text.wordBefore prev) && Text.startsWith w' s
            && negb (Text.wordAt (skipn (List.length w') s))) eqn:H.
  - destruct Hw' as [Hne _]. destruct w' as [|c w']; [congruence|].
    now exists (List.length w').
  - destruct Hin as [->|Hin]; [|now apply IH].
    now rewrite Hp, Hs, Hend in H.
Qed.

Lemma startsWith_word (w s : Text.t) :
  isWord w -> Text.startsWith w s = true -> Text.wordAt s = true.
Proof.
  intros [Hne Hw] Hs. destruct w as [|c w]; [congruence|].
  destruct s as [|d s]; [discriminate|].
  rewrite startsWith_cons in Hs. apply andb_true_iff in Hs as [Hc _].
  apply Ascii.eqb_eq in Hc. subst. cbn. now inversion Hw.
Qed.

Lemma wholeWord_anchored (prev : option ascii) (s : Text.t) (k : nat) :
  CodeTokenizer.wholeWord keywords prev s = Some (S k) ->
  Text.wordBefore prev = false /\ Text.wordAt s = true.
Proof.
  intros H. apply wholeWord_some in H as (Hp & w & Hin & Hs & _).
  split; [assumption|].
  apply startsWith_word with (w := w); [|assumption].
  now apply (proj1 (Forall_forall _ _) keywords_words).
Qed.

(** A match is a keyword that is a word of the text. *)
Lemma wholeWord_keyword (prev : option ascii) (s : Text.t) (k : nat) :
  CodeTokenizer.wholeWord keywords prev s = Some (S k) -> In (leadingWord s) keywords.
Proof.
  intros H. apply wholeWord_some in H as (Hp & w & Hin & Hs & Hend & _).
  assert (Hw : isWord w) by now apply (proj1 (Forall_forall _ _) keywords_words).
  assert (leadingWord s = w) as ->
      by (apply leadingWord_whole; [exact (proj2 Hw)|exact Hs|exact Hend]).
  exact Hin.
Qed.

(** A word at whose head there is no match is no keyword. *)
Lemma wholeWord_other (prev : option ascii) (s : Text.t) :
  Text.wordBefore prev = false ->
  match CodeTokenizer.wholeWord keywords prev s with Some (S _) => False | _ => True end ->
  ~ In (leadingWord s) keywords.
Proof.
  intros Hp Hm Hin.
  destruct (leadingWord_spec s) as (_ & Hs & Hend).
  destruct (wholeWord_complete prev _ _ Hp Hin Hs Hend) as [k Hk].
  now rewrite Hk in Hm.
Qed.

End WholeWords.

(** *** White space and words *)

Section WordsAndSpaces.

Lemma leadingWord_collapseSpaces (s : Text.t) :
  leadingWord (Text.collapseSpaces false s) = leadingWord s.
Proof.
  induction s as [|c s IH]; [reflexivity|].
  cbn. destruct (Text.isSpace c) eqn:Hc.
  - now rewrite (isSpace_not_word c Hc).
  - cbn. now rewrite IH.
Qed.

Lemma wordsFrom_collapseSpaces (s : Text.t) :
  (forall b, wordsFrom b (Text.collapseSpaces false s) = wordsFrom b s)
  /\ wordsFrom false (Text.collapseSpaces true s) = wordsFrom false s.
Proof.
  induction s as [|c s [IH1 IH2]]; [easy|].
  cbn [Text.collapseSpaces]. destruct (Text.isSpace c) eqn:Hc.
  - pose proof (isSpace_not_word c Hc) as Hw.
    split; [intros b|]; cbn [wordsFrom]; rewrite Hw; [|exact IH2].
    change (Text.isWordChar Text.space) with false. cbv iota. exact IH2.
  - assert (H : forall b, wordsFrom b (c :: Text.collapseSpaces false s)
                          = wordsFrom b (c :: s)).
    { intros b. cbn [wordsFrom]. now rewrite !IH1, leadingWord_collapseSpaces. }
    split; [exact H|apply H].
Qed.

Lemma trimEnd_prefix_spaces (s : Text.t) :
  exists r, s = Text.trimEnd s ++ r /\ Forall (fun c => Text.isSpace c = true) r.
Proof.
  induction s as [|c s (r & IH & Hr)]; [now exists []|].
  cbn [Text.trimEnd]. destruct (Text.trimEnd s) as [|d u] eqn:Hu.
  - destruct (Text.isSpace c) eqn:Hc.
    + exists (c :: s). split; [reflexivity|]. cbn in IH. subst r. now constructor.
    + exists s. split; [reflexivity|]. cbn in IH. now subst r.
  - exists r. split; [|exact Hr]. cbn. now f_equal.
Qed.

Lemma wordsFrom_spaces (b : bool) (r : Text.t) :
  Forall (fun c => Text.isSpace c = true) r -> wordsFrom b r = [] /\ leadingWord r = [].
Proof.
  intros Hr. revert b. induction Hr as [|c r Hc Hr IH]; intros b; [easy|].
  cbn. rewrite (isSpace_not_word c Hc). split; [apply IH|reflexivity].
Qed.

Lemma wordsFrom_app_spaces (b : bool) (u r : Text.t) :
  Forall (fun c => Text.isSpace c = true) r ->
  wordsFrom b (u ++ r) = wordsFrom b u /\ leadingWord (u ++ r) = leadingWord u.
Proof.
  intros Hr. revert b. induction u as [|c u IH]; intros b.
  - now apply wordsFrom_spaces.
  - cbn. destruct (IH true) as [IH1 IH2]. destruct (IH false) as [IH3 _].
    rewrite IH1, IH2, IH3. now destruct (Text.isWordChar c), b.
Qed.

Lemma wordsFrom_trimStart (s : Text.t) :
  wordsFrom false (Text.trimStart s) = wordsFrom false s.
Proof.
  induction s as [|c s IH]; [reflexivity|].
  cbn. destruct (Text.isSpace c) eqn:Hc; [|reflexivity].
  now rewrite (isSpace_not_word c Hc).
Qed.

(** [replace(/\s+/g, ' ').trim()] leaves the words as they are. *)
Lemma wordsFrom_trim_collapseSpaces (s : Text.t) :
  wordsFrom false (Text.trim (Text.collapseSpaces false s)) = wordsFrom false s.
Proof.
  unfold Text.trim. rewrite trimStart_collapseSpaces.
  destruct (trimEnd_prefix_spaces (Text.collapseSpaces true s)) as (r & Hr & Hsp).
  rewrite <- (proj2 (wordsFrom_collapseSpaces s)). rewrite Hr at 2.
  symmetry. now apply wordsFrom_app_spaces.
Qed.

End WordsAndSpaces.

(** *** Keywords, one pass after another *)

(** The words a pass replaces, and what it puts for them. *)
Definition pass : Type := (list Text.t * Text.t)%type.

Definition applyPass (p : pass) (s : Text.t) : Text.t :=
  Text.replaceAll (CodeTokenizer.wholeWord (fst p)) (snd p) None 0 s.

Definition chain (passes : list pass) (s : Text.t) : Text.t :=
  fold_left (fun s p => applyPass p s) passes s.

Section Keywords.
Variable all : list pass.
Hypothesis keywords_words : forall p, In p all -> Forall isWord (fst p).
Hypothesis replacement_word : forall p, In p all -> isWord (snd p).
Hypothesis replacement_other : forall p, In p all -> hasOther (snd p) = true.
Hypothesis apart :
  forall p p' w, In p all -> In p' all -> In w (fst p) ->
                 Text.startsWith (snd p') w = false.

Lemma replacement_no_keyword (p p' : pass) (r : Text.t) :
  In p all -> In p' all -> ~ In (snd p' ++ r) (fst p).
Proof.
  intros Hp Hp' Hin. pose proof (apart p p' _ Hp Hp' Hin) as H.
  now rewrite startsWith_self_app in H.
Qed.

Lemma applyPass_Shrinks (p : pass) (s : Text.t) :
  In p all -> Shrinks Text.isWordChar s (applyPass p s).
Proof.
  intros Hp. destruct (replacement_word p Hp) as [Hne Hw].
  now apply replaceAll_Shrinks.
Qed.

(** What holds of the replacement with anything behind it is kept. *)
Lemma applyPass_keeps (P : Text.t -> Prop) (p : pass) (s : Text.t) :
  In p all -> (forall r, P (snd p ++ r)) ->
  Forall P (wordsFrom false s) -> Forall P (wordsFrom false (applyPass p s)).
Proof.
  intros Hp Hr Hs.
  apply (@anchored_words (CodeTokenizer.wholeWord (fst p)) (snd p)
                         (wholeWord_anchored (keywords_words p Hp))
                         (replacement_word p Hp) P P None s); auto.
Qed.

(** After a pass no word is one of its keywords. *)
Lemma applyPass_free (p : pass) (s : Text.t) :
  In p all ->
  Forall (fun w => ~ In w (fst p)) (wordsFrom false (applyPass p s)).
Proof.
  intros Hp.
  apply (@anchored_words (CodeTokenizer.wholeWord (fst p)) (snd p)
                         (wholeWord_anchored (keywords_words p Hp))
                         (replacement_word p Hp) (fun _ => True)
                         (fun w => ~ In w (fst p)) None s).
  - intros r. now apply replacement_no_keyword.
  - intros prev t Hprev _ Hm _.
    exact (wholeWord_other (keywords_words p Hp) prev t Hprev Hm).
  - now apply Forall_forall.
Qed.

(** Where no word is a keyword, the pass changes nothing. *)
Lemma applyPass_fixed (p : pass) (s : Text.t) :
  In p all ->
  Forall (fun w => ~ In w (fst p)) (wordsFrom false s) -> applyPass p s = s.
Proof.
  intros Hp Hs. apply replaceAll_fixed.
  destruct (fires (CodeTokenizer.wholeWord (fst p)) None s) eqn:Hf; [|reflexivity].
  apply (@anchored_fires (CodeTokenizer.wholeWord (fst p))
                         (wholeWord_anchored (keywords_words p Hp))
                         (fun w => In w (fst p))) in Hf.
  - apply Exists_exists in Hf as (w & Hw & Hin).
    rewrite Forall_forall in Hs. now apply Hs in Hw.
  - intros prev t k Hm. exact (wholeWord_keyword (keywords_words p Hp) _ _ Hm).
Qed.

Lemma chain_keeps (P : Text.t -> Prop) (passes : list pass) (s : Text.t) :
  incl passes all -> (forall p r, In p all -> P (snd p ++ r)) ->
  Forall P (wordsFrom false s) -> Forall P (wordsFrom false (chain passes s)).
Proof.
  intros Hincl Hr. revert s.
  induction passes as [|p passes IH]; intros s Hs; [exact Hs|].
  cbn. apply IH.
  - intros q Hq. apply Hincl. now right.
  - apply applyPass_keeps; [apply Hincl; now left| |exact Hs].
    intros r. apply Hr, Hincl. now left.
Qed.

Lemma chain_free (passes : list pass) (s : Text.t) (p : pass) :
  incl passes all -> In p passes ->
  Forall (fun w => ~ In w (fst p)) (wordsFrom false (chain passes s)).
Proof.
  intros Hincl. revert s.
  induction passes as [|q passes IH]; intros s Hp; [easy|].
  assert (Hq : In q all) by (apply Hincl; now left).
  assert (Hrest : incl passes all) by (intros x Hx; apply Hincl; now right).
  cbn. destruct Hp as [->|Hp]; [|now apply IH].
  apply chain_keeps; [exact Hrest| |now apply applyPass_free].
  intros p' r Hp'. now apply replacement_no_keyword.
Qed.

Lemma chain_fixed (passes : list pass) (s : Text.t) :
  incl passes all ->
  (forall p, In p passes -> Forall (fun w => ~ In w (fst p)) (wordsFrom false s)) ->
  chain passes s = s.
Proof.
  intros Hincl Hs. induction passes as [|q passes IH]; [reflexivity|].
  cbn. rewrite applyPass_fixed.
  - apply IH; [intros x Hx; apply Hincl; now right|].
    intros p Hp. apply Hs. now right.
  - apply Hincl. now left.
  - apply Hs. now left.
Qed.

Lemma chain_other (passes : list pass) (s : Text.t) :
  incl passes all ->
  Forall (fun w => hasOther w = true) (wordsFrom false s) ->
  Forall (fun w => hasOther w = true) (wordsFrom false (chain passes s)).
Proof.
  intros Hincl. apply chain_keeps; [exact Hincl|].
  intros p r Hp. unfold hasOther. rewrite existsb_app.
  fold (hasOther (snd p)). now rewrite replacement_other.
Qed.

(** What a pass that only leaves stretches out keeps, the chain keeps. *)
Lemma chain_Shrinks (X : Text.t -> Prop) (passes : list pass) (s : Text.t) :
  incl passes all ->
  (forall s t, Shrinks Text.isWordChar s t -> X s -> X t) ->
  X s -> X (chain passes s).
Proof.
  intros Hincl HX. revert s.
  induction passes as [|q passes IH]; intros s Hs; [exact Hs|].
  cbn. apply IH; [intros x Hx; apply Hincl; now right|].
  apply (HX s); [|exact Hs]. apply applyPass_Shrinks, Hincl. now left.
Qed.

End Keywords.

(** *** [CodeTokenizer.normalize] applied twice *)

Definition javascriptPasses : list pass :=
  [ (map Text.ofString ["const"; "let"; "var"], Text.ofString "VAR");
    (map Text.ofString ["function"], Text.ofString "FUNC");
    (map Text.ofString ["class"], Text.ofString "CLASS");
    (map Text.ofString ["async"], Text.ofString "ASYNC");
    (map Text.ofString ["await"], Text.ofString "AWAIT") ].

Definition pythonPasses : list pass :=
  [ (map Text.ofString ["def"], Text.ofString "FUNC");
    (map Text.ofString ["class"], Text.ofString "CLASS");
    (map Text.ofString ["async"], Text.ofString "ASYNC");
    (map Text.ofString ["await"], Text.ofString "AWAIT");
    (map Text.ofString ["lambda"], Text.ofString "LAMBDA") ].

Definition allPasses : list pass := javascriptPasses ++ pythonPasses.

(** The keyword passes [normalize] makes for a language. *)
Definition passesOf (language : JS.value) : list pass :=
  if JSValue.eqb language (JS.VStr "javascript")
     || JSValue.eqb language (JS.VStr "typescript")
  then javascriptPasses
  else if JSValue.eqb language (JS.VStr "python") then pythonPasses
  else [].

(** The passes [normalize] makes for every language. *)
Definition stripped (code : Text.t) : Text.t :=
  Text.trim
    (Text.collapseSpaces false
       (CodeTokenizer.replace CodeTokenizer.NUMBERS "NUM"
          (CodeTokenizer.replace CodeTokenizer.STRINGS "STR"
             (CodeTokenizer.replace CodeTokenizer.COMMENTS "" code)))).

(** Nothing for [COMMENTS] or [STRINGS] to match. *)
Definition bare (s : Text.t) : Prop :=
  occurs (Text.ofString "//") s = false
  /\ hasBlock (Text.ofString "/*") (Text.ofString "*/") s = false
  /\ occurs (Text.ofString "#") s = false
  /\ forall q, CodeTokenizer.isQuote q = true -> count q s <= 1.

Section CodeTokenizerNormalize.

Lemma allPasses_keywords (p : pass) : In p allPasses -> Forall isWord (fst p).
Proof.
  intros Hp. cbn in Hp.
  repeat (destruct Hp as [<-|Hp];
          [repeat constructor; discriminate|]).
  contradiction.
Qed.

Lemma allPasses_replacement (p : pass) : In p allPasses -> isWord (snd p).
Proof.
  intros Hp. cbn in Hp.
  repeat (destruct Hp as [<-|Hp];
          [split; [discriminate|now repeat constructor]|]).
  contradiction.
Qed.

Lemma allPasses_other (p : pass) : In p allPasses -> hasOther (snd p) = true.
Proof.
  intros Hp. cbn in Hp.
  repeat (destruct Hp as [<-|Hp]; [reflexivity|]).
  contradiction.
Qed.

Lemma allPasses_apart (p p' : pass) (w : Text.t) :
  In p allPasses -> In p' allPasses -> In w (fst p) ->
  Text.startsWith (snd p') w = false.
Proof.
  intros Hp Hp' Hw.
  assert (H : forallb (fun p => forallb (fun p' =>
                forallb (fun w => negb (Text.startsWith (snd p') w)) (fst p))
                allPasses) allPasses = true) by (vm_compute; reflexivity).
  rewrite forallb_forall in H. specialize (H p Hp).
  rewrite forallb_forall in H. specialize (H p' Hp').
  rewrite forallb_forall in H. specialize (H w Hw).
  now apply negb_true_iff in H.
Qed.

Lemma passesOf_incl (language : JS.value) : incl (passesOf language) allPasses.
Proof.
  unfold passesOf, allPasses.
  destruct (_ || _); [apply incl_appl, incl_refl|].
  destruct (JSValue.eqb _ _); [apply incl_appr, incl_refl|easy].
Qed.

Lemma normalizeText_chain (code : Text.t) (language : JS.value) :
  CodeTokenizer.normalizeText code language
  = chain (passesOf language) (stripped code).
Proof.
  unfold CodeTokenizer.normalizeText, passesOf. cbv zeta. fold (stripped code).
  destruct (_ || _); [reflexivity|].
  now destruct (JSValue.eqb _ _).
Qed.

Lemma word_not_space (c : ascii) : Text.isWordChar c = true -> Text.isSpace c = false.
Proof.
  intros Hc. destruct (Text.isSpace c) eqn:Hs; [|reflexivity].
  apply isSpace_not_word in Hs. congruence.
Qed.

(** A pass that leaves stretches out and puts word characters in keeps a
    bare text bare. *)
Lemma Shrinks_bare (s t : Text.t) :
  Shrinks Text.isWordChar s t -> bare s -> bare t.
Proof.
  intros Hst (H1 & H2 & H3 & H4). repeat split.
  - revert H1. apply not_true_false.
    apply (Shrinks_occurs (special := Text.isWordChar)); [|exact Hst].
    now repeat constructor.
  - revert H2. apply not_true_false.
    apply (Shrinks_hasBlock (special := Text.isWordChar)); [| |exact Hst];
      now repeat constructor.
  - revert H3. apply not_true_false.
    apply (Shrinks_occurs (special := Text.isWordChar)); [|exact Hst].
    now repeat constructor.
  - intros q Hq. specialize (H4 q Hq).
    pose proof (Shrinks_count q (isQuote_not_word q Hq) Hst). lia.
Qed.

Lemma stripped_bare (code : Text.t) : bare (stripped code).
Proof.
  unfold stripped, CodeTokenizer.replace.
  set (s1 := Text.replaceAll CodeTokenizer.COMMENTS (Text.ofString "") None 0 code).
  set (s2 := Text.replaceAll CodeTokenizer.STRINGS (Text.ofString "STR") None 0 s1).
  set (s3 := Text.replaceAll CodeTokenizer.NUMBERS (Text.ofString "NUM") None 0 s2).
  assert (B1 : occurs (Text.ofString "//") s1 = false
               /\ hasBlock (Text.ofString "/*") (Text.ofString "*/") s1 = false
               /\ occurs (Text.ofString "#") s1 = false).
  { split; [apply removeComments_no_slashes|].
    split; [apply removeComments_no_block|].
    destruct (occurs (Text.ofString "#") s1) eqn:H; [|reflexivity].
    apply occurs_one in H. now apply removeComments_no_hash in H. }
  assert (B2 : bare s2).
  { destruct B1 as (H1 & H2 & H3).
    assert (Hsh : Shrinks Text.isWordChar s1 s2) by apply removeStrings_Shrinks.
    repeat split.
    - revert H1. apply not_true_false.
      apply (Shrinks_occurs (special := Text.isWordChar)); [|exact Hsh].
      now repeat constructor.
    - revert H2. apply not_true_false.
      apply (Shrinks_hasBlock (special := Text.isWordChar)); [| |exact Hsh];
        now repeat constructor.
    - revert H3. apply not_true_false.
      apply (Shrinks_occurs (special := Text.isWordChar)); [|exact Hsh].
      now repeat constructor.
    - intros q Hq. now apply removeStrings_once. }
  assert (B3 : bare s3) by (apply (Shrinks_bare (removeNumbers_Shrinks None s2) B2)).
  destruct B3 as (H1 & H2 & H3 & H4). repeat split.
  - revert H1. apply not_true_false.
    apply trim_collapseSpaces_occurs. now repeat constructor.
  - revert H2. apply not_true_false.
    apply trim_collapseSpaces_hasBlock; now repeat constructor.
  - revert H3. apply not_true_false.
    apply trim_collapseSpaces_occurs. now repeat constructor.
  - intros q Hq. specialize (H4 q Hq).
    assert (Hsp : Text.isSpace q = false).
    { unfold CodeTokenizer.isQuote in Hq.
      apply orb_true_iff in Hq as [Hq|Hq]; [apply orb_true_iff in Hq as [Hq|Hq]|];
        apply Ascii.eqb_eq in Hq; now subst. }
    pose proof (trim_collapseSpaces_count q s3 Hsp). lia.
Qed.

Lemma stripped_words (code : Text.t) :
  Forall (fun w => hasOther w = true) (wordsFrom false (stripped code)).
Proof.
  unfold stripped. rewrite wordsFrom_trim_collapseSpaces.
  apply removeNumbers_words.
Qed.

(** A bare and tidy text without a word of digits only is left as it is
    by the passes made for every language. *)
Lemma stripped_fixed (s : Text.t) :
  bare s -> tidy s -> Forall (fun w => hasOther w = true) (wordsFrom false s) ->
  stripped s = s.
Proof.
  intros (H1 & H2 & H3 & H4) Ht Hw. unfold stripped, CodeTokenizer.replace.
  rewrite (replaceAll_fixed CodeTokenizer.COMMENTS).
  - rewrite (replaceAll_fixed CodeTokenizer.STRINGS) by now apply STRINGS_fires.
    rewrite (replaceAll_fixed CodeTokenizer.NUMBERS) by now apply NUMBERS_fires.
    now apply tidy_fixed.
  - apply COMMENTS_fires; try assumption.
    intros Hin. apply occurs_one in Hin.
    change (occurs (Text.ofString "#") s = true) in Hin. congruence.
Qed.

(** [normalize], on the code units, is idempotent for every language. *)
Lemma CodeTokenizer_normalizeText_idempotent (code : Text.t) (language : JS.value) :
  CodeTokenizer.normalizeText (CodeTokenizer.normalizeText code language) language
  = CodeTokenizer.normalizeText code language.
Proof.
  rewrite !normalizeText_chain.
  set (passes := passesOf language).
  assert (Hincl : incl passes allPasses) by apply passesOf_incl.
  set (once := chain passes (stripped code)).
  assert (Hbare : bare once).
  { apply (chain_Shrinks allPasses_replacement bare); try assumption.
    - apply Shrinks_bare.
    - apply stripped_bare. }
  assert (Htidy : tidy once).
  { apply (chain_Shrinks allPasses_replacement tidy); try assumption.
    - intros s t Hst. apply (Shrinks_tidy word_not_space Hst).
    - apply trim_collapseSpaces_tidy. }
  assert (Hwords : Forall (fun w => hasOther w = true) (wordsFrom false once)).
  { apply (chain_other allPasses_keywords allPasses_replacement allPasses_other);
      [assumption|apply stripped_words]. }
  rewrite (stripped_fixed Hbare Htidy Hwords).
  apply (chain_fixed allPasses_keywords); [assumption|].
  intros p Hp.
  now apply (chain_free allPasses_keywords allPasses_replacement allPasses_apart).
Qed.

End CodeTokenizerNormalize.

(** The tests of the repository (tests/tokenizer.test.ts), on the model. *)
Example tokenizer_tests :
  In "function" (CodeTokenizer.tokenize "function test() { return 42; }" Sample.javascript)
  /\ In "test" (CodeTokenizer.tokenize "function test() { return 42; }" Sample.javascript)
  /\ In "return" (CodeTokenizer.tokenize "function test() { return 42; }" Sample.javascript)
  /\ CodeTokenizer.normalize
       ("function test() {" ++ Sample.newline ++ "  return 42;" ++ Sample.newline ++ "}")
       Sample.javascript
     = "FUNC test() { return NUM; }"
  /\ CodeTokenizer.detectLanguage "test.js" = JS.VStr "javascript"
  /\ CodeTokenizer.detectLanguage "test.py" = JS.VStr "python"
  /\ CodeTokenizer.detectLanguage "test.unknown" = JS.VStr "unknown".
Proof. vm_compute. intuition. Qed.

(** C7, as stated, fails on [Tokenizer.normalize]: in css the text
    [//* a */* bb */] loses its first comment and is left as a second
    one, which the next [normalize] removes with its token; one level
    deeper the same happens between the second and the third
    [normalize], and in html between [<!--] and [-->]. *)
Lemma normalize_twice_counterexample :
  Tokenizer.normalize Sample.commentInComment Sample.css = "/* bb */"
  /\ Tokenizer.normalize (Tokenizer.normalize Sample.commentInComment Sample.css) Sample.css
     = ""
  /\ Tokenizer.extractTokens (Tokenizer.normalize Sample.commentInComment Sample.css)
                             Sample.css = ["bb"]
  /\ Tokenizer.extractTokens
       (Tokenizer.normalize (Tokenizer.normalize Sample.commentInComment Sample.css)
                            Sample.css) Sample.css = []
  /\ Tokenizer.tokenize (Tokenizer.normalize Sample.nestedComments Sample.css)
                        Sample.css = ["bb"]
  /\ Tokenizer.tokenize
       (Tokenizer.normalize (Tokenizer.normalize Sample.nestedComments Sample.css)
                            Sample.css) Sample.css = []
  /\ Tokenizer.normalize Sample.htmlComment Sample.html = "<!--bb-->"
  /\ Tokenizer.normalize (Tokenizer.normalize Sample.htmlComment Sample.html) Sample.html
     = "".
Proof. vm_compute. repeat split. Qed.

(** C7 (amended): [Tokenizer.normalize] applied to its own result changes
    nothing for every language other than css and html, and
    [CodeTokenizer.normalize] for every language; so the tokens taken
    from [normalize(x)] and from [normalize(normalize(x))] are the same,
    and [Tokenizer.tokenize], which normalises first, gives the same list
    on [x], on [normalize(x)] and on [normalize(normalize(x))]. *)
Theorem normalize_twice (content : string) (language : JS.value) :
  (JSValue.among ["css"; "html"] language = false ->
   let once := Tokenizer.normalize content language in
   let twice := Tokenizer.normalize once language in
   twice = once
   /\ Tokenizer.extractTokens twice language = Tokenizer.extractTokens once language
   /\ Tokenizer.tokenize once language = Tokenizer.tokenize content language
   /\ Tokenizer.tokenize twice language = Tokenizer.tokenize once language)
  /\ (let once := CodeTokenizer.normalize content language in
      let twice := CodeTokenizer.normalize once language in
      twice = once
      /\ CodeTokenizer.tokenize twice language = CodeTokenizer.tokenize once language).
Proof.
  split.
  - intros Hl once twice.
    assert (H : twice = once).
    { unfold twice, once, Tokenizer.normalize, Text.ofString, Text.toString.
      rewrite list_ascii_of_string_of_list_ascii.
      now rewrite normalizeText_idempotent. }
    unfold Tokenizer.tokenize. fold once. fold twice.
    repeat split; try (now rewrite H).
    rewrite H. fold twice. now rewrite H.
  - intros once twice.
    assert (H : twice = once).
    { unfold twice, once, CodeTokenizer.normalize, Text.ofString, Text.toString.
      rewrite list_ascii_of_string_of_list_ascii.
      now rewrite CodeTokenizer_normalizeText_idempotent. }
    now rewrite H.
Qed.

Lemma normalize_twice_witness :
  Tokenizer.normalize Sample.source Sample.javascript
  = ("let s = '' + " ++ Sample.quote ++ Sample.quote ++ "; f(s)")%string
  /\ Tokenizer.normalize (Tokenizer.normalize Sample.source Sample.javascript)
                         Sample.javascript
     = Tokenizer.normalize Sample.source Sample.javascript
  /\ CodeTokenizer.normalize Sample.source Sample.javascript
     = "VAR s = STR b' + STR; f(s)"
  /\ CodeTokenizer.normalize (CodeTokenizer.normalize Sample.source Sample.javascript)
                             Sample.javascript
     = CodeTokenizer.normalize Sample.source Sample.javascript.
Proof.
  split; [reflexivity|].
  split; [exact (proj1 (proj1 (normalize_twice Sample.source Sample.javascript)
                              eq_refl))|].
  split; [reflexivity|].
  exact (proj1 (proj2 (normalize_twice Sample.source Sample.javascript))).
Defined.

(* ================================================================== *)
(** * Further properties of the code *)
(* ================================================================== *)

(* ------------------------------------------------------------------ *)
(** ** Ranking *)

Section Ranking.
Import PatternExtractor.

(** [a] may stand before [b]: its keys are not below those of [b]. *)
Definition notBelow (a b : Pattern.t) : Prop :=
  Pattern.frequency b < Pattern.frequency a
  \/ (Pattern.frequency a = Pattern.frequency b
      /\ (List.length (Pattern.languages b) < List.length (Pattern.languages a)
          \/ (List.length (Pattern.languages a) = List.length (Pattern.languages b)
              /\ List.length (Pattern.snippets b) <= List.length (Pattern.snippets a)))).

(** [a] and [b] agree on the three keys of the comparator. *)
Definition sameRank (a b : Pattern.t) : bool :=
  (Pattern.frequency a =? Pattern.frequency b)
  && (List.length (Pattern.languages a) =? List.length (Pattern.languages b))
  && (List.length (Pattern.snippets a) =? List.length (Pattern.snippets b)).

Lemma compare_notBelow a b : (compare a b <= 0)%Z <-> notBelow a b.
Proof.
  unfold compare, notBelow.
  destruct (Nat.eqb_spec (Pattern.frequency a) (Pattern.frequency b)) as [Hf|Hf]; cbn [negb].
  - destruct (Nat.eqb_spec (List.length (Pattern.languages a))
                           (List.length (Pattern.languages b))) as [Hl|Hl]; cbn [negb]; lia.
  - lia.
Qed.

Lemma compare_zero a b : compare a b = 0%Z <-> sameRank a b = true.
Proof.
  unfold compare, sameRank.
  destruct (Nat.eqb_spec (Pattern.frequency a) (Pattern.frequency b)) as [Hf|Hf]; cbn [negb andb].
  - destruct (Nat.eqb_spec (List.length (Pattern.languages a))
                           (List.length (Pattern.languages b))) as [Hl|Hl]; cbn [negb andb].
    + rewrite Nat.eqb_eq. lia.
    + split; [lia|discriminate].
  - split; [lia|discriminate].
Qed.

Lemma notBelow_trans a b c : notBelow a b -> notBelow b c -> notBelow a c.
Proof. unfold notBelow. lia. Qed.

Lemma notBelow_total a b : notBelow a b \/ notBelow b a.
Proof. unfold notBelow. lia. Qed.

Lemma insert_In p l x : In x (insert p l) <-> x = p \/ In x l.
Proof.
  induction l as [|q l IH]; cbn.
  - intuition.
  - destruct (compare p q <=? 0)%Z; cbn; [intuition|]. rewrite IH. intuition.
Qed.

Lemma insert_sorted p l :
  StronglySorted notBelow l -> StronglySorted notBelow (insert p l).
Proof.
  induction 1 as [|q l Hs IH Hq]; cbn.
  - repeat constructor.
  - destruct (Z.leb_spec (compare p q) 0) as [Hle|Hgt].
    + apply compare_notBelow in Hle. constructor.
      * now constructor.
      * constructor; [exact Hle|].
        rewrite Forall_forall in *. intros x Hx. eapply notBelow_trans; eauto.
    + assert (Hqp : notBelow q p).
      { destruct (notBelow_total p q) as [H'|H']; [|exact H'].
        apply compare_notBelow in H'. lia. }
      constructor; [exact IH|].
      rewrite Forall_forall in *. intros x Hx. apply insert_In in Hx.
      destruct Hx as [->|Hx]; auto.
Qed.

Lemma rankPatterns_sorted l : StronglySorted notBelow (rankPatterns l).
Proof.
  induction l as [|p l IH]; cbn; [constructor|]. now apply insert_sorted.
Qed.

Lemma sameRank_notBelow a b : sameRank a b = true -> notBelow a b.
Proof.
  unfold sameRank, notBelow. rewrite !andb_true_iff, !Nat.eqb_eq. lia.
Qed.

Lemma sameRank_above x p q :
  sameRank x p = true -> (0 < compare p q)%Z -> sameRank x q = false.
Proof.
  intros Hx Hp. destruct (sameRank x q) eqn:Hq; [|reflexivity]. exfalso.
  assert (Hpq : notBelow p q).
  { revert Hx Hq. unfold sameRank, notBelow. rewrite !andb_true_iff, !Nat.eqb_eq. lia. }
  apply compare_notBelow in Hpq. lia.
Qed.

Lemma filter_insert x p l :
  filter (sameRank x) (insert p l) = filter (sameRank x) (p :: l).
Proof.
  induction l as [|q l IH]; [reflexivity|].
  cbn [insert]. destruct (Z.leb_spec (compare p q) 0) as [Hle|Hgt]; [reflexivity|].
  cbn [filter] in *. rewrite IH.
  destruct (sameRank x p) eqn:Hp; [|reflexivity].
  now rewrite (@sameRank_above x p q Hp Hgt).
Qed.

Lemma rankPatterns_stable x l :
  filter (sameRank x) (rankPatterns l) = filter (sameRank x) l.
Proof.
  induction l as [|p l IH]; [reflexivity|].
  cbn [rankPatterns fold_right]. rewrite filter_insert. cbn [filter].
  fold (rankPatterns l). now rewrite IH.
Qed.

(** X1: [rankPatterns] returns the patterns it was given, each as often
    as it was given, ordered by falling frequency, then by falling number
    of languages, then by falling number of snippets; patterns that agree
    on all three keep the order they came in. *)
Theorem rankPatterns_orders (patterns : list Pattern.t) :
  Permutation patterns (rankPatterns patterns)
  /\ StronglySorted notBelow (rankPatterns patterns)
  /\ forall x, filter (sameRank x) (rankPatterns patterns) = filter (sameRank x) patterns.
Proof.
  split; [apply rankPatterns_perm|]. split; [apply rankPatterns_sorted|].
  intros x. apply rankPatterns_stable.
Qed.

End Ranking.

(* ------------------------------------------------------------------ *)
(** ** The hash family and the signatures *)

Section HashBounds.
Import HashFamily.

Lemma charCode_range c : (0 <= charCode c < 256)%Z.
Proof.
  unfold charCode. pose proof (nat_ascii_bounded c). lia.
Qed.

Lemma roll_range x : forall hash,
  (0 <= hash < p)%Z -> (0 <= roll hash x < p)%Z.
Proof.
  induction x as [|c x IH]; intros hash Hh; cbn [roll]; [exact Hh|].
  apply IH. apply Z.mod_pos_bound. reflexivity.
Qed.

(** Every value the loop of a hash function holds before it is reduced. *)
Fixpoint rolled (hash : Z) (x : string) : list Z :=
  match x with
  | EmptyString => []
  | String c x' => (hash * 31 + charCode c)%Z :: rolled ((hash * 31 + charCode c) mod p) x'
  end.

Lemma rolled_range x : forall hash,
  (0 <= hash < p)%Z -> Forall (fun v => 0 <= v < 2 ^ 53)%Z (rolled hash x).
Proof.
  induction x as [|c x IH]; intros hash Hh; cbn [rolled]; constructor.
  - pose proof (charCode_range c). unfold p in Hh. lia.
  - apply IH. apply Z.mod_pos_bound. reflexivity.
Qed.

Variable random : nat -> Z.

Lemma draw_range k : (0 <= draw random k < 1000000)%Z.
Proof. unfold draw. apply Z.mod_pos_bound. reflexivity. Qed.

(** X2: the hash functions stay inside the integers a JavaScript number
    holds exactly.  For every function of the family and every string, the
    running value of the loop stays below 2^53 before each reduction, so
    does [a * hash + b], and the value returned lies from 0 to
    2147483646. *)
Theorem hashFunction_exact (i : nat) (x : string) :
  let a := (draw random (2 * i) + 1)%Z in
  let b := draw random (2 * i + 1) in
  Forall (fun v => 0 <= v < 2 ^ 53)%Z (rolled 0 x)
  /\ (0 <= roll 0 x < p)%Z
  /\ (0 <= a * roll 0 x + b < 2 ^ 53)%Z
  /\ (0 <= hashFunction random i x < 2147483647)%Z.
Proof.
  intros a b.
  assert (H0 : (0 <= 0 < p)%Z) by (unfold p; lia).
  pose proof (roll_range x H0) as Hr.
  pose proof (draw_range (2 * i)) as Ha. pose proof (draw_range (2 * i + 1)) as Hb.
  split; [now apply rolled_range|]. split; [exact Hr|]. split.
  - subst a b. unfold p in Hr. nia.
  - unfold hashFunction. apply Z.mod_pos_bound. reflexivity.
Qed.

End HashBounds.

Section SignatureOfASet.

Lemma leastOver_unique h xs v w : leastOver h xs v -> leastOver h xs w -> v = w.
Proof.
  destruct v as [|a], w as [|b]; cbn; intros Hv Hw.
  - reflexivity.
  - subst xs. destruct Hw as [(x & [] & _) _].
  - subst xs. destruct Hv as [(x & [] & _) _].
  - destruct Hv as [(x & Hx & Ha) Hlv], Hw as [(y & Hy & Hb) Hlw].
    specialize (Hlv y Hy). specialize (Hlw x Hx). f_equal. lia.
Qed.

Variable config : Config.t.
Variable random : nat -> Z.

(** X3: a signature of [computeMinHash] depends on the set of the tokens
    only, neither on their order nor on how often each occurs; and its
    entries are integers from 0 to 2147483646. *)
Theorem computeMinHash_of_set (tokens tokens' : list string) :
  (forall x, In x tokens <-> In x tokens') ->
  MinHashLSH.computeMinHash config random tokens
  = MinHashLSH.computeMinHash config random tokens'
  /\ Forall (fun z => 0 <= z < 2147483647)%Z (MinHashLSH.computeMinHash config random tokens).
Proof.
  intros Hm.
  destruct (computeMinHash_spec config random tokens) as [Hlen Hnth].
  destruct (computeMinHash_spec config random tokens') as [Hlen' Hnth'].
  cbv zeta in *. split.
  - apply (nth_ext _ _ 0%Z 0%Z); [congruence|].
    intros i Hi. rewrite Hlen in Hi.
    destruct (Hnth i Hi) as (v & Hv & ->). destruct (Hnth' i Hi) as (w & Hw & ->).
    apply (@leastOver_members _ tokens tokens' v Hm) in Hv.
    now rewrite (@leastOver_unique _ _ v w Hv Hw).
  - apply Forall_forall. intros z Hz.
    destruct (In_nth _ _ 0%Z Hz) as (i & Hi & <-). rewrite Hlen in Hi.
    destruct (Hnth i Hi) as (v & Hv & ->).
    destruct v as [|a]; [lia|]. cbn in Hv. destruct Hv as [(x & _ & <-) _].
    unfold HashFamily.hashFunction. apply Z.mod_pos_bound. reflexivity.
Qed.

End SignatureOfASet.

Lemma computeMinHash_of_set_witness :
  MinHashLSH.computeMinHash Sample.oneHash Sample.zeroDraws ["aa"; "bb"; "aa"]
  = MinHashLSH.computeMinHash Sample.oneHash Sample.zeroDraws ["bb"; "aa"]
  /\ Forall (fun z => 0 <= z < 2147483647)%Z
            (MinHashLSH.computeMinHash Sample.oneHash Sample.zeroDraws ["aa"; "bb"; "aa"]).
Proof.
  apply (computeMinHash_of_set Sample.oneHash Sample.zeroDraws ["aa"; "bb"; "aa"] ["bb"; "aa"]).
  intros x. cbn. tauto.
Defined.

Section Bands.

Lemma concat_slices {A} (r b : nat) (l : list A) : forall k,
  List.length l = (k + b) * r ->
  List.concat (map (fun i => JS.slice (i * r) (i * r + r) l) (seq k b)) = skipn (k * r) l.
Proof.
  induction b as [|b IH]; intros k Hlen; cbn [seq map List.concat].
  - symmetry. apply skipn_all2. lia.
  - rewrite IH by lia. unfold JS.slice.
    replace (k * r + r - k * r) with r by lia.
    replace (S k * r) with (r + k * r) by lia.
    rewrite <- skipn_skipn. apply firstn_skipn.
Qed.

Lemma length_slice {A} (i j : nat) (l : list A) :
  j <= List.length l -> List.length (JS.slice i j l) = j - i.
Proof.
  intros Hj. unfold JS.slice. rewrite length_firstn, length_skipn. lia.
Qed.

Variable config : Cli.ClusteringConfig.t.
Variable random : nat -> Z.
Variable tokenize : string -> JS.value -> list string.

(** X8: the bands of a signature cut it up.  [generateSignature] returns
    [minhashBands] bands of [minhashRows] entries each, and the bands put
    end to end are the signature, which has [minhashBands * minhashRows]
    entries; the signature carries the id of its snippet. *)
Theorem generateSignature_bands (snippet : Cli.CodeSnippet.t) :
  let sig := MinHashClusterer.generateSignature config random tokenize snippet in
  List.length (Cli.MinHashSignature.bands sig) = Cli.ClusteringConfig.minhashBands config
  /\ Forall (fun band : list JS.num =>
               List.length band = Cli.ClusteringConfig.minhashRows config)
            (Cli.MinHashSignature.bands sig)
  /\ List.concat (Cli.MinHashSignature.bands sig) = Cli.MinHashSignature.signature sig
  /\ List.length (Cli.MinHashSignature.signature sig)
     = Cli.ClusteringConfig.minhashBands config * Cli.ClusteringConfig.minhashRows config
  /\ Cli.MinHashSignature.snippetId sig = Cli.CodeSnippet.id snippet.
Proof.
  cbv zeta. unfold MinHashClusterer.generateSignature.
  cbn [Cli.MinHashSignature.bands Cli.MinHashSignature.signature
         Cli.MinHashSignature.snippetId].
  destruct (minima_spec config random
              (MinHashClusterer.generateShingles
                 (tokenize (Cli.CodeSnippet.content snippet) (Cli.CodeSnippet.language snippet))
                 3)) as [Hlen _].
  repeat split.
  - now rewrite length_map, length_seq.
  - apply Forall_forall. intros band Hb. apply in_map_iff in Hb.
    destruct Hb as (i & <- & Hi). apply in_seq in Hi.
    rewrite length_slice; [lia|]. rewrite Hlen. nia.
  - rewrite (concat_slices _ _ _ 0) by (rewrite Hlen; lia). reflexivity.
  - exact Hlen.
Qed.

End Bands.

(* ------------------------------------------------------------------ *)
(** ** The LSH index *)

Section Index.
Variable config : Config.t.

Lemma addSnippet_filed (s : CodeSnippet.t) (b : MinHashLSH.buckets) (bands : list string) :
  (forall band, In band bands -> inBucket b band (CodeSnippet.id s)) ->
  fold_left
    (fun b bandSignature =>
       let b1 := if JSMap.has bandSignature b then b else JSMap.set bandSignature [] b in
       match JSMap.get bandSignature b1 with
       | Some bucket =>
           if existsb (String.eqb (CodeSnippet.id s)) bucket then b1
           else JSMap.set bandSignature (bucket ++ [CodeSnippet.id s]) b1
       | None => b1
       end)
    bands b = b.
Proof.
  induction bands as [|band bands IH]; intros Hall; [reflexivity|].
  cbn [fold_left]. cbv zeta.
  destruct (Hall band (or_introl eq_refl)) as (bucket & Hget & Hin).
  unfold JSMap.has. rewrite Hget. cbv beta iota. rewrite Hget.
  apply existsb_eqb_In in Hin. rewrite Hin.
  apply IH. intros band' Hb. apply Hall. now right.
Qed.

Lemma findCandidates_NoDup (s : CodeSnippet.t) (b : MinHashLSH.buckets) :
  NoDup (MinHashLSH.findCandidates config s b).
Proof.
  unfold MinHashLSH.findCandidates.
  apply fold_left_inv; [constructor|].
  intros candidates band _ Hc.
  destruct (JSMap.get band b) as [bucket|]; [|exact Hc].
  apply fold_left_inv; [exact Hc|].
  intros cs id _ Hcs. destruct (String.eqb id (CodeSnippet.id s)); [exact Hcs|].
  now apply (set_add_NoDup String.eqb String.eqb_eq).
Qed.

(** X4: filing a snippet in the LSH index a second time changes nothing;
    after [addSnippet] the snippet is in the bucket of each of its bands;
    and [findCandidates] never lists the snippet itself nor any id twice. *)
Theorem addSnippet_idempotent (s : CodeSnippet.t) (b : MinHashLSH.buckets) :
  MinHashLSH.addSnippet config s (MinHashLSH.addSnippet config s b)
  = MinHashLSH.addSnippet config s b
  /\ (forall band, In band (MinHashLSH.computeLSHSignature config (CodeSnippet.minHashes s)) ->
        exists bucket, JSMap.get band (MinHashLSH.addSnippet config s b) = Some bucket
                       /\ In (CodeSnippet.id s) bucket)
  /\ ~ In (CodeSnippet.id s) (MinHashLSH.findCandidates config s b)
  /\ NoDup (MinHashLSH.findCandidates config s b).
Proof.
  assert (Hfiled : forall band, In band (bandsOf config s) ->
                     inBucket (MinHashLSH.addSnippet config s b) band (CodeSnippet.id s)).
  { intros band Hb. apply addSnippet_spec. right. auto. }
  split; [|split; [exact Hfiled|split]].
  - unfold MinHashLSH.addSnippet at 1. now apply addSnippet_filed.
  - rewrite findCandidates_spec. intros [H _]. now apply H.
  - apply findCandidates_NoDup.
Qed.

End Index.

Section Removal.
Variable config : Config.t.

Lemma set_absent {V} (k : string) (v : V) (m : JSMap.t V) :
  JSMap.get k m = None -> JSMap.set k v m = m ++ [(k, v)].
Proof.
  induction m as [|[k' v'] m IH]; cbn; [reflexivity|].
  destruct (String.eqb k' k); [discriminate|]. intros H. now rewrite IH.
Qed.

Lemma set_set {V} (k : string) (v v' : V) (m : JSMap.t V) :
  JSMap.set k v' (JSMap.set k v m) = JSMap.set k v' m.
Proof.
  induction m as [|[k0 v0] m IH]; cbn.
  - now rewrite String.eqb_refl.
  - destruct (String.eqb k0 k) eqn:E; cbn; rewrite E; [reflexivity|]. now rewrite IH.
Qed.

Lemma map_set_same {V W} (g : V -> W) (k : string) (v v' : V) (m : JSMap.t V) :
  JSMap.get k m = Some v -> g v' = g v ->
  map (fun kv : string * V => (fst kv, g (snd kv))) (JSMap.set k v' m)
  = map (fun kv : string * V => (fst kv, g (snd kv))) m.
Proof.
  intros Hget Hg. induction m as [|[k0 v0] m IH]; cbn in *; [discriminate|].
  destruct (String.eqb k0 k) eqn:E; cbn.
  - apply String.eqb_eq in E. subst k0. inversion Hget; subst. now rewrite Hg.
  - now rewrite IH.
Qed.

Lemma removeFirst_absent (id : string) (bucket : list string) :
  ~ In id bucket -> MinHashLSH.removeFirst id bucket = bucket.
Proof.
  induction bucket as [|x bucket IH]; cbn; [reflexivity|]. intros Hn.
  destruct (String.eqb_spec x id) as [->|_]; [exfalso; auto|]. rewrite IH; auto.
Qed.

Lemma removeFirst_last (id : string) (bucket : list string) :
  ~ In id bucket -> MinHashLSH.removeFirst id (bucket ++ [id]) = bucket.
Proof.
  induction bucket as [|x bucket IH]; cbn.
  - now rewrite String.eqb_refl.
  - intros Hn. destruct (String.eqb_spec x id) as [->|_]; [exfalso; auto|]. rewrite IH; auto.
Qed.

Lemma removeSnippet_untouched (id : string) (b : MinHashLSH.buckets) :
  (forall band bucket, In (band, bucket) b -> bucket <> [] /\ ~ In id bucket) ->
  MinHashLSH.removeSnippet id b = b.
Proof.
  unfold MinHashLSH.removeSnippet.
  induction b as [|[band bucket] b IH]; intros Hall; cbn; [reflexivity|].
  destruct (Hall band bucket (or_introl eq_refl)) as [Hne Hn].
  rewrite (@removeFirst_absent id bucket Hn).
  destruct bucket as [|x bucket]; [congruence|]. cbn.
  rewrite IH; [reflexivity|]. intros band' bucket' Hin. apply (Hall band'). now right.
Qed.

Lemma removeSnippet_app (id : string) (b b' : MinHashLSH.buckets) :
  MinHashLSH.removeSnippet id (b ++ b')
  = MinHashLSH.removeSnippet id b ++ MinHashLSH.removeSnippet id b'.
Proof. unfold MinHashLSH.removeSnippet. now rewrite map_app, filter_app. Qed.

(** One turn of the loop of [addSnippet] is undone by [removeSnippet]. *)
Lemma removeSnippet_fileUnder (id band : string) (b : MinHashLSH.buckets) :
  MinHashLSH.removeSnippet id
    (let b1 := if JSMap.has band b then b else JSMap.set band [] b in
     match JSMap.get band b1 with
     | Some bucket =>
         if existsb (String.eqb id) bucket then b1
         else JSMap.set band (bucket ++ [id]) b1
     | None => b1
     end)
  = MinHashLSH.removeSnippet id b.
Proof.
  cbv zeta. unfold JSMap.has.
  destruct (JSMap.get band b) as [bucket|] eqn:Hget.
  - rewrite Hget. destruct (existsb (String.eqb id) bucket) eqn:E; [reflexivity|].
    unfold MinHashLSH.removeSnippet. f_equal.
    apply (@map_set_same _ _ (MinHashLSH.removeFirst id) band bucket (bucket ++ [id]) b Hget).
    assert (Hn : ~ In id bucket).
    { intros Hin. apply existsb_eqb_In in Hin. congruence. }
    now rewrite removeFirst_last, removeFirst_absent.
  - rewrite get_set_same. cbn [existsb app]. rewrite set_set, (@set_absent _ band _ b Hget).
    rewrite removeSnippet_app. unfold MinHashLSH.removeSnippet at 2. cbn.
    rewrite String.eqb_refl. cbn. apply app_nil_r.
Qed.

(** X5: [removeSnippet] undoes [addSnippet].  On an index with no empty
    bucket and none that holds the id of the snippet, filing the snippet
    and then removing its id gives the index back as it was, bucket for
    bucket and in the same order. *)
Theorem removeSnippet_undoes_addSnippet (s : CodeSnippet.t) (b : MinHashLSH.buckets) :
  (forall band bucket, In (band, bucket) b -> bucket <> [] /\ ~ In (CodeSnippet.id s) bucket) ->
  MinHashLSH.removeSnippet (CodeSnippet.id s) (MinHashLSH.addSnippet config s b) = b.
Proof.
  intros Hb. unfold MinHashLSH.addSnippet.
  apply (fold_left_inv (fun m => MinHashLSH.removeSnippet (CodeSnippet.id s) m = b)).
  - now apply removeSnippet_untouched.
  - intros m band _ Hm. now rewrite removeSnippet_fileUnder.
Qed.

End Removal.

Lemma removeSnippet_undoes_addSnippet_witness :
  MinHashLSH.removeSnippet "s1"
    (MinHashLSH.addSnippet Sample.twoBands Sample.s1
       (MinHashLSH.addSnippet Sample.twoBands Sample.s2 []))
  = MinHashLSH.addSnippet Sample.twoBands Sample.s2 [].
Proof.
  apply (removeSnippet_undoes_addSnippet Sample.twoBands Sample.s1
           (MinHashLSH.addSnippet Sample.twoBands Sample.s2 [])).
  intros band bucket Hin. vm_compute in Hin.
  destruct Hin as [H|[H|[]]]; inversion H; subst;
    (split; [discriminate | intros [E|[]]; discriminate]).
Defined.

Section Cleared.
Variable config : Config.t.

Lemma removeFirst_NoDup (id : string) (bucket : list string) :
  NoDup bucket -> ~ In id (MinHashLSH.removeFirst id bucket).
Proof.
  induction 1 as [|x bucket Hx Hnd IH]; cbn; [tauto|].
  destruct (String.eqb_spec x id) as [->|Hne]; [exact Hx|].
  intros [E|Hin]; [congruence | tauto].
Qed.

Lemma get_In {V} (k : string) (v : V) (m : JSMap.t V) :
  JSMap.get k m = Some v -> In (k, v) m.
Proof.
  induction m as [|[k' v'] m IH]; cbn; [discriminate|].
  destruct (String.eqb_spec k' k) as [->|_].
  - intros H. inversion H; subst. now left.
  - intros H. right. auto.
Qed.

(** X6: after [removeSnippet] the id is in no bucket, no bucket is
    empty, and the id is nobody's candidate any more, provided no bucket
    held an id twice (as is the case for buckets filled by [addSnippet]). *)
Theorem removeSnippet_clears (id : string) (b : MinHashLSH.buckets) :
  (forall band bucket, In (band, bucket) b -> NoDup bucket) ->
  (forall band bucket, In (band, bucket) (MinHashLSH.removeSnippet id b) ->
     bucket <> [] /\ ~ In id bucket)
  /\ forall s, ~ In id (MinHashLSH.findCandidates config s (MinHashLSH.removeSnippet id b)).
Proof.
  intros Hnd.
  assert (H : forall band bucket, In (band, bucket) (MinHashLSH.removeSnippet id b) ->
                bucket <> [] /\ ~ In id bucket).
  { intros band bucket Hin. unfold MinHashLSH.removeSnippet in Hin.
    apply filter_In in Hin. destruct Hin as [Hin Hlen].
    apply in_map_iff in Hin. destruct Hin as ([band' bucket'] & E & Hin).
    cbn in E. inversion E; subst. split.
    - intros E'. cbn in Hlen. now rewrite E' in Hlen.
    - apply removeFirst_NoDup. eapply Hnd; eassumption. }
  split; [exact H|].
  intros s Hin. apply findCandidates_spec in Hin.
  destruct Hin as (_ & band & _ & bucket & Hget & Hin).
  apply get_In in Hget. apply H in Hget. tauto.
Qed.

End Cleared.

Lemma removeSnippet_clears_witness :
  (forall band bucket,
      In (band, bucket)
         (MinHashLSH.removeSnippet "s0"
            (MinHashLSH.addSnippet Sample.twoBands Sample.s1
               (MinHashLSH.addSnippet Sample.twoBands Sample.s0 []))) ->
      bucket <> [] /\ ~ In "s0" bucket)
  /\ forall s,
      ~ In "s0" (MinHashLSH.findCandidates Sample.twoBands s
                   (MinHashLSH.removeSnippet "s0"
                      (MinHashLSH.addSnippet Sample.twoBands Sample.s1
                         (MinHashLSH.addSnippet Sample.twoBands Sample.s0 [])))).
Proof.
  apply (removeSnippet_clears Sample.twoBands "s0"
           (MinHashLSH.addSnippet Sample.twoBands Sample.s1
              (MinHashLSH.addSnippet Sample.twoBands Sample.s0 []))).
  intros band bucket Hin. vm_compute in Hin.
  destruct Hin as [H|[H|[]]]; inversion H; subst;
    repeat constructor; cbn; intuition discriminate.
Defined.

Section Similarity.

Lemma countMatches_sym (a b : list Z) :
  MinHashLSH.countMatches a b = MinHashLSH.countMatches b a.
Proof.
  revert b. induction a as [|x a IH]; intros [|y b]; cbn; try reflexivity.
  now rewrite IH, Z.eqb_sym.
Qed.

Lemma countMatches_le (a b : list Z) :
  MinHashLSH.countMatches a b <= List.length a.
Proof.
  revert b. induction a as [|x a IH]; intros [|y b]; cbn; try lia.
  specialize (IH b). destruct (Z.eqb x y); lia.
Qed.

Lemma countMatches_same (a : list Z) : MinHashLSH.countMatches a a = List.length a.
Proof. induction a as [|x a IH]; cbn; [reflexivity|]. now rewrite Z.eqb_refl, IH. Qed.

(** X7: [calculateSimilarity] of the LSH index throws exactly when the two
    signatures differ in length, and does not depend on the order of its
    two arguments; the number of matching positions it divides is at most
    the length, and is the length for a signature against itself. *)
Theorem calculateSimilarity_symmetric (a b : list Z) :
  MinHashLSH.calculateSimilarity a b = MinHashLSH.calculateSimilarity b a
  /\ ((exists what, MinHashLSH.calculateSimilarity a b = JS.Throw what)
      <-> List.length a <> List.length b)
  /\ MinHashLSH.countMatches a b <= List.length a
  /\ MinHashLSH.countMatches a a = List.length a.
Proof.
  unfold MinHashLSH.calculateSimilarity.
  split; [|split; [|split; [apply countMatches_le | apply countMatches_same]]].
  - rewrite (Nat.eqb_sym (List.length b)).
    destruct (Nat.eqb_spec (List.length a) (List.length b)) as [E|E]; cbn [negb];
      [|reflexivity].
    now rewrite countMatches_sym, E.
  - destruct (Nat.eqb_spec (List.length a) (List.length b)) as [E|E]; cbn [negb].
    + split; [intros (what & H); discriminate | tauto].
    + split; [tauto | eauto].
Qed.

End Similarity.

(* ------------------------------------------------------------------ *)
(** ** Tokens and normalised texts *)

Section TokenShape.

Lemma splitRuns_pieces (separator : ascii -> bool) (s : Text.t) :
  forall current inSeparator,
    Forall (fun c => separator c = false) current ->
    Forall (Forall (fun c => separator c = false))
           (Text.splitRuns separator current inSeparator s).
Proof.
  induction s as [|c s IH]; intros current b Hc; cbn [Text.splitRuns].
  - now constructor.
  - destruct (separator c) eqn:E.
    + destruct b; [now apply IH|]. constructor; [exact Hc|]. now apply IH.
    + apply IH. apply Forall_app. split; [exact Hc|]. now repeat constructor.
Qed.

Lemma lower_char_token (c : ascii) :
  Text.isTokenChar c = true ->
  Text.isTokenChar (JS.lower_char c) = true
  /\ JS.is_upper (JS.lower_char c) = false
  /\ Text.isDigit (JS.lower_char c) = Text.isDigit c.
Proof.
  destruct c as [[] [] [] [] [] [] [] []]; vm_compute; intros H;
    try discriminate; repeat split.
Qed.

Lemma ofString_toLowerCase (s : Text.t) :
  Text.ofString (JS.toLowerCase (Text.toString s)) = map JS.lower_char s.
Proof.
  induction s as [|c s IH]; cbn; [reflexivity|].
  unfold Text.ofString, Text.toString in IH. now rewrite IH.
Qed.

Lemma length_toLowerCase (s : string) : String.length (JS.toLowerCase s) = String.length s.
Proof. induction s as [|c s IH]; cbn; [reflexivity|]. now rewrite IH. Qed.

Lemma length_toString (s : Text.t) : String.length (Text.toString s) = List.length s.
Proof. induction s as [|c s IH]; cbn; [reflexivity|]. unfold Text.toString in IH. now rewrite IH. Qed.

Lemma forallb_isDigit_lower (s : Text.t) :
  Forall (fun c => Text.isTokenChar c = true) s ->
  forallb Text.isDigit (map JS.lower_char s) = forallb Text.isDigit s.
Proof.
  induction 1 as [|d l Hd Hl IH]; cbn; [reflexivity|].
  destruct (lower_char_token d Hd) as (_ & _ & ->). now rewrite IH.
Qed.

Lemma allDigits_lower (s : Text.t) :
  Forall (fun c => Text.isTokenChar c = true) s ->
  Text.allDigits (map JS.lower_char s) = Text.allDigits s.
Proof.
  intros H. destruct s as [|c s]; [reflexivity|].
  unfold Text.allDigits. now rewrite <- (forallb_isDigit_lower H).
Qed.

(** What a token of [extractTokens] looks like. *)
Definition wellShaped (token : string) : Prop :=
  2 <= String.length token
  /\ Forall (fun c => Text.isTokenChar c = true /\ JS.is_upper c = false) (Text.ofString token)
  /\ Text.allDigits (Text.ofString token) = false.

Lemma extractTokens_wellShaped (content : string) (language : JS.value) :
  Forall wellShaped (Tokenizer.extractTokens content language).
Proof.
  unfold Tokenizer.extractTokens. apply Forall_forall. intros token Hin.
  apply in_map_iff in Hin. destruct Hin as (piece & <- & Hin).
  apply filter_In in Hin. destruct Hin as [Hin Hkeep].
  apply filter_In in Hin. destruct Hin as [Hin _].
  apply andb_true_iff in Hkeep. destruct Hkeep as [Hlen Hdig].
  apply negb_true_iff in Hlen, Hdig. apply Nat.ltb_ge in Hlen.
  pose proof (splitRuns_pieces (fun c => negb (Text.isTokenChar c))
                (Text.ofString content) false (Forall_nil _)) as Hp.
  rewrite Forall_forall in Hp. specialize (Hp piece Hin).
  assert (Htok : Forall (fun c => Text.isTokenChar c = true) piece).
  { eapply Forall_impl; [|exact Hp]. cbn. intros c Hc. now apply negb_false_iff in Hc. }
  unfold wellShaped. rewrite length_toLowerCase, length_toString, ofString_toLowerCase.
  split; [exact Hlen|]. split.
  - apply Forall_map. eapply Forall_impl; [|exact Htok]. cbn. intros c Hc.
    destruct (lower_char_token c Hc) as (H1 & H2 & _). auto.
  - now rewrite allDigits_lower.
Qed.

(** X9: every token of [extractTokens], and so of [tokenize], has at least
    two characters, all of them letters, digits, [_], [$] or [.] and none
    an upper-case letter, and is not a number written in digits only. *)
Theorem tokens_well_shaped (content : string) (language : JS.value) :
  Forall wellShaped (Tokenizer.extractTokens content language)
  /\ Forall wellShaped (Tokenizer.tokenize content language).
Proof.
  split; [apply extractTokens_wellShaped|].
  unfold Tokenizer.tokenize. apply extractTokens_wellShaped.
Qed.

End TokenShape.

Section CodeTokenShape.

Lemma splitRuns_keeps (P : ascii -> Prop) (separator : ascii -> bool) (s : Text.t) :
  forall current inSeparator,
    Forall P current -> Forall P s ->
    Forall (Forall P) (Text.splitRuns separator current inSeparator s).
Proof.
  induction s as [|c s IH]; intros current b Hc Hs; cbn [Text.splitRuns].
  - now constructor.
  - inversion Hs as [|? ? Hx Hs']; subst. destruct (separator c).
    + destruct b; [now apply IH|]. constructor; [exact Hc|]. now apply IH.
    + apply IH; [|exact Hs']. apply Forall_app. split; [exact Hc|]. now repeat constructor.
Qed.

Lemma splitEach_pieces (separator : ascii -> bool) (s : Text.t) :
  forall current,
    Forall (fun c => separator c = false) current ->
    Forall (Forall (fun c => separator c = false)) (Text.splitEach separator current s).
Proof.
  induction s as [|c s IH]; intros current Hc; cbn [Text.splitEach].
  - now constructor.
  - destruct (separator c) eqn:E.
    + constructor; [exact Hc|]. now apply IH.
    + apply IH. apply Forall_app. split; [exact Hc|]. now repeat constructor.
Qed.

Lemma join_keeps (P : ascii -> Prop) (sep : Text.t) (pieces : list Text.t) :
  Forall P sep -> Forall (Forall P) pieces -> Forall P (Text.join sep pieces).
Proof.
  intros Hsep. induction 1 as [|piece rest Hp Hr IH]; cbn [Text.join]; [constructor|].
  destruct rest as [|piece' rest]; [exact Hp|].
  apply Forall_app. split; [exact Hp|]. apply Forall_app. split; [exact Hsep | exact IH].
Qed.

Lemma lower_char_bare (c : ascii) :
  Text.isSpace c = false -> CodeTokenizer.isOperator c = false ->
  Text.isSpace (JS.lower_char c) = false
  /\ CodeTokenizer.isOperator (JS.lower_char c) = false
  /\ JS.is_upper (JS.lower_char c) = false.
Proof.
  destruct c as [[] [] [] [] [] [] [] []]; vm_compute; intros H1 H2;
    try discriminate; repeat split.
Qed.

(** What a token of [CodeTokenizer.tokenize] looks like. *)
Definition plainToken (token : string) : Prop :=
  1 <= String.length token
  /\ Forall (fun c => Text.isSpace c = false
                      /\ CodeTokenizer.isOperator c = false
                      /\ JS.is_upper c = false)
            (Text.ofString token).

Lemma trim_nonempty (s : Text.t) : (0 <? List.length (Text.trim s)) = true -> s <> [].
Proof. intros H ->. discriminate. Qed.

(** X10: every token of [CodeTokenizer.tokenize] is non-empty and holds
    no white space, none of the operator and punctuation characters the
    text is split on, and no upper-case letter. *)
Theorem tokenize_plain_tokens (code : string) (language : JS.value) :
  Forall plainToken (CodeTokenizer.tokenize code language).
Proof.
  unfold CodeTokenizer.tokenize. apply Forall_forall. intros token Hin.
  apply in_map_iff in Hin. destruct Hin as (piece & <- & Hin).
  apply filter_In in Hin. destruct Hin as [Hin Hkeep].
  apply trim_nonempty in Hkeep.
  set (text := Text.join _ _) in Hin.
  assert (Hop : Forall (fun c => CodeTokenizer.isOperator c = false) text).
  { apply join_keeps; [now repeat constructor|]. apply splitEach_pieces. constructor. }
  pose proof (@splitRuns_keeps (fun c => CodeTokenizer.isOperator c = false)
                Text.isSpace text [] false (Forall_nil _) Hop) as H1.
  pose proof (splitRuns_pieces Text.isSpace text false (Forall_nil _)) as H2.
  rewrite Forall_forall in H1, H2. specialize (H1 piece Hin). specialize (H2 piece Hin).
  unfold plainToken. rewrite length_toLowerCase, length_toString, ofString_toLowerCase.
  split; [destruct piece; [congruence | cbn; lia]|].
  apply Forall_map. rewrite Forall_forall in *. intros c Hc.
  apply lower_char_bare; auto.
Qed.

End CodeTokenShape.

Section NormalizeOutput.

(** What is left after the passes for a language with [//] and [/* */]
    comments holds neither. *)
Lemma slash_passes_clean (s : Text.t) :
  let y := Text.replaceQuoted Text.singleQuote 0
             (Text.replaceQuoted Text.doubleQuote 0
                (Text.trim (Text.collapseSpaces false
                   (Text.removeBlocks (Text.ofString "/*") (Text.ofString "*/") 0
                      (Text.removeToLineEnd (Text.ofString "//") false s))))) in
  occurs (Text.ofString "//") y = false
  /\ hasBlock (Text.ofString "/*") (Text.ofString "*/") y = false.
Proof.
  set (s1 := Text.removeToLineEnd (Text.ofString "//") false s).
  set (s2 := Text.removeBlocks (Text.ofString "/*") (Text.ofString "*/") 0 s1).
  set (s3 := Text.trim (Text.collapseSpaces false s2)).
  set (s4 := Text.replaceQuoted Text.doubleQuote 0 s3).
  intros y.
  assert (Hd : Text.doubleQuote <> Text.backslash) by discriminate.
  assert (Hq : Text.singleQuote <> Text.backslash) by discriminate.
  assert (Sh4 : Shrinks (Ascii.eqb Text.doubleQuote) s3 s4)
    by now apply replaceQuoted_Shrinks.
  assert (Sh5 : Shrinks (Ascii.eqb Text.singleQuote) s4 y)
    by now apply replaceQuoted_Shrinks.
  assert (H1 : occurs (Text.ofString "//") s1 = false).
  { apply removeToLineEnd_clean; [discriminate|]. now repeat constructor. }
  split.
  - revert H1. apply not_true_false. intros H.
    apply (removeBlocks_occurs "/" 0).
    apply trim_collapseSpaces_occurs; [now repeat constructor|].
    eapply Shrinks_occurs; [|exact Sh4|]; [now repeat constructor|].
    eapply Shrinks_occurs; [|exact Sh5|]; [now repeat constructor|].
    exact H.
  - generalize (removeBlocks_clean 0 s1 H1). apply not_true_false. intros H.
    apply trim_collapseSpaces_hasBlock; [now repeat constructor..|].
    eapply Shrinks_hasBlock; [| |exact Sh4|]; [now repeat constructor..|].
    eapply Shrinks_hasBlock; [| |exact Sh5|]; [now repeat constructor..|].
    exact H.
Qed.

Lemma hash_passes_clean (s : Text.t) :
  let y := Text.replaceQuoted Text.singleQuote 0
             (Text.replaceQuoted Text.doubleQuote 0
                (Text.trim (Text.collapseSpaces false
                   (Text.removeToLineEnd (Text.ofString "#") false s)))) in
  occurs (Text.ofString "#") y = false.
Proof.
  set (s1 := Text.removeToLineEnd (Text.ofString "#") false s).
  set (s3 := Text.trim (Text.collapseSpaces false s1)).
  set (s4 := Text.replaceQuoted Text.doubleQuote 0 s3).
  intros y.
  assert (Hd : Text.doubleQuote <> Text.backslash) by discriminate.
  assert (Hq : Text.singleQuote <> Text.backslash) by discriminate.
  assert (Sh4 : Shrinks (Ascii.eqb Text.doubleQuote) s3 s4)
    by now apply replaceQuoted_Shrinks.
  assert (Sh5 : Shrinks (Ascii.eqb Text.singleQuote) s4 y)
    by now apply replaceQuoted_Shrinks.
  assert (H1 : occurs (Text.ofString "#") s1 = false).
  { apply removeToLineEnd_clean; [discriminate|]. now repeat constructor. }
  revert H1. apply not_true_false. intros H.
  apply trim_collapseSpaces_occurs; [now repeat constructor|].
  eapply Shrinks_occurs; [|exact Sh4|]; [now repeat constructor|].
  eapply Shrinks_occurs; [|exact Sh5|]; [now repeat constructor|].
  exact H.
Qed.

Lemma dash_passes_clean (s : Text.t) :
  occurs (Text.ofString "--")
         (Text.trim (Text.collapseSpaces false
            (Text.removeToLineEnd (Text.ofString "--") false s))) = false.
Proof.
  assert (H1 : occurs (Text.ofString "--")
                      (Text.removeToLineEnd (Text.ofString "--") false s) = false).
  { apply removeToLineEnd_clean; [discriminate|]. now repeat constructor. }
  revert H1. apply not_true_false.
  apply trim_collapseSpaces_occurs. now repeat constructor.
Qed.

Lemma removeStringLiterals_tidy (s : Text.t) (language : JS.value) :
  tidy s -> tidy (Tokenizer.removeStringLiterals s language).
Proof.
  assert (Hd : Text.doubleQuote <> Text.backslash) by discriminate.
  assert (Hq : Text.singleQuote <> Text.backslash) by discriminate.
  assert (Hpass : forall x, tidy x ->
            tidy (Text.replaceQuoted Text.singleQuote 0
                    (Text.replaceQuoted Text.doubleQuote 0 x))).
  { intros x Hx.
    eapply Shrinks_tidy; [|now apply replaceQuoted_Shrinks|].
    - intros c Hc. apply Ascii.eqb_eq in Hc. now subst.
    - eapply Shrinks_tidy; [|now apply replaceQuoted_Shrinks|exact Hx].
      intros c Hc. apply Ascii.eqb_eq in Hc. now subst. }
  intros Hs. unfold Tokenizer.removeStringLiterals.
  destruct (JSValue.among Tokenizer.slashLanguages language),
           (JSValue.among ["python"; "ruby"] language); auto.
Qed.

Lemma language_kinds (language : JS.value) :
  (JSValue.among Tokenizer.slashLanguages language = true ->
   JSValue.among ["python"; "ruby"] language = false
   /\ JSValue.among ["sql"] language = false
   /\ JSValue.among (Tokenizer.slashLanguages ++ ["css"]) language = true
   /\ JSValue.among ["html"] language = false)
  /\ (JSValue.among ["python"; "ruby"] language = true ->
      JSValue.among Tokenizer.slashLanguages language = false
      /\ JSValue.among ["sql"] language = false
      /\ JSValue.among (Tokenizer.slashLanguages ++ ["css"]) language = false
      /\ JSValue.among ["html"] language = false)
  /\ (JSValue.among ["sql"] language = true ->
      JSValue.among Tokenizer.slashLanguages language = false
      /\ JSValue.among ["python"; "ruby"] language = false
      /\ JSValue.among (Tokenizer.slashLanguages ++ ["css"]) language = false
      /\ JSValue.among ["html"] language = false).
Proof.
  destruct language as [s|k]; [|now cbn].
  unfold JSValue.among, Tokenizer.slashLanguages. cbn [existsb app].
  repeat match goal with
         | |- context [String.eqb s ?l] => destruct (String.eqb_spec s l) as [->|?]
         end; cbn; intuition congruence.
Qed.

(** X11: what [normalize] returns.  For every language the text is on one
    line, begins and ends with something that is not white space, and has
    single spaces only; for a language with [//] comments it holds no [//]
    and no [/* ... */] any more, for python and ruby no [#], for sql no
    [--]. *)
Theorem normalize_leaves_no_comment (content : string) (language : JS.value) :
  let y := Text.ofString (Tokenizer.normalize content language) in
  tidy y
  /\ free Text.isLineTerminator y
  /\ Text.trim (Text.collapseSpaces false y) = y
  /\ (JSValue.among Tokenizer.slashLanguages language = true ->
      occurs (Text.ofString "//") y = false
      /\ hasBlock (Text.ofString "/*") (Text.ofString "*/") y = false)
  /\ (JSValue.among ["python"; "ruby"] language = true ->
      occurs (Text.ofString "#") y = false)
  /\ (JSValue.among ["sql"] language = true -> occurs (Text.ofString "--") y = false).
Proof.
  intros y.
  assert (Hy : y = Tokenizer.normalizeText (Text.ofString content) language).
  { unfold y, Tokenizer.normalize, Text.ofString, Text.toString.
    now rewrite list_ascii_of_string_of_list_ascii. }
  assert (Ht : tidy y).
  { rewrite Hy. unfold Tokenizer.normalizeText.
    apply removeStringLiterals_tidy, trim_collapseSpaces_tidy. }
  destruct (language_kinds language) as (Hslash & Hhash & Hsql).
  split; [exact Ht|]. split; [now apply tidy_one_line|].
  split; [now apply tidy_fixed|]. rewrite Hy. clear Hy Ht y.
  unfold Tokenizer.normalizeText, Tokenizer.stripComments, Tokenizer.removeStringLiterals.
  cbv zeta. split; [|split].
  - intros H. destruct (Hslash H) as (H1 & H2 & H3 & H4). rewrite H, H1, H2, H3, H4.
    apply slash_passes_clean.
  - intros H. destruct (Hhash H) as (H1 & H2 & H3 & H4). rewrite H, H1, H2, H3, H4.
    apply hash_passes_clean.
  - intros H. destruct (Hsql H) as (H1 & H2 & H3 & H4). rewrite H, H1, H2, H3, H4.
    apply dash_passes_clean.
Qed.

End NormalizeOutput.

Section CodeTokenizerOutput.

(** X12: what [CodeTokenizer.normalize] returns, for every language: a
    text on one line with single spaces only and none at either end; with
    no [//], no [/* ... */] and no [#] in it, and at most one quote of
    each kind; in which no word is made of digits only, and no word is one
    of the keywords that the passes for the language replace. *)
Theorem CodeTokenizer_normalize_leaves (code : string) (language : JS.value) :
  let y := Text.ofString (CodeTokenizer.normalize code language) in
  tidy y
  /\ free Text.isLineTerminator y
  /\ occurs (Text.ofString "//") y = false
  /\ hasBlock (Text.ofString "/*") (Text.ofString "*/") y = false
  /\ occurs (Text.ofString "#") y = false
  /\ (forall q, CodeTokenizer.isQuote q = true -> count q y <= 1)
  /\ Forall (fun w => hasOther w = true) (wordsFrom false y)
  /\ forall p, In p (passesOf language) ->
       Forall (fun w => ~ In w (fst p)) (wordsFrom false y).
Proof.
  intros y.
  assert (Hy : y = chain (passesOf language) (stripped (Text.ofString code))).
  { unfold y, CodeTokenizer.normalize, Text.ofString, Text.toString.
    rewrite list_ascii_of_string_of_list_ascii. apply normalizeText_chain. }
  set (passes := passesOf language) in *.
  assert (Hincl : incl passes allPasses) by apply passesOf_incl.
  assert (Hbare : bare y).
  { rewrite Hy. apply (chain_Shrinks allPasses_replacement bare); try assumption.
    - apply Shrinks_bare.
    - apply stripped_bare. }
  assert (Htidy : tidy y).
  { rewrite Hy. apply (chain_Shrinks allPasses_replacement tidy); try assumption.
    - intros s t Hst. apply (Shrinks_tidy word_not_space Hst).
    - apply trim_collapseSpaces_tidy. }
  destruct Hbare as (B1 & B2 & B3 & B4).
  split; [exact Htidy|]. split; [now apply tidy_one_line|].
  split; [exact B1|]. split; [exact B2|]. split; [exact B3|]. split; [exact B4|].
  rewrite Hy. split.
  - apply (chain_other allPasses_keywords allPasses_replacement allPasses_other);
      [assumption|apply stripped_words].
  - intros p Hp.
    now apply (chain_free allPasses_keywords allPasses_replacement allPasses_apart).
Qed.

End CodeTokenizerOutput.

(* ------------------------------------------------------------------ *)
(** ** Clusters that do not overlap *)

Section Partition.
Variable config : Config.t.

Lemma findById_In (id : string) (l : list CodeSnippet.t) (s : CodeSnippet.t) :
  Clusterer.findById id l = Some s -> In id (map CodeSnippet.id l).
Proof.
  unfold Clusterer.findById. intros H. apply find_some in H. destruct H as [Hin E].
  apply String.eqb_eq in E. subst id. now apply in_map.
Qed.

(** The ids that join a snippet: some of its candidates, in their order,
    none of them clustered yet, all of them known. *)
Lemma similarTo_spec (snippets : list CodeSnippet.t) (clustered : list string)
      (snippet : CodeSnippet.t) (candidates similar : list string) :
  NoDup candidates ->
  Clusterer.similarTo config snippets clustered snippet candidates = JS.Ok similar ->
  exists more,
    similar = CodeSnippet.id snippet :: more
    /\ NoDup more
    /\ forall x, In x more ->
         In x candidates /\ ~ In x clustered /\ In x (map CodeSnippet.id snippets).
Proof.
  unfold Clusterer.similarTo. intros Hnd H.
  enough (G : forall acc, JS.foldM
              (fun (similarSnippets : list string) (candidateId : string) =>
               if JSSet.has String.eqb candidateId clustered
               then JS.Ok similarSnippets
               else
                match Clusterer.findById candidateId snippets with
                | Some candidate =>
                    match
                      MinHashLSH.calculateSimilarity (CodeSnippet.minHashes snippet)
                        (CodeSnippet.minHashes candidate)
                    with
                    | JS.Ok similarity =>
                        if PrimFloat.leb (Config.clusterThreshold config) similarity
                        then JS.Ok (similarSnippets ++ [candidateId])
                        else JS.Ok similarSnippets
                    | JS.Throw e => JS.Throw e
                    end
                | None => JS.Ok similarSnippets
                end)
              candidates acc = JS.Ok similar ->
            exists more, similar = acc ++ more /\ NoDup more /\
                forall x, In x more ->
                  In x candidates /\ ~ In x clustered /\ In x (map CodeSnippet.id snippets)).
  { exact (G _ H). }
  clear H. intros acc H.
  revert acc H. induction Hnd as [|c rest Hc Hnd IH]; intros acc H; cbn [JS.foldM] in H.
  - inversion H; subst. exists []. rewrite app_nil_r. repeat split; [constructor|easy..].
  - destruct (JSSet.has String.eqb c clustered) eqn:Hcl.
    { destruct (IH _ H) as (more & -> & Hm & Hall). exists more.
      repeat split; auto; destruct (Hall x H0) as (H1 & H2 & H3); auto. now right. }
    destruct (Clusterer.findById c snippets) as [candidate|] eqn:Hf.
    2:{ destruct (IH _ H) as (more & -> & Hm & Hall). exists more.
        repeat split; auto; destruct (Hall x H0) as (H1 & H2 & H3); auto. now right. }
    destruct (MinHashLSH.calculateSimilarity _ _) as [similarity|e]; [|discriminate].
    destruct (PrimFloat.leb _ _).
    + destruct (IH _ H) as (more & -> & Hm & Hall). exists (c :: more).
      rewrite <- app_assoc. split; [reflexivity|]. split.
      * constructor; [|exact Hm]. intros Hin. apply Hall in Hin. tauto.
      * intros x [<-|Hx].
        -- split; [now left|]. split; [|eapply findById_In; eauto].
           intros Hin. apply (set_has_In String.eqb String.eqb_eq) in Hin. congruence.
        -- destruct (Hall x Hx) as (H1 & H2 & H3). auto using in_cons.
    + destruct (IH _ H) as (more & -> & Hm & Hall). exists more.
      repeat split; auto; destruct (Hall x H0) as (H1 & H2 & H3); auto. now right.
Qed.

Lemma fold_add_In (l s : list string) (x : string) :
  In x (fold_left (fun c id => JSSet.add String.eqb id c) l s) <-> In x s \/ In x l.
Proof.
  revert s. induction l as [|y l IH]; intros s; cbn; [tauto|].
  rewrite IH, (set_add_In String.eqb String.eqb_eq). intuition auto.
Qed.

(** The ids of the clusters, end to end. *)
Definition members (clusters : list CodeCluster.t) : list string :=
  List.concat (map CodeCluster.snippets clusters).

Lemma members_app (a b : list CodeCluster.t) : members (a ++ b) = members a ++ members b.
Proof. unfold members. now rewrite map_app, concat_app. Qed.

Lemma singletons_members (snippets all : list CodeSnippet.t) (clustered : list string) :
  forall clusters,
    members (fold_left
               (fun clusters snippet =>
                  if JSSet.has String.eqb (CodeSnippet.id snippet) clustered then clusters
                  else clusters ++ [Clusterer.createCluster [CodeSnippet.id snippet] all])
               snippets clusters)
    = members clusters
      ++ filter (fun id => negb (JSSet.has String.eqb id clustered))
                (map CodeSnippet.id snippets).
Proof.
  induction snippets as [|s snippets IH]; intros clusters; cbn [fold_left map filter].
  - now rewrite app_nil_r.
  - rewrite IH. destruct (JSSet.has String.eqb (CodeSnippet.id s) clustered); cbn [negb].
    + reflexivity.
    + rewrite members_app. unfold members at 2. cbn. now rewrite <- app_assoc.
Qed.

Lemma filter_split_Permutation {A} (f : A -> bool) (l : list A) :
  Permutation l (filter f l ++ filter (fun x => negb (f x)) l).
Proof.
  induction l as [|x l IH]; cbn; [constructor|].
  destruct (f x); cbn.
  - now constructor.
  - now apply Permutation_cons_app.
Qed.

(** X13: the library's [Clusterer.clusterSnippets] puts every snippet in
    exactly one cluster.  When the snippets have pairwise distinct ids and
    the call returns, the snippet lists of the clusters, end to end, are a
    rearrangement of the ids of the snippets: no id is left out and none
    is in two clusters or twice in one. *)
Theorem clusterSnippets_partition (lsh : MinHashLSH.buckets) (snippets : list CodeSnippet.t)
        (clusters : list CodeCluster.t) :
  NoDup (map CodeSnippet.id snippets) ->
  Clusterer.clusterSnippets config lsh snippets = JS.Ok clusters ->
  Permutation (members clusters) (map CodeSnippet.id snippets)
  /\ NoDup (members clusters).
Proof.
  intros Hids. unfold Clusterer.clusterSnippets.
  set (lsh1 := fold_left _ snippets lsh).
  destruct (JS.foldM _ snippets _) as [[clusters0 clustered]|e] eqn:E; [|discriminate].
  intros H. inversion H; subst. clear H.
  apply (foldM_inv (fun st : list CodeCluster.t * list string =>
                      NoDup (members (fst st))
                      /\ (forall x, In x (members (fst st)) <-> In x (snd st))
                      /\ (forall x, In x (snd st) -> In x (map CodeSnippet.id snippets))))
    in E.
  - cbn [fst snd] in E. destruct E as (Hnd & Hsame & Hknown).
    rewrite singletons_members.
    assert (Hperm : Permutation
                      (members clusters0
                       ++ filter (fun id => negb (JSSet.has String.eqb id clustered))
                                 (map CodeSnippet.id snippets))
                      (map CodeSnippet.id snippets)).
    { symmetry.
      rewrite (filter_split_Permutation (fun id => JSSet.has String.eqb id clustered)
                 (map CodeSnippet.id snippets)) at 1.
      apply Permutation_app_tail. apply NoDup_Permutation.
      - now apply NoDup_filter.
      - exact Hnd.
      - intros x. rewrite filter_In, Hsame, (set_has_In String.eqb String.eqb_eq).
        split; [tauto|]. intros Hx. split; [now apply Hknown | exact Hx]. }
    split; [exact Hperm|].
    apply (Permutation_NoDup (Permutation_sym Hperm) Hids).
  - cbn. split; [constructor|]. split; [tauto|tauto].
  - intros [cl cd] s st' Hs (Hnd & Hsame & Hknown) Hstep. cbn [fst snd] in *.
    destruct (JSSet.has String.eqb (CodeSnippet.id s) cd) eqn:Hcd;
      [inversion Hstep; subst; cbn; auto|].
    destruct (Clusterer.similarTo config snippets cd s _) as [similar|e0] eqn:Hsim;
      [|discriminate].
    destruct (1 <? List.length similar); inversion Hstep; subst; cbn [fst snd]; [|auto].
    apply similarTo_spec in Hsim; [|apply findCandidates_NoDup].
    destruct Hsim as (more & -> & Hm & Hall).
    assert (Hself : ~ In (CodeSnippet.id s) more).
    { intros Hin. apply Hall in Hin. destruct Hin as (Hin & _).
      apply findCandidates_spec in Hin. tauto. }
    assert (Hfresh : ~ In (CodeSnippet.id s) cd).
    { intros Hin. apply (set_has_In String.eqb String.eqb_eq) in Hin. congruence. }
    rewrite members_app. unfold members at 2 4. cbn [map List.concat CodeCluster.snippets
      Clusterer.createCluster]. rewrite app_nil_r.
    split; [|split].
    + apply NoDup_app; [exact Hnd | now constructor |].
      intros x Hx [<-|Hin]; apply Hsame in Hx; [tauto|].
      apply Hall in Hin. tauto.
    + intros x. rewrite in_app_iff, fold_add_In, Hsame. tauto.
    + intros x Hx. apply fold_add_In in Hx. destruct Hx as [Hx|[<-|Hx]].
      * now apply Hknown.
      * now apply in_map.
      * apply Hall in Hx. tauto.
Qed.

End Partition.

Lemma clusterSnippets_partition_witness :
  Permutation
    (members [Clusterer.createCluster ["s0"; "s1"] [Sample.s0; Sample.s1; Sample.s2];
              Clusterer.createCluster ["s2"] [Sample.s0; Sample.s1; Sample.s2]])
    ["s0"; "s1"; "s2"]
  /\ NoDup
       (members [Clusterer.createCluster ["s0"; "s1"] [Sample.s0; Sample.s1; Sample.s2];
                 Clusterer.createCluster ["s2"] [Sample.s0; Sample.s1; Sample.s2]]).
Proof.
  apply (clusterSnippets_partition Sample.twoBands [] [Sample.s0; Sample.s1; Sample.s2]).
  - cbn. repeat constructor; cbn; intuition discriminate.
  - vm_compute. reflexivity.
Defined.

Section Components.
Import MinHashClusterer.

(** A node some node of [g] has as a neighbour. *)
Definition neighbour (g : graph) (x : string) : Prop :=
  exists k ns, JSMap.get k g = Some ns /\ In x ns.

Lemma push_In (visited neighbors : list string) (x : string) : forall stack,
  In x (fold_left (fun st neighbor =>
                     if JSSet.has String.eqb neighbor visited then st else neighbor :: st)
                  neighbors stack) ->
  In x stack \/ In x neighbors.
Proof.
  induction neighbors as [|n ns IH]; intros stack; cbn; [tauto|].
  destruct (JSSet.has String.eqb n visited); intros H; apply IH in H; cbn in H; tauto.
Qed.

(** What a walk adds: ids not visited before, each once, taken from the
    stack or from the neighbours in the graph; they are what it marks. *)
Lemma walk_adds (g : graph) (fuel : nat) : forall stack visited component visited' component',
  walk g fuel stack visited component = Some (visited', component') ->
  exists more,
    component' = component ++ more
    /\ NoDup more
    /\ (forall x, In x more -> ~ In x visited)
    /\ (forall x, In x visited' <-> In x visited \/ In x more)
    /\ (forall x, In x more -> In x stack \/ neighbour g x).
Proof.
  induction fuel as [|fuel IH]; intros stack visited component visited' component' H.
  - destruct stack; [|discriminate]. inversion H; subst. exists [].
    rewrite app_nil_r. split; [reflexivity|]. split; [constructor|].
    split; [easy|]. split; [cbn; tauto | easy].
  - destruct stack as [|id stack].
    + inversion H; subst. exists [].
      rewrite app_nil_r. split; [reflexivity|]. split; [constructor|].
    split; [easy|]. split; [cbn; tauto | easy].
    + cbn [walk] in H. destruct (JSSet.has String.eqb id visited) eqn:Hv.
      * apply IH in H. destruct H as (more & -> & Hnd & Hnew & Hvis & Hfrom).
        exists more. repeat split; auto; try apply Hvis.
        intros x Hx. destruct (Hfrom x Hx); [left; now right | now right].
      * apply IH in H. destruct H as (more & -> & Hnd & Hnew & Hvis & Hfrom).
        assert (Hid : ~ In id visited).
        { intros Hin. apply (set_has_In String.eqb String.eqb_eq) in Hin. congruence. }
        exists (id :: more). rewrite <- app_assoc. split; [reflexivity|].
        split; [|split; [|split]].
        -- constructor; [|exact Hnd]. intros Hin. apply (Hnew id Hin).
           apply (set_add_In String.eqb String.eqb_eq). now left.
        -- intros x [<-|Hx]; [exact Hid|]. intros Hin. apply (Hnew x Hx).
           apply (set_add_In String.eqb String.eqb_eq). now right.
        -- intros x. rewrite Hvis, (set_add_In String.eqb String.eqb_eq). cbn.
           intuition auto.
        -- intros x [<-|Hx]; [left; now left|].
           destruct (Hfrom x Hx) as [Hst|Hn]; [|now right].
           apply push_In in Hst. destruct Hst as [Hst|Hst]; [left; now right|].
           right. destruct (JSMap.get id g) as [ns|] eqn:Hg; [|contradiction].
           now exists id, ns.
Qed.

Variable ids : list string.

(** The keys of the graph and the neighbours it holds are ids of snippets. *)
Definition overIds (g : graph) : Prop :=
  (forall k, JSMap.has k g = true -> In k ids)
  /\ forall x, neighbour g x -> In x ids.

Lemma has_set (k k' : string) (v : list string) (g : graph) :
  JSMap.has k' (JSMap.set k v g) = true <-> k' = k \/ JSMap.has k' g = true.
Proof.
  unfold JSMap.has. destruct (String.eqb_spec k k') as [->|Hne].
  - rewrite get_set_same. tauto.
  - rewrite get_set_other by exact Hne. split; [tauto|]. intros [->|H]; [congruence|exact H].
Qed.

Lemma emptyGraph_overIds (l : list string) : forall g,
  incl l ids -> overIds g -> overIds (fold_left (fun g id => JSMap.set id [] g) l g).
Proof.
  induction l as [|id l IH]; intros g Hl Hg; cbn; [exact Hg|].
  apply IH; [intros x Hx; apply Hl; now right|].
  destruct Hg as [Hk Hn]. split.
  - intros k Hk'. apply has_set in Hk'. destruct Hk' as [->|Hk']; [apply Hl; now left|auto].
  - intros x (k & ns & Hget & Hin). destruct (String.eqb_spec id k) as [->|Hne].
    + rewrite get_set_same in Hget. inversion Hget; subst. contradiction.
    + rewrite get_set_other in Hget by exact Hne. apply Hn. now exists k, ns.
Qed.

Lemma addEdge_overIds (a b : string) (g g' : graph) :
  addEdge a b g = JS.Ok g' -> overIds g -> In b ids -> overIds g'.
Proof.
  unfold addEdge. destruct (JSMap.get a g) as [s|] eqn:Hget; [|discriminate].
  intros H [Hk Hn] Hb. inversion H; subst. clear H. split.
  - intros k Hk'. apply has_set in Hk'. destruct Hk' as [->|Hk']; [|auto].
    apply Hk. unfold JSMap.has. now rewrite Hget.
  - intros x (k & ns & Hg & Hin). destruct (String.eqb_spec a k) as [->|Hne].
    + rewrite get_set_same in Hg. inversion Hg; subst.
      apply (set_add_In String.eqb String.eqb_eq) in Hin. destruct Hin as [->|Hin]; [exact Hb|].
      apply Hn. now exists k, s.
    + rewrite get_set_other in Hg by exact Hne. apply Hn. now exists k, ns.
Qed.

Lemma addEdge_key (a b : string) (g g' : graph) :
  addEdge a b g = JS.Ok g' ->
  JSMap.has a g = true /\ forall k, JSMap.has k g' = true <-> JSMap.has k g = true.
Proof.
  unfold addEdge. destruct (JSMap.get a g) as [s|] eqn:Hget; [|discriminate].
  intros H. inversion H; subst. clear H.
  assert (Ha : JSMap.has a g = true) by (unfold JSMap.has; now rewrite Hget).
  split; [exact Ha|]. intros k. rewrite has_set. split; [|tauto].
  intros [->|Hk]; auto.
Qed.

Variable config : Cli.ClusteringConfig.t.

Lemma addPair_overIds (sigMap : JSMap.t Cli.MinHashSignature.t) (g g' : graph)
      (pairStr : string) :
  addPair config sigMap g pairStr = JS.Ok g' -> overIds g -> overIds g'.
Proof.
  unfold addPair.
  destruct (calculateSimilarity _ _) as [similarity|e]; [|discriminate].
  destruct (PrimFloat.leb _ _); [|intros H; inversion H; now subst].
  destruct (addEdge _ _ g) as [g1|e] eqn:E1; [|discriminate].
  intros E2 Hg.
  destruct (addEdge_key _ _ _ E1) as [Ha Hsame].
  destruct (addEdge_key _ _ _ E2) as [Hb _].
  apply Hsame in Hb.
  eapply addEdge_overIds; [exact E2| |now apply (proj1 Hg)].
  eapply addEdge_overIds; [exact E1|exact Hg|now apply (proj1 Hg)].
Qed.

Variable signatures : list Cli.MinHashSignature.t.
Variable sigMap : JSMap.t Cli.MinHashSignature.t.

(** The ids of the clusters, end to end. *)
Definition clustered (clusters : list Cli.CodeCluster.t) : list string :=
  List.concat (map Cli.CodeCluster.snippets clusters).

Lemma visit_disjoint (g : graph) (st st' : list string * list Cli.CodeCluster.t)
      (snippetId : string) :
  overIds g -> In snippetId ids ->
  visit config signatures sigMap g st snippetId = JS.Ok st' ->
  NoDup (clustered (snd st))
  /\ (forall x, In x (clustered (snd st)) -> In x (fst st) /\ In x ids) ->
  NoDup (clustered (snd st'))
  /\ (forall x, In x (clustered (snd st')) -> In x (fst st') /\ In x ids).
Proof.
  destruct st as [visited clusters]. unfold visit. intros Hg Hid.
  destruct (JSSet.has String.eqb snippetId visited) eqn:Hv;
    [intros H; inversion H; now subst|].
  destruct (findConnectedComponent snippetId g visited) as [[visited' cluster]|] eqn:Hc;
    [|discriminate].
  unfold findConnectedComponent in Hc. apply walk_adds in Hc.
  destruct Hc as (more & Hmore & Hnd & Hnew & Hvis & Hfrom). cbn [app] in Hmore. subst more.
  intros H [Hcl Hin]. cbn [fst snd] in *.
  assert (Hkeep : forall x, In x (clustered clusters) -> In x visited' /\ In x ids).
  { intros x Hx. destruct (Hin x Hx). split; [apply Hvis; now left | assumption]. }
  destruct (_ <=? _).
  - destruct (findCentroid _ _) as [centroid|e]; [|discriminate].
    destruct (calculateClusterSimilarity _ _) as [similarity|e]; [|discriminate].
    inversion H; subst. clear H. cbn [fst snd].
    unfold clustered. rewrite map_app, concat_app. cbn [map List.concat Cli.CodeCluster.snippets].
    rewrite app_nil_r. fold (clustered clusters). split.
    + apply NoDup_app; [exact Hcl | exact Hnd |].
      intros x Hx Hx'. apply (Hnew x Hx'). now apply Hin.
    + intros x Hx. apply in_app_iff in Hx. destruct Hx as [Hx|Hx]; [now apply Hkeep|].
      split; [apply Hvis; now right|].
      destruct (Hfrom x Hx) as [[<-|[]]|Hn]; [exact Hid | now apply Hg].
  - inversion H; subst. clear H. cbn [fst snd]. split; [exact Hcl | exact Hkeep].
Qed.

End Components.

(** X14: the clusters of [MinHashClusterer.clusterSnippets] never overlap.
    When the call returns, no snippet id is in two of its clusters or
    twice in one, and every member of a cluster is the id of one of the
    snippets given. *)
Theorem clusters_disjoint (config : Cli.ClusteringConfig.t) (random : nat -> Z)
        (tokenize : string -> JS.value -> list string)
        (snippets : list Cli.CodeSnippet.t) (clusters : list Cli.CodeCluster.t) :
  MinHashClusterer.clusterSnippets config random tokenize snippets = JS.Ok clusters ->
  NoDup (clustered clusters)
  /\ forall x, In x (clustered clusters) -> In x (map Cli.CodeSnippet.id snippets).
Proof.
  unfold MinHashClusterer.clusterSnippets.
  set (ids := map Cli.CodeSnippet.id snippets).
  destruct (JS.foldM (MinHashClusterer.addPair _ _) _ _) as [g|e] eqn:Eg; [|discriminate].
  destruct (JS.foldM (MinHashClusterer.visit _ _ _ _) _ _) as [[visited cl]|e] eqn:E;
    [|discriminate].
  intros H. inversion H; subst. clear H.
  assert (Hg : overIds ids g).
  { apply (foldM_inv (overIds ids)) in Eg; [exact Eg| |].
    - apply emptyGraph_overIds; [apply incl_refl|].
      split; [intros k Hk; discriminate | intros x (k & ns & Hget & _); discriminate].
    - intros st b st' _ Hst Hstep. eapply addPair_overIds; eauto. }
  apply (foldM_inv (fun st : list string * list Cli.CodeCluster.t =>
                      NoDup (clustered (snd st))
                      /\ forall x, In x (clustered (snd st)) -> In x (fst st) /\ In x ids))
    in E.
  - cbn [fst snd] in E. destruct E as [Hnd Hin]. split; [exact Hnd|].
    intros x Hx. now apply Hin.
  - cbn. split; [constructor | contradiction].
  - intros st b st' Hb Hst Hstep. eapply visit_disjoint; eauto.
Qed.

Lemma clusters_disjoint_witness :
  NoDup (clustered [Sample.pairCluster])
  /\ forall x, In x (clustered [Sample.pairCluster]) ->
               In x (map Cli.CodeSnippet.id Sample.trio).
Proof.
  apply (clusters_disjoint Sample.smallClustering Sample.draws Sample.words Sample.trio).
  vm_compute. reflexivity.
Defined.

(* ------------------------------------------------------------------ *)
(** ** The [synth] command *)

Section SynthStores.

Lemma Synth_insert_In (p x : Cli.Pattern.t) (l : list Cli.Pattern.t) :
  In x (Synth.insert p l) <-> x = p \/ In x l.
Proof.
  induction l as [|q l IH]; cbn.
  - intuition.
  - destruct (_ <=? _); cbn; [intuition|]. rewrite IH. intuition.
Qed.

Lemma Synth_sort_In (x : Cli.Pattern.t) (l : list Cli.Pattern.t) :
  In x (fold_right Synth.insert [] l) <-> In x l.
Proof.
  induction l as [|p l IH]; cbn; [tauto|]. rewrite Synth_insert_In, IH. intuition.
Qed.

(** [a] may stand before [b]: its frequency is not the lower one. *)
Definition notRarer (a b : Cli.Pattern.t) : Prop :=
  Cli.Pattern.frequency b <= Cli.Pattern.frequency a.

Lemma Synth_insert_sorted (p : Cli.Pattern.t) (l : list Cli.Pattern.t) :
  StronglySorted notRarer l -> StronglySorted notRarer (Synth.insert p l).
Proof.
  induction 1 as [|q l Hs IH Hq]; cbn.
  - repeat constructor.
  - destruct (Nat.leb_spec (Cli.Pattern.frequency q) (Cli.Pattern.frequency p)) as [Hle|Hgt].
    + constructor; [now constructor|]. constructor; [exact Hle|].
      rewrite Forall_forall in *. intros x Hx. specialize (Hq x Hx). unfold notRarer in *. lia.
    + constructor; [exact IH|]. rewrite Forall_forall in *. intros x Hx.
      apply Synth_insert_In in Hx. destruct Hx as [->|Hx]; [unfold notRarer; lia | auto].
Qed.

Lemma Synth_sort_sorted (l : list Cli.Pattern.t) :
  StronglySorted notRarer (fold_right Synth.insert [] l).
Proof. induction l as [|p l IH]; cbn; [constructor | now apply Synth_insert_sorted]. Qed.

Lemma firstn_In {A} (x : A) (n : nat) (l : list A) : In x (firstn n l) -> In x l.
Proof.
  revert n. induction l as [|y l IH]; intros [|n]; cbn; try tauto.
  intros [->|H]; [now left | right; eauto].
Qed.

Lemma filter_none {A} (f : A -> bool) (l : list A) :
  (forall x, In x l -> f x = false) -> filter f l = [].
Proof.
  induction l as [|y l IH]; cbn; [reflexivity|]. intros H.
  rewrite (H y (or_introl eq_refl)). apply IH. intros x Hx. apply H. now right.
Qed.

Lemma StronglySorted_firstn {A} (R : A -> A -> Prop) (n : nat) (l : list A) :
  StronglySorted R l -> StronglySorted R (firstn n l).
Proof.
  intros H. revert n. induction H as [|x l Hs IH Hx]; intros [|n]; cbn; try constructor.
  - apply IH.
  - rewrite Forall_forall in *. intros y Hy. apply Hx. eapply firstn_In; eauto.
Qed.

Lemma extractLCSPatterns_twice (snippets : list Cli.CodeSnippet.t) :
  Forall (fun p => Cli.Pattern.frequency p = 2) (Synth.extractLCSPatterns snippets).
Proof.
  unfold Synth.extractLCSPatterns. apply Forall_forall. intros p Hp.
  apply in_flat_map in Hp. destruct Hp as (ab & _ & Hp).
  destruct (10 <? _); [|contradiction]. destruct Hp as [<-|[]]. reflexivity.
Qed.

(** X16: what the [synth] command stores.  Without clusters it leaves
    without storing anything.  Otherwise it stores at most 100 patterns,
    all of them mined from the clusters and of frequency 3 or more, the
    most frequent first; and since a pattern of the [lcs] kind always has
    frequency 2, [synth --type lcs] never stores a pattern. *)
Theorem synthCommand_stores (type : option string) (snippets : list Cli.CodeSnippet.t)
        (clusters : list Cli.CodeCluster.t) :
  match Synth.synthCommand type snippets clusters with
  | None => clusters = []
  | Some stored =>
      clusters <> []
      /\ List.length stored <= 100
      /\ Forall (fun p => 3 <= Cli.Pattern.frequency p
                          /\ In p (Synth.mined (Synth.typeOf type) snippets clusters)) stored
      /\ StronglySorted notRarer stored
      /\ (Synth.typeOf type = "lcs" -> stored = [])
  end.
Proof.
  unfold Synth.synthCommand. destruct clusters as [|cluster clusters]; [reflexivity|].
  set (patterns := Synth.mined _ _ _).
  split; [discriminate|]. split; [apply firstn_le_length|]. split; [|split].
  - apply Forall_forall. intros p Hp. apply firstn_In in Hp.
    apply Synth_sort_In, filter_In in Hp. destruct Hp as [Hin Hf].
    apply Nat.leb_le in Hf. auto.
  - apply StronglySorted_firstn, Synth_sort_sorted.
  - intros Hlcs.
    assert (Hnone : filter (fun p => 3 <=? Cli.Pattern.frequency p) patterns = []).
    { apply filter_none. intros p Hp.
      unfold patterns, Synth.mined in Hp. rewrite Hlcs in Hp. cbn [String.eqb] in Hp.
      apply in_flat_map in Hp. destruct Hp as (c & _ & Hp).
      pose proof (extractLCSPatterns_twice
                    (Synth.clusterSnippets (Synth.snippetMapOf snippets) c)) as H2.
      rewrite Forall_forall in H2. now rewrite (H2 p Hp). }
    now rewrite Hnone.
Qed.

End SynthStores.

Section StringLCS.

Definition single (c : ascii) : string := String c EmptyString.

Lemma Subseq_map {A B} (f : A -> B) (s l : list A) :
  Subseq s l -> Subseq (map f s) (map f l).
Proof. induction 1; cbn; now constructor. Qed.

Lemma Subseq_map_inv {A B} (f : A -> B) (l : list A) : forall r,
  Subseq r (map f l) -> exists s, r = map f s /\ Subseq s l.
Proof.
  induction l as [|x l IH]; intros r H; cbn in H.
  - inversion H; subst. exists []. split; [reflexivity | constructor].
  - inversion H as [|y s' l' Hs|y s' l' Hs]; subst.
    + destruct (IH _ Hs) as (s & -> & Hsub). exists s. split; [reflexivity | now constructor].
    + destruct (IH _ Hs) as (s & -> & Hsub). exists (x :: s).
      split; [reflexivity | now constructor].
Qed.

Lemma concat_singles (s : list ascii) :
  String.concat "" (map single s) = string_of_list_ascii s.
Proof.
  induction s as [|c s IH]; [reflexivity|].
  cbn [map string_of_list_ascii]. rewrite <- IH.
  destruct s as [|d s]; reflexivity.
Qed.

(** X17: [findLCS] of the [synth] command returns a longest common
    subsequence of its two strings: its code units come, in order, from
    the first string and from the second, and no common subsequence of the
    two is longer. *)
Theorem Synth_findLCS_longest (str1 str2 : string) :
  let lcs := list_ascii_of_string (Synth.findLCS str1 str2) in
  Subseq lcs (list_ascii_of_string str1)
  /\ Subseq lcs (list_ascii_of_string str2)
  /\ forall s, Subseq s (list_ascii_of_string str1) ->
               Subseq s (list_ascii_of_string str2) ->
               List.length s <= String.length (Synth.findLCS str1 str2).
Proof.
  cbv zeta. unfold Synth.findLCS, Synth.chars. fold single.
  destruct (findLCS_common_longest (map single (list_ascii_of_string str1))
                                   (map single (list_ascii_of_string str2)))
    as (H1 & H2 & Hmax).
  destruct (Subseq_map_inv _ _ H1) as (r & Hr & Hr1).
  rewrite Hr in *. rewrite concat_singles, list_ascii_of_string_of_list_ascii.
  split; [exact Hr1|]. split.
  - apply Subseq_map_inv in H2. destruct H2 as (r2 & E & Hr2).
    assert (r = r2); [|now subst].
    clear - E. revert r2 E. induction r as [|c r IH]; intros [|d r2] E; cbn in E;
      try discriminate; [reflexivity|].
    inversion E; subst. f_equal. now apply IH.
  - intros s Hs1 Hs2.
    specialize (Hmax (map single s) (Subseq_map single Hs1) (Subseq_map single Hs2)).
    rewrite !length_map in Hmax.
    assert (L : String.length (string_of_list_ascii r) = List.length r).
    { clear. induction r as [|c r IH]; cbn; [reflexivity|]. now rewrite IH. }
    now rewrite L.
Qed.

End StringLCS.

Section SynthCounts.

(** The sum of the counts of a table. *)
Definition total (m : JSMap.t Synth.entry) : nat :=
  list_sum (map (fun kd : string * Synth.entry => Synth.count (snd kd)) m).

(** Every count is the number of the ids beside it. *)
Definition countsIds (m : JSMap.t Synth.entry) : Prop :=
  forall k e, In (k, e) m -> Synth.count e = List.length (Synth.snippets e).

Definition idsWithin (seen : list string) (m : JSMap.t Synth.entry) : Prop :=
  forall k e x, In (k, e) m -> In x (Synth.snippets e) -> In x seen.

Lemma tally_cases (key id : string) (m : JSMap.t Synth.entry) :
  (JSMap.get key m = None
   /\ Synth.tally key id m = m ++ [(key, Synth.mkEntry 1 [id])])
  \/ (exists e, JSMap.get key m = Some e
      /\ Synth.tally key id m
         = JSMap.set key (Synth.mkEntry (S (Synth.count e))
                            (JSSet.add String.eqb id (Synth.snippets e))) m).
Proof.
  unfold Synth.tally, JSMap.has. destruct (JSMap.get key m) as [e|] eqn:Hget.
  - right. exists e. rewrite Hget. auto.
  - left. split; [reflexivity|]. rewrite get_set_same. cbn [Synth.count Synth.snippets].
    rewrite set_set. unfold JSSet.add. cbn. now apply set_absent.
Qed.

Lemma set_present {V} (k : string) (v e : V) (m : JSMap.t V) :
  JSMap.get k m = Some e ->
  exists a b, m = a ++ (k, e) :: b /\ JSMap.set k v m = a ++ (k, v) :: b
              /\ JSMap.get k a = None.
Proof.
  induction m as [|[k0 v0] m IH]; cbn; [discriminate|].
  destruct (String.eqb_spec k0 k) as [->|Hne].
  - intros H. inversion H; subst. exists [], m. auto.
  - intros H. destruct (IH H) as (a & b & -> & E & Ha). exists ((k0, v0) :: a), b.
    cbn. rewrite E. apply String.eqb_neq in Hne. rewrite Hne. auto.
Qed.

Lemma total_app (a b : JSMap.t Synth.entry) : total (a ++ b) = total a + total b.
Proof. unfold total. now rewrite map_app, list_sum_app. Qed.

Lemma total_tally (key id : string) (m : JSMap.t Synth.entry) :
  total (Synth.tally key id m) = S (total m).
Proof.
  destruct (tally_cases key id m) as [[_ ->]|(e & Hget & ->)].
  - rewrite total_app. unfold total at 2. cbn. lia.
  - destruct (@set_present _ key (Synth.mkEntry (S (Synth.count e))
                             (JSSet.add String.eqb id (Synth.snippets e))) e m Hget)
      as (a & b & -> & -> & _).
    rewrite !total_app. unfold total. cbn. lia.
Qed.

Lemma keys_tally (key id : string) (m : JSMap.t Synth.entry) :
  NoDup (JSMap.keys m) -> NoDup (JSMap.keys (Synth.tally key id m)).
Proof.
  intros H. destruct (tally_cases key id m) as [[Hget ->]|(e & Hget & ->)].
  - unfold JSMap.keys. rewrite map_app. cbn. apply NoDup_app; [exact H| |].
    + repeat constructor. easy.
    + intros x Hx [<-|[]]. now apply get_none_keys in Hget.
  - now apply NoDup_keys_set.
Qed.

Lemma countsIds_tally (seen : list string) (key id : string) (m : JSMap.t Synth.entry) :
  ~ In id seen -> idsWithin seen m -> countsIds m ->
  countsIds (Synth.tally key id m) /\ idsWithin (id :: seen) (Synth.tally key id m).
Proof.
  intros Hid Hin Hc. destruct (tally_cases key id m) as [[_ ->]|(e & Hget & ->)].
  - split.
    + intros k e H. apply in_app_iff in H. destruct H as [H|[H|[]]]; [eauto|].
      inversion H; subst. reflexivity.
    + intros k e x H Hx. apply in_app_iff in H. destruct H as [H|[H|[]]].
      * right. eauto.
      * inversion H; subst. destruct Hx as [<-|[]]. now left.
  - destruct (@set_present _ key (Synth.mkEntry (S (Synth.count e))
                             (JSSet.add String.eqb id (Synth.snippets e))) e m Hget)
      as (a & b & Hm & -> & _).
    assert (He : In (key, e) m) by (rewrite Hm; apply in_elt).
    assert (Hfresh : ~ In id (Synth.snippets e)) by (intros H; eapply Hid, Hin; eauto).
    assert (Hadd : JSSet.add String.eqb id (Synth.snippets e) = Synth.snippets e ++ [id]).
    { unfold JSSet.add. destruct (JSSet.has String.eqb id (Synth.snippets e)) eqn:E;
        [|reflexivity].
      apply (set_has_In String.eqb String.eqb_eq) in E. contradiction. }
    split.
    + intros k e' H. apply in_app_iff in H. destruct H as [H|[H|H]].
      * apply (Hc k). rewrite Hm. apply in_app_iff. now left.
      * inversion H; subst. cbn. rewrite Hadd, length_app, (Hc _ _ He). cbn. lia.
      * apply (Hc k). rewrite Hm. apply in_app_iff. right. now right.
    + intros k e' x H Hx. apply in_app_iff in H. destruct H as [H|[H|H]].
      * right. apply (Hin k e'); [|exact Hx]. rewrite Hm. apply in_app_iff. now left.
      * inversion H; subst. cbn in Hx. rewrite Hadd in Hx. apply in_app_iff in Hx.
        destruct Hx as [Hx|[<-|[]]]; [right; eauto | now left].
      * right. apply (Hin k e'); [|exact Hx]. rewrite Hm. apply in_app_iff. right. now right.
Qed.

Lemma patternsOf_frequencies (k : Pattern.kind) (n : nat) (m : JSMap.t Synth.entry) :
  list_sum (map Cli.Pattern.frequency (Synth.patternsOf k n m)) = total m
  /\ map Cli.Pattern.content (Synth.patternsOf k n m) = JSMap.keys m.
Proof.
  unfold Synth.patternsOf, total, JSMap.keys. rewrite !map_map. split.
  - f_equal. apply map_ext. now intros [c d].
  - apply map_ext. now intros [c d].
Qed.

(** X18: in the [ast] tier of the [synth] command every snippet of a
    cluster counts towards exactly one pattern: the frequencies of the
    patterns add up to the number of snippets, no two patterns have the
    same content, and when the snippets have distinct ids the frequency of
    a pattern is the number of snippet ids it lists. *)
Theorem Synth_extractASTPatterns_counts (snippets : list Cli.CodeSnippet.t) :
  list_sum (map Cli.Pattern.frequency (Synth.extractASTPatterns snippets))
  = List.length snippets
  /\ NoDup (map Cli.Pattern.content (Synth.extractASTPatterns snippets))
  /\ (NoDup (map Cli.CodeSnippet.id snippets) ->
      Forall (fun p => Cli.Pattern.frequency p = List.length (Cli.Pattern.snippets p)
                       /\ forall x, In x (Cli.Pattern.snippets p) ->
                                    In x (map Cli.CodeSnippet.id snippets))
             (Synth.extractASTPatterns snippets)).
Proof.
  unfold Synth.extractASTPatterns.
  set (step := fun (m : JSMap.t Synth.entry) (snippet : Cli.CodeSnippet.t) =>
                 Synth.tally (Synth.extractSimpleStructure (Cli.CodeSnippet.content snippet))
                             (Cli.CodeSnippet.id snippet) m).
  assert (G : forall l m,
             total (fold_left step l m) = List.length l + total m
             /\ (NoDup (JSMap.keys m) -> NoDup (JSMap.keys (fold_left step l m)))
             /\ forall seen,
                  NoDup (map Cli.CodeSnippet.id l ++ seen) ->
                  idsWithin seen m -> countsIds m ->
                  countsIds (fold_left step l m)
                  /\ idsWithin (rev (map Cli.CodeSnippet.id l) ++ seen) (fold_left step l m)).
  { induction l as [|s l IH]; intros m; cbn [fold_left List.length map rev app].
    - repeat split; auto.
    - destruct (IH (step m s)) as (H1 & H2 & H3). split; [|split].
      + rewrite H1. unfold step. rewrite total_tally. lia.
      + intros Hk. apply H2. now apply keys_tally.
      + intros seen Hnd Hin Hc. inversion Hnd as [|? ? Hs Hnd']; subst.
        destruct (@countsIds_tally seen
                    (Synth.extractSimpleStructure (Cli.CodeSnippet.content s))
                    (Cli.CodeSnippet.id s) m) as [Hc' Hin']; auto.
        { intros H. apply Hs. apply in_app_iff. now right. }
        destruct (H3 (Cli.CodeSnippet.id s :: seen)) as [Hc2 Hin2]; auto.
        { apply NoDup_app_remove_l in Hnd' as Hseen.
          apply (Permutation_NoDup (l := Cli.CodeSnippet.id s :: (map Cli.CodeSnippet.id l ++ seen))).
          - apply Permutation_middle.
          - exact Hnd. }
        split; [exact Hc2|]. now rewrite <- app_assoc. }
  destruct (G snippets []) as (H1 & H2 & H3).
  destruct (patternsOf_frequencies Pattern.ast (List.length snippets)
              (fold_left step snippets [])) as [Hf Hc].
  split; [|split].
  - rewrite Hf, H1. unfold total. cbn. lia.
  - rewrite Hc. apply H2. constructor.
  - intros Hnd. destruct (H3 []) as [Hcount Hin].
    + now rewrite app_nil_r.
    + intros k e x [].
    + intros k e [].
    + apply Forall_forall. intros p Hp. unfold Synth.patternsOf in Hp.
      apply in_map_iff in Hp. destruct Hp as ([c d] & <- & Hd). cbn. split.
      * eapply Hcount; eauto.
      * intros x Hx. specialize (Hin c d x Hd Hx). rewrite app_nil_r in Hin.
        now apply in_rev.
Qed.

End SynthCounts.

Lemma Synth_extractASTPatterns_counts_witness :
  list_sum (map Cli.Pattern.frequency (Synth.extractASTPatterns Sample.trio)) = 3
  /\ map Cli.Pattern.content (Synth.extractASTPatterns Sample.trio) = [""]
  /\ map Cli.Pattern.frequency (Synth.extractASTPatterns Sample.trio) = [3]
  /\ map Cli.Pattern.snippets (Synth.extractASTPatterns Sample.trio) = [["a"; "b"; "c"]].
Proof.
  pose proof (Synth_extractASTPatterns_counts Sample.trio) as H.
  split; [exact (proj1 H)|]. repeat split; vm_compute; reflexivity.
Defined.

(* ------------------------------------------------------------------ *)
(** ** The logs of the two stores *)

Section Latest.

(** X15: [getLatestSnippets(limit)] returns the last [limit] records of
    the log, the newest first, and all of them when there are fewer; but
    with [limit = 0] it returns every record of the log, and with a
    negative limit all but the first [-limit]. *)
Theorem getLatestSnippets_newest_first (limit : Z) (file : option string) :
  let records := JSONLStorage.readSnippets file in
  ((0 < limit)%Z ->
   JSONLStorage.getLatestSnippets limit file = firstn (Z.to_nat limit) (rev records)
   /\ List.length (JSONLStorage.getLatestSnippets limit file)
      = Nat.min (Z.to_nat limit) (List.length records))
  /\ (limit = 0%Z -> JSONLStorage.getLatestSnippets limit file = rev records)
  /\ ((limit < 0)%Z ->
      JSONLStorage.getLatestSnippets limit file = rev (skipn (Z.to_nat (- limit)) records)).
Proof.
  intros records. unfold JSONLStorage.getLatestSnippets, JSONLStorage.sliceFrom.
  fold records. split; [|split].
  - intros Hl.
    assert (E : rev (skipn (Z.to_nat (Z.max (Z.of_nat (List.length records) + - limit) 0))
                           records)
                = firstn (Z.to_nat limit) (rev records)).
    { rewrite firstn_rev. do 2 f_equal. lia. }
    replace (- limit <? 0)%Z with true by (symmetry; apply Z.ltb_lt; lia).
    rewrite E. split; [reflexivity|]. now rewrite length_firstn, length_rev.
  - intros ->. cbn [Z.opp Z.ltb Z.compare]. rewrite Z.min_l by lia. reflexivity.
  - intros Hl. replace (- limit <? 0)%Z with false by (symmetry; apply Z.ltb_ge; lia).
    destruct (Z.le_ge_cases (- limit) (Z.of_nat (List.length records))) as [H|H].
    + now rewrite Z.min_l by exact H.
    + rewrite Z.min_r by lia. rewrite Nat2Z.id.
      rewrite !skipn_all2; [reflexivity | lia | lia].
Qed.

End Latest.

Lemma getLatestSnippets_newest_first_witness :
  JSONLStorage.getLatestSnippets 1 (Some Sample.cleanLog) = [Sample.record "b"]
  /\ JSONLStorage.getLatestSnippets 0 (Some Sample.cleanLog)
     = [Sample.record "b"; Sample.record "a"]
  /\ JSONLStorage.getLatestSnippets (-1) (Some Sample.cleanLog) = [Sample.record "b"].
Proof.
  assert (R : JSONLStorage.readSnippets (Some Sample.cleanLog)
              = [Sample.record "a"; Sample.record "b"]) by (vm_compute; reflexivity).
  pose proof (getLatestSnippets_newest_first 1 (Some Sample.cleanLog)) as H1.
  pose proof (getLatestSnippets_newest_first 0 (Some Sample.cleanLog)) as H0.
  pose proof (getLatestSnippets_newest_first (-1) (Some Sample.cleanLog)) as Hm.
  cbv zeta in H1, H0, Hm. rewrite R in H1, H0, Hm.
  split; [|split].
  - exact (proj1 (proj1 H1 eq_refl)).
  - exact (proj1 (proj2 H0) eq_refl).
  - exact (proj2 (proj2 Hm) eq_refl).
Defined.

Section StringifyParse.
Import JSON.

Lemma run_app (a b : string) (s : state) :
  run (a ++ b) s = match run a s with Some s' => run b s' | None => None end.
Proof.
  revert s. induction a as [|c a IH]; intros s; cbn; [reflexivity|].
  destruct (step s c); [apply IH | reflexivity].
Qed.

Lemma snoc_app (acc : string) (c : ascii) (rest : string) :
  (snoc acc c ++ rest = acc ++ String c rest)%string.
Proof. unfold snoc. induction acc as [|a acc IH]; cbn; [reflexivity|]. now rewrite IH. Qed.

Lemma append_nil_r (s : string) : (s ++ EmptyString)%string = s.
Proof. induction s as [|c s IH]; cbn; [reflexivity|]. now rewrite IH. Qed.

Lemma append_assoc (a b c : string) : ((a ++ b) ++ c = a ++ (b ++ c))%string.
Proof. induction a as [|x a IH]; cbn; [reflexivity|]. now rewrite IH. Qed.


(** One code unit of a string, as written, is read back as itself. *)
Lemma run_escapeChar (stack : list frame) (forKey : bool) (acc : units) (c : ascii) :
  run (escapeChar c) (stack, MString forKey acc)
  = Some (stack, MString forKey (acc ++ [N_of_ascii c])).
Proof. destruct c as [[] [] [] [] [] [] [] []]; reflexivity. Qed.

Lemma run_escape (stack : list frame) (forKey : bool) (s : string) : forall acc,
  run (escape s) (stack, MString forKey acc)
  = Some (stack, MString forKey (acc ++ unitsOf s)).
Proof.
  induction s as [|c s IH]; intros acc; cbn [escape].
  - unfold unitsOf. cbn. now rewrite app_nil_r.
  - rewrite run_app, run_escapeChar, IH. unfold unitsOf. cbn [list_ascii_of_string map].
    now rewrite <- app_assoc.
Qed.

(** What follows a value that is complete. *)
Definition after (stack : list frame) (j : json) (rest : string) : option state :=
  match complete j stack with
  | Some st => run rest st
  | None => None
  end.

(** A text read from where a value has to begin. *)
Definition begin (stack : list frame) (text : string) : option state :=
  match text with
  | EmptyString => None
  | String c body =>
      match startValue stack c with
      | Some st => run body st
      | None => None
      end
  end.

(** The states in which a value may begin. *)
Definition opens (stack : list frame) (m : mode) : Prop :=
  m = MValue \/ (m = MValueOrClose /\ exists items stack', stack = FArray items :: stack').

(** The first code unit of a value as written. *)
Definition leads (c : ascii) : Prop := isWs c = false /\ nat_of_ascii c <> 93.

Lemma run_begin (stack : list frame) (m : mode) (c : ascii) (body : string) :
  opens stack m -> leads c ->
  run (String c body) (stack, m) = begin stack (String c body).
Proof.
  intros Ho [Hws Hc]. apply Nat.eqb_neq in Hc. cbn [run begin].
  destruct Ho as [->|(-> & items & stack' & ->)]; cbn [step]; rewrite Hws; [reflexivity|].
  now rewrite Hc.
Qed.

Lemma begin_quote (stack : list frame) (s rest : string) :
  begin stack (quote s ++ rest) = after stack (JString (unitsOf s)) rest.
Proof.
  unfold quote, begin. cbn [append].
  change (startValue stack "034") with (Some (stack, MString false [])).
  rewrite append_assoc, run_app, run_escape. cbn [append run app].
  unfold after.
  change (step (stack, MString false (unitsOf s)) "034")
    with (complete (JString (unitsOf s)) stack).
  reflexivity.
Qed.

Lemma run_key (members : list (units * json)) (stack : list frame) (m : mode)
      (k rest : string) :
  m = MKeyOrClose \/ m = MKey ->
  run (quote k ++ rest) (FObject members :: stack, m)
  = run rest (FMember members (unitsOf k) :: stack, MColon).
Proof.
  intros Hm. unfold quote. cbn [append run].
  assert (E : step (FObject members :: stack, m) "034"
              = Some (FObject members :: stack, MString true [])).
  { destruct Hm as [->| ->]; reflexivity. }
  rewrite E, append_assoc, run_app, run_escape. cbn [append run app].
  reflexivity.
Qed.


(** *** Numerals *)

Lemma nzhead_head (d : Decimal.uint) :
  match Decimal.nzhead d with Decimal.D0 _ => False | _ => True end.
Proof. induction d; cbn; auto. Qed.

Lemma to_uint_normal (p : positive) : Decimal.unorm (Pos.to_uint p) = Pos.to_uint p.
Proof.
  rewrite <- DecimalPos.Unsigned.to_of, DecimalPos.Unsigned.of_to. reflexivity.
Qed.

(** The numeral of a positive number begins with a digit other than 0. *)
Lemma to_uint_head (p : positive) :
  match Pos.to_uint p with Decimal.Nil | Decimal.D0 _ => False | _ => True end.
Proof.
  pose proof (to_uint_normal p) as Hn.
  pose proof (DecimalPos.Unsigned.to_uint_nonnil p) as Hnil.
  pose proof (nzhead_head (Pos.to_uint p)) as Hh.
  unfold Decimal.unorm in Hn.
  destruct (Pos.to_uint p) as [|u|u|u|u|u|u|u|u|u|u] eqn:E; try exact I; [congruence|].
  cbn [Decimal.nzhead] in Hn, Hh.
  destruct (Decimal.nzhead u) eqn:Eu; try discriminate; try contradiction.
  inversion Hn; subst. pose proof (DecimalPos.Unsigned.to_uint_nonzero p). congruence.
Qed.

Lemma step_digit (stack : list frame) (acc : string) (c : ascii) :
  isDigit c = true ->
  step (stack, MNumber NInt acc) c = Some (stack, MNumber NInt (snoc acc c)).
Proof. intros H. cbn [step]. unfold numberStep. now rewrite H. Qed.

Lemma run_digits (stack : list frame) (d : Decimal.uint) : forall acc,
  run (NilEmpty.string_of_uint d) (stack, MNumber NInt acc)
  = Some (stack, MNumber NInt (acc ++ NilEmpty.string_of_uint d)).
Proof.
  induction d; intros acc; cbn [NilEmpty.string_of_uint];
    [cbn; now rewrite append_nil_r|..];
    (cbn [run]; rewrite step_digit by reflexivity; rewrite IHd, snoc_app; reflexivity).
Qed.

Lemma start_digit (stack : list frame) (c : ascii) :
  isDigit c = true -> (nat_of_ascii c =? 48) = false ->
  startValue stack c = Some (stack, MNumber NInt (String c EmptyString)).
Proof.
  intros Hd H0. unfold startValue. cbv zeta. rewrite H0, Hd.
  unfold isDigit in Hd. apply andb_true_iff in Hd. destruct Hd as [H1 H2].
  apply Nat.leb_le in H1, H2.
  repeat match goal with
         | |- context [nat_of_ascii c =? ?k] =>
             replace (nat_of_ascii c =? k) with false by (symmetry; apply Nat.eqb_neq; lia)
         end.
  reflexivity.
Qed.

Lemma step_minus (stack : list frame) (c : ascii) :
  isDigit c = true -> (nat_of_ascii c =? 48) = false ->
  step (stack, MNumber NMinus (String "-" EmptyString)) c
  = Some (stack, MNumber NInt (String "-" (String c EmptyString))).
Proof. intros Hd H0. cbn [step]. unfold numberStep. cbv zeta. now rewrite H0, Hd. Qed.

Lemma begin_uint (stack : list frame) (d : Decimal.uint) (rest : string) :
  match d with Decimal.Nil | Decimal.D0 _ => False | _ => True end ->
  begin stack (NilEmpty.string_of_uint d ++ rest)
  = run rest (stack, MNumber NInt (NilEmpty.string_of_uint d)).
Proof.
  destruct d; intros H; try contradiction;
    cbn [NilEmpty.string_of_uint append begin];
    (rewrite start_digit by reflexivity; rewrite run_app, run_digits; reflexivity).
Qed.

Lemma minus_uint (stack : list frame) (d : Decimal.uint) (rest : string) :
  match d with Decimal.Nil | Decimal.D0 _ => False | _ => True end ->
  begin stack (String "-" (NilEmpty.string_of_uint d) ++ rest)
  = run rest (stack, MNumber NInt (String "-" (NilEmpty.string_of_uint d))).
Proof.
  assert (Hm : startValue stack "-"
               = Some (stack, MNumber NMinus (String "-" EmptyString))) by reflexivity.
  destruct d; intros H; try contradiction;
    cbn [NilEmpty.string_of_uint append begin]; rewrite Hm; cbn [run];
    (rewrite step_minus by reflexivity; rewrite run_app, run_digits; reflexivity).
Qed.

Lemma string_of_uint_nonnil (d : Decimal.uint) :
  d <> Decimal.Nil -> NilZero.string_of_uint d = NilEmpty.string_of_uint d.
Proof. destruct d; [congruence|reflexivity..]. Qed.

(** The numeral of an integer is read as a number that may end there. *)
Lemma begin_showZ (stack : list frame) (z : Z) (rest : string) :
  exists st, (st = NZero \/ st = NInt)
             /\ begin stack (JS.showZ z ++ rest) = run rest (stack, MNumber st (JS.showZ z)).
Proof.
  unfold JS.showZ. destruct z as [|p|p]; cbn [Z.to_int NilZero.string_of_int].
  - exists NZero. split; [now left|]. reflexivity.
  - exists NInt. split; [now right|].
    rewrite string_of_uint_nonnil by apply DecimalPos.Unsigned.to_uint_nonnil.
    apply begin_uint, to_uint_head.
  - exists NInt. split; [now right|].
    rewrite string_of_uint_nonnil by apply DecimalPos.Unsigned.to_uint_nonnil.
    apply minus_uint, to_uint_head.
Qed.

(** What may stand behind a value inside an array or an object. *)
Definition delimiter (c : ascii) : Prop :=
  nat_of_ascii c = 44 \/ nat_of_ascii c = 93 \/ nat_of_ascii c = 125.

Lemma complete_inside (j : json) (stack : list frame) (st : state) :
  stack <> [] -> complete j stack = Some st -> snd st = MAfter.
Proof.
  destruct stack as [|[items|members|members key] stack]; cbn; intros Hne H;
    try congruence; inversion H; reflexivity.
Qed.

Lemma begin_number (stack : list frame) (z : Z) (c : ascii) (rest : string) :
  stack <> [] -> delimiter c ->
  begin stack (JS.showZ z ++ String c rest) = after stack (JNumber (JS.showZ z)) (String c rest).
Proof.
  intros Hne Hc. destruct (begin_showZ stack z (String c rest)) as (st & Hst & ->).
  unfold after. cbn [run step].
  assert (E : numberStep stack st (JS.showZ z) c = endNumber stack (JS.showZ z) c).
  { unfold numberStep. cbv zeta.
    assert (Hd : isDigit c = false /\ (nat_of_ascii c =? 46) = false
                 /\ ((nat_of_ascii c =? 101) || (nat_of_ascii c =? 69)) = false).
    { unfold isDigit. destruct Hc as [->|[->| ->]]; repeat split. }
    destruct Hd as (H1 & H2 & H3). destruct Hst as [->| ->]; now rewrite ?H1, H2, H3. }
  rewrite E. unfold endNumber.
  destruct stack as [|f stack]; [congruence|].
  destruct (complete (JNumber (JS.showZ z)) (f :: stack)) as [[stack' m]|] eqn:Ec;
    [|reflexivity].
  apply complete_inside in Ec as Hm; [|discriminate]. cbn in Hm. subst m.
  cbn [run step]. reflexivity.
Qed.


(** *** Values *)

Section ValueInduction.
Variable P : value -> Prop.
Hypothesis Hnull : P VNull.
Hypothesis Hbool : forall b, P (VBool b).
Hypothesis Hnumber : forall n, P (VNumber n).
Hypothesis Hstring : forall s, P (VString s).
Hypothesis Harray : forall items, Forall P items -> P (VArray items).
Hypothesis Hobject :
  forall members, Forall (fun kv : string * value => P (snd kv)) members -> P (VObject members).

Fixpoint value_induction (v : value) : P v :=
  match v with
  | VNull => Hnull
  | VBool b => Hbool b
  | VNumber n => Hnumber n
  | VString s => Hstring s
  | VArray items =>
      Harray
        ((fix all (l : list value) : Forall P l :=
            match l with
            | [] => Forall_nil P
            | x :: l' => Forall_cons x (value_induction x) (all l')
            end) items)
  | VObject members =>
      Hobject
        ((fix all (l : list (string * value))
            : Forall (fun kv : string * value => P (snd kv)) l :=
            match l with
            | [] => Forall_nil _
            | kv :: l' =>
                Forall_cons kv
                  (match kv as kv0 return P (snd kv0) with
                   | (_, x) => value_induction x
                   end)
                  (all l')
            end) members)
  end.

End ValueInduction.

Lemma showZ_leads (z : Z) : exists c body, JS.showZ z = String c body /\ leads c.
Proof.
  unfold JS.showZ. destruct z as [|p|p]; cbn [Z.to_int NilZero.string_of_int].
  - exists "0"%char, EmptyString. repeat split. discriminate.
  - rewrite string_of_uint_nonnil by apply DecimalPos.Unsigned.to_uint_nonnil.
    pose proof (DecimalPos.Unsigned.to_uint_nonnil p) as Hn.
    destruct (Pos.to_uint p); try congruence; cbn [NilEmpty.string_of_uint];
      eexists _, _; (split; [reflexivity|]); (split; [reflexivity | discriminate]).
  - exists "-"%char. eexists. split; [reflexivity|]. split; [reflexivity | discriminate].
Qed.

Lemma escapeChar_leads (c : ascii) : exists d body, escapeChar c = String d body.
Proof.
  unfold escapeChar. cbv zeta.
  repeat match goal with |- context [if ?b then _ else _] => destruct b end; eauto.
Qed.

Lemma stringify_leads (v : value) : exists c body, stringify v = String c body /\ leads c.
Proof.
  destruct v as [|[]|z|s|items|members]; cbn [stringify];
    try (eexists _, _; split; [reflexivity|]; split; [reflexivity | discriminate]).
  - apply showZ_leads.
Qed.

Lemma run_value (stack : list frame) (m : mode) (v : value) (rest : string) :
  opens stack m -> run (stringify v ++ rest) (stack, m) = begin stack (stringify v ++ rest).
Proof.
  intros Ho. destruct (stringify_leads v) as (c & body & -> & Hc). cbn [append].
  now apply run_begin.
Qed.

(** A number needs something behind it that ends it. *)
Definition followed (v : value) (stack : list frame) (rest : string) : Prop :=
  match v with
  | VNumber _ => stack <> [] /\ exists c rest', rest = String c rest' /\ delimiter c
  | _ => True
  end.

Lemma followed_inside (v : value) (f : frame) (stack : list frame) (c : ascii) (rest : string) :
  delimiter c -> followed v (f :: stack) (String c rest).
Proof. intros Hc. destruct v; cbn; auto. split; [discriminate|]. eauto. Qed.

Definition readsBack (v : value) : Prop :=
  forall stack rest, followed v stack rest ->
    begin stack (stringify v ++ rest) = after stack (written v) rest.

Lemma concat_cons_more (sep x : string) (l : list string) :
  l <> [] -> String.concat sep (x :: l) = (x ++ sep ++ String.concat sep l)%string.
Proof. destruct l; [congruence | reflexivity]. Qed.

Lemma map_nonempty {A B} (f : A -> B) (l : list A) : l <> [] -> map f l <> [].
Proof. destruct l; [congruence | discriminate]. Qed.

Lemma run_items (stack : list frame) (rest : string) (items : list value) :
  Forall readsBack items -> items <> [] ->
  forall acc m, opens (FArray acc :: stack) m ->
    run (String.concat "," (map stringify items) ++ String "]" rest) (FArray acc :: stack, m)
    = run (String "]" rest) (FArray (rev (map written items) ++ acc) :: stack, MAfter).
Proof.
  induction 1 as [|v items Hv Hitems IH]; intros Hne acc m Ho; [congruence|].
  assert (Hcase : items = [] \/ items <> []) by (destruct items; [now left | right; discriminate]).
  destruct Hcase as [->|Hmore].
  - cbn [map String.concat rev app]. rewrite run_value by exact Ho.
    rewrite Hv by (apply followed_inside; right; now left). reflexivity.
  - cbn [map]. rewrite concat_cons_more by now apply map_nonempty.
    rewrite !append_assoc. rewrite run_value by exact Ho.
    rewrite Hv by (apply followed_inside; now left).
    unfold after. cbn [complete append run].
    change (step (FArray (written v :: acc) :: stack, MAfter) ",")
      with (Some (FArray (written v :: acc) :: stack, MValue)).
    cbv beta iota. rewrite (IH Hmore (written v :: acc) MValue) by now left.
    cbn [run rev]. now rewrite <- !app_assoc.
Qed.

Definition memberText (kv : string * value) : string :=
  let (k, v) := kv in (quote k ++ ":" ++ stringify v)%string.

Definition memberWritten (kv : string * value) : units * json :=
  let (k, v) := kv in (unitsOf k, written v).

Lemma run_members (stack : list frame) (rest : string) (members : list (string * value)) :
  Forall (fun kv : string * value => readsBack (snd kv)) members -> members <> [] ->
  forall acc m, m = MKeyOrClose \/ m = MKey ->
    run (String.concat "," (map memberText members) ++ String "}" rest)
        (FObject acc :: stack, m)
    = run (String "}" rest)
          (FObject (rev (map memberWritten members) ++ acc) :: stack, MAfter).
Proof.
  assert (One : forall k v acc m tail c,
             readsBack v -> m = MKeyOrClose \/ m = MKey -> delimiter c ->
             run (memberText (k, v) ++ String c tail) (FObject acc :: stack, m)
             = run (String c tail) (FObject ((unitsOf k, written v) :: acc) :: stack, MAfter)).
  { intros k v acc m tail c Hv Hm Hc. unfold memberText. rewrite append_assoc.
    rewrite run_key by exact Hm. cbn [append run].
    change (step (FMember acc (unitsOf k) :: stack, MColon) ":")
      with (Some (FMember acc (unitsOf k) :: stack, MValue)).
    cbv beta iota. rewrite run_value by now left.
    rewrite Hv by now apply followed_inside. reflexivity. }
  induction 1 as [|[k v] members Hv Hmembers IH]; intros Hne acc m Hm; [congruence|].
  cbn [snd] in Hv.
  assert (Hcase : members = [] \/ members <> [])
    by (destruct members; [now left | right; discriminate]).
  destruct Hcase as [->|Hmore].
  - cbn [map String.concat rev app memberWritten].
    apply One; auto. right. now right.
  - cbn [map]. rewrite concat_cons_more by now apply map_nonempty.
    rewrite !append_assoc. cbn [append].
    rewrite One; auto; [|now left]. cbn [run].
    change (step (FObject ((unitsOf k, written v) :: acc) :: stack, MAfter) ",")
      with (Some (FObject ((unitsOf k, written v) :: acc) :: stack, MKey)).
    cbv beta iota. rewrite (IH Hmore ((unitsOf k, written v) :: acc) MKey) by now right.
    cbn [run rev memberWritten]. now rewrite <- !app_assoc.
Qed.

(** *** Objects as they are built *)

Lemma sameKey_eq (a b : units) : sameKey a b = true <-> a = b.
Proof.
  revert b. induction a as [|x a IH]; intros [|y b]; cbn; try (split; [discriminate|congruence]).
  - tauto.
  - rewrite andb_true_iff, N.eqb_eq, IH. split; [intros [-> ->]; reflexivity|].
    intros H. inversion H. auto.
Qed.

Lemma define_fresh (key : units) (v : json) (members : list (units * json)) :
  ~ In key (map fst members) -> define key v members = members ++ [(key, v)].
Proof.
  induction members as [|[k w] members IH]; cbn; intros Hn; [reflexivity|].
  destruct (sameKey k key) eqn:E.
  - apply sameKey_eq in E. tauto.
  - rewrite IH by tauto. reflexivity.
Qed.

Lemma defined_in_order (members : list (units * json)) : forall object,
  NoDup (map fst (object ++ members)) ->
  fold_left (fun object member => define (fst member) (snd member) object) members object
  = object ++ members.
Proof.
  induction members as [|[k v] members IH]; intros object Hnd; cbn [fold_left fst snd].
  - now rewrite app_nil_r.
  - rewrite define_fresh.
    + rewrite IH by (now rewrite <- app_assoc). now rewrite <- app_assoc.
    + rewrite map_app in Hnd. cbn in Hnd. apply NoDup_remove_2 in Hnd.
      intros Hin. apply Hnd. apply in_app_iff. now left.
Qed.

Lemma ordered_named (members : list (units * json)) :
  Forall (fun member => arrayIndex (fst member) = None) members ->
  ordered members = members.
Proof.
  intros H. unfold ordered.
  assert (E1 : flat_map (fun member : units * json =>
                           match arrayIndex (fst member) with
                           | Some i => [(i, member)]
                           | None => []
                           end) members = []).
  { induction H as [|m members Hm _ IH]; cbn; [reflexivity|]. now rewrite Hm, IH. }
  assert (E2 : filter (fun member : units * json =>
                         match arrayIndex (fst member) with
                         | Some _ => false
                         | None => true
                         end) members = members).
  { clear E1. induction H as [|m members Hm _ IH]; cbn [filter]; [reflexivity|].
    rewrite Hm. f_equal. exact IH. }
  now rewrite E1, E2.
Qed.

Lemma unitsOf_inj (a b : string) : unitsOf a = unitsOf b -> a = b.
Proof.
  unfold unitsOf. revert b. induction a as [|c a IH]; intros [|d b]; cbn; try discriminate.
  - reflexivity.
  - intros H. inversion H as [[Hc Hrest]]. rewrite (IH b Hrest). f_equal.
    rewrite <- (ascii_N_embedding c), <- (ascii_N_embedding d). now rewrite Hc.
Qed.

(** A key that is an array index. *)
Definition isIndexKey (key : string) : bool :=
  match arrayIndex (unitsOf key) with
  | Some _ => true
  | None => false
  end.

Fixpoint distinct (keys : list string) : bool :=
  match keys with
  | [] => true
  | key :: rest => negb (existsb (String.eqb key) rest) && distinct rest
  end.

(** The objects of a value are such as [JSON.stringify] can be given and
    goes through in the order of their definition: no key stands twice
    in an object and none is an array index. *)
Fixpoint wellKeyed (v : value) : bool :=
  match v with
  | VArray items => forallb wellKeyed items
  | VObject members =>
      distinct (map fst members)
      && forallb (fun kv : string * value =>
                    let (k, x) := kv in negb (isIndexKey k) && wellKeyed x) members
  | _ => true
  end.

Lemma distinct_NoDup (keys : list string) :
  distinct keys = true -> NoDup (map unitsOf keys).
Proof.
  induction keys as [|k keys IH]; cbn; [constructor|].
  rewrite andb_true_iff, negb_true_iff. intros [Hk Hrest]. constructor; [|auto].
  intros Hin. apply in_map_iff in Hin. destruct Hin as (k' & E & Hin).
  apply unitsOf_inj in E. subst k'.
  assert (T : existsb (String.eqb k) keys = true).
  { apply existsb_exists. exists k. split; [exact Hin | apply String.eqb_refl]. }
  congruence.
Qed.

Lemma objectOf_written (members : list (string * value)) :
  wellKeyed (VObject members) = true ->
  objectOf (map memberWritten members) = map memberWritten members.
Proof.
  cbn [wellKeyed]. rewrite andb_true_iff. intros [Hd Hk]. unfold objectOf.
  assert (Ekeys : map fst (map memberWritten members) = map unitsOf (map fst members)).
  { rewrite !map_map. apply map_ext. now intros [k v]. }
  rewrite defined_in_order by (cbn [app]; rewrite Ekeys; now apply distinct_NoDup).
  cbn [app]. apply ordered_named. apply Forall_forall. intros m Hin.
  apply in_map_iff in Hin. destruct Hin as ([k v] & <- & Hin). cbn [memberWritten fst].
  rewrite forallb_forall in Hk. specialize (Hk _ Hin). cbn in Hk.
  apply andb_true_iff in Hk. destruct Hk as [Hk _]. unfold isIndexKey in Hk.
  now destruct (arrayIndex (unitsOf k)).
Qed.

Lemma wellKeyed_items (items : list value) :
  wellKeyed (VArray items) = true -> Forall (fun x => wellKeyed x = true) items.
Proof. cbn [wellKeyed]. intros H. apply Forall_forall. now apply forallb_forall. Qed.

Lemma wellKeyed_members (members : list (string * value)) :
  wellKeyed (VObject members) = true ->
  Forall (fun kv : string * value => wellKeyed (snd kv) = true) members.
Proof.
  cbn [wellKeyed]. rewrite andb_true_iff. intros [_ H]. apply Forall_forall.
  intros [k x] Hin. rewrite forallb_forall in H. specialize (H _ Hin). cbn in H.
  apply andb_true_iff in H. apply H.
Qed.

(** Every value as written is read back, whatever stands open around it. *)
Lemma stringify_readsBack (v : value) : wellKeyed v = true -> readsBack v.
Proof.
  induction v as [|b|n|s|items IH|members IH] using value_induction;
    intros Hw stack rest Hf.
  - reflexivity.
  - destruct b; reflexivity.
  - destruct Hf as (Hne & c & rest' & -> & Hc). now apply begin_number.
  - apply begin_quote.
  - assert (IH' : Forall readsBack items).
    { apply wellKeyed_items in Hw. rewrite Forall_forall in *. auto. }
    cbn [stringify written]. rewrite !append_assoc. cbn [append begin].
    change (startValue stack "[") with (Some (FArray [] :: stack, MValueOrClose)).
    destruct items as [|v items].
    + reflexivity.
    + rewrite run_items; [|exact IH'|discriminate|right; eauto].
      rewrite app_nil_r. cbn [run].
      change (step (FArray (rev (map written (v :: items))) :: stack, MAfter) "]")
        with (complete (JArray (rev (rev (map written (v :: items))))) stack).
      now rewrite rev_involutive.
  - assert (IH' : Forall (fun kv : string * value => readsBack (snd kv)) members).
    { apply wellKeyed_members in Hw. rewrite Forall_forall in *. auto. }
    pose proof (objectOf_written members Hw) as Hobj.
    cbn [stringify written]. rewrite !append_assoc. cbn [append begin].
    change (startValue stack "{") with (Some (FObject [] :: stack, MKeyOrClose)).
    fold memberText. fold memberWritten. fold memberWritten in Hobj.
    destruct members as [|kv members].
    + reflexivity.
    + rewrite run_members; [|exact IH'|discriminate|now left].
      rewrite app_nil_r. cbn [run].
      change (step (FObject (rev (map memberWritten (kv :: members))) :: stack, MAfter) "}")
        with (complete (JObject (objectOf (rev (rev (map memberWritten (kv :: members))))))
                       stack).
      now rewrite rev_involutive, Hobj.
Qed.

Lemma parse_stringify (v : value) :
  wellKeyed v = true -> parse (stringify v) = Some (written v).
Proof.
  intros Hw. unfold parse.
  assert (E : run (stringify v) ([], MValue) = begin [] (stringify v ++ EmptyString)).
  { rewrite <- (@run_value [] MValue v EmptyString) by now left. now rewrite append_nil_r. }
  rewrite E. destruct v as [|b|n|s|items|members].
  - reflexivity.
  - destruct b; reflexivity.
  - cbn [stringify written].
    destruct (begin_showZ [] (integer n) EmptyString) as (st & Hst & ->).
    cbn [run]. destruct Hst as [->| ->]; reflexivity.
  - now rewrite stringify_readsBack.
  - now rewrite stringify_readsBack.
  - now rewrite stringify_readsBack.
Qed.

(** The reader makes objects as JavaScript does: of a key that stands
    twice the last value is kept, at the place of the first, whichever way
    the key is spelt, and the array indices come first, in ascending
    order.  An escape can give a code unit from 256 on. *)
Lemma parse_builds_objects :
  parse (String "{" (quote "b" ++ ":1," ++ quote "a" ++ ":2," ++ quote "b" ++ ":3}"))
  = Some (JObject [(unitsOf "b", JNumber "3"); (unitsOf "a", JNumber "2")])
  /\ parse (String "{" (quote "x" ++ ":1," ++ quote "10" ++ ":2," ++ quote "9" ++ ":3}"))
     = Some (JObject [(unitsOf "9", JNumber "3"); (unitsOf "10", JNumber "2");
                      (unitsOf "x", JNumber "1")])
  /\ parse (String "{" (quote "a" ++ ":1," ++ String "034" ("\u0061" ++ String "034" ":2}")))
     = Some (JObject [(unitsOf "a", JNumber "2")])
  /\ parse (String "034" ("A\u0100" ++ String "034" ""))
     = Some (JString [65; 256]%N).
Proof. repeat split; vm_compute; reflexivity. Qed.


(** *** The value read is the value written *)

Lemma stringOf_unitsOf (s : string) : stringOf (unitsOf s) = Some s.
Proof.
  unfold unitsOf. induction s as [|c s IH]; [reflexivity|].
  cbn [list_ascii_of_string map stringOf].
  pose proof (N_ascii_bounded c) as Hc. apply N.ltb_lt in Hc. rewrite Hc, IH.
  cbn [option_map]. now rewrite ascii_N_embedding.
Qed.

Lemma int_of_showZ (z : Z) : NilZero.int_of_string (JS.showZ z) = Some (Z.to_int z).
Proof.
  unfold JS.showZ. apply NilZero.isi.
  - destruct z; cbn; try discriminate. intros H. inversion H.
    now apply (DecimalPos.Unsigned.to_uint_nonnil p).
  - destruct z; cbn; try discriminate. intros H. inversion H.
    now apply (DecimalPos.Unsigned.to_uint_nonnil p).
Qed.

Lemma safeOf_integer (n : safeInteger) : safeOf (integer n) = Some n.
Proof.
  destruct n as [z H]. unfold safeOf. cbn [integer].
  destruct (Bool.bool_dec (isSafe z) true) as [H'|H']; [|contradiction].
  do 2 f_equal. apply Eqdep_dec.UIP_dec, Bool.bool_dec.
Qed.

Lemma valueOf_written (v : value) : valueOf (written v) = Some v.
Proof.
  induction v as [|b|n|s|items IH|members IH] using value_induction;
    cbn [written valueOf]; try reflexivity.
  - rewrite int_of_showZ, DecimalZ.of_to, String.eqb_refl, safeOf_integer. reflexivity.
  - now rewrite stringOf_unitsOf.
  - assert (E : fold_right
                  (fun item rest =>
                     match valueOf item, rest with
                     | Some v, Some vs => Some (v :: vs)
                     | _, _ => None
                     end)
                  (Some []) (map written items) = Some items).
    { induction IH as [|v items Hv _ IHitems]; [reflexivity|].
      cbn [map fold_right]. now rewrite Hv, IHitems. }
    now rewrite E.
  - assert (E : fold_right
                  (fun (kj : units * json) rest =>
                     let (k, j') := kj in
                     match stringOf k, valueOf j', rest with
                     | Some key, Some v, Some kvs => Some ((key, v) :: kvs)
                     | _, _, _ => None
                     end)
                  (Some [])
                  (map (fun kv : string * value => let (k, v) := kv in (unitsOf k, written v))
                       members) = Some members).
    { induction IH as [|[k v] members Hv _ IHmembers]; [reflexivity|].
      cbn [map fold_right snd] in *. now rewrite stringOf_unitsOf, Hv, IHmembers. }
    now rewrite E.
Qed.

End StringifyParse.

Section StoredLogs.
Import JSON.

(** No code unit below 32: no line feed, no carriage return, no tab. *)
Definition printable (s : string) : Prop :=
  Forall (fun c => 32 <= nat_of_ascii c) (list_ascii_of_string s).

Lemma printable_app (a b : string) : printable a -> printable b -> printable (a ++ b).
Proof.
  unfold printable. induction a as [|c a IH]; cbn; [auto|].
  intros Ha Hb. inversion Ha; subst. constructor; auto.
Qed.

Lemma printable_escapeChar (c : ascii) : printable (escapeChar c).
Proof.
  assert (H : forallb (fun x => 32 <=? nat_of_ascii x)
                      (list_ascii_of_string (escapeChar c)) = true)
    by (destruct c as [[] [] [] [] [] [] [] []]; vm_compute; reflexivity).
  unfold printable. apply Forall_forall. intros x Hx. apply Nat.leb_le.
  rewrite forallb_forall in H. auto.
Qed.

Lemma printable_escape (s : string) : printable (escape s).
Proof.
  induction s as [|c s IH]; [constructor|].
  cbn [escape]. apply printable_app; [apply printable_escapeChar | exact IH].
Qed.

Lemma printable_quote (s : string) : printable (quote s).
Proof.
  unfold quote, printable. cbn. constructor; [cbn; lia|].
  apply (printable_app (printable_escape s)). repeat constructor.
Qed.

Lemma printable_uint (d : Decimal.uint) : printable (NilEmpty.string_of_uint d).
Proof. induction d; cbn; constructor; try exact IHd; cbn; lia. Qed.

Lemma printable_showZ (z : Z) : printable (JS.showZ z).
Proof.
  unfold JS.showZ. destruct z as [|p|p]; cbn [Z.to_int NilZero.string_of_int].
  - repeat constructor.
  - rewrite string_of_uint_nonnil by apply DecimalPos.Unsigned.to_uint_nonnil.
    apply printable_uint.
  - rewrite string_of_uint_nonnil by apply DecimalPos.Unsigned.to_uint_nonnil.
    constructor; [cbn; lia | apply printable_uint].
Qed.

Lemma printable_concat (sep : string) (l : list string) :
  printable sep -> Forall printable l -> printable (String.concat sep l).
Proof.
  intros Hsep. induction 1 as [|x l Hx Hl IH]; [constructor|].
  destruct l as [|y l]; [exact Hx|].
  change (String.concat sep (x :: y :: l)) with (x ++ sep ++ String.concat sep (y :: l))%string.
  auto using printable_app.
Qed.

Lemma printable_stringify (v : value) : printable (stringify v).
Proof.
  induction v as [|b|z|s|items IH|members IH] using value_induction; cbn [stringify].
  - repeat constructor.
  - destruct b; repeat constructor.
  - apply printable_showZ.
  - apply printable_quote.
  - apply (@printable_app "["); [repeat constructor|].
    apply printable_app; [|repeat constructor].
    apply printable_concat; [repeat constructor|]. now apply Forall_map.
  - apply (@printable_app "{"); [repeat constructor|].
    apply printable_app; [|repeat constructor].
    apply printable_concat; [repeat constructor|]. apply Forall_map.
    eapply Forall_impl; [|exact IH]. intros [k v] Hv. cbn [snd] in Hv.
    apply printable_app; [apply printable_quote|].
    apply (@printable_app ":"); [repeat constructor | exact Hv].
Qed.

(** A code unit that is not white space for [trim]. *)
Definition inked (c : ascii) : Prop := JSONLStorage.isSpace c = false.

(** A text that begins and ends with something that is not white space. *)
Inductive edged : string -> Prop :=
| edged_one (c : ascii) : inked c -> edged (String c EmptyString)
| edged_more (c : ascii) (body : string) (d : ascii) :
    inked c -> inked d -> edged (String c (body ++ String d EmptyString)).

Lemma edged_wrap (c d : ascii) (body : string) :
  inked c -> inked d -> edged (String c EmptyString ++ body ++ String d EmptyString).
Proof. intros Hc Hd. cbn. now constructor. Qed.

Lemma uint_digits (d : Decimal.uint) :
  Forall (fun c => JSON.isDigit c = true) (list_ascii_of_string (NilEmpty.string_of_uint d)).
Proof. induction d; cbn; constructor; auto. Qed.

Lemma edged_of_all (s : string) :
  s <> EmptyString -> Forall inked (list_ascii_of_string s) -> edged s.
Proof.
  destruct s as [|c s]; [congruence|]. intros _ H. cbn in H. inversion H as [|? ? Hc Hs]; subst.
  destruct s as [|d s]; [now constructor|].
  assert (G : forall s d, Forall inked (list_ascii_of_string (String d s)) ->
                exists body e, String d s = (body ++ String e EmptyString)%string /\ inked e).
  { clear. induction s as [|x s IH]; intros d H.
    - exists EmptyString, d. split; [reflexivity|]. now inversion H.
    - inversion H as [|? ? Hd Hrest]; subst. destruct (IH x Hrest) as (body & e & E & He).
      exists (String d body), e. cbn. now rewrite <- E. }
  destruct (G s d Hs) as (body & e & -> & He). now constructor.
Qed.

Lemma digit_inked (c : ascii) : JSON.isDigit c = true -> inked c.
Proof.
  unfold JSON.isDigit, inked, JSONLStorage.isSpace. intros H.
  apply andb_true_iff in H. destruct H as [H1 H2]. apply Nat.leb_le in H1, H2.
  repeat match goal with
         | |- context [?a <=? ?b] => destruct (Nat.leb_spec a b)
         | |- context [?a =? ?b] => destruct (Nat.eqb_spec a b)
         end; cbn; try reflexivity; lia.
Qed.

Lemma edged_uint (d : Decimal.uint) :
  d <> Decimal.Nil -> edged (NilEmpty.string_of_uint d).
Proof.
  intros Hd. apply edged_of_all.
  - destruct d; [congruence|discriminate..].
  - eapply Forall_impl; [|apply uint_digits]. apply digit_inked.
Qed.

Lemma edged_showZ (z : Z) : edged (JS.showZ z).
Proof.
  unfold JS.showZ. destruct z as [|p|p]; cbn [Z.to_int NilZero.string_of_int].
  - now constructor.
  - rewrite string_of_uint_nonnil by apply DecimalPos.Unsigned.to_uint_nonnil.
    apply edged_uint, DecimalPos.Unsigned.to_uint_nonnil.
  - rewrite string_of_uint_nonnil by apply DecimalPos.Unsigned.to_uint_nonnil.
    apply edged_of_all; [discriminate|]. cbn. constructor; [reflexivity|].
    eapply Forall_impl; [|apply uint_digits]. apply digit_inked.
Qed.

Lemma edged_stringify (v : value) : edged (stringify v).
Proof.
  destruct v as [|[]|z|s|items|members]; cbn [stringify].
  - apply (@edged_more "n" "ul" "l"); reflexivity.
  - apply (@edged_more "t" "ru" "e"); reflexivity.
  - apply (@edged_more "f" "als" "e"); reflexivity.
  - apply edged_showZ.
  - unfold quote. constructor; reflexivity.
  - apply (@edged_wrap "[" "]"); reflexivity.
  - apply (@edged_wrap "{" "}"); reflexivity.
Qed.


(** *** Lines *)

Lemma split_line (a b : string) :
  printable a ->
  JS.split "010" (a ++ String "010" b) = a :: JS.split "010" b.
Proof.
  unfold printable. induction a as [|c a IH]; cbn [append list_ascii_of_string]; intros Ha.
  - reflexivity.
  - inversion Ha as [|? ? Hc Ha']; subst. cbn [JS.split].
    assert (E : Ascii.eqb c "010" = false).
    { apply Ascii.eqb_neq. intros ->. cbn in Hc. lia. }
    now rewrite E, (IH Ha').
Qed.

Lemma split_whole (a : string) : printable a -> JS.split "010" a = [a].
Proof.
  unfold printable. induction a as [|c a IH]; cbn [list_ascii_of_string]; intros Ha.
  - reflexivity.
  - inversion Ha as [|? ? Hc Ha']; subst. cbn [JS.split].
    assert (E : Ascii.eqb c "010" = false).
    { apply Ascii.eqb_neq. intros ->. cbn in Hc. lia. }
    now rewrite E, (IH Ha').
Qed.

Lemma trimEnd_spaces (ws : string) :
  Forall (fun c => JSONLStorage.isSpace c = true) (list_ascii_of_string ws) ->
  JSONLStorage.trimEnd ws = EmptyString.
Proof.
  induction ws as [|c ws IH]; cbn; [reflexivity|]. intros H. inversion H; subst.
  now rewrite IH, H2.
Qed.

Lemma trimEnd_inked (a : string) (d : ascii) (ws : string) :
  inked d ->
  Forall (fun c => JSONLStorage.isSpace c = true) (list_ascii_of_string ws) ->
  JSONLStorage.trimEnd (a ++ String d ws) = (a ++ String d EmptyString)%string.
Proof.
  intros Hd Hws. induction a as [|c a IH]; cbn [append JSONLStorage.trimEnd].
  - rewrite (trimEnd_spaces _ Hws). unfold inked in Hd. now rewrite Hd.
  - rewrite IH. destruct a; reflexivity.
Qed.

Lemma edged_parts (s : string) :
  edged s -> exists c body a d,
    s = String c body /\ inked c /\ s = (a ++ String d EmptyString)%string /\ inked d.
Proof.
  intros [c Hc|c body d Hc Hd].
  - exists c, EmptyString, EmptyString, c. auto.
  - exists c, (body ++ String d EmptyString)%string, (String c body), d. auto.
Qed.

Lemma trim_edged (s : string) (ws : string) :
  edged s ->
  Forall (fun c => JSONLStorage.isSpace c = true) (list_ascii_of_string ws) ->
  JSONLStorage.trim (s ++ ws) = s.
Proof.
  intros Hs Hws. destruct (edged_parts Hs) as (c & body & a & d & E1 & Hc & E2 & Hd).
  unfold JSONLStorage.trim.
  assert (T : JSONLStorage.trimStart (s ++ ws) = (s ++ ws)%string).
  { rewrite E1. cbn. unfold inked in Hc. now rewrite Hc. }
  rewrite T, E2, append_assoc. cbn [append]. now apply trimEnd_inked.
Qed.

Lemma edged_nonempty (s : string) : edged s -> s <> EmptyString.
Proof. intros [c Hc|c body d Hc Hd]; discriminate. Qed.

Lemma edged_join (a mid b : string) : edged a -> edged b -> edged (a ++ mid ++ b).
Proof.
  intros Ha Hb.
  destruct (edged_parts Ha) as (c & body & _ & _ & -> & Hc & _ & _).
  destruct (edged_parts Hb) as (_ & _ & a' & d & _ & _ & -> & Hd).
  cbn [append]. rewrite <- !append_assoc. now constructor.
Qed.

(** The line of a record, and the log of some records. *)
Definition lineOf (record : value) : string := (stringify record ++ JSONLStorage.newline)%string.

Definition logOf (records : list value) : string :=
  String.concat EmptyString (map lineOf records).

Lemma concat_empty_cons (x : string) (l : list string) :
  String.concat EmptyString (x :: l) = (x ++ String.concat EmptyString l)%string.
Proof. destruct l; cbn; [now rewrite append_nil_r | reflexivity]. Qed.

Lemma logOf_cons (v : value) (records : list value) :
  logOf (v :: records) = (stringify v ++ String "010" (logOf records))%string.
Proof.
  unfold logOf. cbn [map]. rewrite concat_empty_cons. unfold lineOf, JSONLStorage.newline.
  now rewrite append_assoc.
Qed.

Lemma logOf_app (a b : list value) : logOf (a ++ b) = (logOf a ++ logOf b)%string.
Proof.
  induction a as [|v a IH]; [reflexivity|].
  cbn [app]. rewrite !logOf_cons, IH. cbn [append]. now rewrite append_assoc.
Qed.

Lemma split_logOf (records : list value) :
  JS.split "010" (logOf records) = map stringify records ++ [EmptyString].
Proof.
  induction records as [|v records IH]; [reflexivity|].
  rewrite logOf_cons, split_line by apply printable_stringify. now rewrite IH.
Qed.

Lemma parseLines_stringify (records : list value) :
  forallb wellKeyed records = true ->
  JSONLStorage.parseLines (map stringify records) = JS.Ok (map written records).
Proof.
  induction records as [|v records IH]; [reflexivity|].
  cbn [forallb]. rewrite andb_true_iff. intros [Hv Hrest].
  cbn [map JSONLStorage.parseLines]. now rewrite parse_stringify, IH.
Qed.

Lemma trim_stringify (v : value) : JSONLStorage.trim (stringify v) = stringify v.
Proof.
  rewrite <- (append_nil_r (stringify v)) at 1.
  apply trim_edged; [apply edged_stringify | constructor].
Qed.

Lemma stringify_nonempty (v : value) : stringify v <> EmptyString.
Proof. apply edged_nonempty, edged_stringify. Qed.

Lemma readLog_logOf (records : list value) :
  forallb wellKeyed records = true ->
  JSONLStorage.readLog (Some (logOf records)) = map written records.
Proof.
  intros Hw. unfold JSONLStorage.readLog, JSONLStorage.scannedLines.
  rewrite split_logOf, filter_app. cbn [filter JSONLStorage.trim JSONLStorage.trimStart
    JSONLStorage.trimEnd JSONLStorage.nonEmpty]. rewrite app_nil_r.
  assert (F : filter (fun line => JSONLStorage.nonEmpty (JSONLStorage.trim line))
                     (map stringify records) = map stringify records).
  { apply forallb_filter_id. apply forallb_forall. intros line Hin.
    apply in_map_iff in Hin. destruct Hin as (v & <- & _). rewrite trim_stringify.
    pose proof (stringify_nonempty v). now destruct (stringify v). }
  now rewrite F, parseLines_stringify.
Qed.

Lemma joined_logOf (v : value) (records : list value) :
  exists body, logOf (v :: records) = (body ++ String "010" EmptyString)%string
               /\ edged body
               /\ JS.split "010" body = map stringify (v :: records).
Proof.
  revert v. induction records as [|w records IH]; intros v.
  - exists (stringify v). rewrite logOf_cons. split; [reflexivity|].
    split; [apply edged_stringify|]. apply split_whole, printable_stringify.
  - destruct (IH w) as (body & E & Hb & Hs).
    exists (stringify v ++ String "010" EmptyString ++ body)%string.
    rewrite logOf_cons, E. split; [|split].
    + cbn [append]. now rewrite !append_assoc.
    + apply edged_join; [apply edged_stringify | exact Hb].
    + cbn [append]. rewrite split_line by apply printable_stringify. now rewrite Hs.
Qed.

Lemma loadJSONL_logOf (records : list value) :
  forallb wellKeyed records = true ->
  JSONLStorage.loadJSONL (Some (logOf records)) = map written records.
Proof.
  intros Hw. unfold JSONLStorage.loadJSONL, JSONLStorage.loadedLines.
  destruct records as [|v records]; [reflexivity|].
  destruct (joined_logOf v records) as (body & -> & Hb & Hs).
  rewrite trim_edged; [|exact Hb|repeat constructor].
  rewrite Hs.
  assert (F : filter (fun line => 0 <? String.length line) (map stringify (v :: records))
              = map stringify (v :: records)).
  { apply forallb_filter_id. apply forallb_forall. intros line Hin.
    apply in_map_iff in Hin. destruct Hin as (x & <- & _).
    pose proof (stringify_nonempty x). now destruct (stringify x). }
  now rewrite F, parseLines_stringify.
Qed.

Lemma appended (records : list value) : forall content,
  fold_left JSONLStorage.appendRecord records (Some content)
  = Some (content ++ logOf records)%string.
Proof.
  induction records as [|v records IH]; intros content; cbn [fold_left].
  - now rewrite append_nil_r.
  - unfold JSONLStorage.appendRecord at 2. cbn [JSONLStorage.appendFile].
    rewrite IH, logOf_cons. unfold JSONLStorage.newline. now rewrite !append_assoc.
Qed.

Lemma saved (batches : list (list value)) : forall content,
  fold_left JSONLStorage.saveRecords batches (Some content)
  = Some (content ++ logOf (List.concat batches))%string.
Proof.
  induction batches as [|batch batches IH]; intros content; cbn [fold_left List.concat].
  - now rewrite append_nil_r.
  - unfold JSONLStorage.saveRecords at 2. cbn [JSONLStorage.appendFile].
    fold lineOf. fold (logOf batch). rewrite IH, logOf_app. now rewrite append_assoc.
Qed.


Lemma valueOf_all (records : list value) :
  map valueOf (map written records) = map Some records.
Proof. rewrite map_map. apply map_ext. intros v. apply valueOf_written. Qed.

Lemma appended_fresh (records : list value) :
  forallb wellKeyed records = true ->
  JSONLStorage.readLog (fold_left JSONLStorage.appendRecord records None) = map written records.
Proof.
  intros Hw. destruct records as [|v records]; [reflexivity|].
  cbn [fold_left]. unfold JSONLStorage.appendRecord at 2. cbn [JSONLStorage.appendFile].
  rewrite appended. fold (lineOf v).
  replace (lineOf v ++ logOf records)%string with (logOf (v :: records)).
  - now apply readLog_logOf.
  - unfold logOf. cbn [map]. now rewrite concat_empty_cons.
Qed.

(** X19: what [JSON.stringify] writes, [JSON.parse] reads back.  For
    every value made of null, booleans, safe integers, strings of code
    units below 256, arrays and objects in which no key stands twice and
    no key is an array index, the text written is accepted by the reader,
    which builds the value written (every escape resolved to the code
    unit it was written for, every number with the numeral of its
    integer, the members in their order), and the text holds no code unit
    below 32, so neither a line feed nor a carriage return. *)
Theorem stringify_then_parse (v : value) :
  wellKeyed v = true ->
  parse (stringify v) = Some (written v)
  /\ valueOf (written v) = Some v
  /\ Forall (fun c => 32 <= nat_of_ascii c) (list_ascii_of_string (stringify v)).
Proof.
  intros Hw. split; [now apply parse_stringify|]. split; [apply valueOf_written|].
  apply printable_stringify.
Qed.

(** X20: the snippet log of the command-line store gives back what was
    appended to it.  For records of the kind of X19, after any number of
    [appendSnippet] calls on a log that did not exist, [readSnippets]
    returns the records appended, all of them, in the order in which they
    were appended, each as the value it was written from; and one more
    [appendSnippet] adds its record at the end of what is read. *)
Theorem appended_records_read_back (records : list value) (record : value) :
  forallb wellKeyed records = true ->
  wellKeyed record = true ->
  let file := fold_left JSONLStorage.appendSnippet records None in
  JSONLStorage.readSnippets file = map written records
  /\ map valueOf (JSONLStorage.readSnippets file) = map Some records
  /\ JSONLStorage.readSnippets (JSONLStorage.appendSnippet file record)
     = JSONLStorage.readSnippets file ++ [written record].
Proof.
  intros Hw Hr. cbv zeta. unfold JSONLStorage.readSnippets, JSONLStorage.appendSnippet.
  rewrite appended_fresh by exact Hw. split; [reflexivity|]. split; [apply valueOf_all|].
  change (JSONLStorage.appendRecord (fold_left JSONLStorage.appendRecord records None) record)
    with (fold_left JSONLStorage.appendRecord [record]
            (fold_left JSONLStorage.appendRecord records None)).
  rewrite <- fold_left_app, appended_fresh.
  - apply map_app.
  - rewrite forallb_app, Hw. cbn. now rewrite Hr.
Qed.

(** X21: the snippet log of the library's store gives back what was
    saved.  For records of the kind of X19, after any number of
    [saveSnippets] calls, each with any number of records, on a log that
    did not exist, [loadSnippets] returns the records saved, all of them,
    in the order in which they were saved, each as the value it was
    written from; and [saveSnippet] saves as [saveSnippets] does for one
    record. *)
Theorem saved_records_load_back (batches : list (list value)) :
  forallb wellKeyed (List.concat batches) = true ->
  let file := fold_left JSONLStorage.saveSnippets batches None in
  JSONLStorage.loadSnippets file = map written (List.concat batches)
  /\ map valueOf (JSONLStorage.loadSnippets file) = map Some (List.concat batches)
  /\ forall previous record,
       JSONLStorage.saveRecord previous record = JSONLStorage.saveSnippets previous [record].
Proof.
  intros Hw. cbv zeta. unfold JSONLStorage.loadSnippets, JSONLStorage.saveSnippets.
  assert (E : JSONLStorage.loadJSONL (fold_left JSONLStorage.saveRecords batches None)
              = map written (List.concat batches)).
  { destruct batches as [|batch batches]; [reflexivity|].
    cbn [fold_left]. unfold JSONLStorage.saveRecords at 2. cbn [JSONLStorage.appendFile].
    fold lineOf. fold (logOf batch). rewrite saved, <- logOf_app.
    now apply loadJSONL_logOf. }
  rewrite E. split; [reflexivity|]. split; [apply valueOf_all|].
  intros previous record. reflexivity.
Qed.

End StoredLogs.

Lemma stringify_then_parse_witness :
  JSON.parse (JSON.stringify Sample.snippetValue) = Some (JSON.written Sample.snippetValue)
  /\ JSON.valueOf (JSON.written Sample.snippetValue) = Some Sample.snippetValue
  /\ Forall (fun c => 32 <= nat_of_ascii c)
            (list_ascii_of_string (JSON.stringify Sample.snippetValue)).
Proof. apply (stringify_then_parse Sample.snippetValue). reflexivity. Defined.

Lemma appended_records_read_back_witness :
  JSONLStorage.readSnippets
    (fold_left JSONLStorage.appendSnippet [Sample.snippetValue; Sample.idValue] None)
  = [JSON.written Sample.snippetValue; JSON.written Sample.idValue]
  /\ map JSON.valueOf
         (JSONLStorage.readSnippets
            (fold_left JSONLStorage.appendSnippet [Sample.snippetValue; Sample.idValue] None))
     = [Some Sample.snippetValue; Some Sample.idValue]
  /\ JSONLStorage.readSnippets
       (JSONLStorage.appendSnippet
          (fold_left JSONLStorage.appendSnippet [Sample.snippetValue; Sample.idValue] None)
          Sample.idValue)
     = JSONLStorage.readSnippets
         (fold_left JSONLStorage.appendSnippet [Sample.snippetValue; Sample.idValue] None)
       ++ [JSON.written Sample.idValue].
Proof.
  apply (appended_records_read_back [Sample.snippetValue; Sample.idValue] Sample.idValue);
    reflexivity.
Defined.

Lemma saved_records_load_back_witness :
  JSONLStorage.loadSnippets
    (fold_left JSONLStorage.saveSnippets [[Sample.snippetValue]; []; [Sample.idValue]] None)
  = [JSON.written Sample.snippetValue; JSON.written Sample.idValue]
  /\ map JSON.valueOf
         (JSONLStorage.loadSnippets
            (fold_left JSONLStorage.saveSnippets
                       [[Sample.snippetValue]; []; [Sample.idValue]] None))
     = [Some Sample.snippetValue; Some Sample.idValue]
  /\ forall previous record,
       JSONLStorage.saveRecord previous record
       = JSONLStorage.saveSnippets previous [record].
Proof.
  apply (saved_records_load_back [[Sample.snippetValue]; []; [Sample.idValue]]).
  reflexivity.
Defined.

(* ------------------------------------------------------------------ *)
(** ** A second pass of [deduplicate], and the candidates of the index *)

Section Again.
Variable config : Config.t.

Lemma keptAfter_again (l : list CodeSnippet.t) :
  keptAfter config (keptAfter config l) = keptAfter config l.
Proof.
  induction l as [|s l IH] using rev_ind; [reflexivity|].
  rewrite keptAfter_snoc. destruct (keeps config _ s) eqn:E; [|exact IH].
  now rewrite keptAfter_snoc, IH, E.
Qed.

(** X22: a second pass of [deduplicate] removes nothing.  On snippets with
    pairwise distinct ids and signatures of one length, [deduplicate] returns
    a list of kept snippets, and [deduplicate] on that list returns the same
    list, in the same order, with a removal count of [0]. *)
Theorem deduplicate_twice (l : list CodeSnippet.t) (len : nat) :
  NoDup (map CodeSnippet.id l) ->
  (forall x, In x l -> List.length (CodeSnippet.minHashes x) = len) ->
  exists kept,
    CodeCollage.deduplicate config l = JS.Ok (kept, List.length l - List.length kept) /\
    CodeCollage.deduplicate config kept = JS.Ok (kept, 0).
Proof.
  intros Hnd Hlen.
  destruct (run_keptAfter config l Hnd Hlen) as (st & Hrun & Hkept).
  exists (keptAfter config l). split.
  - unfold CodeCollage.deduplicate. now rewrite Hrun, Hkept.
  - destruct (@run_keptAfter config (keptAfter config l) len) as (st2 & Hrun2 & Hkept2).
    + now apply NoDup_ids_keptAfter.
    + intros x Hx. apply Hlen. now apply keptAfter_incl in Hx.
    + unfold CodeCollage.deduplicate. rewrite Hrun2, Hkept2, keptAfter_again.
      now rewrite Nat.sub_diag.
Qed.

End Again.

Lemma deduplicate_twice_witness :
  exists kept,
    CodeCollage.deduplicate Config.DEFAULT_CONFIG Sample.twins
    = JS.Ok (kept, List.length Sample.twins - List.length kept) /\
    CodeCollage.deduplicate Config.DEFAULT_CONFIG kept = JS.Ok (kept, 0).
Proof.
  apply (@deduplicate_twice Config.DEFAULT_CONFIG Sample.twins 4).
  - simpl. constructor; [intros [H|[]]; discriminate|].
    constructor; [intros [] | constructor].
  - intros x [<-|[<-|[]]]; reflexivity.
Defined.

Section BandStrings.

(** A numeral: not empty, and without a comma. *)
Definition numeral (s : string) : Prop :=
  s <> EmptyString /\ Forall (fun c => c <> ","%char) (list_ascii_of_string s).

Lemma numeral_uint (d : Decimal.uint) :
  Forall (fun c => c <> ","%char) (list_ascii_of_string (NilEmpty.string_of_uint d)).
Proof. induction d; cbn; constructor; try exact IHd; discriminate. Qed.

Lemma numeral_showZ (z : Z) : numeral (JS.showZ z).
Proof.
  split.
  - destruct (showZ_leads z) as (c & body & -> & _). discriminate.
  - unfold JS.showZ. destruct z as [|p|p]; cbn [Z.to_int NilZero.string_of_int].
    + repeat constructor. discriminate.
    + rewrite string_of_uint_nonnil by apply DecimalPos.Unsigned.to_uint_nonnil.
      apply numeral_uint.
    + rewrite string_of_uint_nonnil by apply DecimalPos.Unsigned.to_uint_nonnil.
      cbn. constructor; [discriminate | apply numeral_uint].
Qed.

Lemma showZ_inj (z z' : Z) : JS.showZ z = JS.showZ z' -> z = z'.
Proof.
  intros H. pose proof (int_of_showZ z) as E. rewrite H, int_of_showZ in E.
  inversion E as [E']. rewrite <- (DecimalZ.of_to z), <- (DecimalZ.of_to z'). now rewrite E'.
Qed.

(** What follows a numeral in a joined list: nothing, or a comma. *)
Definition continues (r : string) : Prop :=
  r = EmptyString \/ exists r', r = String "," r'.

Lemma numeral_prefix (x y r r' : string) :
  Forall (fun c => c <> ","%char) (list_ascii_of_string x) ->
  Forall (fun c => c <> ","%char) (list_ascii_of_string y) ->
  continues r -> continues r' ->
  (x ++ r = y ++ r')%string -> x = y /\ r = r'.
Proof.
  revert y. induction x as [|c x IH]; intros y Hx Hy Hr Hr' E.
  - destruct y as [|d y]; [auto|]. cbn in E, Hy. inversion Hy as [|? ? Hd _].
    destruct Hr as [Hr|(t & Hr)]; rewrite Hr in E; [discriminate|].
    inversion E. congruence.
  - cbn in Hx. inversion Hx as [|? ? Hc Hx'].
    destruct y as [|d y].
    + cbn in E. destruct Hr' as [Hr'|(t & Hr')]; rewrite Hr' in E; [discriminate|].
      inversion E. congruence.
    + cbn in E, Hy. inversion Hy as [|? ? _ Hy']. inversion E as [[Ec Et]].
      destruct (IH y Hx' Hy' Hr Hr' Et) as [-> ->]. auto.
Qed.

Lemma concat_cons2 (sep x y : string) (l : list string) :
  String.concat sep (x :: y :: l) = (x ++ sep ++ String.concat sep (y :: l))%string.
Proof. reflexivity. Qed.

Lemma join_numerals_inj (l l' : list string) :
  Forall numeral l -> Forall numeral l' ->
  JS.join "," l = JS.join "," l' -> l = l'.
Proof.
  unfold JS.join. intros Hl. revert l'. induction Hl as [|x l Hx Hl IH]; intros l' Hl' E.
  - destruct Hl' as [|y l' [Hy _] Hl']; [reflexivity|]. exfalso.
    destruct l' as [|y' l']; cbn in E; [congruence|].
    destruct y; [congruence | discriminate].
  - destruct Hl' as [|y l' Hy Hl'].
    + exfalso. destruct Hx as [Hx _].
      destruct l as [|x' l]; cbn in E; [congruence|].
      destruct x; [congruence | discriminate].
    + assert (T : forall m, continues (match m with
                                       | [] => EmptyString
                                       | _ => ("," ++ String.concat "," m)%string
                                       end)).
      { intros [|m0 m]; [now left | right; eexists; reflexivity]. }
      assert (S : forall h m, String.concat "," (h :: m)
                              = (h ++ match m with
                                      | [] => EmptyString
                                      | _ => ("," ++ String.concat "," m)%string
                                      end)%string).
      { intros h [|m0 m]; [cbn; now rewrite append_nil_r | reflexivity]. }
      rewrite (S x l), (S y l') in E.
      destruct (numeral_prefix _ _ (proj2 Hx) (proj2 Hy) (T l) (T l') E) as [-> Er].
      f_equal. destruct l as [|x' l], l' as [|y' l']; try reflexivity; try discriminate.
      apply IH; [exact Hl'|]. cbn in Er. now inversion Er.
Qed.

Variable config : Config.t.

(** The rows of band [i] of a signature, [minHashSignature.slice(bandStart, bandEnd)]. *)
Definition rowsOf (i : nat) (minHashSignature : list Z) : list Z :=
  JS.slice (i * Config.minHashRows config)
           (Nat.min (i * Config.minHashRows config + Config.minHashRows config)
                    (List.length minHashSignature))
           minHashSignature.

Lemma computeLSHSignature_nth (minHashSignature : list Z) (band : string) :
  In band (MinHashLSH.computeLSHSignature config minHashSignature)
  <-> exists i, i < Config.minHashBands config
                /\ band = JS.join "," (map JS.showZ (rowsOf i minHashSignature)).
Proof.
  unfold MinHashLSH.computeLSHSignature, rowsOf. rewrite in_map_iff. split.
  - intros (i & <- & Hi). apply in_seq in Hi. exists i. split; [lia | reflexivity].
  - intros (i & Hi & ->). exists i. split; [reflexivity|]. apply in_seq. lia.
Qed.

(** X28: band signatures are equal exactly when the rows are.  Two
    signatures have a band signature in common, which is what makes their
    snippets LSH candidates of one another, if and only if the rows of some
    band of the one are the rows of some band of the other; the two bands
    need not be at the same position, the band index being no part of the
    bucket key.  There is one band signature per configured band. *)
Theorem band_signatures_collide_on_equal_rows (a b : list Z) :
  ((exists band, In band (MinHashLSH.computeLSHSignature config a)
                 /\ In band (MinHashLSH.computeLSHSignature config b))
   <-> exists i j, i < Config.minHashBands config /\ j < Config.minHashBands config
                   /\ rowsOf i a = rowsOf j b)
  /\ List.length (MinHashLSH.computeLSHSignature config a) = Config.minHashBands config.
Proof.
  split.
  - split.
    + intros (band & Ha & Hb). apply computeLSHSignature_nth in Ha, Hb.
      destruct Ha as (i & Hi & Ea), Hb as (j & Hj & Eb). exists i, j.
      split; [exact Hi|]. split; [exact Hj|]. rewrite Ea in Eb.
      apply join_numerals_inj in Eb.
      * revert Eb. generalize (rowsOf i a) as u, (rowsOf j b) as v.
        induction u as [|x u IH]; intros [|y v] E; try discriminate; [reflexivity|].
        cbn in E. inversion E as [[E1 E2]]. apply showZ_inj in E1. subst. f_equal. auto.
      * apply Forall_map, Forall_forall. intros z _. apply numeral_showZ.
      * apply Forall_map, Forall_forall. intros z _. apply numeral_showZ.
    + intros (i & j & Hi & Hj & E).
      exists (JS.join "," (map JS.showZ (rowsOf i a))). split.
      * apply computeLSHSignature_nth. eauto.
      * apply computeLSHSignature_nth. exists j. rewrite E. auto.
  - unfold MinHashLSH.computeLSHSignature. now rewrite length_map, length_seq.
Qed.

End BandStrings.

Section Candidates.
Variable config : Config.t.

(** The index after [addSnippet] on each snippet of a list, as the
    clustering and deduplication loops build it. *)
Definition filed (l : list CodeSnippet.t) (b : MinHashLSH.buckets) : MinHashLSH.buckets :=
  fold_left (fun b k => MinHashLSH.addSnippet config k b) l b.

Lemma filed_spec (l : list CodeSnippet.t) (b : MinHashLSH.buckets) (band i : string) :
  inBucket (filed l b) band i
  <-> inBucket b band i
      \/ exists k, In k l /\ CodeSnippet.id k = i /\ In band (bandsOf config k).
Proof.
  unfold filed. revert b. induction l as [|x l IH]; intros b; simpl.
  - split; [auto|]. intros [H|(k & [] & _)]. exact H.
  - rewrite IH, addSnippet_spec. split.
    + intros [[H|[-> H]]|(k & Hk & Hi & Hb)]; eauto 7.
    + intros [H|(k & [<-|Hk] & Hi & Hb)]; eauto 7.
Qed.

Lemma inBucket_empty (band i : string) : ~ inBucket [] band i.
Proof. intros (bucket & H & _). discriminate. Qed.

(** X23: what [findCandidates] returns on an index built by [addSnippet]
    alone.  After the snippets of a list have been filed in an empty index,
    the candidates of a snippet are exactly the ids, other than its own, of
    the filed snippets that have one of its band signatures; so, between
    filed snippets with pairwise distinct ids, being a candidate is
    symmetric. *)
Theorem findCandidates_exact (l : list CodeSnippet.t) :
  (forall s i,
      In i (MinHashLSH.findCandidates config s
              (fold_left (fun b k => MinHashLSH.addSnippet config k b) l []))
      <-> i <> CodeSnippet.id s
          /\ exists k band,
               In k l /\ CodeSnippet.id k = i
               /\ In band (MinHashLSH.computeLSHSignature config (CodeSnippet.minHashes s))
               /\ In band (MinHashLSH.computeLSHSignature config (CodeSnippet.minHashes k)))
  /\ (NoDup (map CodeSnippet.id l) ->
      forall s k, In s l -> In k l ->
        (In (CodeSnippet.id k)
            (MinHashLSH.findCandidates config s
               (fold_left (fun b k => MinHashLSH.addSnippet config k b) l []))
         <-> In (CodeSnippet.id s)
               (MinHashLSH.findCandidates config k
                  (fold_left (fun b k => MinHashLSH.addSnippet config k b) l [])))).
Proof.
  assert (E : forall s i,
      In i (MinHashLSH.findCandidates config s (filed l []))
      <-> i <> CodeSnippet.id s
          /\ exists k band,
               In k l /\ CodeSnippet.id k = i
               /\ In band (bandsOf config s) /\ In band (bandsOf config k)).
  { intros s i. rewrite findCandidates_spec. split.
    - intros (Hi & band & Hb & Hin). split; [exact Hi|].
      apply filed_spec in Hin. destruct Hin as [Hin|(k & Hk & Hid & Hbk)].
      + now apply inBucket_empty in Hin.
      + exists k, band. auto.
    - intros (Hi & k & band & Hk & Hid & Hb & Hbk). split; [exact Hi|].
      exists band. split; [exact Hb|]. apply filed_spec. right. eauto. }
  split; [exact E|].
  intros Hnd s k Hs Hk. change (fold_left _ l []) with (filed l []).
  rewrite !E. split.
  - intros (Hi & k' & band & Hk' & Hid & Hb & Hbk).
    assert (k' = k) by (apply (@NoDup_ids_inj l Hnd); auto). subst k'.
    split; [congruence|]. exists s, band. auto.
  - intros (Hi & s' & band & Hs' & Hid & Hb & Hbs).
    assert (s' = s) by (apply (@NoDup_ids_inj l Hnd); auto). subst s'.
    split; [congruence|]. exists k, band. auto.
Qed.

End Candidates.

Lemma findCandidates_exact_witness :
  In (CodeSnippet.id Sample.s1)
     (MinHashLSH.findCandidates Sample.twoBands Sample.s0
        (fold_left (fun b k => MinHashLSH.addSnippet Sample.twoBands k b)
                   [Sample.s0; Sample.s1] []))
  <-> In (CodeSnippet.id Sample.s0)
        (MinHashLSH.findCandidates Sample.twoBands Sample.s1
           (fold_left (fun b k => MinHashLSH.addSnippet Sample.twoBands k b)
                      [Sample.s0; Sample.s1] [])).
Proof.
  apply (proj2 (findCandidates_exact Sample.twoBands [Sample.s0; Sample.s1])).
  - vm_compute. constructor; [intros [H|[]]; discriminate|].
    constructor; [intros [] | constructor].
  - simpl. auto.
  - simpl. auto.
Defined.

Section IndexInvariant.
Variable config : Config.t.

(** The indexes a [MinHashLSH] can hold: the empty one it starts with, and
    what [addSnippet] and [removeSnippet] make of one it can hold. *)
Inductive reachable : MinHashLSH.buckets -> Prop :=
| reachable_new : reachable []
| reachable_add s b : reachable b -> reachable (MinHashLSH.addSnippet config s b)
| reachable_remove id b : reachable b -> reachable (MinHashLSH.removeSnippet id b).

(** One bucket per key, none empty, no id twice in a bucket. *)
Definition tidyIndex (b : MinHashLSH.buckets) : Prop :=
  NoDup (JSMap.keys b)
  /\ forall band bucket, In (band, bucket) b -> bucket <> [] /\ NoDup bucket.

Lemma tidyIndex_fileUnder (id band : string) (b : MinHashLSH.buckets) :
  tidyIndex b ->
  tidyIndex
    (let b1 := if JSMap.has band b then b else JSMap.set band [] b in
     match JSMap.get band b1 with
     | Some bucket =>
         if existsb (String.eqb id) bucket then b1
         else JSMap.set band (bucket ++ [id]) b1
     | None => b1
     end).
Proof.
  intros [Hk Hb]. cbv zeta. unfold JSMap.has.
  destruct (JSMap.get band b) as [bucket|] eqn:Hget.
  - rewrite Hget. destruct (existsb (String.eqb id) bucket) eqn:E; [now split|].
    assert (Hid : ~ In id bucket).
    { intros Hin. apply existsb_eqb_In in Hin. congruence. }
    split; [now apply NoDup_keys_set|].
    destruct (@set_present _ band (bucket ++ [id]) bucket b Hget) as (a & c & Hm & -> & _).
    intros band' bucket' Hin. apply in_app_iff in Hin. destruct Hin as [Hin|[Hin|Hin]].
    + apply (Hb band'). rewrite Hm. apply in_app_iff. now left.
    + inversion Hin; subst. split; [now destruct bucket|].
      apply NoDup_app; [apply (Hb band' bucket), get_In, Hget | repeat constructor; easy |].
      intros x Hx [<-|[]]. contradiction.
    + apply (Hb band'). rewrite Hm. apply in_app_iff. right. now right.
  - rewrite get_set_same. cbn [existsb app]. rewrite set_set, (@set_absent _ band _ b Hget).
    split.
    + unfold JSMap.keys. rewrite map_app. cbn. apply NoDup_app; [exact Hk| |].
      * repeat constructor. easy.
      * intros x Hx [<-|[]]. now apply get_none_keys in Hget.
    + intros band' bucket' Hin. apply in_app_iff in Hin. destruct Hin as [Hin|[Hin|[]]].
      * now apply (Hb band').
      * inversion Hin; subst. split; [discriminate | repeat constructor; easy].
Qed.

Lemma removeFirst_sub (id x : string) (bucket : list string) :
  In x (MinHashLSH.removeFirst id bucket) -> In x bucket.
Proof.
  induction bucket as [|y bucket IH]; cbn; [tauto|].
  destruct (String.eqb y id); [tauto|]. intros [H|H]; auto.
Qed.

Lemma removeFirst_keeps_NoDup (id : string) (bucket : list string) :
  NoDup bucket -> NoDup (MinHashLSH.removeFirst id bucket).
Proof.
  induction 1 as [|x bucket Hx Hnd IH]; cbn; [constructor|].
  destruct (String.eqb x id); [exact Hnd|].
  constructor; [|exact IH]. intros Hin. apply Hx. eapply removeFirst_sub; eauto.
Qed.

Lemma tidyIndex_removeSnippet (id : string) (b : MinHashLSH.buckets) :
  tidyIndex b -> tidyIndex (MinHashLSH.removeSnippet id b).
Proof.
  intros [Hk Hb]. unfold MinHashLSH.removeSnippet. split.
  - clear Hb. unfold JSMap.keys in *. induction b as [|[k v] b IH]; cbn; [constructor|].
    cbn in Hk. inversion Hk as [|? ? Hn Hk']; subst.
    assert (Hsub : forall x,
               In x (map fst (filter (fun kv : string * list string =>
                                        negb (List.length (snd kv) =? 0))
                                     (map (fun kv : string * list string =>
                                             (fst kv, MinHashLSH.removeFirst id (snd kv))) b))) ->
               In x (map fst b)).
    { intros x Hx. apply in_map_iff in Hx. destruct Hx as ([k' v'] & <- & Hx).
      apply filter_In in Hx. destruct Hx as [Hx _]. apply in_map_iff in Hx.
      destruct Hx as ([k0 v0] & E & Hx). cbn in E. inversion E; subst.
      now apply (in_map fst) in Hx. }
    destruct (negb _); cbn; [|auto]. constructor; auto.
  - intros band bucket Hin. apply filter_In in Hin. destruct Hin as [Hin Hlen].
    apply in_map_iff in Hin. destruct Hin as ([band' bucket'] & E & Hin).
    cbn in E. inversion E; subst. split.
    + intros E'. cbn in Hlen. now rewrite E' in Hlen.
    + apply removeFirst_keeps_NoDup. now apply (Hb band bucket').
Qed.

Lemma items_at_least_buckets (b : MinHashLSH.buckets) :
  (forall band bucket, In (band, bucket) b -> bucket <> []) ->
  forall sum, List.length b + sum
              <= fold_left (fun sum (kv : string * list string) =>
                              sum + List.length (snd kv)) b sum.
Proof.
  induction b as [|[band bucket] b IH]; intros Hb sum; cbn; [lia|].
  assert (bucket <> []) by (apply (Hb band); now left).
  specialize (IH (fun k v H => Hb k v (or_intror H)) (sum + List.length bucket)).
  destruct bucket; [contradiction | cbn in *; lia].
Qed.

(** X30: what the LSH index keeps.  In every index reached from the empty
    one by [addSnippet] and [removeSnippet], in any order, there is one
    bucket per band signature, no bucket is empty and no bucket holds an
    id twice; hence [getStats] counts at least as many filed ids as
    buckets. *)
Theorem index_stays_tidy (b : MinHashLSH.buckets) :
  reachable b ->
  NoDup (JSMap.keys b)
  /\ (forall band bucket, In (band, bucket) b -> bucket <> [] /\ NoDup bucket)
  /\ fst (MinHashLSH.getStats b) <= snd (MinHashLSH.getStats b).
Proof.
  intros H. assert (T : tidyIndex b).
  { induction H as [|s b _ IH|id b _ IH].
    - split; [constructor | intros band bucket []].
    - unfold MinHashLSH.addSnippet. apply fold_left_inv; [exact IH|].
      intros m band _ Hm. now apply tidyIndex_fileUnder.
    - now apply tidyIndex_removeSnippet. }
  destruct T as [Hk Hb]. split; [exact Hk|]. split; [exact Hb|].
  unfold MinHashLSH.getStats. cbn [fst snd].
  pose proof (@items_at_least_buckets b (fun k v H => proj1 (Hb k v H)) 0). lia.
Qed.

End IndexInvariant.

Lemma index_stays_tidy_witness :
  NoDup (JSMap.keys (MinHashLSH.removeSnippet "s0"
                       (MinHashLSH.addSnippet Sample.twoBands Sample.s2
                          (MinHashLSH.addSnippet Sample.twoBands Sample.s0 []))))
  /\ (forall band bucket,
        In (band, bucket)
           (MinHashLSH.removeSnippet "s0"
              (MinHashLSH.addSnippet Sample.twoBands Sample.s2
                 (MinHashLSH.addSnippet Sample.twoBands Sample.s0 []))) ->
        bucket <> [] /\ NoDup bucket)
  /\ fst (MinHashLSH.getStats
            (MinHashLSH.removeSnippet "s0"
               (MinHashLSH.addSnippet Sample.twoBands Sample.s2
                  (MinHashLSH.addSnippet Sample.twoBands Sample.s0 []))))
     <= snd (MinHashLSH.getStats
               (MinHashLSH.removeSnippet "s0"
                  (MinHashLSH.addSnippet Sample.twoBands Sample.s2
                     (MinHashLSH.addSnippet Sample.twoBands Sample.s0 [])))).
Proof.
  apply (@index_stays_tidy Sample.twoBands).
  apply reachable_remove, reachable_add, reachable_add, reachable_new.
Defined.

(* ------------------------------------------------------------------ *)
(** ** Windows of tokens *)

Section Windows.

Lemma generateNGrams_nth (tokens : list string) (n i : nat) :
  i + n <= List.length tokens ->
  nth_error (PatternExtractor.generateNGrams tokens n) i = Some (firstn n (skipn i tokens)).
Proof.
  intros Hi. unfold PatternExtractor.generateNGrams, JS.slice.
  rewrite nth_error_map.
  replace (nth_error (seq 0 (S (List.length tokens) - n)) i) with (Some i).
  - cbn. now replace (i + n - i) with n by lia.
  - symmetry. rewrite nth_error_nth' with (d := 0) by (rewrite length_seq; lia).
    rewrite seq_nth by lia. reflexivity.
Qed.

(** X24: the n-grams of a token list are its runs of [n] consecutive
    tokens.  A list is among [generateNGrams tokens n] exactly when it has
    [n] tokens and occurs in [tokens] as a block; there is one window per
    start position, [tokens.length - n + 1] of them in order of position
    (none when [n] exceeds the number of tokens, and [tokens.length + 1]
    empty windows when [n = 0]); and [CodeTokenizer.extractNGrams] and the
    shingles of [MinHashClusterer] are these windows joined by a space. *)
Theorem ngrams_are_runs (tokens : list string) (n : nat) :
  (forall w, In w (PatternExtractor.generateNGrams tokens n)
             <-> List.length w = n /\ exists before after, tokens = before ++ w ++ after)
  /\ List.length (PatternExtractor.generateNGrams tokens n) = S (List.length tokens) - n
  /\ (forall i, i + n <= List.length tokens ->
        nth_error (PatternExtractor.generateNGrams tokens n) i
        = Some (firstn n (skipn i tokens)))
  /\ CodeTokenizer.extractNGrams tokens n
     = map (JS.join " ") (PatternExtractor.generateNGrams tokens n)
  /\ MinHashClusterer.generateShingles tokens n
     = map (JS.join " ") (PatternExtractor.generateNGrams tokens n).
Proof.
  split; [|split; [|split; [|split]]].
  - intros w. split.
    + unfold PatternExtractor.generateNGrams, JS.slice. intros H.
      apply in_map_iff in H. destruct H as (i & <- & Hi). apply in_seq in Hi.
      replace (i + n - i) with n by lia. split.
      * rewrite length_firstn, length_skipn. lia.
      * exists (firstn i tokens), (skipn n (skipn i tokens)).
        now rewrite firstn_skipn, firstn_skipn.
    + intros (Hw & before & after & ->).
      apply (nth_error_In _ (List.length before)).
      rewrite generateNGrams_nth by (rewrite !length_app; lia).
      rewrite skipn_app, skipn_all, Nat.sub_diag. cbn [skipn app].
      rewrite firstn_app, <- Hw, firstn_all, Nat.sub_diag. cbn [firstn].
      now rewrite app_nil_r.
  - unfold PatternExtractor.generateNGrams. now rewrite length_map, length_seq.
  - intros i. apply generateNGrams_nth.
  - unfold CodeTokenizer.extractNGrams, PatternExtractor.generateNGrams.
    now rewrite map_map.
  - unfold MinHashClusterer.generateShingles, PatternExtractor.generateNGrams.
    now rewrite map_map.
Qed.

End Windows.

(* ------------------------------------------------------------------ *)
(** ** Clusters as connected components *)


Section Linked.
Import MinHashClusterer.

(** [b] is in the set the graph holds for [a]. *)
Definition edge (g : graph) (a b : string) : Prop :=
  exists ns, JSMap.get a g = Some ns /\ In b ns.

Lemma addEdge_edge (a b : string) (g g' : graph) :
  addEdge a b g = JS.Ok g' ->
  forall x y, edge g' x y <-> edge g x y \/ (x = a /\ y = b).
Proof.
  unfold addEdge. destruct (JSMap.get a g) as [s|] eqn:Hget; [|discriminate].
  intros H x y. inversion H; subst. clear H. unfold edge.
  destruct (String.eqb_spec a x) as [->|Hne].
  - rewrite get_set_same. split.
    + intros (ns & Hns & Hin). inversion Hns; subst.
      apply (set_add_In String.eqb String.eqb_eq) in Hin.
      destruct Hin as [->|Hin]; [now right | left; eauto].
    + intros [(ns & Hns & Hin)|[_ ->]]; eexists; (split; [reflexivity|]);
        apply (set_add_In String.eqb String.eqb_eq); [right | now left].
      rewrite Hget in Hns. now inversion Hns; subst.
  - rewrite get_set_other by exact Hne. split; [auto|].
    intros [H|[-> _]]; [exact H | congruence].
Qed.

Lemma emptyGraph_no_edge (ids : list string) : forall g,
  (forall x y, ~ edge g x y) ->
  forall x y, ~ edge (fold_left (fun g id => JSMap.set id [] g) ids g) x y.
Proof.
  induction ids as [|id ids IH]; intros g Hg; cbn; [exact Hg|].
  apply IH. intros x y (ns & Hns & Hin).
  destruct (String.eqb_spec id x) as [->|Hne].
  - rewrite get_set_same in Hns. inversion Hns; subst. contradiction.
  - rewrite get_set_other in Hns by exact Hne. apply (Hg x y). now exists ns.
Qed.

Variable config : Cli.ClusteringConfig.t.
Variable sigMap : JSMap.t Cli.MinHashSignature.t.

(** The candidate pair [pairStr] names [a] and [b], in this order, and
    their estimated similarity reaches the threshold. *)
Definition links (pairStr a b : string) : Prop :=
  a = nth 0 (JS.split "," pairStr) EmptyString
  /\ b = nth 1 (JS.split "," pairStr) EmptyString
  /\ exists similarity,
       calculateSimilarity (JSMap.get a sigMap) (JSMap.get b sigMap) = JS.Ok similarity
       /\ PrimFloat.leb (Cli.ClusteringConfig.similarityThreshold config) similarity = true.

Lemma addPair_edge (pairStr : string) (g g' : graph) :
  addPair config sigMap g pairStr = JS.Ok g' ->
  forall x y, edge g' x y <-> edge g x y \/ links pairStr x y \/ links pairStr y x.
Proof.
  unfold addPair, links.
  set (id1 := nth 0 (JS.split "," pairStr) EmptyString).
  set (id2 := nth 1 (JS.split "," pairStr) EmptyString).
  destruct (calculateSimilarity _ _) as [similarity|e] eqn:Hsim; [|discriminate].
  destruct (PrimFloat.leb _ _) eqn:Hleb.
  - destruct (addEdge id1 id2 g) as [g1|e] eqn:E1; [|discriminate].
    intros E2 x y.
    rewrite (addEdge_edge _ _ _ E2), (addEdge_edge _ _ _ E1). split.
    + intros [[H|[-> ->]]|[-> ->]]; [now left| |].
      * right. left. repeat split. eauto.
      * right. right. repeat split. eauto.
    + intros [H|[(-> & -> & _)|(-> & -> & _)]]; auto.
  - intros H x y. inversion H; subst. clear H. split; [auto|].
    intros [H|[(-> & -> & s & Hs & Hl)|(-> & -> & s & Hs & Hl)]]; [exact H| |];
      rewrite Hsim in Hs; inversion Hs; subst; congruence.
Qed.

Lemma addPairs_edge (l : list string) : forall g g',
  JS.foldM (addPair config sigMap) l g = JS.Ok g' ->
  forall x y, edge g' x y
              <-> edge g x y \/ exists p, In p l /\ (links p x y \/ links p y x).
Proof.
  induction l as [|p l IH]; intros g g' H x y; cbn in H.
  - inversion H; subst. split; [auto|]. intros [E|(p & [] & _)]. exact E.
  - destruct (addPair config sigMap g p) as [g1|e] eqn:E1; [|discriminate].
    rewrite (IH _ _ H), (addPair_edge _ _ E1). split.
    + intros [[E|L]|(q & Hq & L)]; [now left | right; exists p | right; exists q];
        cbn; auto.
    + intros [E|(q & [<-|Hq] & L)]; [now left; left | left; now right | right; eauto].
Qed.

Variable g : graph.

Lemma push_spec (visited neighbors : list string) (x : string) : forall stack,
  In x (fold_left (fun st neighbor =>
                     if JSSet.has String.eqb neighbor visited then st else neighbor :: st)
                  neighbors stack)
  <-> In x stack \/ (In x neighbors /\ JSSet.has String.eqb x visited = false).
Proof.
  induction neighbors as [|n ns IH]; intros stack; cbn [fold_left].
  - cbn. tauto.
  - destruct (JSSet.has String.eqb n visited) eqn:E; rewrite IH; cbn.
    + split; [tauto|]. intros [H|[[->|H] Hv]]; [tauto | congruence | tauto].
    + split; [intros [[<-|H]|H]; tauto|]. tauto.
Qed.

(** Once the stack is empty, every edge out of a visited node ends at a
    visited node. *)
Lemma walk_closed (fuel : nat) : forall stack visited component visited' component',
  walk g fuel stack visited component = Some (visited', component') ->
  (forall a b, In a visited -> edge g a b -> In b visited \/ In b stack) ->
  forall a b, In a visited' -> edge g a b -> In b visited'.
Proof.
  induction fuel as [|fuel IH]; intros stack visited component visited' component' H Hpre.
  - destruct stack; [|discriminate]. inversion H; subst.
    intros a b Ha E. destruct (Hpre a b Ha E) as [Hb|[]]. exact Hb.
  - destruct stack as [|id stack].
    + inversion H; subst. intros a b Ha E. destruct (Hpre a b Ha E) as [Hb|[]]. exact Hb.
    + cbn [walk] in H. destruct (JSSet.has String.eqb id visited) eqn:Hv.
      * apply (IH _ _ _ _ _ H). intros a b Ha E.
        destruct (Hpre a b Ha E) as [Hb|[<-|Hb]]; auto.
        left. now apply (set_has_In String.eqb String.eqb_eq).
      * apply (IH _ _ _ _ _ H). intros a b Ha E.
        rewrite push_spec, (set_add_In String.eqb String.eqb_eq).
        apply (set_add_In String.eqb String.eqb_eq) in Ha.
        destruct Ha as [->|Ha].
        -- destruct E as (ns & Hns & Hb). rewrite Hns.
           destruct (JSSet.has String.eqb b (JSSet.add String.eqb id visited)) eqn:Hb'.
           ++ left. apply (set_add_In String.eqb String.eqb_eq).
              now apply (set_has_In String.eqb String.eqb_eq).
           ++ right. right. auto.
        -- destruct (Hpre a b Ha E) as [Hb|[<-|Hb]]; auto.
Qed.

(** What a walk collects can be reached from what it started with. *)
Lemma walk_reaches (R : string -> Prop) (fuel : nat) :
  (forall x y, R x -> edge g x y -> R y) ->
  forall stack visited component visited' component',
    walk g fuel stack visited component = Some (visited', component') ->
    (forall x, In x stack -> R x) ->
    (forall x, In x component -> R x) ->
    forall x, In x component' -> R x.
Proof.
  intros HR. induction fuel as [|fuel IH];
    intros stack visited component visited' component' H Hst Hc.
  - destruct stack; [|discriminate]. now inversion H; subst.
  - destruct stack as [|id stack]; [now inversion H; subst|].
    cbn [walk] in H. destruct (JSSet.has String.eqb id visited) eqn:Hv.
    + apply (IH _ _ _ _ _ H); [|exact Hc]. intros x Hx. apply Hst. now right.
    + apply (IH _ _ _ _ _ H).
      * intros x Hx. apply push_spec in Hx. destruct Hx as [Hx|[Hx _]].
        -- apply Hst. now right.
        -- destruct (JSMap.get id g) as [ns|] eqn:Hns; [|contradiction].
           apply (HR id); [apply Hst; now left | now exists ns].
      * intros x Hx. apply in_app_iff in Hx. destruct Hx as [Hx|[<-|[]]]; [auto|].
        apply Hst. now left.
Qed.

Variable signatures : list Cli.MinHashSignature.t.

(** A cluster holds both ends of every edge it touches. *)
Definition closed (c : Cli.CodeCluster.t) : Prop :=
  forall a b, In a (Cli.CodeCluster.snippets c) -> edge g a b ->
              In b (Cli.CodeCluster.snippets c).

(** Every member can be reached from the first along edges. *)
Definition connected (c : Cli.CodeCluster.t) : Prop :=
  exists start more,
    Cli.CodeCluster.snippets c = start :: more
    /\ forall x, In x more -> clos_refl_trans string (edge g) start x.

Hypothesis edges_both_ways : forall a b, edge g a b -> edge g b a.

Lemma visit_components (st st' : list string * list Cli.CodeCluster.t) (snippetId : string) :
  visit config signatures sigMap g st snippetId = JS.Ok st' ->
  (forall a b, In a (fst st) -> edge g a b -> In b (fst st))
  /\ (forall c, In c (snd st) -> closed c /\ connected c) ->
  (forall a b, In a (fst st') -> edge g a b -> In b (fst st'))
  /\ (forall c, In c (snd st') -> closed c /\ connected c).
Proof.
  destruct st as [visited clusters]. unfold visit.
  destruct (JSSet.has String.eqb snippetId visited) eqn:Hv;
    [intros H; inversion H; now subst|].
  destruct (findConnectedComponent snippetId g visited) as [[visited' cluster]|] eqn:Hc;
    [|discriminate].
  intros H [Hcl Hall]. cbn [fst snd] in *.
  destruct (findConnectedComponent_start _ _ _ Hv Hc) as (rest & Hrest).
  unfold findConnectedComponent in Hc.
  assert (Hclosed : forall a b, In a visited' -> edge g a b -> In b visited').
  { apply (walk_closed _ _ _ _ Hc). intros a b Ha E. left. eauto. }
  assert (Hreach : forall x, In x cluster -> clos_refl_trans string (edge g) snippetId x).
  { refine (@walk_reaches (clos_refl_trans string (edge g) snippetId) _ _ _ _ _ _ _ Hc _ _).
    - intros x y Hx E. apply rt_trans with x; [exact Hx | now apply rt_step].
    - intros x [<-|[]]. apply rt_refl.
    - intros x []. }
  apply walk_adds in Hc. destruct Hc as (more & Hmore & _ & Hnew & Hvis & _).
  cbn [app] in Hmore. subst more.
  assert (Hmine : forall a b, In a cluster -> edge g a b -> In b cluster).
  { intros a b Ha E. assert (Hb : In b visited').
    { apply (Hclosed a b); [apply Hvis; now right | exact E]. }
    apply Hvis in Hb. destruct Hb as [Hb|Hb]; [|exact Hb].
    exfalso. apply (Hnew a Ha). apply (Hcl b a Hb). now apply edges_both_ways. }
  destruct (_ <=? _).
  - destruct (findCentroid _ _) as [centroid|e]; [|discriminate].
    destruct (calculateClusterSimilarity _ _) as [similarity|e]; [|discriminate].
    inversion H; subst. clear H. cbn [fst snd]. split; [exact Hclosed|].
    intros c Hin. apply in_app_iff in Hin. destruct Hin as [Hin|[<-|[]]]; [auto|].
    split.
    + exact Hmine.
    + exists snippetId, rest. cbn [Cli.CodeCluster.snippets]. split; [reflexivity|].
      intros x Hx. apply Hreach. now right.
  - inversion H; subst. clear H. cbn [fst snd]. split; [exact Hclosed | exact Hall].
Qed.

End Linked.

Section ComponentsOfTheGraph.
Variable config : Cli.ClusteringConfig.t.
Variable random : nat -> Z.
Variable tokenize : string -> JS.value -> list string.
Variable snippets : list Cli.CodeSnippet.t.

(** Two snippet ids are related when they are a candidate pair, in either
    order, whose estimated similarity reaches the threshold. *)
Definition related (a b : string) : Prop :=
  let signatures := map (MinHashClusterer.generateSignature config random tokenize) snippets in
  exists pairStr,
    In pairStr (MinHashClusterer.findCandidatePairs signatures)
    /\ (links config (MinHashClusterer.sigMapOf signatures) pairStr a b
        \/ links config (MinHashClusterer.sigMapOf signatures) pairStr b a).

(** X25: the clusters of [MinHashClusterer.clusterSnippets] are connected
    components of the similarity graph.  When the call returns, a cluster
    that holds a snippet holds every snippet related to it (a candidate
    pair with it whose estimated similarity reaches the threshold), and
    every member of a cluster can be reached from its first member by a
    chain of related snippets. *)
Theorem clusters_are_components (clusters : list Cli.CodeCluster.t) :
  MinHashClusterer.clusterSnippets config random tokenize snippets = JS.Ok clusters ->
  forall c, In c clusters ->
    (forall a b, In a (Cli.CodeCluster.snippets c) -> related a b ->
                 In b (Cli.CodeCluster.snippets c))
    /\ exists start more,
         Cli.CodeCluster.snippets c = start :: more
         /\ forall x, In x more -> clos_refl_trans string related start x.
Proof.
  unfold MinHashClusterer.clusterSnippets.
  destruct (JS.foldM (MinHashClusterer.addPair _ _) _ _) as [g|e] eqn:Eg; [|discriminate].
  destruct (JS.foldM (MinHashClusterer.visit _ _ _ _) _ _) as [[visited cl]|e] eqn:E;
    [|discriminate].
  intros H. inversion H; subst. clear H.
  assert (Hedge : forall x y, edge g x y <-> related x y).
  { intros x y. rewrite (addPairs_edge _ _ _ _ Eg). unfold related. split.
    - intros [He|Hp]; [|exact Hp]. exfalso. revert He.
      apply emptyGraph_no_edge. intros a b (ns & Hns & _). discriminate.
    - intros Hp. right. exact Hp. }
  assert (Hsym : forall a b, edge g a b -> edge g b a).
  { intros a b Hab. apply Hedge. apply Hedge in Hab.
    destruct Hab as (p & Hp & L). exists p. tauto. }
  apply (foldM_inv (fun st : list string * list Cli.CodeCluster.t =>
                      (forall a b, In a (fst st) -> edge g a b -> In b (fst st))
                      /\ (forall c, In c (snd st) -> closed g c /\ connected g c)))
    in E.
  - cbn [fst snd] in E. destruct E as [_ Hall]. intros c Hc.
    destruct (Hall c Hc) as [Hcl (start & more & Hs & Hr)]. split.
    + intros a b Ha Hab. apply (Hcl a b Ha). now apply Hedge.
    + exists start, more. split; [exact Hs|]. intros x Hx.
      specialize (Hr x Hx). clear - Hr Hedge.
      induction Hr as [u v Huv|u|u v w _ IH1 _ IH2].
      * apply rt_step. now apply Hedge.
      * apply rt_refl.
      * now apply rt_trans with v.
  - cbn. split; [intros a b [] | intros c []].
  - intros st b st' _ Hst Hstep. eapply visit_components; eauto.
Qed.

End ComponentsOfTheGraph.

Lemma clusters_are_components_witness :
  (forall a b, In a (Cli.CodeCluster.snippets Sample.pairCluster) ->
               related Sample.smallClustering Sample.draws Sample.words Sample.trio a b ->
               In b (Cli.CodeCluster.snippets Sample.pairCluster))
  /\ exists start more,
       Cli.CodeCluster.snippets Sample.pairCluster = start :: more
       /\ forall x, In x more ->
            clos_refl_trans string
              (related Sample.smallClustering Sample.draws Sample.words Sample.trio)
              start x.
Proof.
  apply (@clusters_are_components Sample.smallClustering Sample.draws Sample.words
           Sample.trio [Sample.pairCluster]).
  - vm_compute. reflexivity.
  - now left.
Defined.

(* ------------------------------------------------------------------ *)
(** ** Tokens and the case of letters *)

Section LetterCase.

(** A text with every code unit in lower case. *)
Definition lowered (s : Text.t) : Text.t := map JS.lower_char s.

(** A code unit no change of case gives or takes away. *)
Definition caseless (q : ascii) : Prop :=
  forall c, Ascii.eqb q (JS.lower_char c) = Ascii.eqb q c.

Ltac all_chars c := destruct c as [[] [] [] [] [] [] [] []]; reflexivity.

Lemma caseless_slash : caseless "/". Proof. intros c. all_chars c. Qed.
Lemma caseless_star : caseless "*". Proof. intros c. all_chars c. Qed.
Lemma caseless_hash : caseless "#". Proof. intros c. all_chars c. Qed.
Lemma caseless_dash : caseless "-". Proof. intros c. all_chars c. Qed.
Lemma caseless_less : caseless "<". Proof. intros c. all_chars c. Qed.
Lemma caseless_more : caseless ">". Proof. intros c. all_chars c. Qed.
Lemma caseless_bang : caseless "!". Proof. intros c. all_chars c. Qed.
Lemma caseless_doubleQuote : caseless Text.doubleQuote. Proof. intros c. all_chars c. Qed.
Lemma caseless_singleQuote : caseless Text.singleQuote. Proof. intros c. all_chars c. Qed.
Lemma caseless_backslash : caseless Text.backslash. Proof. intros c. all_chars c. Qed.

Lemma isSpace_lower c : Text.isSpace (JS.lower_char c) = Text.isSpace c.
Proof. all_chars c. Qed.

Lemma isLineTerminator_lower c :
  Text.isLineTerminator (JS.lower_char c) = Text.isLineTerminator c.
Proof. all_chars c. Qed.

Lemma isTokenChar_lower c : Text.isTokenChar (JS.lower_char c) = Text.isTokenChar c.
Proof. all_chars c. Qed.

Lemma isDigit_lower c : Text.isDigit (JS.lower_char c) = Text.isDigit c.
Proof. all_chars c. Qed.

Lemma lower_lower c : JS.lower_char (JS.lower_char c) = JS.lower_char c.
Proof. all_chars c. Qed.

Lemma eqb_lower_caseless q c : caseless q -> Ascii.eqb (JS.lower_char c) q = Ascii.eqb c q.
Proof. intros H. now rewrite Ascii.eqb_sym, H, Ascii.eqb_sym. Qed.

Lemma startsWith_lowered (pattern s : Text.t) :
  Forall caseless pattern ->
  Text.startsWith pattern (lowered s) = Text.startsWith pattern s.
Proof.
  intros H. revert s. induction H as [|p pattern Hp _ IH]; intros s; [reflexivity|].
  destruct s as [|c s]; [reflexivity|]. cbn. now rewrite Hp, IH.
Qed.

Lemma removeToLineEnd_lowered (marker : Text.t) :
  Forall caseless marker ->
  forall s inComment,
    Text.removeToLineEnd marker inComment (lowered s)
    = lowered (Text.removeToLineEnd marker inComment s).
Proof.
  intros Hm. induction s as [|c s IH]; intros inComment; [reflexivity|].
  cbn [lowered map Text.removeToLineEnd].
  change (map JS.lower_char s) with (lowered s).
  change (JS.lower_char c :: lowered s) with (lowered (c :: s)).
  rewrite isLineTerminator_lower, startsWith_lowered by exact Hm.
  destruct inComment.
  - destruct (Text.isLineTerminator c); rewrite IH; reflexivity.
  - destruct (Text.startsWith marker (c :: s)); rewrite IH; reflexivity.
Qed.

Lemma indexOf_lowered (pattern : Text.t) :
  Forall caseless pattern ->
  forall s, Text.indexOf pattern (lowered s) = Text.indexOf pattern s.
Proof.
  intros Hp. induction s as [|c s IH]; [reflexivity|].
  cbn [lowered map Text.indexOf].
  change (map JS.lower_char s) with (lowered s).
  change (JS.lower_char c :: lowered s) with (lowered (c :: s)).
  now rewrite startsWith_lowered, IH by exact Hp.
Qed.

Lemma skipn_lowered (n : nat) (s : Text.t) : skipn n (lowered s) = lowered (skipn n s).
Proof. unfold lowered. now rewrite skipn_map. Qed.

Lemma blockLength_lowered (opening closing s : Text.t) :
  Forall caseless opening -> Forall caseless closing ->
  Text.blockLength opening closing (lowered s) = Text.blockLength opening closing s.
Proof.
  intros Ho Hc. unfold Text.blockLength.
  now rewrite startsWith_lowered, skipn_lowered, indexOf_lowered.
Qed.

Lemma removeBlocks_lowered (opening closing : Text.t) :
  Forall caseless opening -> Forall caseless closing ->
  forall s skip,
    Text.removeBlocks opening closing skip (lowered s)
    = lowered (Text.removeBlocks opening closing skip s).
Proof.
  intros Ho Hc. induction s as [|c s IH]; intros skip; [reflexivity|].
  cbn [lowered map Text.removeBlocks].
  change (map JS.lower_char s) with (lowered s).
  change (JS.lower_char c :: lowered s) with (lowered (c :: s)).
  rewrite blockLength_lowered by assumption.
  destruct skip as [|k]; [|apply IH].
  destruct (Text.blockLength opening closing (c :: s)) as [[|k]|]; rewrite IH; reflexivity.
Qed.

Lemma collapseSpaces_lowered (s : Text.t) : forall inRun,
  Text.collapseSpaces inRun (lowered s) = lowered (Text.collapseSpaces inRun s).
Proof.
  induction s as [|c s IH]; intros inRun; [reflexivity|].
  cbn [lowered map Text.collapseSpaces]. change (map JS.lower_char s) with (lowered s).
  rewrite isSpace_lower. destruct (Text.isSpace c); [destruct inRun|]; rewrite IH; reflexivity.
Qed.

Lemma trimStart_lowered (s : Text.t) : Text.trimStart (lowered s) = lowered (Text.trimStart s).
Proof.
  induction s as [|c s IH]; [reflexivity|].
  cbn [lowered map Text.trimStart]. change (map JS.lower_char s) with (lowered s).
  rewrite isSpace_lower. destruct (Text.isSpace c); [exact IH | reflexivity].
Qed.

Lemma trimEnd_lowered (s : Text.t) : Text.trimEnd (lowered s) = lowered (Text.trimEnd s).
Proof.
  induction s as [|c s IH]; [reflexivity|].
  cbn [lowered map Text.trimEnd]. change (map JS.lower_char s) with (lowered s).
  rewrite IH, isSpace_lower. destruct (Text.trimEnd s); cbn [lowered map].
  - destruct (Text.isSpace c); reflexivity.
  - reflexivity.
Qed.

Lemma trim_lowered (s : Text.t) : Text.trim (lowered s) = lowered (Text.trim s).
Proof. unfold Text.trim. now rewrite trimStart_lowered, trimEnd_lowered. Qed.

Lemma closingQuote_lowered (q : ascii) :
  caseless q ->
  forall n s, List.length s <= n -> Text.closingQuote q (lowered s) = Text.closingQuote q s.
Proof.
  intros Hq. induction n as [|n IH]; intros s Hn.
  - destruct s; [reflexivity | cbn in Hn; lia].
  - destruct s as [|c s]; [reflexivity|].
    cbn [lowered map Text.closingQuote]. change (map JS.lower_char s) with (lowered s).
    rewrite (eqb_lower_caseless c Hq), (eqb_lower_caseless c caseless_backslash).
    cbn in Hn. destruct (Ascii.eqb c q); [reflexivity|].
    destruct (Ascii.eqb c Text.backslash).
    + destruct s as [|d s]; [reflexivity|]. cbn [lowered map].
      change (map JS.lower_char s) with (lowered s).
      rewrite isLineTerminator_lower. destruct (Text.isLineTerminator d); [reflexivity|].
      rewrite IH by (cbn in Hn; lia). reflexivity.
    + rewrite IH by lia. reflexivity.
Qed.

Lemma lower_caseless (q : ascii) : caseless q -> JS.lower_char q = q.
Proof.
  intros H. specialize (H q). rewrite Ascii.eqb_refl in H. now apply Ascii.eqb_eq in H.
Qed.

Lemma replaceQuoted_lowered (q : ascii) :
  caseless q ->
  forall s skip,
    Text.replaceQuoted q skip (lowered s) = lowered (Text.replaceQuoted q skip s).
Proof.
  intros Hq. induction s as [|c s IH]; intros skip; [reflexivity|].
  cbn [lowered map Text.replaceQuoted]. change (map JS.lower_char s) with (lowered s).
  destruct skip as [|k]; [|apply IH].
  rewrite (eqb_lower_caseless c Hq), (@closingQuote_lowered q Hq (List.length s) s (le_n _)).
  destruct (Ascii.eqb c q).
  - destruct (Text.closingQuote q s); rewrite IH; cbn [lowered map];
      rewrite ?(lower_caseless Hq); reflexivity.
  - now rewrite IH.
Qed.

Lemma caseless_markers :
  Forall caseless (Text.ofString "//") /\ Forall caseless (Text.ofString "#")
  /\ Forall caseless (Text.ofString "--") /\ Forall caseless (Text.ofString "/*")
  /\ Forall caseless (Text.ofString "*/") /\ Forall caseless (Text.ofString "<!--")
  /\ Forall caseless (Text.ofString "-->").
Proof.
  pose proof caseless_slash. pose proof caseless_star. pose proof caseless_hash.
  pose proof caseless_dash. pose proof caseless_less. pose proof caseless_more.
  pose proof caseless_bang. cbn. repeat split; repeat (apply Forall_cons; [assumption|]);
    apply Forall_nil.
Qed.

Ltac caseless_marker := first
  [ exact (proj1 caseless_markers)
  | exact (proj1 (proj2 caseless_markers))
  | exact (proj1 (proj2 (proj2 caseless_markers)))
  | exact (proj1 (proj2 (proj2 (proj2 caseless_markers))))
  | exact (proj1 (proj2 (proj2 (proj2 (proj2 caseless_markers)))))
  | exact (proj1 (proj2 (proj2 (proj2 (proj2 (proj2 caseless_markers))))))
  | exact (proj2 (proj2 (proj2 (proj2 (proj2 (proj2 caseless_markers)))))) ].

Lemma normalizeText_lowered (content : Text.t) (language : JS.value) :
  Tokenizer.normalizeText (lowered content) language
  = lowered (Tokenizer.normalizeText content language).
Proof.
  unfold Tokenizer.normalizeText, Tokenizer.removeStringLiterals, Tokenizer.stripComments.
  destruct (JSValue.among Tokenizer.slashLanguages language);
    destruct (JSValue.among ["python"; "ruby"]%string language);
    destruct (JSValue.among ["sql"]%string language);
    destruct (JSValue.among (Tokenizer.slashLanguages ++ ["css"]%string) language);
    destruct (JSValue.among ["html"]%string language);
    repeat first
      [ rewrite removeToLineEnd_lowered by caseless_marker
      | rewrite removeBlocks_lowered by caseless_marker ];
    rewrite collapseSpaces_lowered, trim_lowered;
    repeat first
      [ rewrite (replaceQuoted_lowered caseless_doubleQuote)
      | rewrite (replaceQuoted_lowered caseless_singleQuote) ];
    reflexivity.
Qed.

Lemma ofString_lowered (s : string) :
  Text.ofString (JS.toLowerCase s) = lowered (Text.ofString s).
Proof.
  induction s as [|c s IH]; [reflexivity|].
  cbn [JS.toLowerCase Text.ofString list_ascii_of_string lowered map].
  f_equal. exact IH.
Qed.

Lemma toString_lowered (s : Text.t) :
  Text.toString (lowered s) = JS.toLowerCase (Text.toString s).
Proof.
  induction s as [|c s IH]; [reflexivity|].
  cbn [JS.toLowerCase Text.toString string_of_list_ascii lowered map].
  f_equal. exact IH.
Qed.

Lemma splitRuns_lowered (separator : ascii -> bool) :
  (forall c, separator (JS.lower_char c) = separator c) ->
  forall s current inSeparator,
    Text.splitRuns separator (lowered current) inSeparator (lowered s)
    = map lowered (Text.splitRuns separator current inSeparator s).
Proof.
  intros Hsep. induction s as [|c s IH]; intros current inSeparator; [reflexivity|].
  cbn [lowered map Text.splitRuns]. change (map JS.lower_char s) with (lowered s).
  change (map JS.lower_char current) with (lowered current).
  rewrite Hsep. destruct (separator c).
  - destruct inSeparator; [apply IH|]. cbn [map]. f_equal. apply (IH []).
  - rewrite <- IH. f_equal. unfold lowered. now rewrite map_app.
Qed.

Lemma allDigits_lowered (token : Text.t) : Text.allDigits (lowered token) = Text.allDigits token.
Proof.
  assert (H : forall l, forallb Text.isDigit (map JS.lower_char l) = forallb Text.isDigit l).
  { induction l as [|x l IH]; [reflexivity|].
    cbn [map forallb]. now rewrite isDigit_lower, IH. }
  destruct token as [|c token]; [reflexivity|].
  unfold Text.allDigits, lowered. cbn [map]. apply (H (c :: token)).
Qed.

Lemma toLowerCase_again (s : string) : JS.toLowerCase (JS.toLowerCase s) = JS.toLowerCase s.
Proof. induction s as [|c s IH]; cbn; [reflexivity | now rewrite lower_lower, IH]. Qed.

Lemma filter_map_same {A} (f : A -> A) (p : A -> bool) (l : list A) :
  (forall x, p (f x) = p x) -> filter p (map f l) = map f (filter p l).
Proof.
  intros H. induction l as [|x l IH]; cbn; [reflexivity|].
  rewrite H. destruct (p x); cbn; now rewrite IH.
Qed.

Lemma extractTokens_toLowerCase (content : string) (language : JS.value) :
  Tokenizer.extractTokens (JS.toLowerCase content) language
  = Tokenizer.extractTokens content language.
Proof.
  unfold Tokenizer.extractTokens. rewrite ofString_lowered.
  change (@nil ascii) with (lowered []) at 1.
  rewrite splitRuns_lowered by (intros c; now rewrite isTokenChar_lower).
  rewrite (filter_map_same lowered (fun token => 0 <? List.length token))
    by (intros token; unfold lowered; now rewrite length_map).
  rewrite (filter_map_same lowered
             (fun token => negb (List.length token <? 2) && negb (Text.allDigits token)))
    by (intros token; rewrite allDigits_lowered; unfold lowered; now rewrite length_map).
  rewrite map_map. apply map_ext. intros token.
  now rewrite toString_lowered, toLowerCase_again.
Qed.

(** X26: on contents of code units below 256, which are the strings of
    this development, the tokens of [Tokenizer.tokenize] do not depend on
    the case of the letters.  For every such content and every language,
    the content put in lower case has the tokens of the content itself;
    normalising commutes with putting in lower case.  (From 256 on there
    are code units that are no word characters and have a lower-case
    form that is one, and nothing is said of contents that hold them.) *)
Theorem tokenize_ignores_case (content : string) (language : JS.value) :
  Tokenizer.tokenize (JS.toLowerCase content) language = Tokenizer.tokenize content language
  /\ Tokenizer.normalize (JS.toLowerCase content) language
     = JS.toLowerCase (Tokenizer.normalize content language).
Proof.
  assert (N : Tokenizer.normalize (JS.toLowerCase content) language
              = JS.toLowerCase (Tokenizer.normalize content language)).
  { unfold Tokenizer.normalize.
    now rewrite ofString_lowered, normalizeText_lowered, toString_lowered. }
  split; [|exact N].
  unfold Tokenizer.tokenize. rewrite N. apply extractTokens_toLowerCase.
Qed.

End LetterCase.

Section LetterCaseOfTheOtherTokenizer.

Ltac all_chars c := destruct c as [[] [] [] [] [] [] [] []]; reflexivity.

Lemma isWordChar_lower c : Text.isWordChar (JS.lower_char c) = Text.isWordChar c.
Proof. all_chars c. Qed.

Lemma isOperator_lower c :
  CodeTokenizer.isOperator (JS.lower_char c) = CodeTokenizer.isOperator c.
Proof. all_chars c. Qed.

Lemma isQuote_lower c : CodeTokenizer.isQuote (JS.lower_char c) = CodeTokenizer.isQuote c.
Proof. all_chars c. Qed.

Lemma isQuote_fixed c : CodeTokenizer.isQuote c = true -> JS.lower_char c = c.
Proof. destruct c as [[] [] [] [] [] [] [] []]; (reflexivity || discriminate). Qed.

Lemma caseless_point : caseless ".". Proof. intros c. all_chars c. Qed.

(** A pattern that matches a text as it matches the text in lower case. *)
Definition ignoresCase (matchAt : option ascii -> Text.t -> option nat) : Prop :=
  forall prev s, matchAt (option_map JS.lower_char prev) (lowered s) = matchAt prev s.

Lemma replaceAll_lowered (matchAt : option ascii -> Text.t -> option nat)
      (replacement : Text.t) :
  ignoresCase matchAt ->
  forall s prev skip,
    lowered (Text.replaceAll matchAt replacement prev skip s)
    = Text.replaceAll matchAt (lowered replacement) (option_map JS.lower_char prev) skip
                      (lowered s).
Proof.
  intros Hm. induction s as [|c s IH]; intros prev skip; [reflexivity|].
  cbn [lowered map Text.replaceAll]. change (map JS.lower_char s) with (lowered s).
  change (JS.lower_char c :: lowered s) with (lowered (c :: s)).
  destruct skip as [|k]; [|apply (IH (Some c))].
  rewrite Hm. destruct (matchAt prev (c :: s)) as [[|k]|].
  - cbn [lowered map]. f_equal. apply (IH (Some c)).
  - unfold lowered at 1. rewrite map_app. f_equal. apply (IH (Some c)).
  - cbn [lowered map]. f_equal. apply (IH (Some c)).
Qed.

(** Texts alike but for the case of their letters stay so under a
    replacement whose pattern ignores case. *)
Lemma replace_alike (matchAt : option ascii -> Text.t -> option nat)
      (replacement : string) (a b : Text.t) :
  ignoresCase matchAt ->
  lowered a = lowered b ->
  lowered (CodeTokenizer.replace matchAt replacement a)
  = lowered (CodeTokenizer.replace matchAt replacement b).
Proof.
  intros Hm Hab. unfold CodeTokenizer.replace.
  rewrite !(replaceAll_lowered _ Hm). cbn [option_map]. now rewrite Hab.
Qed.

Lemma lineLength_lowered (s : Text.t) : Text.lineLength (lowered s) = Text.lineLength s.
Proof.
  induction s as [|c s IH]; [reflexivity|]. cbn [lowered map Text.lineLength].
  change (map JS.lower_char s) with (lowered s).
  now rewrite isLineTerminator_lower, IH.
Qed.

Lemma digits_lowered (s : Text.t) : Text.digits (lowered s) = Text.digits s.
Proof.
  induction s as [|c s IH]; [reflexivity|]. cbn [lowered map Text.digits].
  change (map JS.lower_char s) with (lowered s).
  now rewrite isDigit_lower, IH.
Qed.

Lemma wordAt_lowered (s : Text.t) : Text.wordAt (lowered s) = Text.wordAt s.
Proof. destruct s as [|c s]; [reflexivity|]. apply isWordChar_lower. Qed.

Lemma COMMENTS_ignoresCase : ignoresCase CodeTokenizer.COMMENTS.
Proof.
  intros prev s. unfold CodeTokenizer.COMMENTS.
  destruct caseless_markers as (H1 & H2 & _ & H4 & H5 & _).
  now rewrite !startsWith_lowered, !skipn_lowered, !lineLength_lowered, blockLength_lowered.
Qed.

Lemma STRINGS_ignoresCase : ignoresCase CodeTokenizer.STRINGS.
Proof.
  intros prev [|q s]; [reflexivity|]. cbn [lowered map CodeTokenizer.STRINGS].
  change (map JS.lower_char s) with (lowered s). rewrite isQuote_lower.
  destruct (CodeTokenizer.isQuote q) eqn:E; [|reflexivity].
  rewrite (isQuote_fixed q E). rewrite indexOf_lowered; [reflexivity|].
  constructor; [|constructor]. intros c. revert E.
  destruct q as [[] [] [] [] [] [] [] []]; try discriminate; intros _; all_chars c.
Qed.

Lemma NUMBERS_ignoresCase : ignoresCase CodeTokenizer.NUMBERS.
Proof.
  intros prev s. unfold CodeTokenizer.NUMBERS. cbv zeta.
  assert (Hp : Text.wordBefore (option_map JS.lower_char prev) = Text.wordBefore prev).
  { destruct prev as [c|]; [apply isWordChar_lower | reflexivity]. }
  rewrite Hp, digits_lowered.
  destruct (Text.wordBefore prev); [reflexivity|].
  destruct (Text.digits s) as [|n]; [reflexivity|].
  rewrite skipn_lowered.
  destruct (skipn (S n) s) as [|c fraction]; [reflexivity|].
  cbn [lowered map]. change (map JS.lower_char fraction) with (lowered fraction).
  rewrite (eqb_lower_caseless c caseless_point), digits_lowered, skipn_lowered,
    wordAt_lowered, isWordChar_lower.
  reflexivity.
Qed.

Lemma splitEach_lowered (separator : ascii -> bool) :
  (forall c, separator (JS.lower_char c) = separator c) ->
  forall s current,
    Text.splitEach separator (lowered current) (lowered s)
    = map lowered (Text.splitEach separator current s).
Proof.
  intros Hsep. induction s as [|c s IH]; intros current; [reflexivity|].
  cbn [lowered map Text.splitEach]. change (map JS.lower_char s) with (lowered s).
  change (map JS.lower_char current) with (lowered current).
  rewrite Hsep. destruct (separator c).
  - cbn [map]. f_equal. apply (IH []).
  - rewrite <- IH. f_equal. unfold lowered. now rewrite map_app.
Qed.

Lemma join_lowered (sep : Text.t) (pieces : list Text.t) :
  Text.join (lowered sep) (map lowered pieces) = lowered (Text.join sep pieces).
Proof.
  induction pieces as [|piece rest IH]; [reflexivity|].
  destruct rest as [|piece' rest]; [reflexivity|].
  cbn [map Text.join] in *. rewrite IH. unfold lowered. now rewrite !map_app.
Qed.

(** The tokens read off a text are those read off the text in lower case. *)
Lemma tokens_of_lowered (normalized : Text.t) :
  map (fun token => JS.toLowerCase (Text.toString token))
      (filter (fun token => 0 <? List.length (Text.trim token))
              (Text.splitRuns Text.isSpace [] false
                 (Text.join [Text.space]
                    (Text.splitEach CodeTokenizer.isOperator [] normalized))))
  = map Text.toString
      (filter (fun token => 0 <? List.length (Text.trim token))
              (Text.splitRuns Text.isSpace [] false
                 (Text.join [Text.space]
                    (Text.splitEach CodeTokenizer.isOperator [] (lowered normalized))))).
Proof.
  pose proof (@splitEach_lowered _ isOperator_lower normalized []) as H1.
  change (lowered []) with (@nil ascii) in H1. rewrite H1.
  pose proof (join_lowered [Text.space]
                (Text.splitEach CodeTokenizer.isOperator [] normalized)) as H2.
  change (lowered [Text.space]) with [Text.space] in H2. rewrite H2.
  pose proof (@splitRuns_lowered _ isSpace_lower
                (Text.join [Text.space]
                   (Text.splitEach CodeTokenizer.isOperator [] normalized)) [] false) as H3.
  change (lowered []) with (@nil ascii) in H3. rewrite H3.
  rewrite (filter_map_same lowered (fun token => 0 <? List.length (Text.trim token)))
    by (intros token; rewrite trim_lowered; unfold lowered; now rewrite length_map).
  rewrite map_map. apply map_ext. intros token. now rewrite toString_lowered.
Qed.

(** X27: on codes of code units below 256 the tokens of
    [CodeTokenizer.tokenize] do not depend on the case of the letters
    either: for every such code and every language, the code put in lower
    case has the tokens of the code itself. *)
Theorem CodeTokenizer_tokenize_ignores_case (code : string) (language : JS.value) :
  CodeTokenizer.tokenize (JS.toLowerCase code) language
  = CodeTokenizer.tokenize code language.
Proof.
  unfold CodeTokenizer.tokenize. rewrite !tokens_of_lowered. do 5 f_equal.
  apply replace_alike; [exact NUMBERS_ignoresCase|].
  apply replace_alike; [exact STRINGS_ignoresCase|].
  apply replace_alike; [exact COMMENTS_ignoresCase|].
  rewrite ofString_lowered. unfold lowered. rewrite map_map.
  apply map_ext. intros c. apply lower_lower.
Qed.

End LetterCaseOfTheOtherTokenizer.

(* ------------------------------------------------------------------ *)
(** ** Walking the directories *)

Section Tree.
Variable config : Config.t.
Variable generateHash : string -> string.
Variable random : nat -> nat -> Z.
Variable generateSnippetId : nat -> string.
Variable join : string -> string -> string.

Let ingestNode := CodeCollage.ingestNode config generateHash random generateSnippetId join.
Let ingestPaths := CodeCollage.ingestPaths config generateHash random generateSnippetId join.

(** The regular files a walk from a node reaches: the node itself when it
    is a file, and for a directory the files reached from its entries,
    those inside a sub-directory whose name starts with a dot left out. *)
Fixpoint reached (n : CodeCollage.node) : nat :=
  match n with
  | CodeCollage.File _ => 1
  | CodeCollage.Other => 0
  | CodeCollage.Directory entries =>
      (fix sum (entries : list (string * CodeCollage.node)) : nat :=
         match entries with
         | [] => 0
         | (name, child) :: rest =>
             match child with
             | CodeCollage.Directory _ =>
                 if CodeCollage.startsWithDot name then 0 else reached child
             | _ => reached child
             end + sum rest
         end) entries
  end.

(** The counters account for [k] files and for the snippets listed. *)
Definition accounts (r : CodeCollage.ingested) (k : nat) : Prop :=
  CodeCollage.processedFiles r + CodeCollage.skippedFiles r = k
  /\ CodeCollage.processedFiles r = List.length (CodeCollage.snippets r).

Lemma accounts_plus (acc r : CodeCollage.ingested) (k k' : nat) :
  accounts acc k -> accounts r k' -> accounts (CodeCollage.plus acc r) (k + k').
Proof.
  unfold accounts, CodeCollage.plus. cbn. rewrite length_app. lia.
Qed.

Lemma accounts_zero : accounts (CodeCollage.mkIngested 0 0 []) 0.
Proof. split; reflexivity. Qed.

Section NodeInduction.
Variable P : CodeCollage.node -> Prop.
Hypothesis HFile : forall content, P (CodeCollage.File content).
Hypothesis HOther : P CodeCollage.Other.
Hypothesis HDirectory :
  forall entries, Forall (fun e => P (snd e)) entries -> P (CodeCollage.Directory entries).

Fixpoint node_induction (n : CodeCollage.node) : P n :=
  match n with
  | CodeCollage.File content => HFile content
  | CodeCollage.Other => HOther
  | CodeCollage.Directory entries =>
      HDirectory
        ((fix all (l : list (string * CodeCollage.node)) : Forall (fun e => P (snd e)) l :=
            match l with
            | [] => Forall_nil _
            | e :: l' => Forall_cons e (node_induction (snd e)) (all l')
            end) entries)
  end.

End NodeInduction.

Lemma ingestNode_accounts (n : CodeCollage.node) :
  forall calls path, accounts (ingestNode calls path n) (reached n).
Proof.
  induction n as [content| |entries IH] using node_induction; intros calls path.
  - unfold ingestNode. cbn [CodeCollage.ingestNode reached].
    destruct (CodeCollage.ingestFile _ _ _ _ _ _ _); split; reflexivity.
  - split; reflexivity.
  - unfold ingestNode. cbn [CodeCollage.ingestNode reached].
    match goal with
    | |- accounts (?loop entries ?z) (?sum entries) =>
        enough (G : forall k acc, accounts acc k ->
                                  accounts (loop entries acc) (k + sum entries))
          by (apply (G 0 _ accounts_zero))
    end.
    induction IH as [|[name child] rest Hchild _ IHrest]; intros k acc Hacc.
    + now rewrite Nat.add_0_r.
    + rewrite Nat.add_assoc. apply IHrest.
      apply accounts_plus; [exact Hacc|].
      cbn [snd] in Hchild. fold ingestNode.
      destruct child as [content|sub|]; try apply Hchild.
      destruct (CodeCollage.startsWithDot name); [apply accounts_zero | apply Hchild].
Qed.

(** The files [stat] finds behind the paths. *)
Definition reachedFrom (paths : list (string * option CodeCollage.node)) : nat :=
  list_sum (map (fun e : string * option CodeCollage.node =>
                   match snd e with
                   | Some n => reached n
                   | None => 0
                   end) paths).

Lemma ingestPaths_files (files : list (string * option string)) :
  ingestPaths (map (fun f => (fst f, Some (CodeCollage.File (snd f)))) files)
  = JS.Ok (CodeCollage.ingest config generateHash random generateSnippetId files).
Proof.
  unfold ingestPaths, CodeCollage.ingestPaths, CodeCollage.ingest.
  generalize (CodeCollage.mkIngested 0 0 []) as acc.
  induction files as [|[path file] files IH]; intros acc; [reflexivity|].
  cbn [map JS.foldM fold_left fst snd]. rewrite IH. do 2 f_equal.
  unfold CodeCollage.ingestStep, CodeCollage.plus. cbn [CodeCollage.ingestNode fst snd].
  destruct (CodeCollage.ingestFile _ _ _ _ _ _ _); cbn; f_equal; try lia.
  now rewrite app_nil_r.
Qed.

(** X29: the counters of [ingest] account for every regular file it
    reaches.  Every directory being one [readdir] can list, the loop of
    [ingest] comes to its end unless [stat] throws for one of the paths;
    [processed] is the number of snippets returned, and [processed + skipped]
    the number of regular files reached, a directory given as a path being
    entered whatever its name, sub-directories being entered unless their
    name starts with a dot, and what is neither file nor directory being
    passed over.  On paths that are all files it is the loop over files. *)
Theorem ingest_accounts_for_files (paths : list (string * option CodeCollage.node)) :
  ((exists r, ingestPaths paths = JS.Ok r) <-> forall e, In e paths -> snd e <> None)
  /\ (forall r, ingestPaths paths = JS.Ok r ->
        CodeCollage.processedFiles r + CodeCollage.skippedFiles r = reachedFrom paths
        /\ CodeCollage.processedFiles r = List.length (CodeCollage.snippets r))
  /\ (forall files : list (string * option string),
        ingestPaths (map (fun f => (fst f, Some (CodeCollage.File (snd f)))) files)
        = JS.Ok (CodeCollage.ingest config generateHash random generateSnippetId files)).
Proof.
  split; [|split; [|apply ingestPaths_files]].
  - unfold ingestPaths, CodeCollage.ingestPaths.
    generalize (CodeCollage.mkIngested 0 0 []) as acc.
    induction paths as [|[path [n|]] paths IH]; intros acc; cbn [JS.foldM snd].
    + split; [intros _ e [] | eauto].
    + rewrite IH. split.
      * intros H e [<-|He]; [discriminate | auto].
      * intros H e He. apply H. now right.
    + split.
      * intros (r & Hr). discriminate.
      * intros H. exfalso. apply (H (path, None)); [now left | reflexivity].
  - intros r. unfold ingestPaths, CodeCollage.ingestPaths.
    enough (G : forall k acc,
               accounts acc k ->
               JS.foldM
                 (fun acc (entry : string * option CodeCollage.node) =>
                    match snd entry with
                    | None => JS.Throw "ENOENT"
                    | Some n =>
                        JS.Ok (CodeCollage.plus acc
                                 (CodeCollage.ingestNode config generateHash random
                                    generateSnippetId join
                                    (CodeCollage.processedFiles acc
                                     + CodeCollage.skippedFiles acc) (fst entry) n))
                    end) paths acc = JS.Ok r ->
               accounts r (k + reachedFrom paths))
      by (apply (G 0 _ accounts_zero)).
    unfold reachedFrom.
    induction paths as [|[path [n|]] paths IH]; intros k acc Hacc; cbn [JS.foldM snd fst].
    + intros H. inversion H; subst. cbn. rewrite Nat.add_0_r. exact Hacc.
    + intros H. cbn [map list_sum fold_right snd]. rewrite Nat.add_assoc.
      apply (IH _ _ (accounts_plus Hacc (ingestNode_accounts n _ path)) H).
    + discriminate.
Qed.

End Tree.

Lemma ingest_accounts_for_files_witness :
  CodeCollage.ingestPaths Config.DEFAULT_CONFIG (fun content => content)
    (fun _ => Sample.draws) Sample.snippetIds (fun dir name => (dir ++ "/" ++ name)%string)
    Sample.checkout
  = JS.Ok (CodeCollage.ingest Config.DEFAULT_CONFIG (fun content => content)
             (fun _ => Sample.draws) Sample.snippetIds
             [("src/a.js", Some "let x = 1"); ("src/notes.txt", Some "hello");
              ("src/lib/b.py", None)])
  /\ reachedFrom Sample.checkout = 3.
Proof.
  split; [vm_compute; reflexivity|].
  destruct (proj1 (proj2 (ingest_accounts_for_files Config.DEFAULT_CONFIG
                            (fun content => content) (fun _ => Sample.draws)
                            Sample.snippetIds
                            (fun dir name => (dir ++ "/" ++ name)%string)
                            Sample.checkout)) _ eq_refl) as [H _].
  rewrite <- H. vm_compute. reflexivity.
Defined.
